(** * Storage kernel of DB_demo: extendible hash table, LRU-K replacer,
      buffer pool manager and B+-tree index.

    The development is a shallow embedding of the C++ sources.  Every
    module below corresponds to one translation unit; functions keep the
    names they have in the source.  C++ exceptions, undefined behaviour
    (out-of-range array accesses, use of an uninitialised variable) and
    loops whose termination is not structural are made explicit through
    the [result] type. *)

From stdpp Require Import gmap list strings sorting.
From Stdlib Require Import ZArith Lia.

Open Scope Z_scope.

(** ** Results of a call *)

Inductive exception : Type :=
| invalid_argument (frame_id : Z)
| logic_error (what : string)
| range_error (what : string).

Inductive result (A : Type) : Type :=
| Ok (a : A)
| Throw (e : exception)
| Undefined
| OutOfFuel.

Arguments Ok {A} a.
Arguments Throw {A} e.
Arguments Undefined {A}.
Arguments OutOfFuel {A}.

Definition bind {A B : Type} (r : result A) (f : A -> result B) : result B :=
  match r with
  | Ok a => f a
  | Throw e => Throw e
  | Undefined => Undefined
  | OutOfFuel => OutOfFuel
  end.

#[global] Instance result_ret : MRet result := @Ok.
#[global] Instance result_bind : MBind result := fun A B f r => bind r f.

(** A pointer dereference or array access that may be out of range. *)
Definition deref {A : Type} (o : option A) : result A :=
  match o with
  | Some a => Ok a
  | None => Undefined
  end.

Definition INVALID_PAGE_ID : Z := -1.
Definition HEADER_PAGE_ID : Z := 0.
Definition INT_MAX : Z := 2147483647.

(** [static_cast<int>] of a [size_t] (two's complement truncation). *)
Definition static_cast_int (n : Z) : Z :=
  let m := n mod 2 ^ 32 in
  if m <? 2 ^ 31 then m else m - 2 ^ 32.

(** Arithmetic on [size_t]. *)
Definition size_t_wrap (n : Z) : Z := n mod 2 ^ 64.

(** ** extendible_hash_table.cpp *)

Module ExtendibleHash.
Section Table.
Context {K V : Type} `{EqDecision K}.
(** [std::hash<K>()(key)], a [size_t]. *)
Variable hash : K -> Z.

(** A bucket: capacity [size_], local depth [depth_] and the entries. *)
Record Bucket : Type := mkBucket {
  size_ : Z;
  depth_ : Z;
  list_ : list (K * V)
}.

(** The table.  [dir_] holds [shared_ptr<Bucket>]s; several slots may
    share one bucket, so buckets live in [heap_] and a slot holds the
    index of its bucket there.  [make_shared] appends to [heap_]. *)
Record ExtendibleHashTable : Type := mkTable {
  global_depth_ : Z;
  bucket_size_ : Z;
  num_buckets_ : Z;
  dir_ : list nat;
  heap_ : list Bucket
}.

Definition new_table (bucket_size : Z) : ExtendibleHashTable :=
  {| global_depth_ := 0; bucket_size_ := bucket_size; num_buckets_ := 1;
     dir_ := [0%nat]; heap_ := [mkBucket bucket_size 0 []] |}.

Definition IndexOf (t : ExtendibleHashTable) (key : K) : Z :=
  let mask := Z.shiftl 1 (global_depth_ t) - 1 in
  Z.land (hash key) mask.

Definition GetGlobalDepth (t : ExtendibleHashTable) : Z := global_depth_ t.
Definition GetNumBuckets (t : ExtendibleHashTable) : Z := num_buckets_ t.

(** [dir_[i]] followed through the pointer: the bucket's address and
    the bucket. *)
Definition bucket_at (t : ExtendibleHashTable) (i : Z) : result (nat * Bucket) :=
  if i <? 0 then Undefined else
  r ← deref (dir_ t !! Z.to_nat i);
  b ← deref (heap_ t !! r);
  Ok (r, b).

Definition GetLocalDepth (t : ExtendibleHashTable) (dir_index : Z) : result Z :=
  '(_, b) ← bucket_at t dir_index; Ok (depth_ b).

(** Modelled from the spec: [Bucket::IsFull], declared inline in the
    header extendible_hash_table.h, which is not among the sources.  A
    bucket holds up to [bucket_size] entries; it is full when it holds
    that many. *)
Definition IsFull (b : Bucket) : bool :=
  Z.of_nat (length (list_ b)) =? size_ b.

Fixpoint Bucket_Find (key : K) (l : list (K * V)) : option V :=
  match l with
  | [] => None
  | (k, v) :: l' => if decide (key = k) then Some v else Bucket_Find key l'
  end.

Fixpoint Bucket_Remove (key : K) (l : list (K * V)) : option (list (K * V)) :=
  match l with
  | [] => None
  | (k, v) :: l' =>
      if decide (key = k) then Some l'
      else match Bucket_Remove key l' with
           | Some l'' => Some ((k, v) :: l'')
           | None => None
           end
  end.

(** First loop of [Bucket::Insert]: assign to the first entry whose key
    matches. *)
Fixpoint Bucket_assign (key : K) (value : V) (l : list (K * V)) : option (list (K * V)) :=
  match l with
  | [] => None
  | (k, v) :: l' =>
      if decide (key = k) then Some ((k, value) :: l')
      else match Bucket_assign key value l' with
           | Some l'' => Some ((k, v) :: l'')
           | None => None
           end
  end.

Definition Bucket_Insert (key : K) (value : V) (b : Bucket) : bool * Bucket :=
  match Bucket_assign key value (list_ b) with
  | Some l' => (true, mkBucket (size_ b) (depth_ b) l')
  | None =>
      if negb (IsFull b)
      then (true, mkBucket (size_ b) (depth_ b) (list_ b ++ [(key, value)]))
      else (false, b)
  end.

Definition set_bucket (t : ExtendibleHashTable) (r : nat) (b : Bucket) : ExtendibleHashTable :=
  {| global_depth_ := global_depth_ t; bucket_size_ := bucket_size_ t;
     num_buckets_ := num_buckets_ t; dir_ := dir_ t;
     heap_ := <[r := b]> (heap_ t) |}.

Definition Find (t : ExtendibleHashTable) (key : K) : result (option V) :=
  '(_, b) ← bucket_at t (IndexOf t key);
  Ok (Bucket_Find key (list_ b)).

Definition Remove (t : ExtendibleHashTable) (key : K) : result (bool * ExtendibleHashTable) :=
  '(r, b) ← bucket_at t (IndexOf t key);
  match Bucket_Remove key (list_ b) with
  | Some l' => Ok (true, set_bucket t r (mkBucket (size_ b) (depth_ b) l'))
  | None => Ok (false, t)
  end.

(** The redistribution loop of [Insert] (lines 112-119). *)
Definition redistribute (local_mask : Z) (items : list (K * V)) (b0 b1 : Bucket) : Bucket * Bucket :=
  fold_left
    (fun '(b0, b1) '(k, v) =>
       if Z.land (hash k) local_mask =? 0
       then (snd (Bucket_Insert k v b0), b1)
       else (b0, snd (Bucket_Insert k v b1)))
    items (b0, b1).

(** The rewiring loop of [Insert] (lines 121-129). *)
Definition rewire (local_mask : Z) (target r0 r1 : nat) (dir : list nat) : list nat :=
  imap (fun i r =>
          if decide (r = target)
          then if Z.land (Z.of_nat i) local_mask =? 0 then r0 else r1
          else r) dir.

(** One iteration of the [while] loop of [Insert]: split the full bucket
    [target_bucket_2] that [dir_[index]] points to. *)
Definition split (t : ExtendibleHashTable) (target_bucket_2 : nat) (b : Bucket) : ExtendibleHashTable :=
  let local_depth := depth_ b in
  let doubled := GetGlobalDepth t =? local_depth in
  let global_depth := if doubled then global_depth_ t + 1 else global_depth_ t in
  let dir := if doubled then dir_ t ++ dir_ t else dir_ t in
  let local_mask := Z.shiftl 1 local_depth in
  let '(bucket_0, bucket_1) :=
    redistribute local_mask (list_ b)
      (mkBucket (bucket_size_ t) (local_depth + 1) [])
      (mkBucket (bucket_size_ t) (local_depth + 1) []) in
  let r0 := length (heap_ t) in
  let r1 := S r0 in
  {| global_depth_ := global_depth;
     bucket_size_ := bucket_size_ t;
     num_buckets_ := num_buckets_ t + 1;
     dir_ := rewire local_mask target_bucket_2 r0 r1 dir;
     heap_ := heap_ t ++ [bucket_0; bucket_1] |}.

Fixpoint Insert_while (fuel : nat) (t : ExtendibleHashTable) (key : K) : result ExtendibleHashTable :=
  match fuel with
  | O => OutOfFuel
  | S fuel' =>
      '(r, b) ← bucket_at t (IndexOf t key);
      if IsFull b then Insert_while fuel' (split t r b) key else Ok t
  end.

Definition Insert (fuel : nat) (t : ExtendibleHashTable) (key : K) (value : V) : result ExtendibleHashTable :=
  '(r, target_bucket) ← bucket_at t (IndexOf t key);
  match Bucket_Find key (list_ target_bucket) with
  | Some _ => Ok (set_bucket t r (snd (Bucket_Insert key value target_bucket)))
  | None =>
      t' ← Insert_while fuel t key;
      '(r', b') ← bucket_at t' (IndexOf t' key);
      Ok (set_bucket t' r' (snd (Bucket_Insert key value b')))
  end.

End Table.

(** [std::hash<int>] is the conversion to [size_t]. *)
Definition hash_int (k : Z) : Z := size_t_wrap k.

Definition insert_all {V : Type} (fuel : nat) (kvs : list (Z * V))
    (t : ExtendibleHashTable (K := Z) (V := V)) : result ExtendibleHashTable :=
  fold_left (fun acc '(k, v) => t ← acc; Insert hash_int fuel t k v) kvs (Ok t).

(** The table of [ExtendibleHashTableTest.SampleTest] after its nine
    insertions. *)
Definition sample_table : result (ExtendibleHashTable (K := Z) (V := string)) :=
  insert_all 8
    [(1, "a"); (2, "b"); (3, "c"); (4, "d"); (5, "e");
     (6, "f"); (7, "g"); (8, "h"); (9, "i")]%string
    (new_table 2).

(** The same table, evaluated. *)
Definition sample_final : ExtendibleHashTable (K := Z) (V := string) :=
  Eval vm_compute in
    match sample_table with
    | Ok t => t
    | _ => new_table 2
    end.

End ExtendibleHash.

(** ** lru_k_replacer.cpp *)

Module LRUK.

(** One value of [entries_].  The field [pos_], an iterator into
    whichever list currently holds the frame, is represented by the
    frame's occurrence in that list (see [erase]). *)
Record LRUKEntry : Type := mkEntry {
  in_count_ : Z;
  evictable_ : bool
}.

(** Modelled from the spec: the value-initialised entry that
    [entries_[frame_id]] creates for an untracked frame; its type is
    declared in lru_k_replacer.h, which is not among the sources.  The
    access count starts at 0, and the flag starts set: [curr_size_] counts
    the entries whose evictable flag is true and [RecordAccess] increments
    it on a frame's first access. *)
Definition default_entry : LRUKEntry := mkEntry 0 true.

Record LRUKReplacer : Type := mkReplacer {
  replacer_size_ : Z;
  k_ : Z;
  curr_size_ : Z;
  history_list_ : list Z;
  cache_list_ : list Z;
  entries_ : gmap Z LRUKEntry
}.

Definition new_replacer (num_frames k : Z) : LRUKReplacer :=
  mkReplacer num_frames k 0 [] [] ∅.

(** [entries_[frame_id]], read only. *)
Definition entry (entries : gmap Z LRUKEntry) (frame_id : Z) : LRUKEntry :=
  default default_entry (entries !! frame_id).

(** The reverse iteration of [Evict] over one list: the element nearest
    to the back whose entry is evictable is erased from the list. *)
Fixpoint rscan (ev : Z -> bool) (l : list Z) : option (Z * list Z) :=
  match l with
  | [] => None
  | x :: l' =>
      match rscan ev l' with
      | Some (f, l'') => Some (f, x :: l'')
      | None => if ev x then Some (x, l') else None
      end
  end.

(** An untracked frame met by the iteration is given a default entry by
    [entries_[*it]]; that entry is evictable, so the frame is chosen and
    its entry erased again: no entry is left behind. *)
Definition Evict (r : LRUKReplacer) : option Z * LRUKReplacer :=
  let ev := fun f => evictable_ (entry (entries_ r) f) in
  match rscan ev (history_list_ r) with
  | Some (frame_id, history) =>
      (Some frame_id,
       mkReplacer (replacer_size_ r) (k_ r) (size_t_wrap (curr_size_ r - 1))
         history (cache_list_ r) (delete frame_id (entries_ r)))
  | None =>
      match rscan ev (cache_list_ r) with
      | Some (frame_id, cache) =>
          (Some frame_id,
           mkReplacer (replacer_size_ r) (k_ r) (size_t_wrap (curr_size_ r - 1))
             (history_list_ r) cache (delete frame_id (entries_ r)))
      | None => (None, r)
      end
  end.

Fixpoint erase_first (frame_id : Z) (l : list Z) : list Z :=
  match l with
  | [] => []
  | x :: l' => if decide (x = frame_id) then l' else x :: erase_first frame_id l'
  end.

(** [list.erase(entries_[frame_id].pos_)]: [pos_] was stored when the frame
    was last put at the front of a list.  Erasing through it removes the
    frame from the list that holds it; the call is undefined when the
    frame is not in the list it is applied to. *)
Definition erase (frame_id : Z) (l : list Z) : result (list Z) :=
  if decide (frame_id ∈ l) then Ok (erase_first frame_id l) else Undefined.

Definition RecordAccess (r : LRUKReplacer) (frame_id : Z) : result LRUKReplacer :=
  if frame_id >? static_cast_int (replacer_size_ r)
  then Throw (invalid_argument frame_id)
  else
    let e := entry (entries_ r) frame_id in
    let new_size := size_t_wrap (in_count_ e + 1) in
    let entries := <[frame_id := mkEntry new_size (evictable_ e)]> (entries_ r) in
    if new_size =? 1 then
      Ok (mkReplacer (replacer_size_ r) (k_ r) (size_t_wrap (curr_size_ r + 1))
            (frame_id :: history_list_ r) (cache_list_ r) entries)
    else if new_size =? k_ r then
      history ← erase frame_id (history_list_ r);
      Ok (mkReplacer (replacer_size_ r) (k_ r) (curr_size_ r)
            history (frame_id :: cache_list_ r) entries)
    else if new_size >? k_ r then
      cache ← erase frame_id (cache_list_ r);
      Ok (mkReplacer (replacer_size_ r) (k_ r) (curr_size_ r)
            (history_list_ r) (frame_id :: cache) entries)
    else
      Ok (mkReplacer (replacer_size_ r) (k_ r) (curr_size_ r)
            (history_list_ r) (cache_list_ r) entries).

Definition SetEvictable (r : LRUKReplacer) (frame_id : Z) (set_evictable : bool)
    : result LRUKReplacer :=
  if frame_id >? static_cast_int (replacer_size_ r)
  then Throw (invalid_argument frame_id)
  else
    match entries_ r !! frame_id with
    | None => Ok r
    | Some e =>
        let c1 := if evictable_ e && negb set_evictable
                  then size_t_wrap (curr_size_ r - 1) else curr_size_ r in
        let c2 := if negb (evictable_ e) && set_evictable
                  then size_t_wrap (c1 + 1) else c1 in
        Ok (mkReplacer (replacer_size_ r) (k_ r) c2
              (history_list_ r) (cache_list_ r)
              (<[frame_id := mkEntry (in_count_ e) set_evictable]> (entries_ r)))
    end.

Definition Remove (r : LRUKReplacer) (frame_id : Z) : result LRUKReplacer :=
  if frame_id >? static_cast_int (replacer_size_ r)
  then Throw (invalid_argument frame_id)
  else
    match entries_ r !! frame_id with
    | None => Ok r
    | Some e =>
        if in_count_ e <? k_ r then
          history ← erase frame_id (history_list_ r);
          Ok (mkReplacer (replacer_size_ r) (k_ r) (size_t_wrap (curr_size_ r - 1))
                history (cache_list_ r) (delete frame_id (entries_ r)))
        else
          cache ← erase frame_id (cache_list_ r);
          Ok (mkReplacer (replacer_size_ r) (k_ r) (size_t_wrap (curr_size_ r - 1))
                (history_list_ r) cache (delete frame_id (entries_ r)))
    end.

Definition Size (r : LRUKReplacer) : Z := curr_size_ r.

(** A frame is tracked when it has an entry; a tracked frame is evictable
    when its flag is set. *)
Definition tracked_evictable (r : LRUKReplacer) (f : Z) : Prop :=
  exists e, entries_ r !! f = Some e /\ evictable_ e = true.

(** Every tracked frame is on one of the two lists and the lists hold
    tracked frames only. *)
Definition lists_track_entries (r : LRUKReplacer) : Prop :=
  forall f, (f ∈ history_list_ r \/ f ∈ cache_list_ r) <-> is_Some (entries_ r !! f).

(** [f] is evictable and nothing behind it in [l] is: with the newest
    element at the front, [f] is the oldest evictable element of [l]. *)
Definition backmost_evictable (r : LRUKReplacer) (l : list Z) (f : Z) (l' : list Z) : Prop :=
  exists l1 l2,
    l = l1 ++ f :: l2 /\ l' = l1 ++ l2 /\
    tracked_evictable r f /\
    forall g, g ∈ l2 -> ~ tracked_evictable r g.

(** The states a replacer goes through.  An access count is taken not to
    reach 2^64. *)
Inductive reachable : LRUKReplacer -> Prop :=
| reachable_new (num_frames k : Z) : reachable (new_replacer num_frames k)
| reachable_RecordAccess (r r' : LRUKReplacer) (f : Z) :
    reachable r ->
    in_count_ (entry (entries_ r) f) + 1 < 2 ^ 64 ->
    RecordAccess r f = Ok r' ->
    reachable r'
| reachable_SetEvictable (r r' : LRUKReplacer) (f : Z) (b : bool) :
    reachable r -> SetEvictable r f b = Ok r' -> reachable r'
| reachable_Remove (r r' : LRUKReplacer) (f : Z) :
    reachable r -> Remove r f = Ok r' -> reachable r'
| reachable_Evict (r r' : LRUKReplacer) (victim : option Z) :
    reachable r -> Evict r = (victim, r') -> reachable r'.

(** What the operations keep: the lists hold the tracked frames, each
    once, and a tracked frame has been accessed at least once. *)
Record replacer_invariant (r : LRUKReplacer) : Prop := {
  ri_lists : lists_track_entries r;
  ri_nodup : NoDup (history_list_ r ++ cache_list_ r);
  ri_count : forall f e, entries_ r !! f = Some e -> 1 <= in_count_ e < 2 ^ 64
}.

(** Frames 1 and 2 accessed once, frame 3 accessed twice ([k_ = 2]);
    frame 1, the oldest, is pinned. *)
Definition evict_example : LRUKReplacer :=
  mkReplacer 7 2 2 [2; 1] [3]
    (<[1 := mkEntry 1 false]> (<[2 := mkEntry 1 true]> (<[3 := mkEntry 2 true]> ∅))).

Definition bound_example : LRUKReplacer := new_replacer 7 2.

End LRUK.

(** ** buffer_pool_manager_instance.cpp *)

Module BufferPool.
Import LRUK.

Definition BUSTUB_PAGE_SIZE : nat := 4096.

Definition zeroed : list Byte.byte := repeat Byte.x00 BUSTUB_PAGE_SIZE.

(** Modelled from the spec: the frame type [Page] of page.h, which is not
    among the sources: a byte slab with the resident page id, the pin
    count and the dirty flag.  The latch is not represented. *)
Record Page : Type := mkPage {
  data_ : list Byte.byte;
  page_id_ : Z;
  pin_count_ : Z;
  is_dirty_ : bool
}.

Definition ResetMemory (p : Page) : Page :=
  mkPage zeroed (page_id_ p) (pin_count_ p) (is_dirty_ p).

(** The buffer pool.  [pages_] is the frame array, whose length is
    [pool_size_].  [page_table_] is the extendible hash table from page ids
    to frame ids; the buffer pool uses it through Insert, Find and Remove
    only and it is represented by the finite map it implements.  [disk_]
    stands for the disk manager: the bytes last written for each page id. *)
Record BufferPoolManagerInstance : Type := mkBPM {
  pages_ : list Page;
  page_table_ : gmap Z Z;
  replacer_ : LRUKReplacer;
  free_list_ : list Z;
  next_page_id_ : Z;
  disk_ : gmap Z (list Byte.byte)
}.

Definition pool_size_ (b : BufferPoolManagerInstance) : Z :=
  Z.of_nat (length (pages_ b)).

(** The constructor: every frame starts in the free list. *)
Definition new_pool (pool_size : nat) (replacer_k : Z) (disk : gmap Z (list Byte.byte))
    : BufferPoolManagerInstance :=
  mkBPM (repeat (mkPage zeroed INVALID_PAGE_ID 0 false) pool_size)
        ∅
        (new_replacer (Z.of_nat pool_size) replacer_k)
        (Z.of_nat <$> seq 0 pool_size)
        0
        disk.

(** Modelled from the spec: the disk manager's [ReadPage(id) -> bytes] and
    [WritePage(id, bytes)]; a page never written reads as zeroes. *)
Definition ReadPage (disk : gmap Z (list Byte.byte)) (page_id : Z) : list Byte.byte :=
  default zeroed (disk !! page_id).

Definition WritePage (disk : gmap Z (list Byte.byte)) (page_id : Z) (data : list Byte.byte)
    : gmap Z (list Byte.byte) :=
  <[page_id := data]> disk.

(** [pages_[frame_id]]. *)
Definition frame (b : BufferPoolManagerInstance) (frame_id : Z) : result Page :=
  if frame_id <? 0 then Undefined else deref (pages_ b !! Z.to_nat frame_id).

Definition set_frame (b : BufferPoolManagerInstance) (frame_id : Z) (p : Page)
    : BufferPoolManagerInstance :=
  mkBPM (<[Z.to_nat frame_id := p]> (pages_ b)) (page_table_ b) (replacer_ b)
        (free_list_ b) (next_page_id_ b) (disk_ b).

Definition set_replacer (b : BufferPoolManagerInstance) (r : LRUKReplacer)
    : BufferPoolManagerInstance :=
  mkBPM (pages_ b) (page_table_ b) r (free_list_ b) (next_page_id_ b) (disk_ b).

(** The loop that looks for a frame with pin count 0. *)
Definition is_page_available (b : BufferPoolManagerInstance) : bool :=
  existsb (fun p => pin_count_ p =? 0) (pages_ b).

(** The block shared by [NewPgImp] (lines 61-73) and [FetchPgImp] (lines
    104-116): take a frame from the free list or evict one.  The result of
    [Evict] is not tested; when it returns false [frame_id] is used
    uninitialised. *)
Definition take_frame (b : BufferPoolManagerInstance) : result (Z * BufferPoolManagerInstance) :=
  match free_list_ b with
  | frame_id :: free_list =>
      Ok (frame_id,
          mkBPM (pages_ b) (page_table_ b) (replacer_ b) free_list
                (next_page_id_ b) (disk_ b))
  | [] =>
      let '(victim, replacer) := Evict (replacer_ b) in
      frame_id ← deref victim;
      p ← frame b frame_id;
      let evicted_page_id := page_id_ p in
      let disk := if is_dirty_ p then WritePage (disk_ b) evicted_page_id (data_ p)
                  else disk_ b in
      let p1 := if is_dirty_ p
                then mkPage (data_ p) (page_id_ p) (pin_count_ p) false else p in
      let p2 := ResetMemory p1 in
      Ok (frame_id,
          mkBPM (<[Z.to_nat frame_id := p2]> (pages_ b))
                (delete evicted_page_id (page_table_ b))
                replacer (free_list_ b) (next_page_id_ b) disk)
  end.

(** The common tail of [NewPgImp] and [FetchPgImp]: install the mapping,
    pin the frame, record the access and mark the frame non-evictable.
    [read] tells whether the page's bytes are read from disk. *)
Definition install (b : BufferPoolManagerInstance) (page_id frame_id : Z) (read : bool)
    : result BufferPoolManagerInstance :=
  p ← frame b frame_id;
  let data := if read then ReadPage (disk_ b) page_id else data_ p in
  let pages := <[Z.to_nat frame_id := mkPage data page_id 1 (is_dirty_ p)]> (pages_ b) in
  r1 ← RecordAccess (replacer_ b) frame_id;
  r2 ← SetEvictable r1 frame_id false;
  Ok (mkBPM pages (<[page_id := frame_id]> (page_table_ b)) r2
            (free_list_ b) (next_page_id_ b) (disk_ b)).

(** [NewPgImp]: the new page id, the frame holding it and the new state. *)
Definition NewPgImp (b : BufferPoolManagerInstance)
    : result (Z * Z * BufferPoolManagerInstance) :=
  if negb (is_page_available b) then Throw (logic_error "no available page!")
  else
    let page_id := next_page_id_ b in
    let b1 := mkBPM (pages_ b) (page_table_ b) (replacer_ b) (free_list_ b)
                    (next_page_id_ b + 1) (disk_ b) in
    '(frame_id, b2) ← take_frame b1;
    b3 ← install b2 page_id frame_id false;
    Ok (page_id, frame_id, b3).

Definition FetchPgImp (b : BufferPoolManagerInstance) (page_id : Z)
    : result (Z * BufferPoolManagerInstance) :=
  match page_table_ b !! page_id with
  | Some frame_id =>
      p ← frame b frame_id;
      let b1 := set_frame b frame_id
                  (mkPage (data_ p) (page_id_ p) (pin_count_ p + 1) (is_dirty_ p)) in
      r1 ← RecordAccess (replacer_ b1) frame_id;
      r2 ← SetEvictable r1 frame_id false;
      Ok (frame_id, set_replacer b1 r2)
  | None =>
      if negb (is_page_available b) then Throw (logic_error "Fetch no avlivable page!!")
      else
        '(frame_id, b1) ← take_frame b;
        b2 ← install b1 page_id frame_id true;
        Ok (frame_id, b2)
  end.

Definition UnpinPgImp (b : BufferPoolManagerInstance) (page_id : Z) (is_dirty : bool)
    : result (bool * BufferPoolManagerInstance) :=
  match page_table_ b !! page_id with
  | None => Ok (false, b)
  | Some frame_id =>
      p ← frame b frame_id;
      if pin_count_ p =? 0 then Ok (false, b)
      else
        let dirty := if is_dirty then is_dirty else is_dirty_ p in
        let pin_count := pin_count_ p - 1 in
        let b1 := set_frame b frame_id (mkPage (data_ p) (page_id_ p) pin_count dirty) in
        if pin_count =? 0 then
          r ← SetEvictable (replacer_ b1) frame_id true;
          Ok (true, set_replacer b1 r)
        else Ok (true, b1)
  end.

Definition FlushPgImp (b : BufferPoolManagerInstance) (page_id : Z)
    : result (bool * BufferPoolManagerInstance) :=
  if decide (page_id = INVALID_PAGE_ID) then Ok (false, b)
  else
    match page_table_ b !! page_id with
    | None => Ok (false, b)
    | Some frame_id =>
        p ← frame b frame_id;
        Ok (true,
            mkBPM (pages_ b) (page_table_ b) (replacer_ b) (free_list_ b)
                  (next_page_id_ b) (WritePage (disk_ b) page_id (data_ p)))
    end.

Definition DeletePgImp (b : BufferPoolManagerInstance) (page_id : Z)
    : result (bool * BufferPoolManagerInstance) :=
  match page_table_ b !! page_id with
  | None => Ok (true, b)
  | Some frame_id =>
      p ← frame b frame_id;
      if pin_count_ p >? 0 then Ok (false, b)
      else
        r ← LRUK.Remove (replacer_ b) frame_id;
        Ok (true,
            mkBPM (<[Z.to_nat frame_id := mkPage zeroed INVALID_PAGE_ID 0 false]> (pages_ b))
                  (delete page_id (page_table_ b))
                  r
                  (free_list_ b ++ [frame_id])
                  (next_page_id_ b) (disk_ b))
  end.

(** [n] calls of [NewPgImp] in a row, none of the pages unpinned. *)
Fixpoint new_pages (n : nat) (b : BufferPoolManagerInstance)
    : result (list Z * BufferPoolManagerInstance) :=
  match n with
  | O => Ok ([], b)
  | S n' =>
      '(page_id, _, b1) ← NewPgImp b;
      '(ids, b2) ← new_pages n' b1;
      Ok (page_id :: ids, b2)
  end.

(** The frame invariant kept by the operations above. *)
Record pool_invariant (b : BufferPoolManagerInstance) : Prop := {
  inv_replacer_size : replacer_size_ (replacer_ b) = pool_size_ b;
  inv_pool_size : pool_size_ b <= INT_MAX;
  inv_free_list : forall f, f ∈ free_list_ b ->
    0 <= f < pool_size_ b /\ entries_ (replacer_ b) !! f = None;
  inv_lists : lists_track_entries (replacer_ b);
  inv_tracked : forall f, is_Some (entries_ (replacer_ b) !! f) -> 0 <= f < pool_size_ b;
  inv_pin_count : forall i p, pages_ b !! i = Some p -> 0 <= pin_count_ p;
  inv_unpinned : forall i p, pages_ b !! i = Some p -> pin_count_ p = 0 ->
    Z.of_nat i ∈ free_list_ b \/ tracked_evictable (replacer_ b) (Z.of_nat i)
}.

(** The states a buffer pool goes through, from its construction on.  A
    caller may write to the bytes of a frame; an access count is taken not
    to reach 2^64. *)
Inductive pool_reachable : BufferPoolManagerInstance -> Prop :=
| reachable_new_pool (pool_size : nat) (replacer_k : Z) (disk : gmap Z (list Byte.byte)) :
    Z.of_nat pool_size <= INT_MAX ->
    pool_reachable (new_pool pool_size replacer_k disk)
| reachable_NewPgImp (b b' : BufferPoolManagerInstance) (page_id frame_id : Z) :
    pool_reachable b -> NewPgImp b = Ok (page_id, frame_id, b') -> pool_reachable b'
| reachable_FetchPgImp (b b' : BufferPoolManagerInstance) (page_id frame_id : Z) :
    pool_reachable b ->
    (forall f, page_table_ b !! page_id = Some f ->
       in_count_ (entry (entries_ (replacer_ b)) f) + 1 < 2 ^ 64) ->
    FetchPgImp b page_id = Ok (frame_id, b') ->
    pool_reachable b'
| reachable_UnpinPgImp (b b' : BufferPoolManagerInstance) (page_id : Z) (is_dirty r : bool) :
    pool_reachable b -> UnpinPgImp b page_id is_dirty = Ok (r, b') -> pool_reachable b'
| reachable_FlushPgImp (b b' : BufferPoolManagerInstance) (page_id : Z) (r : bool) :
    pool_reachable b -> FlushPgImp b page_id = Ok (r, b') -> pool_reachable b'
| reachable_DeletePgImp (b b' : BufferPoolManagerInstance) (page_id : Z) (r : bool) :
    pool_reachable b -> DeletePgImp b page_id = Ok (r, b') -> pool_reachable b'
| reachable_write (b : BufferPoolManagerInstance) (frame_id : Z) (p : Page)
    (data : list Byte.byte) :
    pool_reachable b -> frame b frame_id = Ok p ->
    pool_reachable
      (set_frame b frame_id (mkPage data (page_id_ p) (pin_count_ p) (is_dirty_ p))).

(** What the operations keep, stated for the states between the two
    halves of NewPgImp and FetchPgImp as well: there the frame [hole] has
    left the free list or the replacer and is not pinned yet. *)
Record pool_consistent (hole : option Z) (b : BufferPoolManagerInstance) : Prop := {
  pc_size : replacer_size_ (replacer_ b) = pool_size_ b;
  pc_max : pool_size_ b <= INT_MAX;
  pc_free : forall f, f ∈ free_list_ b ->
    0 <= f < pool_size_ b /\ entries_ (replacer_ b) !! f = None;
  pc_free_nodup : NoDup (free_list_ b);
  pc_replacer : replacer_invariant (replacer_ b);
  pc_tracked : forall f, is_Some (entries_ (replacer_ b) !! f) -> 0 <= f < pool_size_ b;
  pc_pin : forall i p, pages_ b !! i = Some p -> 0 <= pin_count_ p;
  pc_unpinned : forall i p, pages_ b !! i = Some p -> pin_count_ p = 0 ->
    hole = Some (Z.of_nat i) \/ Z.of_nat i ∈ free_list_ b \/
    tracked_evictable (replacer_ b) (Z.of_nat i);
  pc_table : forall page_id f, page_table_ b !! page_id = Some f ->
    0 <= f < pool_size_ b /\ (f ∉ free_list_ b) /\
    is_Some (entries_ (replacer_ b) !! f) /\
    exists p, pages_ b !! Z.to_nat f = Some p /\ page_id_ p = page_id;
  pc_hole : forall f, hole = Some f ->
    0 <= f < pool_size_ b /\ entries_ (replacer_ b) !! f = None /\ (f ∉ free_list_ b)
}.

(** A pool of one frame after its first NewPgImp. *)
Definition one_page_pool : BufferPoolManagerInstance :=
  Eval vm_compute in
    match NewPgImp (new_pool 1 2 ∅) with
    | Ok (_, _, b) => b
    | _ => new_pool 1 2 ∅
    end.

(** The same pool after the page's first byte has been written and the
    page unpinned as dirty: the next page request must evict it. *)
Definition dirty_pool : BufferPoolManagerInstance :=
  Eval vm_compute in
    match UnpinPgImp (set_frame one_page_pool 0 (mkPage [Byte.x2a] 0 1 false)) 0 true with
    | Ok (_, b) => b
    | _ => one_page_pool
    end.

End BufferPool.

(** ** B+-tree pages: b_plus_tree_page, b_plus_tree_leaf_page.cpp and
       b_plus_tree_internal_page.cpp *)

Module BPlusTreePages.

Inductive IndexPageType : Type := INVALID_INDEX_PAGE | LEAF_PAGE | INTERNAL_PAGE.

#[global] Instance IndexPageType_eq_dec : EqDecision IndexPageType.
Proof. solve_decision. Defined.

(** A page of the index as the tree sees it after the cast of the page's
    bytes: the common header, the leaf's [next_page_id_] and the array of
    pairs.  Keys are compared through their integer value; a value is a
    record id in a leaf and a child page id in an internal page.  [array_]
    lists the slots written so far; a slot beyond it reads as zero bytes,
    and the slots at and after [size_] keep what was last stored there. *)
Record BPlusTreePage : Type := mkNode {
  page_type_ : IndexPageType;
  size_ : Z;
  max_size_ : Z;
  parent_page_id_ : Z;
  page_id_ : Z;
  next_page_id_ : Z;
  array_ : list (Z * Z)
}.

(** The page as NewPage hands it out: zeroed memory. *)
Definition zero_page : BPlusTreePage :=
  mkNode INVALID_INDEX_PAGE 0 0 0 0 0 [].

Definition IsLeafPage (n : BPlusTreePage) : bool :=
  bool_decide (page_type_ n = LEAF_PAGE).

(** Modelled from the spec: [BPlusTreePage::IsRootPage] of
    b_plus_tree_page.cpp, which is not among the sources.  The root is the
    page without a parent: a new root is initialised with parent
    INVALID_PAGE_ID and a promoted child gets that parent. *)
Definition IsRootPage (n : BPlusTreePage) : bool :=
  bool_decide (parent_page_id_ n = INVALID_PAGE_ID).

Definition GetSize (n : BPlusTreePage) : Z := size_ n.
Definition GetMaxSize (n : BPlusTreePage) : Z := max_size_ n.
Definition GetPageId (n : BPlusTreePage) : Z := page_id_ n.
Definition GetParentPageId (n : BPlusTreePage) : Z := parent_page_id_ n.
Definition GetNextPageId (n : BPlusTreePage) : Z := next_page_id_ n.

Definition SetSize (n : BPlusTreePage) (size : Z) : BPlusTreePage :=
  mkNode (page_type_ n) size (max_size_ n) (parent_page_id_ n) (page_id_ n)
         (next_page_id_ n) (array_ n).

Definition IncreaseSize (n : BPlusTreePage) (amount : Z) : BPlusTreePage :=
  SetSize n (size_ n + amount).

Definition DecreaseSize (n : BPlusTreePage) (amount : Z) : BPlusTreePage :=
  SetSize n (size_ n - amount).

Definition SetParentPageId (n : BPlusTreePage) (parent_page_id : Z) : BPlusTreePage :=
  mkNode (page_type_ n) (size_ n) (max_size_ n) parent_page_id (page_id_ n)
         (next_page_id_ n) (array_ n).

Definition SetNextPageId (n : BPlusTreePage) (next_page_id : Z) : BPlusTreePage :=
  mkNode (page_type_ n) (size_ n) (max_size_ n) (parent_page_id_ n) (page_id_ n)
         next_page_id (array_ n).

Definition set_array (n : BPlusTreePage) (a : list (Z * Z)) : BPlusTreePage :=
  mkNode (page_type_ n) (size_ n) (max_size_ n) (parent_page_id_ n) (page_id_ n)
         (next_page_id_ n) a.

(** [array_[index]] for [index >= 0]. *)
Definition slot (a : list (Z * Z)) (index : Z) : Z * Z :=
  default (0, 0) (a !! Z.to_nat index).

(** [array_[index] = x] for [index >= 0]. *)
Definition store (a : list (Z * Z)) (index : Z) (x : Z * Z) : list (Z * Z) :=
  let i := Z.to_nat index in
  if decide (i < length a)%nat then <[i := x]> a
  else a ++ repeat (0, 0) (i - length a) ++ [x].

(** An index below 0 is outside the array. *)
Definition in_array (index : Z) : result unit :=
  if index <? 0 then Undefined else Ok ().

Definition KeyAt (n : BPlusTreePage) (index : Z) : Z := fst (slot (array_ n) index).
Definition ValueAt (n : BPlusTreePage) (index : Z) : Z := snd (slot (array_ n) index).

Definition SetKeyAt (n : BPlusTreePage) (index : Z) (key : Z) : BPlusTreePage :=
  set_array n (store (array_ n) index (key, ValueAt n index)).

Definition SetValueAt (n : BPlusTreePage) (index : Z) (value : Z) : BPlusTreePage :=
  set_array n (store (array_ n) index (KeyAt n index, value)).

(** [array_[to] = array_[from]]. *)
Definition copy_slot (a : list (Z * Z)) (to from : Z) : list (Z * Z) :=
  store a to (slot a from).

(** *** Leaf pages *)

Definition Leaf_Init (n : BPlusTreePage) (page_id parent_id max_size : Z) : BPlusTreePage :=
  mkNode LEAF_PAGE 0 max_size parent_id page_id INVALID_PAGE_ID (array_ n).

(** [SetKeyValue] stores the pair and increments the size; [Insert] and
    [MoveHalf] rely on the increment. *)
Definition SetKeyValue (n : BPlusTreePage) (index key value : Z) : BPlusTreePage :=
  IncreaseSize (set_array n (store (array_ n) index (key, value))) 1.

(** The [while] loops of [Insert]: the first index from [idx] below [size]
    whose key is not less than [key]. *)
Fixpoint first_not_less (a : list (Z * Z)) (key : Z) (idx : Z) (steps : nat) : Z :=
  match steps with
  | O => idx
  | S steps' =>
      if fst (slot a idx) <? key then first_not_less a key (idx + 1) steps' else idx
  end.

(** [for (i = size; i > idx; i--) array_[i] = array_[i - 1]]. *)
Definition shift_right (a : list (Z * Z)) (idx size : Z) : list (Z * Z) :=
  fold_left (fun a i => copy_slot a i (i - 1)) (reverse (seqZ (idx + 1) (size - idx))) a.

Definition Leaf_Insert (n : BPlusTreePage) (key value : Z) : result BPlusTreePage :=
  let size := GetSize n in
  if size >=? GetMaxSize n
  then Throw (logic_error "Leaf node has already reached maxsize, which should be less than Maxsize.")
  else
    let idx := first_not_less (array_ n) key 0 (Z.to_nat size) in
    Ok (SetKeyValue (set_array n (shift_right (array_ n) idx size)) idx key value).

(** [MoveHalf]: the pairs from [idx] on go to [new_page]. *)
Definition MoveHalf (n new_page : BPlusTreePage) (idx : Z) : BPlusTreePage * BPlusTreePage :=
  let moved := seqZ idx (GetSize n - idx) in
  let new_page' :=
    fold_left (fun np '(j, i) => SetKeyValue np j (KeyAt n i) (ValueAt n i))
              (zip (seqZ 0 (Z.of_nat (length moved))) moved) new_page in
  (SetSize n (GetSize n - Z.of_nat (length moved)), new_page').

(** The index of the first pair among the first [size] whose key is
    [key]. *)
Definition find_key_from (n : BPlusTreePage) (key : Z) (from : Z) : option Z :=
  find (fun i => KeyAt n i =? key) (seqZ from (GetSize n - from)).

(** [for (idx..size-2) array_[idx] = array_[idx + 1]]. *)
Definition shift_left (a : list (Z * Z)) (idx size : Z) : list (Z * Z) :=
  fold_left (fun a i => copy_slot a i (i + 1)) (seqZ idx (size - 1 - idx)) a.

(** Modelled from the spec: [LeafPage::Remove] returning whether the key
    was found, as b_plus_tree.cpp uses it (the repository's copy of the
    leaf page file has a void version, which throws when the key is
    absent).  Deleting a key that is not in the leaf is a no-op; otherwise
    the pairs after it move one slot down and the size decreases. *)
Definition Leaf_Remove (n : BPlusTreePage) (key : Z) : bool * BPlusTreePage :=
  match find_key_from n key 0 with
  | None => (false, n)
  | Some idx =>
      (true, DecreaseSize (set_array n (shift_left (array_ n) idx (GetSize n))) 1)
  end.

(** Modelled from the spec: [LeafPage::MoveAll], absent from the
    repository's copy of the leaf page file: a merge moves all pairs of
    the right page behind those of the left page, starting at slot [idx],
    and empties the right page.  As in [MoveHalf], each pair is stored with
    [SetKeyValue], which counts it. *)
Definition Leaf_MoveAll (n new_page : BPlusTreePage) (idx : Z) : BPlusTreePage * BPlusTreePage :=
  let new_page' :=
    fold_left (fun np i => SetKeyValue np (idx + i) (KeyAt n i) (ValueAt n i))
              (seqZ 0 (GetSize n)) new_page in
  (SetSize n 0, new_page').

(** Modelled from the spec: [LeafPage::TotalToLeft], absent from the
    repository's copy of the leaf page file; ReDistribution calls it after
    taking the first pair of the right sibling.  As in the internal page:
    every pair moves one slot down and the size decreases. *)
Definition Leaf_TotalToLeft (n : BPlusTreePage) : BPlusTreePage :=
  DecreaseSize (set_array n (shift_left (array_ n) 0 (GetSize n))) 1.

(** Modelled from the spec: [LeafPage::GetItem], absent from the
    repository's copy of the leaf page file: the pair at [index]. *)
Definition GetItem (n : BPlusTreePage) (index : Z) : Z * Z := slot (array_ n) index.

(** *** Internal pages *)

Definition Internal_Init (n : BPlusTreePage) (page_id parent_id max_size : Z) : BPlusTreePage :=
  mkNode INTERNAL_PAGE 0 max_size parent_id page_id (next_page_id_ n) (array_ n).

Definition Internal_Insert (n : BPlusTreePage) (key value : Z) : result BPlusTreePage :=
  let size := GetSize n in
  if size >? GetMaxSize n
  then Throw (logic_error "Internal node has already reached over maxsize, which should be less than or equal to Maxsize.")
  else
    let idx := first_not_less (array_ n) key 1 (Z.to_nat (size - 1)) in
    let n1 := set_array n (shift_right (array_ n) idx size) in
    Ok (IncreaseSize (SetValueAt (SetKeyAt n1 idx key) idx value) 1).

(** The first [while] loop of the internal [Remove]. *)
Fixpoint first_equal (a : list (Z * Z)) (key : Z) (idx : Z) (steps : nat) : Z :=
  match steps with
  | O => idx
  | S steps' =>
      if fst (slot a idx) =? key then idx else first_equal a key (idx + 1) steps'
  end.

(** The test after the loop reads [KeyAt(idx)] also when the loop ran to
    [size]. *)
Definition Internal_Remove (n : BPlusTreePage) (key : Z) : bool * BPlusTreePage :=
  let size := GetSize n in
  let idx := first_equal (array_ n) key 1 (Z.to_nat (size - 1)) in
  if negb (KeyAt n idx =? key) then (false, n)
  else (true, DecreaseSize (set_array n (shift_left (array_ n) idx size)) 1).

Definition Internal_TotalToLeft (n : BPlusTreePage) : BPlusTreePage :=
  DecreaseSize (set_array n (shift_left (array_ n) 0 (GetSize n))) 1.

Definition Internal_TotalToRight (n : BPlusTreePage) : BPlusTreePage :=
  IncreaseSize (set_array n (shift_right (array_ n) 0 (GetSize n))) 1.

Definition FindValueIndex (n : BPlusTreePage) (value : Z) : Z :=
  default (-1) (find (fun i => ValueAt n i =? value) (seqZ 0 (GetSize n))).

Definition Internal_MoveAll (n new_page : BPlusTreePage) (idx : Z) : BPlusTreePage * BPlusTreePage :=
  let new_page' :=
    fold_left (fun np i =>
                 let j := idx + (i - 1) in
                 IncreaseSize (SetValueAt (SetKeyAt np j (KeyAt n i)) j (ValueAt n i)) 1)
              (seqZ 1 (GetSize n - 1)) new_page in
  (SetSize n 0, new_page').

End BPlusTreePages.

(** ** b_plus_tree.cpp and index_iterator.cpp

    The tree is embedded with what an operation does to the pages when
    it starts with no latch held and no page pinned.  The buffer pool
    appears as the store [pages] of index pages by page id together with
    the page-id counter: FetchPage looks a page up, NewPage adds a zeroed
    page under the next id and DeletePage drops one; a pointer to a page is
    the id it is stored under.  Latches, pin counts and the transaction's
    page set are not represented in this module.  They are in
    [BPlusTreeLatched] below, which embeds Insert and Remove once more with
    them and is the model of what an operation leaves latched or pinned for
    the next one: DeleteEntry has an exit that keeps its latches, and the
    buffer pool does not delete a page that is still pinned. *)

Module BPlusTree.
Import BPlusTreePages.

Inductive Operation : Type := SEARCH | INSERT | DELETE.

#[global] Instance Operation_eq_dec : EqDecision Operation.
Proof. solve_decision. Defined.

Record BPlusTree : Type := mkTree {
  root_page_id_ : Z;
  leaf_max_size_ : Z;
  internal_max_size_ : Z;
  pages : gmap Z BPlusTreePage;
  next_page_id : Z;
  header_record : option Z
}.

(** The constructor, on a buffer pool whose next page id is [next]. *)
Definition new_tree (leaf_max_size internal_max_size next : Z) : BPlusTree :=
  mkTree INVALID_PAGE_ID leaf_max_size internal_max_size ∅ next None.

Definition IsEmpty (t : BPlusTree) : bool :=
  bool_decide (root_page_id_ t = INVALID_PAGE_ID).

Definition GetRootPageId (t : BPlusTree) : Z := root_page_id_ t.

Definition FetchPage (t : BPlusTree) (page_id : Z) : result BPlusTreePage :=
  deref (pages t !! page_id).

(** Writing through a pointer to the page stored under [ptr]. *)
Definition put (t : BPlusTree) (ptr : Z) (n : BPlusTreePage) : BPlusTree :=
  mkTree (root_page_id_ t) (leaf_max_size_ t) (internal_max_size_ t)
         (<[ptr := n]> (pages t)) (next_page_id t) (header_record t).

Definition set_root (t : BPlusTree) (root_page_id : Z) : BPlusTree :=
  mkTree root_page_id (leaf_max_size_ t) (internal_max_size_ t)
         (pages t) (next_page_id t) (header_record t).

Definition NewPage (t : BPlusTree) : Z * BPlusTree :=
  (next_page_id t,
   mkTree (root_page_id_ t) (leaf_max_size_ t) (internal_max_size_ t)
          (<[next_page_id t := zero_page]> (pages t)) (next_page_id t + 1)
          (header_record t)).

Definition DeletePage (t : BPlusTree) (page_id : Z) : BPlusTree :=
  mkTree (root_page_id_ t) (leaf_max_size_ t) (internal_max_size_ t)
         (delete page_id (pages t)) (next_page_id t) (header_record t).

(** Modelled from the spec: the header page's record for this index,
    written via InsertRecord (when none exists) or UpdateRecord (when one
    exists); header_page.cpp is not among the sources. *)
Definition UpdateRootPageId (t : BPlusTree) (insert_record : Z) : BPlusTree :=
  let record :=
    if negb (insert_record =? 0)
    then match header_record t with None => Some (root_page_id_ t) | r => r end
    else match header_record t with Some _ => Some (root_page_id_ t) | r => r end in
  mkTree (root_page_id_ t) (leaf_max_size_ t) (internal_max_size_ t)
         (pages t) (next_page_id t) record.

Section MinSize.
(** [BPlusTreePage::GetMinSize] is defined in b_plus_tree_page.cpp, which
    is not among the sources; the tree is parameterised by it: the
    minimum size of a leaf ([true]) or internal ([false]) page of a given
    maximum size. *)
Variable min_size : bool -> Z -> Z.

Definition GetMinSize (n : BPlusTreePage) : Z := min_size (IsLeafPage n) (GetMaxSize n).

Definition IsPageSafe (tree : BPlusTreePage) (op : Operation) : bool :=
  match op with
  | SEARCH => true
  | INSERT =>
      if IsLeafPage tree then GetSize tree <? GetMaxSize tree - 1
      else GetSize tree <? GetMaxSize tree
  | DELETE =>
      if IsRootPage tree then
        if IsLeafPage tree then GetSize tree >? 1 else GetSize tree >? 2
      else GetSize tree >? GetMinSize tree
  end.

(** The child chosen in an internal page (lines 109-115). *)
Definition child_for (internal_page : BPlusTreePage) (key : Z) : result Z :=
  _ ← in_array (GetSize internal_page - 1);
  match find (fun i => KeyAt internal_page i >? key) (seqZ 1 (GetSize internal_page - 1)) with
  | Some i => Ok (ValueAt internal_page (i - 1))
  | None => Ok (ValueAt internal_page (GetSize internal_page - 1))
  end.

(** The loop of [GetLeafPage] from page [next_page_id] on, with the
    restart from the root ([first = false]) when the leaf reached in the
    first attempt is not safe.  The result is the leaf's page. *)
Fixpoint GetLeafPage_from (fuel : nat) (t : BPlusTree) (key : Z) (op : Operation)
    (first : bool) (next_page_id : Z) : result Z :=
  match fuel with
  | O => OutOfFuel
  | S fuel' =>
      tree_page ← FetchPage t next_page_id;
      if negb first && bool_decide (op = SEARCH)
      then Throw (logic_error "SEARCH 's first should be true!")
      else if IsLeafPage tree_page then
        if first && negb (IsPageSafe tree_page op)
        then GetLeafPage_from fuel' t key op false (root_page_id_ t)
        else Ok next_page_id
      else
        child ← child_for tree_page key;
        GetLeafPage_from fuel' t key op first child
  end.

(** [transaction] tells whether the caller passed a transaction. *)
Definition GetLeafPage (fuel : nat) (t : BPlusTree) (key : Z) (op : Operation)
    (first : bool) (transaction : bool) : result Z :=
  if negb transaction && negb (bool_decide (op = SEARCH))
  then Throw (logic_error "Only make transaction is Null when operation is Search!")
  else GetLeafPage_from fuel t key op first (root_page_id_ t).

(** The scan of a leaf for [key]: index and value of the first match. *)
Definition leaf_lookup (leaf_page : BPlusTreePage) (key : Z) : option Z :=
  ValueAt leaf_page <$> find_key_from leaf_page key 0.

(** [GetValue]: whether the key was found and the values pushed to
    [result]. *)
Definition GetValue (fuel : nat) (t : BPlusTree) (key : Z) : result (bool * list Z) :=
  page ← GetLeafPage fuel t key SEARCH true false;
  leaf_page ← FetchPage t page;
  match leaf_lookup leaf_page key with
  | Some v => Ok (true, [v])
  | None => Ok (false, [])
  end.

(** The loop of [InsertInParent] that fills the new internal page and
    re-parents the children that move (lines 294-310). *)
Definition move_to_split (t : BPlusTree) (parent_ptr new_split_ptr new_split_page_id : Z)
    (start_index size : Z) : result BPlusTree :=
  fold_left
    (fun acc '(i, j) =>
       t ← acc;
       _ ← in_array i;
       parent ← FetchPage t parent_ptr;
       new_page ← FetchPage t new_split_ptr;
       let new_page' :=
         IncreaseSize (SetValueAt (SetKeyAt new_page j (KeyAt parent i)) j (ValueAt parent i)) 1 in
       let t1 := put t new_split_ptr new_page' in
       let child_ptr := ValueAt parent i in
       tree_page ← FetchPage t1 child_ptr;
       Ok (put t1 child_ptr (SetParentPageId tree_page new_split_page_id)))
    (zip (seqZ start_index (size - start_index)) (seqZ 0 (size - start_index)))
    (Ok t).

Fixpoint InsertInParent (fuel : nat) (t : BPlusTree) (old_ptr : Z) (key : Z) (new_ptr : Z)
    : result BPlusTree :=
  match fuel with
  | O => OutOfFuel
  | S fuel' =>
      old_page ← FetchPage t old_ptr;
      if IsRootPage old_page then
        let '(root_ptr, t1) := NewPage t in
        let t2 := set_root t1 root_ptr in
        new_page ← FetchPage t2 new_ptr;
        page ← FetchPage t2 root_ptr;
        let new_root_page :=
          SetSize
            (SetValueAt
               (SetKeyAt
                  (SetValueAt (Internal_Init page root_ptr INVALID_PAGE_ID (internal_max_size_ t))
                     0 (GetPageId old_page))
                  1 key)
               1 (GetPageId new_page))
            2 in
        let t3 := UpdateRootPageId (put t2 root_ptr new_root_page) 0 in
        old_page ← FetchPage t3 old_ptr;
        let t4 := put t3 old_ptr (SetParentPageId old_page (GetPageId new_root_page)) in
        new_page ← FetchPage t4 new_ptr;
        Ok (put t4 new_ptr (SetParentPageId new_page (GetPageId new_root_page)))
      else
        let parent_ptr := GetParentPageId old_page in
        parent_inter_page ← FetchPage t parent_ptr;
        new_page ← FetchPage t new_ptr;
        parent_inter_page ← Internal_Insert parent_inter_page key (GetPageId new_page);
        let t1 := put t parent_ptr parent_inter_page in
        new_page ← FetchPage t1 new_ptr;
        let t2 := put t1 new_ptr (SetParentPageId new_page (GetPageId parent_inter_page)) in
        parent_inter_page ← FetchPage t2 parent_ptr;
        if GetSize parent_inter_page <=? GetMaxSize parent_inter_page then Ok t2
        else
          let '(new_split_ptr, t3) := NewPage t2 in
          new_split_page ← FetchPage t3 new_split_ptr;
          let t4 := put t3 new_split_ptr
                      (Internal_Init new_split_page new_split_ptr
                         (GetParentPageId parent_inter_page) (internal_max_size_ t)) in
          let new_split_page_size := Z.quot (internal_max_size_ t) 2 + 1 in
          let start_index := GetSize parent_inter_page - new_split_page_size in
          t5 ← move_to_split t4 parent_ptr new_split_ptr new_split_ptr
                 start_index (GetSize parent_inter_page);
          parent_inter_page ← FetchPage t5 parent_ptr;
          let t6 := put t5 parent_ptr
                      (SetSize parent_inter_page
                         (internal_max_size_ t - new_split_page_size + 1)) in
          new_internal_split_page ← FetchPage t6 new_split_ptr;
          InsertInParent fuel' t6 parent_ptr (KeyAt new_internal_split_page 0) new_split_ptr
  end.

Definition Insert (fuel : nat) (t : BPlusTree) (key value : Z) (transaction : bool)
    : result (bool * BPlusTree) :=
  if IsEmpty t then
    let '(root_ptr, t1) := NewPage t in
    let t2 := UpdateRootPageId (set_root t1 root_ptr) 1 in
    page ← FetchPage t2 root_ptr;
    let leaf_page :=
      IncreaseSize
        (SetKeyValue (Leaf_Init page (root_page_id_ t2) INVALID_PAGE_ID (leaf_max_size_ t2))
           0 key value)
        1 in
    Ok (true, put t2 root_ptr leaf_page)
  else
    page ← GetLeafPage fuel t key INSERT true transaction;
    leaf_page ← FetchPage t page;
    match leaf_lookup leaf_page key with
    | Some _ => Ok (false, t)
    | None =>
        leaf_page ← Leaf_Insert leaf_page key value;
        let t1 := put t page leaf_page in
        if GetSize leaf_page <? GetMaxSize leaf_page then Ok (true, t1)
        else
          let '(new_ptr, t2) := NewPage t1 in
          new_page ← FetchPage t2 new_ptr;
          let new_leaf_page :=
            SetNextPageId
              (Leaf_Init new_page new_ptr (GetParentPageId leaf_page) (leaf_max_size_ t))
              (GetNextPageId leaf_page) in
          let leaf_page := SetNextPageId leaf_page (GetPageId new_leaf_page) in
          let '(leaf_page, new_leaf_page) :=
            MoveHalf leaf_page new_leaf_page (Z.quot (GetMaxSize leaf_page) 2) in
          let t3 := put (put t2 page leaf_page) new_ptr new_leaf_page in
          t4 ← InsertInParent fuel t3 page (KeyAt new_leaf_page 0) new_ptr;
          Ok (true, t4)
    end.

Definition GetPeerNode (t : BPlusTree) (page : BPlusTreePage) : result (Z * Z) :=
  if IsRootPage page then Throw (logic_error "Root node doesn't have peer nodes!")
  else
    parent_page ← FetchPage t (GetParentPageId page);
    let index := FindValueIndex parent_page (GetPageId page) in
    if index =? -1 then Throw (range_error "Can not find value.")
    else
      let l_peer_id := if negb (index =? 0) then ValueAt parent_page (index - 1)
                       else INVALID_PAGE_ID in
      let r_peer_id := if negb (index =? GetSize parent_page - 1)
                       then ValueAt parent_page (index + 1)
                       else INVALID_PAGE_ID in
      Ok (l_peer_id, r_peer_id).

Definition ReDistribution (t : BPlusTree) (left_ptr right_ptr parent_ptr : Z) (is_left : bool)
    : result BPlusTree :=
  left ← FetchPage t left_ptr;
  right ← FetchPage t right_ptr;
  parent ← FetchPage t parent_ptr;
  let idx := FindValueIndex parent (GetPageId right) in
  _ ← in_array idx;
  let key_between := KeyAt parent idx in
  if is_left then
    _ ← in_array (GetSize left - 1);
    let key_l := KeyAt left (GetSize left - 1) in
    let value_l := ValueAt left (GetSize left - 1) in
    if IsLeafPage left then
      let t1 := put t left_ptr (DecreaseSize left 1) in
      right ← FetchPage t1 right_ptr;
      right ← Leaf_Insert right key_l value_l;
      let t2 := put t1 right_ptr right in
      parent ← FetchPage t2 parent_ptr;
      Ok (put t2 parent_ptr (SetKeyAt parent idx key_l))
    else
      let t1 := put t left_ptr (DecreaseSize left 1) in
      right ← FetchPage t1 right_ptr;
      let right := SetValueAt (SetKeyAt (Internal_TotalToRight right) 1 key_between) 0 value_l in
      let t2 := put t1 right_ptr right in
      parent ← FetchPage t2 parent_ptr;
      Ok (put t2 parent_ptr (SetKeyAt parent idx key_l))
  else
    if IsLeafPage left then
      let key_l := KeyAt right 0 in
      let value_l := ValueAt right 0 in
      let t1 := put t right_ptr (Leaf_TotalToLeft right) in
      left ← FetchPage t1 left_ptr;
      let left := IncreaseSize (SetKeyValue left (GetSize left) key_l value_l) 1 in
      let t2 := put t1 left_ptr left in
      right ← FetchPage t2 right_ptr;
      parent ← FetchPage t2 parent_ptr;
      Ok (put t2 parent_ptr (SetKeyAt parent idx (KeyAt right 0)))
    else
      let key_l := KeyAt right 1 in
      let value_l := ValueAt right 0 in
      let t1 := put t right_ptr (Internal_TotalToLeft right) in
      left ← FetchPage t1 left_ptr;
      let left :=
        IncreaseSize
          (SetValueAt (SetKeyAt left (GetSize left) key_between) (GetSize left) value_l) 1 in
      let t2 := put t1 left_ptr left in
      parent ← FetchPage t2 parent_ptr;
      Ok (put t2 parent_ptr (SetKeyAt parent idx key_l)).

(** What the two chains of conditions of [DeleteEntry] select. *)
Inductive rebalance : Type :=
| merge_left | merge_right | borrow_left | borrow_right | no_rebalance.

Definition select_rebalance (page : BPlusTreePage) (left_peer right_peer : option BPlusTreePage)
    : rebalance :=
  let fits (peer : BPlusTreePage) :=
    if IsLeafPage page then GetSize peer + GetSize page <? GetMaxSize page
    else GetSize peer + GetSize page <=? GetMaxSize page in
  let spare (peer : BPlusTreePage) := GetSize peer >? GetMinSize page in
  if from_option fits false left_peer then merge_left
  else if from_option fits false right_peer then merge_right
  else if from_option spare false left_peer then borrow_left
  else if from_option spare false right_peer then borrow_right
  else no_rebalance.

(** [MergePage]; [DeleteEntry] is the function it calls back on the
    parent.  [deleted] is the transaction's deleted page set. *)
Definition MergePage
    (DeleteEntry : BPlusTree -> Z -> Z -> list Z -> result (BPlusTree * list Z))
    (t : BPlusTree) (left_ptr right_ptr parent_ptr : Z) (deleted : list Z)
    : result (BPlusTree * list Z) :=
  left ← FetchPage t left_ptr;
  right ← FetchPage t right_ptr;
  parent ← FetchPage t parent_ptr;
  let idx := FindValueIndex parent (GetPageId right) in
  _ ← in_array idx;
  let key_between := KeyAt parent idx in
  let '(right', left') :=
    if IsLeafPage left then
      let '(r, l) := Leaf_MoveAll right left (GetSize left) in
      (r, SetNextPageId l (GetNextPageId r))
    else
      let l :=
        IncreaseSize
          (SetValueAt (SetKeyAt left (GetSize left) key_between)
             (GetSize left) (ValueAt right 0)) 1 in
      Internal_MoveAll right l (GetSize l) in
  let t1 := put (put t right_ptr right') left_ptr left' in
  DeleteEntry t1 parent_ptr key_between (deleted ++ [GetPageId right]).

(** The part of [DeleteEntry] that runs when the page is below its
    minimum size (lines 410-560). *)
Definition rebalance_page
    (DeleteEntry : BPlusTree -> Z -> Z -> list Z -> result (BPlusTree * list Z))
    (t : BPlusTree) (page_ptr : Z) (page : BPlusTreePage) (deleted : list Z)
    : result (BPlusTree * list Z) :=
  '(left_peer_id, right_peer_id) ← GetPeerNode t page;
  if bool_decide (left_peer_id = INVALID_PAGE_ID)
     && bool_decide (right_peer_id = INVALID_PAGE_ID)
  then Throw (logic_error "Page doesn't have peer nodes!")
  else
    left_peer_page ←
      (if bool_decide (left_peer_id = INVALID_PAGE_ID) then Ok None
       else p ← FetchPage t left_peer_id; Ok (Some p));
    right_peer_page ←
      (if bool_decide (right_peer_id = INVALID_PAGE_ID) then Ok None
       else p ← FetchPage t right_peer_id; Ok (Some p));
    let parent_ptr := GetParentPageId page in
    _ ← FetchPage t parent_ptr;
    match select_rebalance page left_peer_page right_peer_page with
    | merge_left => MergePage DeleteEntry t left_peer_id page_ptr parent_ptr deleted
    | merge_right => MergePage DeleteEntry t page_ptr right_peer_id parent_ptr deleted
    | borrow_left =>
        t1 ← ReDistribution t left_peer_id page_ptr parent_ptr true;
        Ok (t1, deleted)
    | borrow_right =>
        t1 ← ReDistribution t page_ptr right_peer_id parent_ptr false;
        Ok (t1, deleted)
    | no_rebalance =>
        Throw (logic_error
                 (if IsLeafPage page then "Tree structure is wrong!"
                  else "Tree structre is wrong!"))
    end.

Fixpoint DeleteEntry (fuel : nat) (t : BPlusTree) (page_ptr : Z) (key : Z) (deleted : list Z)
    : result (BPlusTree * list Z) :=
  match fuel with
  | O => OutOfFuel
  | S fuel' =>
      page ← FetchPage t page_ptr;
      let '(success, page) :=
        if IsLeafPage page then Leaf_Remove page key else Internal_Remove page key in
      if negb success then Ok (t, deleted)
      else
        let t := put t page_ptr page in
        if IsRootPage page && IsLeafPage page && (GetSize page =? 0) then
          Ok (set_root t INVALID_PAGE_ID, deleted ++ [GetPageId page])
        else if IsRootPage page && ((GetSize page >? 1) || IsLeafPage page) then
          Ok (t, deleted)
        else if IsRootPage page && (GetSize page =? 1) then
          let t1 := set_root t (ValueAt page 0) in
          new_root_page ← FetchPage t1 (root_page_id_ t1);
          let t2 := put t1 (root_page_id_ t1) (SetParentPageId new_root_page INVALID_PAGE_ID) in
          Ok (UpdateRootPageId t2 0, deleted ++ [GetPageId page])
        else if GetSize page <? GetMinSize page then
          rebalance_page (DeleteEntry fuel') t page_ptr page deleted
        else Ok (t, deleted)
  end.

(** The pages of the deleted page set are dropped when [DeleteEntry] has
    returned, as the buffer pool does with pages that are not pinned
    ([BPlusTreeLatched.Remove] has the pins). *)
Definition Remove (fuel : nat) (t : BPlusTree) (key : Z) (transaction : bool)
    : result BPlusTree :=
  if IsEmpty t then Ok t
  else
    page ← GetLeafPage fuel t key DELETE true transaction;
    '(t1, delete_page_set) ← DeleteEntry fuel t page key [];
    Ok (fold_left DeletePage delete_page_set t1).

End MinSize.

(** *** The iterator *)

(** [page_] is the leaf the iterator holds ([None] for the null
    pointer). *)
Record IndexIterator : Type := mkIterator {
  page_ : option Z;
  idx_ : Z
}.

(** The descent of [Begin] ([rightmost = false]) and [End]
    ([rightmost = true]). *)
Fixpoint descend_edge (fuel : nat) (t : BPlusTree) (rightmost : bool) (next_page_id : Z)
    : result (Z * BPlusTreePage) :=
  match fuel with
  | O => OutOfFuel
  | S fuel' =>
      tree_page ← FetchPage t next_page_id;
      if IsLeafPage tree_page then Ok (next_page_id, tree_page)
      else if rightmost then
        _ ← in_array (GetSize tree_page - 1);
        descend_edge fuel' t rightmost (ValueAt tree_page (GetSize tree_page - 1))
      else descend_edge fuel' t rightmost (ValueAt tree_page 0)
  end.

Definition End (fuel : nat) (t : BPlusTree) : result IndexIterator :=
  if bool_decide (root_page_id_ t = INVALID_PAGE_ID) then Ok (mkIterator None 0)
  else
    '(page, tree_page) ← descend_edge fuel t true (root_page_id_ t);
    Ok (mkIterator (Some page) (GetSize tree_page)).

Definition Begin (fuel : nat) (t : BPlusTree) : result IndexIterator :=
  if IsEmpty t then End fuel t
  else
    '(page, _) ← descend_edge fuel t false (root_page_id_ t);
    Ok (mkIterator (Some page) 0).

(** [operator*]. *)
Definition current (t : BPlusTree) (it : IndexIterator) : result (Z * Z) :=
  page ← deref (page_ it);
  leafpage ← FetchPage t page;
  _ ← in_array (idx_ it);
  Ok (GetItem leafpage (idx_ it)).

(** [operator++]. *)
Definition next (t : BPlusTree) (it : IndexIterator) : result IndexIterator :=
  page ← deref (page_ it);
  leafpage ← FetchPage t page;
  if (idx_ it >=? GetSize leafpage - 1)
     && negb (bool_decide (GetNextPageId leafpage = INVALID_PAGE_ID))
  then
    _ ← FetchPage t (GetNextPageId leafpage);
    Ok (mkIterator (Some (GetNextPageId leafpage)) 0)
  else Ok (mkIterator (page_ it) (idx_ it + 1)).

(** [operator!=]: the page ids compared are those of the two frames the
    iterators point to. *)
Definition differs (it itr : IndexIterator) : result bool :=
  page ← deref (page_ it);
  page' ← deref (page_ itr);
  Ok (negb (bool_decide (page = page')) || negb (idx_ it =? idx_ itr)).

(** [for (it = Begin(); it != End(); ++it)], collecting [*it]. *)
Fixpoint collect (fuel : nat) (t : BPlusTree) (it end_ : IndexIterator) : result (list (Z * Z)) :=
  match fuel with
  | O => OutOfFuel
  | S fuel' =>
      more ← differs it end_;
      if (more : bool) then
        item ← current t it;
        it' ← next t it;
        rest ← collect fuel' t it' end_;
        Ok (item :: rest)
      else Ok []
  end.

Definition iterate (fuel : nat) (t : BPlusTree) : result (list (Z * Z)) :=
  it ← Begin fuel t;
  end_ ← End fuel t;
  collect fuel t it end_.

(** The number of levels on the leftmost path from the root. *)
Fixpoint height_from (fuel : nat) (t : BPlusTree) (page_id : Z) : result Z :=
  match fuel with
  | O => OutOfFuel
  | S fuel' =>
      tree_page ← FetchPage t page_id;
      if IsLeafPage tree_page then Ok 1
      else h ← height_from fuel' t (ValueAt tree_page 0); Ok (1 + h)
  end.

Definition height (fuel : nat) (t : BPlusTree) : result Z :=
  if IsEmpty t then Ok 0 else height_from fuel t (root_page_id_ t).

(** *** Search-tree order *)

Definition above (lo : option Z) (k : Z) : Prop :=
  match lo with Some l => l <= k | None => True end.

Definition below (hi : option Z) (k : Z) : Prop :=
  match hi with Some h => k < h | None => True end.

(** The pages below [page_id] form a search tree for the keys from [lo]
    (included) to [hi] (excluded): the separators of an internal page
    increase, and child [i] holds the keys from separator [i] up to
    separator [i + 1]. *)
Inductive subtree (t : BPlusTree) : Z -> option Z -> option Z -> Prop :=
| subtree_leaf (page_id : Z) (n : BPlusTreePage) (lo hi : option Z) :
    pages t !! page_id = Some n ->
    IsLeafPage n = true ->
    (forall i, 0 <= i < GetSize n -> above lo (KeyAt n i) /\ below hi (KeyAt n i)) ->
    subtree t page_id lo hi
| subtree_internal (page_id : Z) (n : BPlusTreePage) (lo hi : option Z) :
    pages t !! page_id = Some n ->
    IsLeafPage n = false ->
    1 <= GetSize n ->
    (forall i, 1 <= i < GetSize n -> above lo (KeyAt n i) /\ below hi (KeyAt n i)) ->
    (forall i j, 1 <= i -> i < j -> j < GetSize n -> KeyAt n i < KeyAt n j) ->
    (forall i, 0 <= i < GetSize n ->
       subtree t (ValueAt n i)
         (if i =? 0 then lo else Some (KeyAt n i))
         (if i =? GetSize n - 1 then hi else Some (KeyAt n (i + 1)))) ->
    subtree t page_id lo hi.

(** Key [k] is stored in a leaf below [page_id]. *)
Inductive stored (t : BPlusTree) (k : Z) : Z -> Prop :=
| stored_leaf (page_id : Z) (n : BPlusTreePage) (i : Z) :
    pages t !! page_id = Some n ->
    IsLeafPage n = true ->
    0 <= i < GetSize n ->
    KeyAt n i = k ->
    stored t k page_id
| stored_internal (page_id : Z) (n : BPlusTreePage) (i : Z) :
    pages t !! page_id = Some n ->
    IsLeafPage n = false ->
    0 <= i < GetSize n ->
    stored t k (ValueAt n i) ->
    stored t k page_id.

(** *** Minimum sizes *)

(** Modelled from the spec: [BPlusTreePage::GetMinSize] as section 3
    states it: the ceiling of max_size/2 for a leaf and the ceiling of
    (max_size+1)/2 for an internal page. *)
Definition min_size_spec (leaf : bool) (max_size : Z) : Z :=
  if leaf then (max_size + 1) / 2 else (max_size + 2) / 2.

(** The minimum sizes with which the pages left by a split are never
    below the minimum: a leaf split keeps [max_size / 2] pairs in the old
    leaf, an internal split [max_size - max_size / 2] children in the old
    page. *)
Definition min_size_half (leaf : bool) (max_size : Z) : Z :=
  if leaf then max_size / 2 else (max_size + 1) / 2.

(** The minimum sizes [ms] with the one of a leaf of maximum size 3 made
    explicit. *)
Definition leaf_min_3 (m : Z) (ms : bool -> Z -> Z) (leaf : bool) (max_size : Z) : Z :=
  if leaf && (max_size =? 3) then m else ms leaf max_size.

(** *** The scenarios of section 8 *)

Definition insert_keys (min_size : bool -> Z -> Z) (fuel : nat) (keys : list Z) (t : BPlusTree)
    : result (list bool * BPlusTree) :=
  fold_left
    (fun acc key =>
       '(rs, t) ← acc;
       '(r, t') ← Insert min_size fuel t key (100 + key) true;
       Ok (rs ++ [r], t'))
    keys (Ok ([], t)).

(** A tree with leaf_max_size 3 and internal_max_size 4 on a buffer pool
    whose page 0 is the header page. *)
Definition tree_3_4 : BPlusTree := new_tree 3 4 1.

(** The tree after the insertion of 5, 4, 3, 2, 1 (key [k] with record id
    [100 + k]).  No insertion consults the minimum size. *)
Definition tree_1_to_5 : BPlusTree :=
  Eval vm_compute in
    match insert_keys min_size_spec 10 [5; 4; 3; 2; 1] tree_3_4 with
    | Ok (_, t) => t
    | _ => tree_3_4
    end.

(** The tree after the insertion of -1, -2, -3, -4, -5: with keys below
    0 the pair (0, 0), which the first insertion leaves behind the greatest
    key, stands in key order. *)
Definition tree_minus_5_to_minus_1 : BPlusTree :=
  Eval vm_compute in
    match insert_keys min_size_spec 10 [-1; -2; -3; -4; -5] tree_3_4 with
    | Ok (_, t) => t
    | _ => tree_3_4
    end.

(** A tree with leaf_max_size 5 after the insertion of the key 7: its
    root is a leaf. *)
Definition single_key_tree : BPlusTree :=
  Eval vm_compute in
    match Insert min_size_spec 1 (new_tree 5 4 1) 7 107 true with
    | Ok (_, t) => t
    | _ => new_tree 5 4 1
    end.

End BPlusTree.

(** ** Well-formed extendible hash tables *)

Module ExtendibleHashInvariant.
Import ExtendibleHash.

(** The low [d] bits of [x], as [IndexOf] computes them. *)
Definition low_bits (d x : Z) : Z := Z.land x (Z.shiftl 1 d - 1).

Section Table.
Context {K V : Type} `{EqDecision K}.
Variable hash : K -> Z.

(** What holds of the bucket [b] that directory slot [i] points to: its
    local depth is at most the global depth, it has the table's capacity
    and does not exceed it, its keys are distinct, and the hash of each
    key agrees with the slot number on the low [depth_ b] bits. *)
Record bucket_ok (t : ExtendibleHashTable (K := K) (V := V)) (i : nat)
    (b : Bucket (K := K) (V := V)) : Prop := {
  bo_depth : 0 <= depth_ b <= global_depth_ t;
  bo_size : size_ b = bucket_size_ t;
  bo_length : Z.of_nat (length (list_ b)) <= size_ b;
  bo_nodup : NoDup (list_ b).*1;
  bo_bits : forall k, k ∈ (list_ b).*1 ->
    low_bits (depth_ b) (hash k) = low_bits (depth_ b) (Z.of_nat i)
}.

(** The directory has [2 ^ global_depth_] slots, each slot points to a
    bucket for which [bucket_ok] holds, and two slots that share a bucket
    agree on the low bits the bucket's local depth counts. *)
Record table_invariant (t : ExtendibleHashTable (K := K) (V := V)) : Prop := {
  ti_depth : 0 <= global_depth_ t;
  ti_dir : Z.of_nat (length (dir_ t)) = 2 ^ global_depth_ t;
  ti_bucket : forall i r, dir_ t !! i = Some r ->
    exists b, heap_ t !! r = Some b /\ bucket_ok t i b;
  ti_share : forall i j r (b : Bucket (K := K) (V := V)), dir_ t !! i = Some r -> dir_ t !! j = Some r ->
    heap_ t !! r = Some b ->
    low_bits (depth_ b) (Z.of_nat i) = low_bits (depth_ b) (Z.of_nat j)
}.

(** The keys whose hash has bit [d] clear. *)
Definition bit_clear (d : Z) (k : K) : Prop := Z.land (hash k) (Z.shiftl 1 d) = 0.

#[global] Instance bit_clear_dec d k : Decision (bit_clear d k).
Proof. unfold bit_clear. apply _. Defined.

(** The table that [split] builds out of a well-formed bucket. *)
Definition split_table (t : ExtendibleHashTable (K := K) (V := V)) (target : nat)
    (b : Bucket (K := K) (V := V)) : ExtendibleHashTable (K := K) (V := V) :=
  let doubled := global_depth_ t =? depth_ b in
  {| global_depth_ := if doubled then global_depth_ t + 1 else global_depth_ t;
     bucket_size_ := bucket_size_ t;
     num_buckets_ := num_buckets_ t + 1;
     dir_ := rewire (Z.shiftl 1 (depth_ b)) target (length (heap_ t)) (S (length (heap_ t)))
               (if doubled then dir_ t ++ dir_ t else dir_ t);
     heap_ := heap_ t ++
       [mkBucket (bucket_size_ t) (depth_ b + 1)
          (filter (fun kv => bit_clear (depth_ b) kv.1) (list_ b));
        mkBucket (bucket_size_ t) (depth_ b + 1)
          (filter (fun kv => ~ bit_clear (depth_ b) kv.1) (list_ b))] |}.

(** The tables that a sequence of Insert and Remove calls builds. *)
Inductive table_reachable : ExtendibleHashTable (K := K) (V := V) -> Prop :=
| reachable_new_table (bucket_size : Z) :
    0 <= bucket_size -> table_reachable (new_table bucket_size)
| reachable_Insert (fuel : nat) (t t' : ExtendibleHashTable) (k : K) (v : V) :
    table_reachable t -> Insert hash fuel t k v = Ok t' -> table_reachable t'
| reachable_Remove (t t' : ExtendibleHashTable) (k : K) (r : bool) :
    table_reachable t -> Remove hash t k = Ok (r, t') -> table_reachable t'.

End Table.
End ExtendibleHashInvariant.

(** ** What the LRU-K replacer keeps *)

Module LRUKInvariant.
Import LRUK.

(** The number of tracked frames whose evictable flag is set. *)
Definition evictable_count (r : LRUKReplacer) : Z :=
  Z.of_nat (size (filter (fun fe : Z * LRUKEntry => evictable_ fe.2 = true) (entries_ r))).

(** What an entry contributes to that number. *)
Definition flag (o : option LRUKEntry) : Z :=
  match o with
  | Some e => if evictable_ e then 1 else 0
  | None => 0
  end.

(** A tracked frame with fewer than [k_] recorded accesses is on the
    history list, one with [k_] or more on the cache list. *)
Definition placed (r : LRUKReplacer) : Prop :=
  forall f e, entries_ r !! f = Some e ->
    if in_count_ e <? k_ r then f ∈ history_list_ r else f ∈ cache_list_ r.

(** The states of a replacer whose user removes evictable frames only, as
    the buffer pool does.  The two counters are taken not to reach
    2^64. *)
Inductive disciplined : LRUKReplacer -> Prop :=
| disciplined_new (num_frames k : Z) : disciplined (new_replacer num_frames k)
| disciplined_RecordAccess (r r' : LRUKReplacer) (f : Z) :
    disciplined r ->
    in_count_ (entry (entries_ r) f) + 1 < 2 ^ 64 ->
    curr_size_ r + 1 < 2 ^ 64 ->
    RecordAccess r f = Ok r' ->
    disciplined r'
| disciplined_SetEvictable (r r' : LRUKReplacer) (f : Z) (b : bool) :
    disciplined r ->
    curr_size_ r + 1 < 2 ^ 64 ->
    SetEvictable r f b = Ok r' ->
    disciplined r'
| disciplined_Remove (r r' : LRUKReplacer) (f : Z) :
    disciplined r ->
    (forall e, entries_ r !! f = Some e -> evictable_ e = true) ->
    Remove r f = Ok r' ->
    disciplined r'
| disciplined_Evict (r r' : LRUKReplacer) (victim : option Z) :
    disciplined r -> Evict r = (victim, r') -> disciplined r'.

(** Three accesses to frame 1 and one to frame 2 with [k_ = 2]; frame 1 is
    pinned. *)
Definition lruk_example : LRUKReplacer :=
  Eval vm_compute in
    match
      r1 ← RecordAccess (new_replacer 7 2) 1;
      r2 ← RecordAccess r1 2;
      r3 ← RecordAccess r2 1;
      r4 ← RecordAccess r3 1;
      SetEvictable r4 1 false
    with
    | Ok r => r
    | _ => new_replacer 7 2
    end.

(** One access to frame 1 with [k_ = 1]. *)
Definition lru1_example : LRUKReplacer :=
  Eval vm_compute in
    match RecordAccess (new_replacer 7 1) 1 with
    | Ok r => r
    | _ => new_replacer 7 1
    end.

End LRUKInvariant.

(** ** What the buffer pool keeps about pin counts *)

Module BufferPoolPins.
Import LRUK BufferPool.

(** The frames that NewPgImp and FetchPgImp may take, those of the free
    list and those the replacer may evict, are not pinned. *)
Record reusable_unpinned (b : BufferPoolManagerInstance) : Prop := {
  ru_evictable : forall f e,
    entries_ (replacer_ b) !! f = Some e -> evictable_ e = true ->
    exists p, pages_ b !! Z.to_nat f = Some p /\ pin_count_ p = 0;
  ru_free : forall f, f ∈ free_list_ b ->
    exists p, pages_ b !! Z.to_nat f = Some p /\ pin_count_ p = 0
}.

End BufferPoolPins.

(** ** Contents of index pages *)

Module BPlusTreeItems.
Import BPlusTreePages.

(** The pairs a page holds: its first [size_] slots. *)
Definition items (n : BPlusTreePage) : list (Z * Z) :=
  slot (array_ n) <$> seqZ 0 (GetSize n).

(** The first pair of a list with a given key. *)
Definition lookup_pair (key : Z) (l : list (Z * Z)) : option (Z * Z) :=
  find (fun kv => fst kv =? key) l.

End BPlusTreeItems.

(** ** The rest of the tree's interface and of the index iterator *)

Module BPlusTreeContents.
Import BPlusTreePages BPlusTree BPlusTreeItems.

(** [Begin(key)] (b_plus_tree.cpp, lines 723-740): the iterator at the
    position of [key] in the leaf that a search for [key] reaches. *)
Definition Begin_key (min_size : bool -> Z -> Z) (fuel : nat) (t : BPlusTree) (key : Z)
    (transaction : bool) : result IndexIterator :=
  page ← GetLeafPage min_size fuel t key SEARCH true transaction;
  leaf_page ← FetchPage t page;
  match find_key_from leaf_page key 0 with
  | Some idx => Ok (mkIterator (Some page) idx)
  | None => Throw (logic_error "can not find such Key in leaf page.")
  end.

(** [IsEnd] (index_iterator.cpp). *)
Definition IsEnd (t : BPlusTree) (it : IndexIterator) : result bool :=
  page ← deref (page_ it);
  leafpage ← FetchPage t page;
  Ok (bool_decide (GetNextPageId leafpage = INVALID_PAGE_ID)
      && (idx_ it =? GetSize leafpage)).

(** [operator==] (index_iterator.h): the left operand's page pointer is
    tested for null before anything is dereferenced. *)
Definition equals (it itr : IndexIterator) : result bool :=
  match page_ it with
  | None => Ok true
  | Some page =>
      page' ← deref (page_ itr);
      Ok (bool_decide (page = page') && (idx_ it =? idx_ itr))
  end.

(** The leaves from page [p] on, along the next-page links, up to the
    leaf without a successor. *)
Fixpoint leaves_from (fuel : nat) (t : BPlusTree) (p : Z) : option (list (Z * BPlusTreePage)) :=
  match fuel with
  | O => None
  | S fuel' =>
      n ← pages t !! p;
      if bool_decide (GetNextPageId n = INVALID_PAGE_ID) then Some [(p, n)]
      else rest ← leaves_from fuel' t (GetNextPageId n); Some ((p, n) :: rest)
  end.

(** The leaves of the tree after the insertion of 5, 4, 3, 2, 1. *)
Definition tree_1_to_5_leaves : list (Z * BPlusTreePage) :=
  Eval vm_compute in default [] (leaves_from 5 tree_1_to_5 1).

End BPlusTreeContents.

(** ** b_plus_tree.cpp with its latches and pins

    The functions that update the tree, embedded once more together with
    what [BPlusTree] leaves out: the latch of the root page id, the latch
    and the pin count of every page, and the page set and deleted page set
    of the transaction.  The contents of the pages are computed as in
    [BPlusTree], whose page-level functions are used as they are.  One
    thread runs the operations, one after the other, with one transaction
    object. *)

Module BPlusTreeLatched.
Import BPlusTreePages BPlusTree.

(** Modelled from the spec: the reader/writer latch (rwlatch.h is not
    among the sources).  A latch is free, held by readers ([more] of them
    besides the first) or held by a writer.  It is not re-entrant: a thread
    that acquires a latch it holds in a conflicting mode waits for itself,
    and a thread that releases a latch it does not hold breaks the latch's
    contract; neither call has a defined result. *)
Inductive latch : Type :=
| unlatched
| read_latched (more : nat)
| write_latched.

Definition lock_shared (l : latch) : result latch :=
  match l with
  | unlatched => Ok (read_latched 0)
  | read_latched more => Ok (read_latched (S more))
  | write_latched => Undefined
  end.

Definition unlock_shared (l : latch) : result latch :=
  match l with
  | read_latched O => Ok unlatched
  | read_latched (S more) => Ok (read_latched more)
  | _ => Undefined
  end.

Definition lock (l : latch) : result latch :=
  match l with
  | unlatched => Ok write_latched
  | _ => Undefined
  end.

Definition unlock (l : latch) : result latch :=
  match l with
  | write_latched => Ok unlatched
  | _ => Undefined
  end.

(** The tree, the latches and the pins of the pages it has fetched, and
    the two sets of the transaction.  A page without an entry in [latch_]
    is unlatched, one without an entry in [pin_count_] has pin count 0.
    [page_set] is the deque of the transaction, in which [None] is the
    null pointer that stands for the latch of the root page id.
    [deleted_page_set] lists the ids in the order of their insertion;
    Remove deletes every page of the set, and the deletions of different
    pages do not depend on their order. *)
Record LatchedTree : Type := mkLatched {
  tree : BPlusTree;
  root_page_id_latch_ : latch;
  latch_ : gmap Z latch;
  pin_count_ : gmap Z Z;
  page_set : list (option Z);
  deleted_page_set : list Z
}.

(** A tree on which no operation is under way. *)
Definition at_rest (t : BPlusTree) : LatchedTree :=
  mkLatched t unlatched ∅ ∅ [] [].

Definition with_tree (s : LatchedTree) (t : BPlusTree) : LatchedTree :=
  mkLatched t (root_page_id_latch_ s) (latch_ s) (pin_count_ s)
            (page_set s) (deleted_page_set s).

Definition with_root_latch (s : LatchedTree) (l : latch) : LatchedTree :=
  mkLatched (tree s) l (latch_ s) (pin_count_ s) (page_set s) (deleted_page_set s).

Definition latch_of (s : LatchedTree) (page_id : Z) : latch :=
  default unlatched (latch_ s !! page_id).

Definition with_latch (s : LatchedTree) (page_id : Z) (l : latch) : LatchedTree :=
  mkLatched (tree s) (root_page_id_latch_ s)
            (match l with
             | unlatched => delete page_id (latch_ s)
             | _ => <[page_id := l]> (latch_ s)
             end)
            (pin_count_ s) (page_set s) (deleted_page_set s).

Definition pins (s : LatchedTree) (page_id : Z) : Z :=
  default 0 (pin_count_ s !! page_id).

Definition with_pins (s : LatchedTree) (page_id : Z) (n : Z) : LatchedTree :=
  mkLatched (tree s) (root_page_id_latch_ s) (latch_ s)
            (if n =? 0 then delete page_id (pin_count_ s)
             else <[page_id := n]> (pin_count_ s))
            (page_set s) (deleted_page_set s).

Definition with_page_set (s : LatchedTree) (ps : list (option Z)) : LatchedTree :=
  mkLatched (tree s) (root_page_id_latch_ s) (latch_ s) (pin_count_ s)
            ps (deleted_page_set s).

Definition with_deleted_page_set (s : LatchedTree) (ds : list Z) : LatchedTree :=
  mkLatched (tree s) (root_page_id_latch_ s) (latch_ s) (pin_count_ s)
            (page_set s) ds.

(** [root_page_id_latch_.RLock()] and the like. *)
Definition RLock (s : LatchedTree) : result LatchedTree :=
  l ← lock_shared (root_page_id_latch_ s); Ok (with_root_latch s l).
Definition RUnlock (s : LatchedTree) : result LatchedTree :=
  l ← unlock_shared (root_page_id_latch_ s); Ok (with_root_latch s l).
Definition WLock (s : LatchedTree) : result LatchedTree :=
  l ← lock (root_page_id_latch_ s); Ok (with_root_latch s l).
Definition WUnlock (s : LatchedTree) : result LatchedTree :=
  l ← unlock (root_page_id_latch_ s); Ok (with_root_latch s l).

(** [page->RLatch()] and the like. *)
Definition RLatch (s : LatchedTree) (page : Z) : result LatchedTree :=
  l ← lock_shared (latch_of s page); Ok (with_latch s page l).
Definition RUnlatch (s : LatchedTree) (page : Z) : result LatchedTree :=
  l ← unlock_shared (latch_of s page); Ok (with_latch s page l).
Definition WLatch (s : LatchedTree) (page : Z) : result LatchedTree :=
  l ← lock (latch_of s page); Ok (with_latch s page l).
Definition WUnlatch (s : LatchedTree) (page : Z) : result LatchedTree :=
  l ← unlock (latch_of s page); Ok (with_latch s page l).

(** The buffer pool as the tree uses it: FetchPage pins the page it
    returns, NewPage hands out a pinned page, UnpinPage of a page with pin
    count 0 does nothing, and DeletePage refuses a pinned page. *)
Definition FetchPage (s : LatchedTree) (page_id : Z) : result (BPlusTreePage * LatchedTree) :=
  page ← BPlusTree.FetchPage (tree s) page_id;
  Ok (page, with_pins s page_id (pins s page_id + 1)).

Definition UnpinPage (s : LatchedTree) (page_id : Z) : LatchedTree :=
  if pins s page_id <=? 0 then s else with_pins s page_id (pins s page_id - 1).

Definition NewPage (s : LatchedTree) : Z * LatchedTree :=
  let '(page_id, t) := BPlusTree.NewPage (tree s) in
  (page_id, with_pins (with_tree s t) page_id 1).

Definition DeletePage (s : LatchedTree) (page_id : Z) : LatchedTree :=
  if pins s page_id >? 0 then s
  else with_tree s (BPlusTree.DeletePage (tree s) page_id).

(** Reading and writing through a pointer to a page. *)
Definition page_at (s : LatchedTree) (ptr : Z) : result BPlusTreePage :=
  BPlusTree.FetchPage (tree s) ptr.

Definition write (s : LatchedTree) (ptr : Z) (n : BPlusTreePage) : LatchedTree :=
  with_tree s (put (tree s) ptr n).

Definition AddIntoPageSet (s : LatchedTree) (page : option Z) : LatchedTree :=
  with_page_set s (page_set s ++ [page]).

Definition AddIntoDeletedPageSet (s : LatchedTree) (page_id : Z) : LatchedTree :=
  with_deleted_page_set s (deleted_page_set s ++ [page_id]).

(** [ReleaseWLatches]: the page set is emptied from its front. *)
Definition ReleaseWLatches (s : LatchedTree) (transaction : bool) : result LatchedTree :=
  if negb transaction then Ok s
  else
    fold_left
      (fun acc page =>
         s ← acc;
         match page with
         | None => WUnlock s
         | Some page => s ← WUnlatch s page; Ok (UnpinPage s page)
         end)
      (page_set s) (Ok (with_page_set s [])).

Section MinSize.
Variable min_size : bool -> Z -> Z.

(** The loop of [GetLeafPage]; [pre_page] is the page latched in the
    round before. *)
Fixpoint GetLeafPage_from (fuel : nat) (s : LatchedTree) (key : Z) (op : Operation)
    (first : bool) (transaction : bool) (next_page_id : Z) (pre_page : option Z)
    : result (Z * LatchedTree) :=
  match fuel with
  | O => OutOfFuel
  | S fuel' =>
      '(tree_page, s) ← FetchPage s next_page_id;
      s ← (if first then
             s ← (if IsLeafPage tree_page && negb (bool_decide (op = SEARCH))
                  then s ← WLatch s next_page_id; Ok (AddIntoPageSet s (Some next_page_id))
                  else RLatch s next_page_id);
             match pre_page with
             | None => RUnlock s
             | Some pre => s ← RUnlatch s pre; Ok (UnpinPage s pre)
             end
           else if bool_decide (op = SEARCH)
           then Throw (logic_error "SEARCH 's first should be true!")
           else
             s ← WLatch s next_page_id;
             s ← (if IsPageSafe min_size tree_page op then ReleaseWLatches s transaction
                  else Ok s);
             Ok (AddIntoPageSet s (Some next_page_id)));
      if IsLeafPage tree_page then
        if first && negb (IsPageSafe min_size tree_page op) then
          s ← ReleaseWLatches s transaction;
          s ← WLock s;
          let s := AddIntoPageSet s None in
          if negb transaction && negb (bool_decide (op = SEARCH))
          then Throw (logic_error "Only make transaction is Null when operation is Search!")
          else GetLeafPage_from fuel' s key op false transaction
                 (root_page_id_ (tree s)) None
        else Ok (next_page_id, s)
      else
        child ← child_for tree_page key;
        GetLeafPage_from fuel' s key op first transaction child (Some next_page_id)
  end.

Definition GetLeafPage (fuel : nat) (s : LatchedTree) (key : Z) (op : Operation)
    (first : bool) (transaction : bool) : result (Z * LatchedTree) :=
  if negb transaction && negb (bool_decide (op = SEARCH))
  then Throw (logic_error "Only make transaction is Null when operation is Search!")
  else GetLeafPage_from fuel s key op first transaction (root_page_id_ (tree s)) None.

Fixpoint InsertInParent (fuel : nat) (s : LatchedTree) (old_ptr : Z) (key : Z) (new_ptr : Z)
    (transaction : bool) : result LatchedTree :=
  match fuel with
  | O => OutOfFuel
  | S fuel' =>
      old_page ← page_at s old_ptr;
      if IsRootPage old_page then
        let '(root_ptr, s) := NewPage s in
        let s := with_tree s (set_root (tree s) root_ptr) in
        new_page ← page_at s new_ptr;
        page ← page_at s root_ptr;
        let new_root_page :=
          SetSize
            (SetValueAt
               (SetKeyAt
                  (SetValueAt
                     (Internal_Init page root_ptr INVALID_PAGE_ID
                        (internal_max_size_ (tree s)))
                     0 (GetPageId old_page))
                  1 key)
               1 (GetPageId new_page))
            2 in
        let s := with_tree s (UpdateRootPageId (put (tree s) root_ptr new_root_page) 0) in
        old_page ← page_at s old_ptr;
        let s := write s old_ptr (SetParentPageId old_page (GetPageId new_root_page)) in
        new_page ← page_at s new_ptr;
        let s := write s new_ptr (SetParentPageId new_page (GetPageId new_root_page)) in
        let s := UnpinPage s (GetPageId new_root_page) in
        let s := UnpinPage s (GetPageId new_page) in
        ReleaseWLatches s transaction
      else
        let parent_ptr := GetParentPageId old_page in
        '(parent_inter_page, s) ← FetchPage s parent_ptr;
        new_page ← page_at s new_ptr;
        parent_inter_page ← Internal_Insert parent_inter_page key (GetPageId new_page);
        let s := write s parent_ptr parent_inter_page in
        new_page ← page_at s new_ptr;
        let s := write s new_ptr (SetParentPageId new_page (GetPageId parent_inter_page)) in
        parent_inter_page ← page_at s parent_ptr;
        new_page ← page_at s new_ptr;
        if GetSize parent_inter_page <=? GetMaxSize parent_inter_page then
          let s := UnpinPage s (GetPageId parent_inter_page) in
          let s := UnpinPage s (GetPageId new_page) in
          ReleaseWLatches s transaction
        else
          let '(new_split_ptr, s) := NewPage s in
          new_split_page ← page_at s new_split_ptr;
          let s := write s new_split_ptr
                     (Internal_Init new_split_page new_split_ptr
                        (GetParentPageId parent_inter_page)
                        (internal_max_size_ (tree s))) in
          let new_split_page_size := Z.quot (internal_max_size_ (tree s)) 2 + 1 in
          let start_index := GetSize parent_inter_page - new_split_page_size in
          (* every child is fetched and unpinned inside the loop *)
          t ← move_to_split (tree s) parent_ptr new_split_ptr new_split_ptr
                start_index (GetSize parent_inter_page);
          let s := with_tree s t in
          parent_inter_page ← page_at s parent_ptr;
          let s := write s parent_ptr
                     (SetSize parent_inter_page
                        (internal_max_size_ (tree s) - new_split_page_size + 1)) in
          let s := UnpinPage s (GetPageId parent_inter_page) in
          let s := UnpinPage s (GetPageId new_page) in
          new_internal_split_page ← page_at s new_split_ptr;
          s ← InsertInParent fuel' s parent_ptr (KeyAt new_internal_split_page 0)
                new_split_ptr transaction;
          ReleaseWLatches s transaction
  end.

(** With one thread the second test of IsEmpty, made under the write
    latch of the root page id, has the outcome of the first. *)
Definition Insert (fuel : nat) (s : LatchedTree) (key value : Z) (transaction : bool)
    : result (bool * LatchedTree) :=
  s ← RLock s;
  if IsEmpty (tree s) then
    s ← RUnlock s;
    s ← WLock s;
    let '(root_ptr, s) := NewPage s in
    let s := with_tree s (UpdateRootPageId (set_root (tree s) root_ptr) 1) in
    page ← page_at s root_ptr;
    let leaf_page :=
      IncreaseSize
        (SetKeyValue
           (Leaf_Init page (root_page_id_ (tree s)) INVALID_PAGE_ID (leaf_max_size_ (tree s)))
           0 key value)
        1 in
    let s := write s root_ptr leaf_page in
    s ← WUnlock s;
    Ok (true, UnpinPage s (root_page_id_ (tree s)))
  else
    '(page, s) ← GetLeafPage fuel s key INSERT true transaction;
    leaf_page ← page_at s page;
    match leaf_lookup leaf_page key with
    | Some _ => s ← ReleaseWLatches s transaction; Ok (false, s)
    | None =>
        leaf_page ← Leaf_Insert leaf_page key value;
        let s := write s page leaf_page in
        if GetSize leaf_page <? GetMaxSize leaf_page then
          s ← ReleaseWLatches s transaction; Ok (true, s)
        else
          let '(new_ptr, s) := NewPage s in
          new_page ← page_at s new_ptr;
          let new_leaf_page :=
            SetNextPageId
              (Leaf_Init new_page new_ptr (GetParentPageId leaf_page)
                 (leaf_max_size_ (tree s)))
              (GetNextPageId leaf_page) in
          let leaf_page := SetNextPageId leaf_page (GetPageId new_leaf_page) in
          let '(leaf_page, new_leaf_page) :=
            MoveHalf leaf_page new_leaf_page (Z.quot (GetMaxSize leaf_page) 2) in
          let s := write (write s page leaf_page) new_ptr new_leaf_page in
          s ← InsertInParent fuel s page (KeyAt new_leaf_page 0) new_ptr transaction;
          Ok (true, s)
    end.

(** [GetPeerNode] fetches the parent and does not unpin it. *)
Definition GetPeerNode (s : LatchedTree) (page : BPlusTreePage)
    : result (Z * Z * LatchedTree) :=
  if IsRootPage page then Throw (logic_error "Root node doesn't have peer nodes!")
  else
    '(parent_page, s) ← FetchPage s (GetParentPageId page);
    let index := FindValueIndex parent_page (GetPageId page) in
    if index =? -1 then Throw (range_error "Can not find value.")
    else
      let l_peer_id := if negb (index =? 0) then ValueAt parent_page (index - 1)
                       else INVALID_PAGE_ID in
      let r_peer_id := if negb (index =? GetSize parent_page - 1)
                       then ValueAt parent_page (index + 1)
                       else INVALID_PAGE_ID in
      Ok (l_peer_id, r_peer_id, s).

(** A sibling is fetched and write-latched when it exists. *)
Definition latch_peer (s : LatchedTree) (peer_id : Z)
    : result (option BPlusTreePage * LatchedTree) :=
  if bool_decide (peer_id = INVALID_PAGE_ID) then Ok (None, s)
  else
    '(p, s) ← FetchPage s peer_id;
    s ← WLatch s peer_id;
    Ok (Some p, s).

(** [if (x_page != nullptr) { x_page->WUnlatch(); UnpinPage(...); }] and,
    for the sibling used, the same without the test. *)
Definition release_peer (s : LatchedTree) (peer_id : Z) : result LatchedTree :=
  s ← WUnlatch s peer_id; Ok (UnpinPage s peer_id).

Definition release_other_peer (s : LatchedTree) (peer_id : Z) : result LatchedTree :=
  if bool_decide (peer_id = INVALID_PAGE_ID) then Ok s else release_peer s peer_id.

Definition MergePage
    (DeleteEntry : LatchedTree -> Z -> Z -> result LatchedTree)
    (s : LatchedTree) (left_ptr right_ptr parent_ptr : Z) : result LatchedTree :=
  left ← page_at s left_ptr;
  right ← page_at s right_ptr;
  parent ← page_at s parent_ptr;
  let idx := FindValueIndex parent (GetPageId right) in
  _ ← in_array idx;
  let key_between := KeyAt parent idx in
  let '(right', left') :=
    if IsLeafPage left then
      let '(r, l) := Leaf_MoveAll right left (GetSize left) in
      (r, SetNextPageId l (GetNextPageId r))
    else
      let l :=
        IncreaseSize
          (SetValueAt (SetKeyAt left (GetSize left) key_between)
             (GetSize left) (ValueAt right 0)) 1 in
      Internal_MoveAll right l (GetSize l) in
  let s := write (write s right_ptr right') left_ptr left' in
  let s := AddIntoDeletedPageSet s (GetPageId right) in
  DeleteEntry s parent_ptr key_between.

(** The part of [DeleteEntry] that runs when the page is below its
    minimum size (lines 410-560). *)
Definition rebalance_page
    (DeleteEntry : LatchedTree -> Z -> Z -> result LatchedTree)
    (s : LatchedTree) (page_ptr : Z) (page : BPlusTreePage) (transaction : bool)
    : result LatchedTree :=
  '(left_peer_id, right_peer_id, s) ← GetPeerNode s page;
  if bool_decide (left_peer_id = INVALID_PAGE_ID)
     && bool_decide (right_peer_id = INVALID_PAGE_ID)
  then Throw (logic_error "Page doesn't have peer nodes!")
  else
    '(left_peer_page, s) ← latch_peer s left_peer_id;
    '(right_peer_page, s) ← latch_peer s right_peer_id;
    let parent_ptr := GetParentPageId page in
    '(_, s) ← FetchPage s parent_ptr;
    s ← match select_rebalance min_size page left_peer_page right_peer_page with
        | merge_left =>
            s ← release_other_peer s right_peer_id;
            s ← MergePage DeleteEntry s left_peer_id page_ptr parent_ptr;
            release_peer s left_peer_id
        | merge_right =>
            s ← release_other_peer s left_peer_id;
            s ← MergePage DeleteEntry s page_ptr right_peer_id parent_ptr;
            release_peer s right_peer_id
        | borrow_left =>
            s ← release_other_peer s right_peer_id;
            t ← ReDistribution (tree s) left_peer_id page_ptr parent_ptr true;
            release_peer (with_tree s t) left_peer_id
        | borrow_right =>
            s ← release_other_peer s left_peer_id;
            t ← ReDistribution (tree s) page_ptr right_peer_id parent_ptr false;
            release_peer (with_tree s t) right_peer_id
        | no_rebalance =>
            Throw (logic_error
                     (if IsLeafPage page then "Tree structure is wrong!"
                      else "Tree structre is wrong!"))
        end;
    ReleaseWLatches s transaction.

(** The last exit, taken by a page that is not the root and is not below
    its minimum size, returns without a call of [ReleaseWLatches]. *)
Fixpoint DeleteEntry (fuel : nat) (s : LatchedTree) (page_ptr : Z) (key : Z)
    (transaction : bool) : result LatchedTree :=
  match fuel with
  | O => OutOfFuel
  | S fuel' =>
      page ← page_at s page_ptr;
      let '(success, page) :=
        if IsLeafPage page then Leaf_Remove page key else Internal_Remove page key in
      if negb success then ReleaseWLatches s transaction
      else
        let s := write s page_ptr page in
        if IsRootPage page && IsLeafPage page && (GetSize page =? 0) then
          let s := AddIntoDeletedPageSet s (GetPageId page) in
          let s := with_tree s (set_root (tree s) INVALID_PAGE_ID) in
          ReleaseWLatches s transaction
        else if IsRootPage page && ((GetSize page >? 1) || IsLeafPage page) then
          ReleaseWLatches s transaction
        else if IsRootPage page && (GetSize page =? 1) then
          let s := with_tree s (set_root (tree s) (ValueAt page 0)) in
          '(new_root_page, s) ← FetchPage s (root_page_id_ (tree s));
          let s := write s (root_page_id_ (tree s))
                     (SetParentPageId new_root_page INVALID_PAGE_ID) in
          let s := AddIntoDeletedPageSet s (GetPageId page) in
          s ← ReleaseWLatches s transaction;
          let s := UnpinPage s (root_page_id_ (tree s)) in
          Ok (with_tree s (UpdateRootPageId (tree s) 0))
        else if GetSize page <? GetMinSize min_size page then
          rebalance_page (fun s p k => DeleteEntry fuel' s p k transaction)
            s page_ptr page transaction
        else Ok s
  end.

Definition Remove (fuel : nat) (s : LatchedTree) (key : Z) (transaction : bool)
    : result LatchedTree :=
  s ← RLock s;
  if IsEmpty (tree s) then RUnlock s
  else
    '(page, s) ← GetLeafPage fuel s key DELETE true transaction;
    s ← DeleteEntry fuel s page key transaction;
    Ok (with_deleted_page_set (fold_left DeletePage (deleted_page_set s) s) []).

End MinSize.

(** The calls of the scenarios, with one transaction. *)
Definition insert_keys (min_size : bool -> Z -> Z) (fuel : nat) (keys : list Z)
    (s : LatchedTree) : result (list bool * LatchedTree) :=
  fold_left
    (fun acc key =>
       '(rs, s) ← acc;
       '(r, s') ← Insert min_size fuel s key (100 + key) true;
       Ok (rs ++ [r], s'))
    keys (Ok ([], s)).

Definition remove_keys (min_size : bool -> Z -> Z) (fuel : nat) (keys : list Z)
    (s : LatchedTree) : result LatchedTree :=
  fold_left (fun acc key => s ← acc; Remove min_size fuel s key true) keys (Ok s).

(** The state in which Remove(1) leaves the tree of the keys 1 to 5 when
    a leaf of maximum size 3 may hold a single pair. *)
Definition leaf_1_latched : LatchedTree :=
  Eval vm_compute in
    match Remove min_size_half 10 (at_rest tree_1_to_5) 1 true with
    | Ok s => s
    | _ => at_rest tree_1_to_5
    end.

End BPlusTreeLatched.

(** * Theorems *)

(** ** Properties of the extendible hash table *)

Module ExtendibleHashFacts.
Import ExtendibleHash.

Section Overwrite.
Context {K V : Type} `{EqDecision K}.
Variable hash : K -> Z.

Lemma Bucket_Find_assign (k : K) (v v0 : V) (l : list (K * V)) :
  Bucket_Find k l = Some v0 ->
  exists l1 l2,
    l = l1 ++ (k, v0) :: l2 /\ (k ∉ l1.*1) /\
    Bucket_assign k v l = Some (l1 ++ (k, v) :: l2).
Proof.
  induction l as [|[k' v'] l IH]; simpl; [discriminate|].
  destruct (decide (k = k')) as [->|Hne].
  - intros [= ->]. exists [], l. split; [done|]. split; [|done].
    simpl. apply not_elem_of_nil.
  - intros Hf. destruct (IH Hf) as (l1 & l2 & -> & Hnotin & Ha).
    exists ((k', v') :: l1), l2. rewrite Ha. split; [done|]. split; [|done].
    simpl. rewrite not_elem_of_cons. auto.
Qed.
End Overwrite.

(** C4.  ExtendibleHashTableTest.SampleTest: with bucket size 2 and the
    identity hash on integers, inserting the keys 1 to 9 in that order
    leaves local depths 2, 3, 2, 2 at directory slots 0, 1, 2, 3;
    Find(9), Find(8), Find(2) return the values inserted with those keys
    and Find(10) finds nothing; Remove(8), Remove(4), Remove(1) return
    true and Remove(20) returns false. *)
Theorem sample_test_depths_find_remove :
  exists t t1 t2 t3,
    sample_table = Ok t /\
    GetLocalDepth t 0 = Ok 2 /\
    GetLocalDepth t 1 = Ok 3 /\
    GetLocalDepth t 2 = Ok 2 /\
    GetLocalDepth t 3 = Ok 2 /\
    Find hash_int t 9 = Ok (Some "i"%string) /\
    Find hash_int t 8 = Ok (Some "h"%string) /\
    Find hash_int t 2 = Ok (Some "b"%string) /\
    Find hash_int t 10 = Ok None /\
    Remove hash_int t 8 = Ok (true, t1) /\
    Remove hash_int t1 4 = Ok (true, t2) /\
    Remove hash_int t2 1 = Ok (true, t3) /\
    Remove hash_int t3 20 = Ok (false, t3).
Proof.
  do 4 eexists.
  split; [vm_compute; reflexivity|].
  repeat split; vm_compute; reflexivity.
Qed.

(** C10.  Insert of a key that the table already holds (Find succeeds)
    assigns the new value to that key's entry and changes nothing else:
    global depth, bucket count, directory, the depth and capacity of the
    key's bucket, every other bucket and every other entry stay as they
    were, whether or not the bucket is full; no split and no directory
    doubling takes place, for any amount of fuel given to the loop. *)
Theorem Insert_present_key_overwrites
    {K V : Type} `{EqDecision K} (hash : K -> Z)
    (fuel : nat) (t : ExtendibleHashTable) (k : K) (v v0 : V) :
  Find hash t k = Ok (Some v0) ->
  exists r b l1 l2,
    bucket_at t (IndexOf hash t k) = Ok (r, b) /\
    list_ b = l1 ++ (k, v0) :: l2 /\
    (k ∉ l1.*1) /\
    Insert hash fuel t k v =
      Ok {| global_depth_ := global_depth_ t;
            bucket_size_ := bucket_size_ t;
            num_buckets_ := num_buckets_ t;
            dir_ := dir_ t;
            heap_ := <[r := mkBucket (size_ b) (depth_ b) (l1 ++ (k, v) :: l2)]> (heap_ t) |}.
Proof.
  unfold Find, Insert. intros Hfind.
  destruct (bucket_at t (IndexOf hash t k)) as [[r b]| | |] eqn:Hb;
    simpl in Hfind; try discriminate.
  injection Hfind as Hfind.
  destruct (Bucket_Find_assign k v v0 _ Hfind) as (l1 & l2 & Hl & Hnotin & Ha).
  exists r, b, l1, l2. split; [done|]. split; [done|]. split; [done|].
  simpl. rewrite Hfind. unfold Bucket_Insert. rewrite Ha. reflexivity.
Qed.

(** The statement applies to key 1 of the sample table, whose bucket is
    full. *)
Lemma Insert_present_key_overwrites_witness :
  Find hash_int sample_final 1 = Ok (Some "a"%string) /\
  exists r b l1 l2,
    bucket_at sample_final (IndexOf hash_int sample_final 1) = Ok (r, b) /\
    list_ b = l1 ++ (1, "a"%string) :: l2 /\
    (1 ∉ l1.*1) /\
    Insert hash_int 0 sample_final 1 "z"%string =
      Ok {| global_depth_ := global_depth_ sample_final;
            bucket_size_ := bucket_size_ sample_final;
            num_buckets_ := num_buckets_ sample_final;
            dir_ := dir_ sample_final;
            heap_ := <[r := mkBucket (size_ b) (depth_ b) (l1 ++ (1, "z"%string) :: l2)]>
                       (heap_ sample_final) |}.
Proof.
  split; [vm_compute; reflexivity|].
  apply (Insert_present_key_overwrites hash_int 0 sample_final 1 "z"%string "a"%string).
  vm_compute; reflexivity.
Defined.

End ExtendibleHashFacts.


(** ** Properties of the LRU-K replacer *)

Module LRUKFacts.
Import LRUK.

Lemma rscan_None (ev : Z -> bool) (l : list Z) :
  rscan ev l = None <-> forall f, f ∈ l -> ev f = false.
Proof.
  induction l as [|x l IH]; simpl.
  - split; [intros _ f Hf; inversion Hf|done].
  - destruct (rscan ev l) as [[f l'']|] eqn:Hs.
    + split; [discriminate|]. intros Hall.
      assert (Hnone : Some (f, l'') = None); [|discriminate].
      apply IH. intros g Hg. apply Hall. by right.
    + destruct (ev x) eqn:Hx.
      * split; [discriminate|]. intros Hall.
        rewrite Hall in Hx; [discriminate|by left].
      * split; [|done]. intros _ g Hg.
        apply elem_of_cons in Hg as [->|Hg]; [done|].
        by apply IH.
Qed.

Lemma rscan_Some (ev : Z -> bool) (l : list Z) (f : Z) (l' : list Z) :
  rscan ev l = Some (f, l') ->
  exists l1 l2,
    l = l1 ++ f :: l2 /\ l' = l1 ++ l2 /\ ev f = true /\
    forall g, g ∈ l2 -> ev g = false.
Proof.
  revert l'. induction l as [|x l IH]; simpl; intros l'; [discriminate|].
  destruct (rscan ev l) as [[f0 l'']|] eqn:Hs.
  - intros [= <- <-].
    destruct (IH _ eq_refl) as (l1 & l2 & -> & -> & Hf & Hall).
    by exists (x :: l1), l2.
  - destruct (ev x) eqn:Hx; [|discriminate].
    intros [= <- <-]. exists [], l. repeat split; [done|].
    by apply rscan_None.
Qed.

Lemma evictable_entry_iff (r : LRUKReplacer) (f : Z) :
  is_Some (entries_ r !! f) ->
  evictable_ (entry (entries_ r) f) = true <-> tracked_evictable r f.
Proof.
  intros [e He]. unfold entry, tracked_evictable. rewrite He. simpl.
  split; [by exists e|]. by intros (e' & [= <-] & ?).
Qed.

Lemma rscan_backmost (r : LRUKReplacer) (l : list Z) (f : Z) (l' : list Z) :
  (forall g, g ∈ l -> is_Some (entries_ r !! g)) ->
  rscan (fun f => evictable_ (entry (entries_ r) f)) l = Some (f, l') ->
  backmost_evictable r l f l'.
Proof.
  intros Htr Hs. apply rscan_Some in Hs as (l1 & l2 & -> & -> & Hf & Hall).
  exists l1, l2. repeat split.
  - apply evictable_entry_iff; [|done]. apply Htr. set_solver.
  - intros g Hg Hev. apply evictable_entry_iff in Hev.
    + rewrite (Hall g Hg) in Hev. discriminate.
    + apply Htr. set_solver.
Qed.

Lemma rscan_none_tracked (r : LRUKReplacer) (l : list Z) :
  (forall g, g ∈ l -> is_Some (entries_ r !! g)) ->
  rscan (fun f => evictable_ (entry (entries_ r) f)) l = None <->
  forall g, g ∈ l -> ~ tracked_evictable r g.
Proof.
  intros Htr. rewrite rscan_None. split; intros Hall g Hg.
  - intros Hev. apply evictable_entry_iff in Hev; [|by apply Htr].
    rewrite (Hall g Hg) in Hev. discriminate.
  - destruct (evictable_ (entry (entries_ r) g)) eqn:He; [|done].
    exfalso. apply (Hall g Hg). apply evictable_entry_iff; [by apply Htr|done].
Qed.

(** C5.  In a replacer whose lists hold exactly the tracked frames, Evict
    returns a frame exactly when some tracked frame is evictable.  The
    frame returned is the evictable frame nearest to the back of the
    history list (the earliest inserted one) when the history list holds
    an evictable frame, and otherwise the evictable frame nearest to the
    back of the cache list (the least recently refreshed one); it is
    erased from its list and from the entries, and the evictable count
    drops by one.  When no tracked frame is evictable Evict returns false
    and the replacer is unchanged. *)
Theorem Evict_oldest_history_then_lru_cache (r : LRUKReplacer) :
  lists_track_entries r ->
  ((exists f, tracked_evictable r f) <-> exists f r', Evict r = (Some f, r')) /\
  (forall f r', Evict r = (Some f, r') ->
     tracked_evictable r f /\
     entries_ r' = delete f (entries_ r) /\
     curr_size_ r' = size_t_wrap (curr_size_ r - 1) /\
     ((exists g, g ∈ history_list_ r /\ tracked_evictable r g) ->
        backmost_evictable r (history_list_ r) f (history_list_ r') /\
        cache_list_ r' = cache_list_ r) /\
     ((forall g, g ∈ history_list_ r -> ~ tracked_evictable r g) ->
        backmost_evictable r (cache_list_ r) f (cache_list_ r') /\
        history_list_ r' = history_list_ r)) /\
  ((forall f, ~ tracked_evictable r f) -> Evict r = (None, r)).
Proof.
  intros Hwf.
  assert (Hh : forall g, g ∈ history_list_ r -> is_Some (entries_ r !! g))
    by (intros g Hg; apply Hwf; by left).
  assert (Hc : forall g, g ∈ cache_list_ r -> is_Some (entries_ r !! g))
    by (intros g Hg; apply Hwf; by right).
  assert (Hsome : forall f r', Evict r = (Some f, r') ->
     tracked_evictable r f /\
     entries_ r' = delete f (entries_ r) /\
     curr_size_ r' = size_t_wrap (curr_size_ r - 1) /\
     ((exists g, g ∈ history_list_ r /\ tracked_evictable r g) ->
        backmost_evictable r (history_list_ r) f (history_list_ r') /\
        cache_list_ r' = cache_list_ r) /\
     ((forall g, g ∈ history_list_ r -> ~ tracked_evictable r g) ->
        backmost_evictable r (cache_list_ r) f (cache_list_ r') /\
        history_list_ r' = history_list_ r)).
  { intros f r'. unfold Evict.
    destruct (rscan _ (history_list_ r)) as [[fh h']|] eqn:Hsh.
    - intros [= <- <-]. simpl.
      pose proof (rscan_backmost r _ _ _ Hh Hsh) as Hb.
      split; [by destruct Hb as (? & ? & _ & _ & ? & _)|].
      split; [done|]. split; [done|]. split; [done|].
      intros Hnone. exfalso.
      destruct Hb as (l1 & l2 & Hl & _ & Hev & _).
      apply (Hnone fh); [|done]. rewrite Hl. set_solver.
    - destruct (rscan _ (cache_list_ r)) as [[fc c']|] eqn:Hsc; [|discriminate].
      intros [= <- <-]. simpl.
      pose proof (rscan_backmost r _ _ _ Hc Hsc) as Hb.
      split; [by destruct Hb as (? & ? & _ & _ & ? & _)|].
      split; [done|]. split; [done|]. split; [|done].
      intros (g & Hg & Hev). exfalso.
      by apply (proj1 (rscan_none_tracked r _ Hh) Hsh g). }
  assert (Hnone : (forall f, ~ tracked_evictable r f) -> Evict r = (None, r)).
  { intros Hno. unfold Evict.
    assert (H1 : rscan (fun f => evictable_ (entry (entries_ r) f)) (history_list_ r) = None)
      by (apply rscan_none_tracked; [done|]; intros g _; apply Hno).
    assert (H2 : rscan (fun f => evictable_ (entry (entries_ r) f)) (cache_list_ r) = None)
      by (apply rscan_none_tracked; [done|]; intros g _; apply Hno).
    by rewrite H1, H2. }
  split; [|split; [exact Hsome|exact Hnone]].
  split.
  - intros (f & Hev).
    destruct (Evict r) as [[f'|] r'] eqn:He; [by exists f', r'|].
    exfalso.
    unfold Evict in He.
    destruct (rscan _ (history_list_ r)) as [[fh h']|] eqn:Hsh; [discriminate|].
    destruct (rscan _ (cache_list_ r)) as [[fc c']|] eqn:Hsc; [discriminate|].
    pose proof (proj1 (rscan_none_tracked r _ Hh) Hsh) as Hsh'.
    pose proof (proj1 (rscan_none_tracked r _ Hc) Hsc) as Hsc'.
    assert (Hin : f ∈ history_list_ r \/ f ∈ cache_list_ r).
    { apply Hwf. destruct Hev as (e & -> & _). by eexists. }
    destruct Hin as [Hin|Hin]; [by apply (Hsh' f)|by apply (Hsc' f)].
  - intros (f & r' & He). exists f. by apply (Hsome f r').
Qed.

Lemma Evict_oldest_history_then_lru_cache_witness :
  lists_track_entries evict_example /\
  ((exists f, tracked_evictable evict_example f) <->
     exists f r', Evict evict_example = (Some f, r')) /\
  (forall f r', Evict evict_example = (Some f, r') ->
     tracked_evictable evict_example f /\
     entries_ r' = delete f (entries_ evict_example) /\
     curr_size_ r' = size_t_wrap (curr_size_ evict_example - 1) /\
     ((exists g, g ∈ history_list_ evict_example /\ tracked_evictable evict_example g) ->
        backmost_evictable evict_example (history_list_ evict_example) f (history_list_ r') /\
        cache_list_ r' = cache_list_ evict_example) /\
     ((forall g, g ∈ history_list_ evict_example -> ~ tracked_evictable evict_example g) ->
        backmost_evictable evict_example (cache_list_ evict_example) f (cache_list_ r') /\
        history_list_ r' = history_list_ evict_example)) /\
  ((forall f, ~ tracked_evictable evict_example f) ->
     Evict evict_example = (None, evict_example)).
Proof.
  assert (Hwf : lists_track_entries evict_example).
  { intros f. unfold evict_example; simpl.
    rewrite !elem_of_cons, !elem_of_nil.
    split.
    - intros [[->|[->|[]]]|[->|[]]]; vm_compute; eauto.
    - intros [e He].
      destruct (decide (f = 1)) as [->|?]; [tauto|].
      destruct (decide (f = 2)) as [->|?]; [tauto|].
      destruct (decide (f = 3)) as [->|?]; [tauto|].
      rewrite !lookup_insert_ne, lookup_empty in He by done. discriminate. }
  split; [exact Hwf|].
  exact (Evict_oldest_history_then_lru_cache evict_example Hwf).
Defined.

Lemma static_cast_int_id (n : Z) : 0 <= n <= INT_MAX -> static_cast_int n = n.
Proof.
  unfold static_cast_int, INT_MAX. intros Hn.
  rewrite Z.mod_small by lia.
  destruct (n <? 2 ^ 31) eqn:Hlt; [done|]. apply Z.ltb_ge in Hlt. lia.
Qed.

(** C8.  For a replacer whose size fits the [int] it is cast to, each of
    RecordAccess, SetEvictable and Remove raises the invalid-argument
    error exactly when the frame id is strictly greater than the replacer
    size.  A frame id equal to the size is accepted and processed:
    RecordAccess starts tracking it at the front of the history list,
    SetEvictable sets its flag and Remove drops it, although the frames
    are numbered from 0 to size - 1. *)
Theorem frame_id_bound_check_is_strict (r : LRUKReplacer) :
  0 <= replacer_size_ r <= INT_MAX ->
  (forall f,
     (RecordAccess r f = Throw (invalid_argument f) <-> replacer_size_ r < f) /\
     (forall b, SetEvictable r f b = Throw (invalid_argument f) <-> replacer_size_ r < f) /\
     (Remove r f = Throw (invalid_argument f) <-> replacer_size_ r < f)) /\
  (entries_ r !! replacer_size_ r = None ->
     RecordAccess r (replacer_size_ r) =
       Ok (mkReplacer (replacer_size_ r) (k_ r) (size_t_wrap (curr_size_ r + 1))
             (replacer_size_ r :: history_list_ r) (cache_list_ r)
             (<[replacer_size_ r := mkEntry 1 true]> (entries_ r)))) /\
  (forall e b, entries_ r !! replacer_size_ r = Some e ->
     exists c,
       SetEvictable r (replacer_size_ r) b =
         Ok (mkReplacer (replacer_size_ r) (k_ r) c
               (history_list_ r) (cache_list_ r)
               (<[replacer_size_ r := mkEntry (in_count_ e) b]> (entries_ r)))) /\
  (forall e, entries_ r !! replacer_size_ r = Some e ->
     in_count_ e < k_ r -> replacer_size_ r ∈ history_list_ r ->
     Remove r (replacer_size_ r) =
       Ok (mkReplacer (replacer_size_ r) (k_ r) (size_t_wrap (curr_size_ r - 1))
             (erase_first (replacer_size_ r) (history_list_ r)) (cache_list_ r)
             (delete (replacer_size_ r) (entries_ r)))).
Proof.
  intros Hsz. pose proof (static_cast_int_id _ Hsz) as Hcast.
  split; [|split; [|split]].
  - intros f. unfold RecordAccess, SetEvictable, Remove. rewrite Hcast.
    destruct (f >? replacer_size_ r) eqn:Hgt.
    + apply Z.gtb_lt in Hgt. repeat split; try done; intros; done.
    + assert (Hle : ~ replacer_size_ r < f)
        by (intros Hlt; apply Z.gtb_lt in Hlt; congruence).
      split; [|split].
      * split; [|done].
        repeat case_match; simpl; try discriminate;
          unfold erase; repeat case_decide; simpl; discriminate.
      * intros b. split; [|done]. repeat case_match; discriminate.
      * split; [|done].
        repeat case_match; simpl; try discriminate;
          unfold erase; repeat case_decide; simpl; discriminate.
  - intros Hnone. unfold RecordAccess. rewrite Hcast.
    rewrite Z.gtb_ltb, Z.ltb_irrefl.
    unfold entry. rewrite Hnone. simpl. reflexivity.
  - intros e b He. unfold SetEvictable. rewrite Hcast.
    rewrite Z.gtb_ltb, Z.ltb_irrefl, He. eexists. reflexivity.
  - intros e He Hcnt Hin. unfold Remove. rewrite Hcast.
    rewrite Z.gtb_ltb, Z.ltb_irrefl, He.
    apply Z.ltb_lt in Hcnt. rewrite Hcnt.
    unfold erase. rewrite decide_True by done. reflexivity.
Qed.

Lemma frame_id_bound_check_is_strict_witness :
  0 <= replacer_size_ bound_example <= INT_MAX /\
  RecordAccess bound_example 7 =
    Ok (mkReplacer 7 2 1 [7] [] (<[7 := mkEntry 1 true]> ∅)) /\
  RecordAccess bound_example 8 = Throw (invalid_argument 8).
Proof.
  assert (Hsz : 0 <= replacer_size_ bound_example <= INT_MAX) by (vm_compute; split; discriminate).
  destruct (frame_id_bound_check_is_strict bound_example Hsz) as (Hthrow & Hrec & _).
  split; [exact Hsz|]. split.
  - exact (Hrec eq_refl).
  - apply (proj1 (Hthrow 8)). vm_compute. reflexivity.
Defined.

(** *** The invariant holds in every reachable state *)

Lemma erase_first_elem_of (f g : Z) (l : list Z) :
  g <> f -> g ∈ erase_first f l <-> g ∈ l.
Proof.
  intros Hne. induction l as [|x l IH]; simpl; [done|].
  destruct (decide (x = f)) as [->|Hx].
  - rewrite elem_of_cons. split; [by right|]. by intros [?|?].
  - by rewrite !elem_of_cons, IH.
Qed.

Lemma erase_first_perm (f : Z) (l : list Z) :
  f ∈ l -> l ≡ₚ f :: erase_first f l.
Proof.
  induction l as [|x l IH]; simpl; [by intros ?%elem_of_nil|].
  destruct (decide (x = f)) as [->|Hx]; [done|].
  intros [?|Hin]%elem_of_cons; [congruence|].
  rewrite (IH Hin) at 1. apply Permutation_swap.
Qed.

Lemma new_replacer_invariant (num_frames k : Z) :
  replacer_invariant (new_replacer num_frames k).
Proof.
  split.
  - intros f. unfold new_replacer; simpl. split.
    + intros [H|H]; inversion H.
    + intros [e He]. by rewrite lookup_empty in He.
  - constructor.
  - intros f e He. simpl in He. by rewrite lookup_empty in He.
Qed.

Lemma untracked_not_listed (r : LRUKReplacer) (f : Z) :
  lists_track_entries r -> entries_ r !! f = None ->
  f ∉ history_list_ r ++ cache_list_ r.
Proof.
  intros Hl Hnone Hin. apply elem_of_app in Hin.
  apply Hl in Hin as [e He]. congruence.
Qed.

Lemma RecordAccess_invariant (r r' : LRUKReplacer) (f : Z) :
  replacer_invariant r ->
  in_count_ (entry (entries_ r) f) + 1 < 2 ^ 64 ->
  RecordAccess r f = Ok r' ->
  replacer_invariant r'.
Proof.
  intros [Hl Hnd Hcnt] Hov. unfold RecordAccess.
  destruct (f >? static_cast_int (replacer_size_ r)); [discriminate|].
  set (c := in_count_ (entry (entries_ r) f)) in *.
  assert (Hc0 : 0 <= c).
  { unfold c, entry. destruct (entries_ r !! f) as [e|] eqn:He; simpl; [|done].
    specialize (Hcnt f e He). lia. }
  assert (Hwrap : size_t_wrap (c + 1) = c + 1)
    by (unfold size_t_wrap; apply Z.mod_small; lia).
  rewrite Hwrap.
  assert (Htracked : c + 1 <> 1 -> is_Some (entries_ r !! f)).
  { intros Hne. unfold c, entry in Hne.
    destruct (entries_ r !! f) as [e|]; [by eexists|]. simpl in Hne. lia. }
  assert (Hcount' : forall g e',
            <[f := mkEntry (c + 1) (evictable_ (entry (entries_ r) f))]> (entries_ r) !! g
              = Some e' -> 1 <= in_count_ e' < 2 ^ 64).
  { intros g e'. destruct (decide (f = g)) as [->|Hne].
    - rewrite lookup_insert_eq. intros [= <-]. simpl. lia.
    - rewrite lookup_insert_ne by done. apply Hcnt. }
  destruct (c + 1 =? 1) eqn:H1.
  - (* first access *)
    apply Z.eqb_eq in H1. intros [= <-].
    assert (Hnone : entries_ r !! f = None).
    { destruct (entries_ r !! f) as [e|] eqn:He; [|done].
      specialize (Hcnt f e He). unfold c, entry in H1. rewrite He in H1. simpl in H1. lia. }
    split; simpl; [| |done].
    + intros g; simpl. rewrite elem_of_cons. destruct (decide (g = f)) as [->|Hne].
      * rewrite lookup_insert_eq. split; [by eexists|by left; left].
      * rewrite lookup_insert_ne by done. rewrite <- (Hl g). intuition congruence.
    + constructor; [|done]. by apply untracked_not_listed.
  - apply Z.eqb_neq in H1. destruct (Htracked H1) as [e He].
    destruct (c + 1 =? k_ r).
    + (* moves from the history list to the cache list *)
      unfold erase. case_decide as Hin; [|discriminate]. simpl. intros [= <-].
      split; simpl; [| |done].
      * intros g; simpl. destruct (decide (g = f)) as [->|Hne].
        -- rewrite lookup_insert_eq. split; [by eexists|]. intros _. right. by left.
        -- rewrite lookup_insert_ne by done. rewrite <- (Hl g).
           rewrite erase_first_elem_of, elem_of_cons by done. intuition congruence.
      * rewrite (erase_first_perm f _ Hin) in Hnd. simpl in Hnd.
        eapply NoDup_Permutation_proper; [|exact Hnd].
        symmetry. apply Permutation_middle.
    + destruct (c + 1 >? k_ r).
      * (* refreshed at the front of the cache list *)
        unfold erase. case_decide as Hin; [|discriminate]. simpl. intros [= <-].
        split; simpl; [| |done].
        -- intros g; simpl. destruct (decide (g = f)) as [->|Hne].
           ++ rewrite lookup_insert_eq. split; [by eexists|]. intros _. right. by left.
           ++ rewrite lookup_insert_ne by done. rewrite <- (Hl g).
              rewrite elem_of_cons, erase_first_elem_of by done. intuition congruence.
        -- rewrite (erase_first_perm f _ Hin) in Hnd. exact Hnd.
      * intros [= <-]. split; simpl; [|done|done].
        intros g; simpl. destruct (decide (g = f)) as [->|Hne].
        -- rewrite lookup_insert_eq. split; [by eexists|]. intros _. apply Hl. by eexists.
        -- rewrite lookup_insert_ne by done. apply Hl.
Qed.

Lemma SetEvictable_invariant (r r' : LRUKReplacer) (f : Z) (b : bool) :
  replacer_invariant r -> SetEvictable r f b = Ok r' -> replacer_invariant r'.
Proof.
  intros [Hl Hnd Hcnt]. unfold SetEvictable.
  destruct (f >? static_cast_int (replacer_size_ r)); [discriminate|].
  destruct (entries_ r !! f) as [e|] eqn:He; intros [= <-]; [|done].
  split; simpl; [|done|].
  - intros g; simpl. destruct (decide (g = f)) as [->|Hne].
    + rewrite lookup_insert_eq. split; [by eexists|]. intros _. apply Hl. by eexists.
    + rewrite lookup_insert_ne by done. apply Hl.
  - intros g e'. destruct (decide (f = g)) as [->|Hne].
    + rewrite lookup_insert_eq. intros [= <-]. simpl. by apply (Hcnt g e).
    + rewrite lookup_insert_ne by done. apply Hcnt.
Qed.

(** Dropping the single occurrence of a tracked frame. *)
Lemma drop_frame_invariant (r : LRUKReplacer) (f : Z)
    (history cache : list Z) (c : Z) :
  replacer_invariant r ->
  history_list_ r ++ cache_list_ r ≡ₚ f :: (history ++ cache) ->
  (forall g, g <> f -> (g ∈ history <-> g ∈ history_list_ r) /\
                        (g ∈ cache <-> g ∈ cache_list_ r)) ->
  replacer_invariant
    (mkReplacer (replacer_size_ r) (k_ r) c history cache (delete f (entries_ r))).
Proof.
  intros [Hl Hnd Hcnt] Hperm Hother.
  rewrite Hperm in Hnd. apply NoDup_cons in Hnd as [Hnotin Hnd'].
  split; simpl; [|done|].
  - intros g; simpl. destruct (decide (g = f)) as [->|Hne].
    + rewrite lookup_delete_eq. split; [|by intros [? ?]].
      intros Hin. exfalso. apply Hnotin. apply elem_of_app. done.
    + rewrite lookup_delete_ne by done. rewrite <- (Hl g).
      destruct (Hother g Hne) as [-> ->]. done.
  - intros g e. destruct (decide (f = g)) as [->|Hne].
    + by rewrite lookup_delete_eq.
    + rewrite lookup_delete_ne by done. apply Hcnt.
Qed.

Lemma Remove_invariant (r r' : LRUKReplacer) (f : Z) :
  replacer_invariant r -> LRUK.Remove r f = Ok r' -> replacer_invariant r'.
Proof.
  intros Hinv. unfold LRUK.Remove.
  destruct (f >? static_cast_int (replacer_size_ r)); [discriminate|].
  destruct (entries_ r !! f) as [e|] eqn:He; [|by intros [= <-]].
  destruct (in_count_ e <? k_ r); unfold erase; case_decide as Hin; try discriminate;
    simpl; intros [= <-]; apply drop_frame_invariant; try done.
  - rewrite (erase_first_perm f _ Hin) at 1. done.
  - intros g Hne. split; [by apply erase_first_elem_of|done].
  - rewrite (erase_first_perm f _ Hin) at 1. symmetry. apply Permutation_middle.
  - intros g Hne. split; [done|by apply erase_first_elem_of].
Qed.

Lemma Evict_invariant (r r' : LRUKReplacer) (victim : option Z) :
  replacer_invariant r -> Evict r = (victim, r') -> replacer_invariant r'.
Proof.
  intros Hinv. pose proof (ri_nodup r Hinv) as Hnd. unfold Evict.
  destruct (rscan _ (history_list_ r)) as [[fh h']|] eqn:Hsh.
  - intros [= <- <-].
    apply rscan_Some in Hsh as (l1 & l2 & Hl & -> & _).
    apply drop_frame_invariant; [done| |].
    + rewrite Hl. rewrite <- !app_assoc. simpl. symmetry. apply Permutation_middle.
    + intros g Hne. split; [|done]. rewrite Hl.
      rewrite !elem_of_app, elem_of_cons. intuition congruence.
  - destruct (rscan _ (cache_list_ r)) as [[fc c']|] eqn:Hsc; [|by intros [= <- <-]].
    intros [= <- <-].
    apply rscan_Some in Hsc as (l1 & l2 & Hl & -> & _).
    apply drop_frame_invariant; [done| |].
    + rewrite Hl. rewrite !app_assoc. symmetry. apply Permutation_middle.
    + intros g Hne. split; [done|]. rewrite Hl.
      rewrite !elem_of_app, elem_of_cons. intuition congruence.
Qed.

(** Every state that the operations produce from a new replacer
    satisfies the invariant; in particular its lists hold exactly the
    tracked frames, which is what the statement on Evict asks for. *)
Lemma reachable_invariant (r : LRUKReplacer) :
  reachable r -> replacer_invariant r.
Proof.
  induction 1 as [n k|r r' f _ IH Hov Hop|r r' f b _ IH Hop|r r' f _ IH Hop|r r' v _ IH Hop].
  - apply new_replacer_invariant.
  - by apply (RecordAccess_invariant r r' f).
  - by apply (SetEvictable_invariant r r' f b).
  - by apply (Remove_invariant r r' f).
  - by apply (Evict_invariant r r' v).
Qed.

Lemma reachable_lists_track_entries (r : LRUKReplacer) :
  reachable r -> lists_track_entries r.
Proof. intros Hr. apply ri_lists. by apply reachable_invariant. Qed.

End LRUKFacts.

(** ** Properties of the buffer pool manager *)

Module BufferPoolFacts.
Import LRUK BufferPool LRUKFacts.

Lemma is_page_available_true (b : BufferPoolManagerInstance) :
  is_page_available b = true <->
  exists i p, pages_ b !! i = Some p /\ pin_count_ p = 0.
Proof.
  unfold is_page_available. rewrite existsb_exists. split.
  - intros (p & Hin & Hp). apply list_elem_of_In, list_elem_of_lookup in Hin as [i Hi].
    exists i, p. split; [done|]. by apply Z.eqb_eq.
  - intros (i & p & Hi & Hp). exists p. split.
    + apply list_elem_of_In, list_elem_of_lookup. by exists i.
    + by apply Z.eqb_eq.
Qed.

Lemma is_page_available_false (b : BufferPoolManagerInstance) :
  is_page_available b = false <->
  forall i p, pages_ b !! i = Some p -> pin_count_ p <> 0.
Proof.
  split.
  - intros Hf i p Hi Hp.
    assert (is_page_available b = true) by (apply is_page_available_true; eauto).
    congruence.
  - intros Hall. destruct (is_page_available b) eqn:Ha; [|done].
    apply is_page_available_true in Ha as (i & p & Hi & Hp).
    by destruct (Hall i p Hi).
Qed.

Lemma gtb_false (f s : Z) : f <= s -> (f >? s) = false.
Proof. intros Hle. rewrite Z.gtb_ltb. apply Z.ltb_ge. lia. Qed.

Lemma RecordAccess_untracked (r : LRUKReplacer) (f : Z) :
  0 <= replacer_size_ r <= INT_MAX ->
  f <= replacer_size_ r ->
  entries_ r !! f = None ->
  RecordAccess r f =
    Ok (mkReplacer (replacer_size_ r) (k_ r) (size_t_wrap (curr_size_ r + 1))
          (f :: history_list_ r) (cache_list_ r)
          (<[f := mkEntry 1 true]> (entries_ r))).
Proof.
  intros Hsz Hle Hnone. unfold RecordAccess.
  rewrite (static_cast_int_id _ Hsz).
  rewrite (gtb_false _ _ Hle). unfold entry. rewrite Hnone. reflexivity.
Qed.

Lemma SetEvictable_tracked (r : LRUKReplacer) (f : Z) (e : LRUKEntry) (flag : bool) :
  0 <= replacer_size_ r <= INT_MAX ->
  f <= replacer_size_ r ->
  entries_ r !! f = Some e ->
  exists c,
    SetEvictable r f flag =
      Ok (mkReplacer (replacer_size_ r) (k_ r) c (history_list_ r) (cache_list_ r)
            (<[f := mkEntry (in_count_ e) flag]> (entries_ r))).
Proof.
  intros Hsz Hle He. unfold SetEvictable.
  rewrite (static_cast_int_id _ Hsz).
  rewrite (gtb_false _ _ Hle), He. eexists. reflexivity.
Qed.

(** Pinning a frame whose replacer entry is absent: the tail shared by
    NewPgImp and FetchPgImp succeeds. *)
Lemma install_untracked (b : BufferPoolManagerInstance) (page_id f : Z) (read : bool) (p : Page) :
  0 <= replacer_size_ (replacer_ b) <= INT_MAX ->
  0 <= f <= replacer_size_ (replacer_ b) ->
  pages_ b !! Z.to_nat f = Some p ->
  entries_ (replacer_ b) !! f = None ->
  exists c,
    install b page_id f read =
      Ok (mkBPM
            (<[Z.to_nat f := mkPage (if read then ReadPage (disk_ b) page_id else data_ p)
                               page_id 1 (is_dirty_ p)]> (pages_ b))
            (<[page_id := f]> (page_table_ b))
            (mkReplacer (replacer_size_ (replacer_ b)) (k_ (replacer_ b)) c
               (f :: history_list_ (replacer_ b)) (cache_list_ (replacer_ b))
               (<[f := mkEntry 1 false]> (entries_ (replacer_ b))))
            (free_list_ b) (next_page_id_ b) (disk_ b)).
Proof.
  intros Hsz Hf Hp Hnone. unfold install, frame.
  replace (f <? 0) with false by (symmetry; apply Z.ltb_ge; lia).
  rewrite Hp. simpl.
  rewrite (RecordAccess_untracked _ _ Hsz) by (lia || done). simpl.
  destruct (SetEvictable_tracked
              (mkReplacer (replacer_size_ (replacer_ b)) (k_ (replacer_ b))
                 (size_t_wrap (curr_size_ (replacer_ b) + 1))
                 (f :: history_list_ (replacer_ b)) (cache_list_ (replacer_ b))
                 (<[f := mkEntry 1 true]> (entries_ (replacer_ b))))
              f (mkEntry 1 true) false) as [c Hc]; simpl; try (lia || done).
  { apply lookup_insert_eq. }
  rewrite Hc. simpl. rewrite insert_insert_eq. by exists c.
Qed.

Lemma Evict_finds (r : LRUKReplacer) (g : Z) :
  lists_track_entries r ->
  tracked_evictable r g ->
  exists f r',
    Evict r = (Some f, r') /\
    is_Some (entries_ r !! f) /\
    entries_ r' = delete f (entries_ r) /\
    replacer_size_ r' = replacer_size_ r.
Proof.
  intros Hwf Hg.
  assert (Hh : forall g, g ∈ history_list_ r -> is_Some (entries_ r !! g))
    by (intros x Hx; apply Hwf; by left).
  assert (Hc : forall g, g ∈ cache_list_ r -> is_Some (entries_ r !! g))
    by (intros x Hx; apply Hwf; by right).
  unfold Evict.
  destruct (rscan _ (history_list_ r)) as [[fh h']|] eqn:Hsh.
  - exists fh, (mkReplacer (replacer_size_ r) (k_ r) (size_t_wrap (curr_size_ r - 1))
                  h' (cache_list_ r) (delete fh (entries_ r))).
    split; [done|]. split; [|done].
    apply rscan_Some in Hsh as (l1 & l2 & Hl & _). apply Hh. rewrite Hl. set_solver.
  - destruct (rscan _ (cache_list_ r)) as [[fc c']|] eqn:Hsc.
    + exists fc, (mkReplacer (replacer_size_ r) (k_ r) (size_t_wrap (curr_size_ r - 1))
                    (history_list_ r) c' (delete fc (entries_ r))).
      split; [done|]. split; [|done].
      apply rscan_Some in Hsc as (l1 & l2 & Hl & _). apply Hc. rewrite Hl. set_solver.
    + exfalso.
      pose proof (proj1 (rscan_none_tracked r _ Hh) Hsh) as Hsh'.
      pose proof (proj1 (rscan_none_tracked r _ Hc) Hsc) as Hsc'.
      assert (Hin : g ∈ history_list_ r \/ g ∈ cache_list_ r).
      { apply Hwf. destruct Hg as (e & -> & _). by eexists. }
      destruct Hin as [Hin|Hin]; [by apply (Hsh' g)|by apply (Hsc' g)].
Qed.

Lemma frame_lookup (b : BufferPoolManagerInstance) (f : Z) :
  0 <= f < pool_size_ b -> exists p, pages_ b !! Z.to_nat f = Some p.
Proof.
  unfold pool_size_. intros Hf.
  destruct (lookup_lt_is_Some_2 (pages_ b) (Z.to_nat f)) as [p Hp]; [lia|]. eauto.
Qed.

(** Under the frame invariant NewPgImp succeeds as soon as some frame is
    unpinned. *)
Lemma NewPgImp_succeeds (b : BufferPoolManagerInstance) :
  pool_invariant b ->
  (exists i p, pages_ b !! i = Some p /\ pin_count_ p = 0) ->
  exists page_id frame_id b' p',
    NewPgImp b = Ok (page_id, frame_id, b') /\
    frame b' frame_id = Ok p' /\
    page_id_ p' = page_id /\
    pin_count_ p' = 1 /\
    (exists e, entries_ (replacer_ b') !! frame_id = Some e /\ evictable_ e = false) /\
    page_table_ b' !! page_id = Some frame_id.
Proof.
  intros Hinv Hunp.
  pose proof (proj2 (is_page_available_true b) Hunp) as Hav.
  assert (Hsz : 0 <= replacer_size_ (replacer_ b) <= INT_MAX).
  { rewrite (inv_replacer_size b Hinv). split; [unfold pool_size_; lia|].
    apply (inv_pool_size b Hinv). }
  unfold NewPgImp. rewrite Hav. simpl.
  unfold take_frame. simpl.
  destruct (free_list_ b) as [|f rest] eqn:Hfree.
  - (* eviction *)
    destruct Hunp as (i & p & Hi & Hp).
    destruct (inv_unpinned b Hinv i p Hi Hp) as [Hin|Hev].
    { rewrite Hfree in Hin. inversion Hin. }
    destruct (Evict_finds _ _ (inv_lists b Hinv) Hev) as (f & r' & He & Htr & Hent & Hrs).
    rewrite He. simpl.
    pose proof (inv_tracked b Hinv f Htr) as Hf.
    destruct (frame_lookup b f Hf) as [pf Hpf].
    unfold frame at 1. simpl.
    replace (f <? 0) with false by (symmetry; apply Z.ltb_ge; lia).
    rewrite Hpf. simpl.
    set (b2 := mkBPM _ _ _ _ _ _).
    assert (Hlt : (Z.to_nat f < length (pages_ b))%nat)
      by (unfold pool_size_ in Hf; lia).
    destruct (install_untracked b2 (next_page_id_ b) f false
                (ResetMemory (if is_dirty_ pf
                              then mkPage (data_ pf) (page_id_ pf) (pin_count_ pf) false
                              else pf))) as [c Hc]; subst b2; simpl.
    + by rewrite Hrs.
    + rewrite Hrs, (inv_replacer_size b Hinv). lia.
    + by apply list_lookup_insert_eq.
    + rewrite Hent. apply lookup_delete_eq.
    + rewrite Hc. simpl. do 4 eexists. split; [reflexivity|].
      unfold frame; simpl.
      replace (f <? 0) with false by (symmetry; apply Z.ltb_ge; lia).
      rewrite list_lookup_insert_eq by (by rewrite length_insert).
      simpl. split; [reflexivity|]. split; [done|]. split; [done|].
      split; [|apply lookup_insert_eq].
      eexists. split; [apply lookup_insert_eq|done].
  - (* free list *)
    assert (Hfin : f ∈ free_list_ b) by (rewrite Hfree; by left).
    destruct (inv_free_list b Hinv f Hfin) as [Hf Hnone].
    destruct (frame_lookup b f Hf) as [pf Hpf].
    set (b2 := mkBPM _ _ _ _ _ _).
    destruct (install_untracked b2 (next_page_id_ b) f false pf) as [c Hc];
      subst b2; simpl; try done.
    + rewrite (inv_replacer_size b Hinv). lia.
    + rewrite Hc. simpl. do 4 eexists. split; [reflexivity|].
      unfold frame; simpl.
      replace (f <? 0) with false by (symmetry; apply Z.ltb_ge; lia).
      assert (Hlt : (Z.to_nat f < length (pages_ b))%nat)
        by (unfold pool_size_ in Hf; lia).
      rewrite list_lookup_insert_eq by done.
      simpl. split; [reflexivity|]. split; [done|]. split; [done|].
      split; [|apply lookup_insert_eq].
      eexists. split; [apply lookup_insert_eq|done].
Qed.

(** The state after [i] calls of NewPgImp on a fresh pool of [P] frames. *)
Record filled (P i : nat) (b : BufferPoolManagerInstance) : Prop := {
  fl_len : length (pages_ b) = P;
  fl_free : free_list_ b = Z.of_nat <$> seq i (P - i);
  fl_pins : forall j p, pages_ b !! j = Some p ->
    pin_count_ p = if decide (j < i)%nat then 1 else 0;
  fl_size : replacer_size_ (replacer_ b) = Z.of_nat P;
  fl_tracked : forall f, is_Some (entries_ (replacer_ b) !! f) -> 0 <= f < Z.of_nat i
}.

Lemma new_pool_filled (P : nat) (k : Z) (disk : gmap Z (list Byte.byte)) :
  filled P 0 (new_pool P k disk).
Proof.
  split; simpl.
  - apply repeat_length.
  - by rewrite Nat.sub_0_r.
  - intros j p Hj.
    assert (Hp : p = mkPage zeroed INVALID_PAGE_ID 0 false).
    { apply list_elem_of_lookup_2 in Hj. apply list_elem_of_In in Hj.
      by apply repeat_spec in Hj. }
    subst p. destruct (decide (j < 0)%nat); [lia|done].
  - done.
  - intros f [e He]. by rewrite lookup_empty in He.
Qed.

Lemma filled_step (P i : nat) (b : BufferPoolManagerInstance) :
  Z.of_nat P <= INT_MAX ->
  (i < P)%nat ->
  filled P i b ->
  exists b', NewPgImp b = Ok (next_page_id_ b, Z.of_nat i, b') /\ filled P (S i) b'.
Proof.
  intros HP Hi [Hlen Hfree Hpins Hsize Htr].
  destruct (lookup_lt_is_Some_2 (pages_ b) i) as [p Hp]; [lia|].
  assert (Hav : is_page_available b = true).
  { apply is_page_available_true. exists i, p. split; [done|].
    rewrite (Hpins i p Hp). by rewrite decide_False by lia. }
  unfold NewPgImp. rewrite Hav. simpl. unfold take_frame. simpl.
  replace (P - i)%nat with (S (P - S i)) in Hfree by lia.
  simpl in Hfree. rewrite Hfree. simpl.
  set (b2 := mkBPM _ _ _ _ _ _).
  destruct (install_untracked b2 (next_page_id_ b) (Z.of_nat i) false p) as [c Hc];
    subst b2; simpl.
  - rewrite Hsize. lia.
  - rewrite Hsize. lia.
  - by rewrite Nat2Z.id.
  - destruct (entries_ (replacer_ b) !! Z.of_nat i) eqn:He; [|done].
    assert (0 <= Z.of_nat i < Z.of_nat i) by (apply Htr; eauto). lia.
  - rewrite Hc. simpl. eexists. split; [reflexivity|].
    split; simpl.
    + by rewrite length_insert.
    + done.
    + rewrite Nat2Z.id. intros j q Hj.
      destruct (decide (j = i)) as [->|Hne].
      * rewrite list_lookup_insert_eq in Hj by lia. injection Hj as <-. simpl.
        by rewrite decide_True by lia.
      * rewrite list_lookup_insert_ne in Hj by done.
        rewrite (Hpins j q Hj). repeat case_decide; try done; lia.
    + done.
    + intros f [e He]. destruct (decide (f = Z.of_nat i)) as [->|Hne]; [lia|].
      rewrite lookup_insert_ne in He by done.
      assert (0 <= f < Z.of_nat i) by (apply Htr; eauto). lia.
Qed.

Lemma filled_all_pinned (P : nat) (b : BufferPoolManagerInstance) :
  filled P P b ->
  (forall i p, pages_ b !! i = Some p -> pin_count_ p = 1) /\
  NewPgImp b = Throw (logic_error "no available page!").
Proof.
  intros [Hlen Hfree Hpins Hsize Htr].
  assert (Hall : forall i p, pages_ b !! i = Some p -> pin_count_ p = 1).
  { intros i p Hp. rewrite (Hpins i p Hp).
    apply lookup_lt_Some in Hp. by rewrite decide_True by lia. }
  split; [done|].
  unfold NewPgImp.
  replace (is_page_available b) with false; [done|].
  symmetry. apply is_page_available_false. intros i p Hp. rewrite (Hall i p Hp). done.
Qed.

Lemma new_pages_filled (P n : nat) :
  Z.of_nat P <= INT_MAX ->
  forall i b, (i + n = P)%nat -> filled P i b ->
  exists ids b', new_pages n b = Ok (ids, b') /\ length ids = n /\ filled P P b'.
Proof.
  intros HP. induction n as [|n IH]; intros i b Hin Hfl.
  - exists [], b. simpl. assert (i = P) as -> by lia. done.
  - destruct (filled_step P i b HP ltac:(lia) Hfl) as (b1 & Hnew & Hfl1).
    destruct (IH (S i) b1 ltac:(lia) Hfl1) as (ids & b' & Hrec & Hlen & Hfl').
    exists (next_page_id_ b :: ids), b'. simpl. rewrite Hnew. simpl.
    rewrite Hrec. simpl. split; [done|]. split; [by rewrite Hlen|done].
Qed.

Lemma new_pool_invariant (P : nat) (k : Z) (disk : gmap Z (list Byte.byte)) :
  Z.of_nat P <= INT_MAX -> pool_invariant (new_pool P k disk).
Proof.
  intros HP.
  assert (Hlen : pool_size_ (new_pool P k disk) = Z.of_nat P)
    by (unfold pool_size_; simpl; by rewrite repeat_length).
  split.
  - by rewrite Hlen.
  - by rewrite Hlen.
  - intros f Hf. simpl in Hf. rewrite Hlen.
    apply list_elem_of_fmap in Hf as (j & -> & Hj).
    apply elem_of_seq in Hj. split; [lia|]. apply lookup_empty.
  - intros f. simpl. rewrite lookup_empty. split.
    + intros [Hf|Hf]; inversion Hf.
    + intros [e He]. discriminate.
  - intros f [e He]. simpl in He. by rewrite lookup_empty in He.
  - intros i p Hp. simpl in Hp.
    apply list_elem_of_lookup_2, list_elem_of_In, repeat_spec in Hp. by subst p.
  - intros i p Hp _. left. simpl in *.
    apply lookup_lt_Some in Hp. rewrite repeat_length in Hp.
    apply list_elem_of_fmap. exists i. split; [done|]. apply elem_of_seq. lia.
Qed.

(** C6.  In a pool that satisfies the frame invariant, NewPgImp raises
    its capacity error exactly when every frame has a positive pin count;
    when some frame is unpinned it returns a frame holding the new page
    with pin count 1, marked non-evictable in the replacer and mapped in
    the page table.  In particular, after [P] pages have been created in a
    fresh pool of [P] frames and none unpinned, the next NewPgImp
    fails. *)
Theorem NewPgImp_fails_iff_all_pinned :
  (forall b, pool_invariant b ->
     (NewPgImp b = Throw (logic_error "no available page!") <->
      forall i p, pages_ b !! i = Some p -> 0 < pin_count_ p) /\
     ((exists i p, pages_ b !! i = Some p /\ pin_count_ p = 0) ->
      exists page_id frame_id b' p',
        NewPgImp b = Ok (page_id, frame_id, b') /\
        frame b' frame_id = Ok p' /\
        page_id_ p' = page_id /\
        pin_count_ p' = 1 /\
        (exists e, entries_ (replacer_ b') !! frame_id = Some e /\ evictable_ e = false) /\
        page_table_ b' !! page_id = Some frame_id)) /\
  (forall (P : nat) k disk, Z.of_nat P <= INT_MAX ->
     exists ids b',
       new_pages P (new_pool P k disk) = Ok (ids, b') /\
       length ids = P /\
       (forall i p, pages_ b' !! i = Some p -> pin_count_ p = 1) /\
       NewPgImp b' = Throw (logic_error "no available page!")).
Proof.
  split.
  - intros b Hinv. split; [|apply NewPgImp_succeeds; done].
    split.
    + intros Hthrow i p Hp.
      pose proof (inv_pin_count b Hinv i p Hp) as Hge.
      destruct (decide (pin_count_ p = 0)) as [H0|Hne]; [|lia].
      destruct (NewPgImp_succeeds b Hinv) as (? & ? & ? & ? & Hok & _); [eauto|].
      congruence.
    + intros Hall. unfold NewPgImp.
      replace (is_page_available b) with false; [done|].
      symmetry. apply is_page_available_false. intros i p Hp.
      specialize (Hall i p Hp). lia.
  - intros P k disk HP.
    destruct (new_pages_filled P P HP 0%nat (new_pool P k disk) eq_refl
                (new_pool_filled P k disk)) as (ids & b' & Hnew & Hlen & Hfl).
    exists ids, b'. split; [done|]. split; [done|].
    by apply (filled_all_pinned P).
Qed.

(** C7.  FlushPgImp of a resident page other than INVALID_PAGE_ID writes
    the frame's bytes to disk and returns true; the frame array (page id,
    pin count, dirty flag and bytes of every frame), the replacer, the
    page table, the free list and the page-id counter are left as they
    were.  FlushPgImp returns false and changes nothing, the disk
    included, for INVALID_PAGE_ID and for a page id that is not in the
    page table. *)
Theorem FlushPgImp_writes_and_keeps_dirty (b : BufferPoolManagerInstance) (page_id : Z) :
  (forall frame_id p,
     page_id <> INVALID_PAGE_ID ->
     page_table_ b !! page_id = Some frame_id ->
     frame b frame_id = Ok p ->
     FlushPgImp b page_id =
       Ok (true,
           mkBPM (pages_ b) (page_table_ b) (replacer_ b) (free_list_ b)
                 (next_page_id_ b) (<[page_id := data_ p]> (disk_ b)))) /\
  FlushPgImp b INVALID_PAGE_ID = Ok (false, b) /\
  (page_table_ b !! page_id = None -> FlushPgImp b page_id = Ok (false, b)).
Proof.
  unfold FlushPgImp. split; [|split].
  - intros frame_id p Hne Hpt Hfr.
    rewrite decide_False by done. rewrite Hpt, Hfr. reflexivity.
  - by rewrite decide_True.
  - intros Hpt. rewrite Hpt. by case_decide.
Qed.

Lemma FlushPgImp_writes_and_keeps_dirty_witness :
  0 <> INVALID_PAGE_ID /\
  page_table_ dirty_pool !! 0 = Some 0 /\
  frame dirty_pool 0 = Ok (mkPage [Byte.x2a] 0 0 true) /\
  FlushPgImp dirty_pool 0 =
    Ok (true,
        mkBPM (pages_ dirty_pool) (page_table_ dirty_pool) (replacer_ dirty_pool)
              (free_list_ dirty_pool) (next_page_id_ dirty_pool)
              (<[0 := [Byte.x2a]]> (disk_ dirty_pool))).
Proof.
  assert (H1 : 0 <> INVALID_PAGE_ID) by discriminate.
  assert (H2 : page_table_ dirty_pool !! 0 = Some 0) by (vm_compute; reflexivity).
  assert (H3 : frame dirty_pool 0 = Ok (mkPage [Byte.x2a] 0 0 true)) by (vm_compute; reflexivity).
  split; [exact H1|]. split; [exact H2|]. split; [exact H3|].
  exact (proj1 (FlushPgImp_writes_and_keeps_dirty dirty_pool 0) 0 _ H1 H2 H3).
Defined.

Lemma Evict_Some_entries (r r' : LRUKReplacer) (f : Z) :
  Evict r = (Some f, r') ->
  entries_ r' = delete f (entries_ r) /\ replacer_size_ r' = replacer_size_ r.
Proof.
  unfold Evict.
  destruct (rscan _ (history_list_ r)) as [[fh h']|].
  - by intros [= <- <-].
  - destruct (rscan _ (cache_list_ r)) as [[fc c']|]; [|discriminate].
    by intros [= <- <-].
Qed.

(** C9.  When the free list is empty, NewPgImp and FetchPgImp (on a page
    that is not resident) take the frame that the replacer evicts.  The
    victim's bytes are written to disk under its page id if and only if
    its dirty flag was set; in either case the frame is handed over with
    the flag cleared and its memory zeroed, and the page table has lost
    the victim's mapping.  NewPgImp then pins the zeroed frame and maps
    the new page id to it; FetchPgImp does the same after reading the
    requested page into the frame. *)
Theorem eviction_writes_back_iff_dirty
    (b : BufferPoolManagerInstance) (f : Z) (r' : LRUKReplacer) (p : Page) :
  free_list_ b = [] ->
  is_page_available b = true ->
  Evict (replacer_ b) = (Some f, r') ->
  frame b f = Ok p ->
  0 <= replacer_size_ (replacer_ b) <= INT_MAX ->
  f <= replacer_size_ (replacer_ b) ->
  let disk' := if is_dirty_ p then <[page_id_ p := data_ p]> (disk_ b) else disk_ b in
  take_frame b =
    Ok (f,
        mkBPM (<[Z.to_nat f := mkPage zeroed (page_id_ p) (pin_count_ p) false]> (pages_ b))
              (delete (page_id_ p) (page_table_ b))
              r' [] (next_page_id_ b) disk') /\
  (exists r'',
     NewPgImp b =
       Ok (next_page_id_ b, f,
           mkBPM (<[Z.to_nat f := mkPage zeroed (next_page_id_ b) 1 false]> (pages_ b))
                 (<[next_page_id_ b := f]> (delete (page_id_ p) (page_table_ b)))
                 r'' [] (next_page_id_ b + 1) disk')) /\
  (forall page_id, page_table_ b !! page_id = None ->
     exists r'',
       FetchPgImp b page_id =
         Ok (f,
             mkBPM (<[Z.to_nat f := mkPage (ReadPage disk' page_id) page_id 1 false]> (pages_ b))
                   (<[page_id := f]> (delete (page_id_ p) (page_table_ b)))
                   r'' [] (next_page_id_ b) disk')).
Proof.
  intros Hfree Hav He Hfr Hsz Hle disk'.
  destruct (Evict_Some_entries _ _ _ He) as [Hent Hrs].
  assert (Hf0 : 0 <= f /\ pages_ b !! Z.to_nat f = Some p).
  { unfold frame in Hfr. destruct (f <? 0) eqn:Hneg; [discriminate|].
    apply Z.ltb_ge in Hneg. split; [done|].
    destruct (pages_ b !! Z.to_nat f); [by injection Hfr as ->|discriminate]. }
  destruct Hf0 as [Hf0 Hp].
  assert (Hlt : (Z.to_nat f < length (pages_ b))%nat) by (by apply lookup_lt_Some in Hp).
  assert (Hclean : is_dirty_ (if is_dirty_ p
                              then mkPage (data_ p) (page_id_ p) (pin_count_ p) false
                              else p) = false)
    by (destruct (is_dirty_ p) eqn:Hd; [done|exact Hd]).
  split; [|split].
  - unfold take_frame. rewrite Hfree, He. simpl. rewrite Hfr. simpl.
    unfold ResetMemory. rewrite Hclean. subst disk'. unfold WritePage.
    by destruct (is_dirty_ p).
  - unfold NewPgImp. rewrite Hav. simpl. unfold take_frame. simpl.
    rewrite Hfree, He. simpl. unfold frame at 1. simpl.
    replace (f <? 0) with false by (symmetry; apply Z.ltb_ge; lia).
    rewrite Hp. simpl.
    set (b2 := mkBPM _ _ _ _ _ _).
    destruct (install_untracked b2 (next_page_id_ b) f false
                (ResetMemory (if is_dirty_ p
                              then mkPage (data_ p) (page_id_ p) (pin_count_ p) false
                              else p))) as [c Hc]; subst b2; simpl.
    + by rewrite Hrs.
    + rewrite Hrs. lia.
    + by apply list_lookup_insert_eq.
    + rewrite Hent. apply lookup_delete_eq.
    + rewrite Hc. simpl. rewrite Hclean, list_insert_insert_eq.
      eexists. reflexivity.
  - intros page_id Hpt. unfold FetchPgImp. rewrite Hpt, Hav. simpl.
    unfold take_frame. rewrite Hfree, He. simpl. unfold frame at 1.
    replace (f <? 0) with false by (symmetry; apply Z.ltb_ge; lia).
    rewrite Hp. simpl.
    set (b2 := mkBPM _ _ _ _ _ _).
    destruct (install_untracked b2 page_id f true
                (ResetMemory (if is_dirty_ p
                              then mkPage (data_ p) (page_id_ p) (pin_count_ p) false
                              else p))) as [c Hc]; subst b2; simpl.
    + by rewrite Hrs.
    + rewrite Hrs. lia.
    + by apply list_lookup_insert_eq.
    + rewrite Hent. apply lookup_delete_eq.
    + rewrite Hc. simpl. rewrite Hclean, list_insert_insert_eq.
      eexists. reflexivity.
Qed.

Lemma eviction_writes_back_iff_dirty_witness :
  exists r' r'',
    free_list_ dirty_pool = [] /\
    is_page_available dirty_pool = true /\
    Evict (replacer_ dirty_pool) = (Some 0, r') /\
    frame dirty_pool 0 = Ok (mkPage [Byte.x2a] 0 0 true) /\
    NewPgImp dirty_pool =
      Ok (1, 0,
          mkBPM [mkPage zeroed 1 1 false] (<[1 := 0]> (delete 0 (page_table_ dirty_pool)))
                r'' [] 2 (<[0 := [Byte.x2a]]> (disk_ dirty_pool))).
Proof.
  eexists (snd (Evict (replacer_ dirty_pool))).
  assert (H1 : free_list_ dirty_pool = []) by reflexivity.
  assert (H2 : is_page_available dirty_pool = true) by reflexivity.
  assert (H3 : Evict (replacer_ dirty_pool) = (Some 0, snd (Evict (replacer_ dirty_pool))))
    by (vm_compute; reflexivity).
  assert (H4 : frame dirty_pool 0 = Ok (mkPage [Byte.x2a] 0 0 true)) by (vm_compute; reflexivity).
  assert (H5 : 0 <= replacer_size_ (replacer_ dirty_pool) <= INT_MAX)
    by (vm_compute; split; discriminate).
  assert (H6 : 0 <= replacer_size_ (replacer_ dirty_pool)) by (vm_compute; discriminate).
  destruct (proj1 (proj2 (eviction_writes_back_iff_dirty dirty_pool 0 _ _ H1 H2 H3 H4 H5 H6)))
    as [r'' Hnew].
  exists r''. split; [exact H1|]. split; [exact H2|]. split; [exact H3|].
  split; [exact H4|]. exact Hnew.
Defined.

End BufferPoolFacts.

(** ** The frame invariant holds in every reachable state of the pool *)

Module BufferPoolInvariant.
Import LRUK BufferPool LRUKFacts BufferPoolFacts.

Lemma RecordAccess_entries (r r' : LRUKReplacer) (f : Z) :
  RecordAccess r f = Ok r' ->
  replacer_size_ r' = replacer_size_ r /\
  entries_ r' =
    <[f := mkEntry (size_t_wrap (in_count_ (entry (entries_ r) f) + 1))
             (evictable_ (entry (entries_ r) f))]> (entries_ r).
Proof.
  unfold RecordAccess.
  destruct (f >? static_cast_int (replacer_size_ r)); [discriminate|].
  destruct (_ =? 1); [by intros [= <-]|].
  destruct (_ =? k_ r).
  { destruct (erase f (history_list_ r)); simpl; [by intros [= <-]|discriminate..]. }
  destruct (_ >? k_ r).
  { destruct (erase f (cache_list_ r)); simpl; [by intros [= <-]|discriminate..]. }
  by intros [= <-].
Qed.

Lemma SetEvictable_entries (r r' : LRUKReplacer) (f : Z) (flag : bool) :
  SetEvictable r f flag = Ok r' ->
  replacer_size_ r' = replacer_size_ r /\
  entries_ r' =
    match entries_ r !! f with
    | Some e => <[f := mkEntry (in_count_ e) flag]> (entries_ r)
    | None => entries_ r
    end.
Proof.
  unfold SetEvictable.
  destruct (f >? static_cast_int (replacer_size_ r)); [discriminate|].
  destruct (entries_ r !! f); by intros [= <-].
Qed.

Lemma Remove_entries (r r' : LRUKReplacer) (f : Z) :
  LRUK.Remove r f = Ok r' ->
  replacer_size_ r' = replacer_size_ r /\
  entries_ r' = delete f (entries_ r).
Proof.
  unfold LRUK.Remove.
  destruct (f >? static_cast_int (replacer_size_ r)); [discriminate|].
  destruct (entries_ r !! f) as [e|] eqn:He.
  - destruct (in_count_ e <? k_ r).
    + destruct (erase f (history_list_ r)); simpl; [by intros [= <-]|discriminate..].
    + destruct (erase f (cache_list_ r)); simpl; [by intros [= <-]|discriminate..].
  - intros [= <-]. split; [done|]. by rewrite delete_id.
Qed.

Lemma Evict_Some_listed (r r' : LRUKReplacer) (f : Z) :
  Evict r = (Some f, r') -> f ∈ history_list_ r \/ f ∈ cache_list_ r.
Proof.
  unfold Evict.
  destruct (rscan _ (history_list_ r)) as [[fh h']|] eqn:Hsh.
  - intros [= <- <-]. left.
    apply rscan_Some in Hsh as (l1 & l2 & -> & _). set_solver.
  - destruct (rscan _ (cache_list_ r)) as [[fc c']|] eqn:Hsc; [|discriminate].
    intros [= <- <-]. right.
    apply rscan_Some in Hsc as (l1 & l2 & -> & _). set_solver.
Qed.

Lemma tracked_evictable_other (r r' : LRUKReplacer) (f g : Z) :
  g <> f ->
  (forall h, h <> f -> entries_ r' !! h = entries_ r !! h) ->
  tracked_evictable r g -> tracked_evictable r' g.
Proof.
  intros Hne Hsame (e & He & Hev). exists e. by rewrite Hsame.
Qed.

Lemma consistent_invariant (b : BufferPoolManagerInstance) :
  pool_consistent None b -> pool_invariant b.
Proof.
  intros [Hsize Hmax Hfree Hnd Hrep Htr Hpin Hunp Htab Hhole].
  split; [done|done|done|by apply ri_lists|done|done|].
  intros i p Hp H0. destruct (Hunp i p Hp H0) as [?|[?|?]]; [done|by left|by right].
Qed.

Lemma new_pool_consistent (P : nat) (k : Z) (disk : gmap Z (list Byte.byte)) :
  Z.of_nat P <= INT_MAX -> pool_consistent None (new_pool P k disk).
Proof.
  intros HP. destruct (new_pool_invariant P k disk HP) as [H1 H2 H3 H4 H5 H6 H7].
  split; [done|done|done| |apply new_replacer_invariant|done|done| | |done].
  - simpl. apply NoDup_fmap_2; [|apply NoDup_seq]. intros x y. lia.
  - intros i p Hp H0. right. apply (H7 i p Hp H0).
  - intros pid f Hpt. simpl in Hpt. by rewrite lookup_empty in Hpt.
Qed.

(** First half of NewPgImp and FetchPgImp: the frame taken is the hole. *)
Lemma take_frame_consistent (b b2 : BufferPoolManagerInstance) (f : Z) :
  pool_consistent None b ->
  take_frame b = Ok (f, b2) ->
  pool_consistent (Some f) b2.
Proof.
  intros [Hsize Hmax Hfree Hnd Hrep Htr Hpin Hunp Htab Hhole]. unfold take_frame.
  destruct (free_list_ b) as [|f0 rest] eqn:Hfl.
  - (* eviction *)
    destruct (Evict (replacer_ b)) as [[v|] r'] eqn:He; simpl; [|discriminate].
    destruct (frame b v) as [p| | |] eqn:Hfr; simpl; try discriminate.
    intros [= <- <-].
    destruct (Evict_Some_entries _ _ _ He) as [Hent Hrs].
    assert (Htrv : is_Some (entries_ (replacer_ b) !! v)).
    { apply (ri_lists _ Hrep). by apply (Evict_Some_listed _ r'). }
    pose proof (Htr v Htrv) as Hv.
    assert (Hpv : pages_ b !! Z.to_nat v = Some p).
    { unfold frame in Hfr. replace (v <? 0) with false in Hfr
        by (symmetry; apply Z.ltb_ge; lia).
      by destruct (pages_ b !! Z.to_nat v); [injection Hfr as ->|]. }
    split; unfold pool_size_ in *; simpl; rewrite ?length_insert.
    + by rewrite Hrs.
    + done.
    + intros g Hg. inversion Hg.
    + constructor.
    + by apply (Evict_invariant (replacer_ b) r' (Some v)).
    + intros g. rewrite Hent. intros [e Hg].
      apply Htr. destruct (decide (g = v)) as [->|Hne].
      * by rewrite lookup_delete_eq in Hg.
      * rewrite lookup_delete_ne in Hg by done. by eexists.
    + intros i q Hq. destruct (decide (i = Z.to_nat v)) as [->|Hne].
      * rewrite list_lookup_insert_eq in Hq by (by apply lookup_lt_Some in Hpv).
        injection Hq as <-. unfold ResetMemory. simpl.
        destruct (is_dirty_ p); simpl; by apply (Hpin _ _ Hpv).
      * rewrite list_lookup_insert_ne in Hq by done. by apply (Hpin i).
    + intros i q Hq H0. destruct (decide (i = Z.to_nat v)) as [->|Hne].
      * left. f_equal. lia.
      * rewrite list_lookup_insert_ne in Hq by done.
        destruct (Hunp i q Hq H0) as [?|[Hin|Hev]]; [done|by inversion Hin|].
        right. right. apply (tracked_evictable_other (replacer_ b) r' v); [lia| |done].
        intros h Hh. rewrite Hent. by apply lookup_delete_ne.
    + intros pid g Hpt. destruct (decide (pid = page_id_ p)) as [->|Hne].
      { by rewrite lookup_delete_eq in Hpt. }
      rewrite lookup_delete_ne in Hpt by done.
      destruct (Htab pid g Hpt) as (Hg & _ & Htrg & q & Hq & Hqid).
      assert (Hgv : g <> v).
      { intros ->. rewrite Hpv in Hq. injection Hq as <-. congruence. }
      split; [done|]. split; [by intros ?%elem_of_nil|]. split.
      * rewrite Hent. by rewrite lookup_delete_ne.
      * exists q. split; [|done]. rewrite list_lookup_insert_ne; [done|lia].
    + intros g [= <-]. split; [done|]. split; [|by intros ?%elem_of_nil].
      rewrite Hent. apply lookup_delete_eq.
  - (* free list *)
    intros [= <- <-].
    assert (Hf0 : f0 ∈ f0 :: rest) by (by left).
    apply NoDup_cons in Hnd as [Hnotin Hnd'].
    split; simpl; try done.
    + intros g Hg. apply Hfree. by right.
    + intros i q Hq H0. destruct (Hunp i q Hq H0) as [?|[Hin|Hev]]; [done| |by right; right].
      apply elem_of_cons in Hin as [->|Hin]; [by left|by right; left].
    + intros pid g Hpt. destruct (Htab pid g Hpt) as (Hg & Hnf & Hrest).
      split; [done|]. split; [|done]. intros Hin. apply Hnf. by right.
    + intros g [= <-]. destruct (Hfree f0 Hf0) as [? ?]. done.
Qed.

(** Second half: the hole is pinned and tracked again. *)
Lemma install_consistent (b2 b3 : BufferPoolManagerInstance) (page_id f : Z) (read : bool) :
  pool_consistent (Some f) b2 ->
  install b2 page_id f read = Ok b3 ->
  pool_consistent None b3.
Proof.
  intros [Hsize Hmax Hfree Hnd Hrep Htr Hpin Hunp Htab Hhole] Hinst.
  destruct (Hhole f eq_refl) as (Hf & Hnone & Hnotfree).
  destruct (frame_lookup b2 f Hf) as [p Hp].
  assert (Hsz : 0 <= replacer_size_ (replacer_ b2) <= INT_MAX).
  { rewrite Hsize. split; [unfold pool_size_; lia|done]. }
  destruct (install_untracked b2 page_id f read p Hsz) as [c Hc];
    [rewrite Hsize; lia|done|done|].
  rewrite Hc in Hinst. injection Hinst as <-.
  assert (Hlt : (Z.to_nat f < length (pages_ b2))%nat) by (unfold pool_size_ in Hf; lia).
  destruct Hrep as [Hl Hndl Hcnt].
  split; unfold pool_size_ in *; simpl; rewrite ?length_insert.
  - done.
  - done.
  - intros g Hg. destruct (Hfree g Hg) as [Hgv Hgn]. split; [done|].
    rewrite lookup_insert_ne; [done|]. by intros ->.
  - done.
  - split; simpl.
    + intros g; simpl. rewrite elem_of_cons. destruct (decide (g = f)) as [->|Hne].
      * rewrite lookup_insert_eq. split; [by eexists|]. intros _. left. by left.
      * rewrite lookup_insert_ne by done. rewrite <- (Hl g). intuition congruence.
    + constructor; [|done]. by apply untracked_not_listed.
    + intros g e. destruct (decide (f = g)) as [->|Hne].
      * rewrite lookup_insert_eq. intros [= <-]. simpl. lia.
      * rewrite lookup_insert_ne by done. apply Hcnt.
  - intros g [e Hg]. destruct (decide (f = g)) as [->|Hne]; [done|].
    rewrite lookup_insert_ne in Hg by done. apply Htr. by eexists.
  - intros i q Hq. destruct (decide (i = Z.to_nat f)) as [->|Hne].
    + rewrite list_lookup_insert_eq in Hq by done. injection Hq as <-. simpl. lia.
    + rewrite list_lookup_insert_ne in Hq by done. by apply (Hpin i).
  - intros i q Hq H0. right. destruct (decide (i = Z.to_nat f)) as [->|Hne].
    + rewrite list_lookup_insert_eq in Hq by done. injection Hq as <-. simpl in H0. lia.
    + rewrite list_lookup_insert_ne in Hq by done.
      destruct (Hunp i q Hq H0) as [[= ->]|[Hin|Hev]]; [lia|by left|right].
      apply (tracked_evictable_other (replacer_ b2) _ f); [lia| |done].
      intros h Hh. simpl. by apply lookup_insert_ne.
  - intros pid g Hpt. destruct (decide (pid = page_id)) as [->|Hne].
    + rewrite lookup_insert_eq in Hpt. injection Hpt as <-.
      split; [done|]. split; [done|]. split; [rewrite lookup_insert_eq; by eexists|].
      eexists. split; [by apply list_lookup_insert_eq|done].
    + rewrite lookup_insert_ne in Hpt by done.
      destruct (Htab pid g Hpt) as (Hg & Hnf & [e He] & q & Hq & Hqid).
      assert (Hgf : g <> f) by (intros ->; congruence).
      split; [done|]. split; [done|]. split.
      * rewrite lookup_insert_ne by done. by eexists.
      * exists q. split; [|done]. rewrite list_lookup_insert_ne; [done|lia].
  - intros g Hg. discriminate.
Qed.

(** The page-id counter and the disk play no part in the invariant. *)
Lemma pool_consistent_same (hole : option Z) (b b' : BufferPoolManagerInstance) :
  pages_ b' = pages_ b -> page_table_ b' = page_table_ b ->
  replacer_ b' = replacer_ b -> free_list_ b' = free_list_ b ->
  pool_consistent hole b -> pool_consistent hole b'.
Proof.
  destruct b, b'. simpl. intros -> -> -> -> [? ? ? ? ? ? ? ? ? ?]. by split.
Qed.

Lemma NewPgImp_consistent (b b' : BufferPoolManagerInstance) (page_id f : Z) :
  pool_consistent None b -> NewPgImp b = Ok (page_id, f, b') -> pool_consistent None b'.
Proof.
  intros Hc. unfold NewPgImp.
  destruct (negb (is_page_available b)); [discriminate|].
  set (b1 := mkBPM _ _ _ _ _ _).
  assert (Hc1 : pool_consistent None b1) by (by apply (pool_consistent_same None b)).
  destruct (take_frame b1) as [[f0 b2]| | |] eqn:Htake; simpl; try discriminate.
  destruct (install b2 (next_page_id_ b) f0 false) as [b3| | |] eqn:Hinst;
    simpl; try discriminate.
  intros [= <- <- <-].
  apply (install_consistent b2 b3 (next_page_id_ b) f0 false); [|done].
  by apply (take_frame_consistent b1).
Qed.

(** A frame that is resident stays tracked when it is accessed, pinned or
    unpinned: only its own page and entry change. *)
Lemma touch_consistent (b : BufferPoolManagerInstance) (f : Z) (p p' : Page)
    (r' : LRUKReplacer) (e' : LRUKEntry) :
  pool_consistent None b ->
  pages_ b !! Z.to_nat f = Some p ->
  0 <= f ->
  is_Some (entries_ (replacer_ b) !! f) ->
  page_id_ p' = page_id_ p ->
  0 <= pin_count_ p' ->
  (pin_count_ p' = 0 -> evictable_ e' = true) ->
  replacer_invariant r' ->
  replacer_size_ r' = replacer_size_ (replacer_ b) ->
  entries_ r' = <[f := e']> (entries_ (replacer_ b)) ->
  pool_consistent None
    (mkBPM (<[Z.to_nat f := p']> (pages_ b)) (page_table_ b) r'
           (free_list_ b) (next_page_id_ b) (disk_ b)).
Proof.
  intros [Hsize Hmax Hfree Hnd Hrep Htr Hpin Hunp Htab Hhole]
    Hp Hf0 Htrf Hid Hpin' Hev' Hrep' Hrs Hent.
  assert (Hlt : (Z.to_nat f < length (pages_ b))%nat) by (by apply lookup_lt_Some in Hp).
  split; unfold pool_size_ in *; simpl; rewrite ?length_insert.
  - by rewrite Hrs.
  - done.
  - intros g Hg. destruct (Hfree g Hg) as [Hgv Hgn]. split; [done|].
    rewrite Hent, lookup_insert_ne; [done|]. intros ->. destruct Htrf. congruence.
  - done.
  - done.
  - intros g. rewrite Hent. intros [e Hg]. destruct (decide (f = g)) as [->|Hne].
    + by apply Htr.
    + rewrite lookup_insert_ne in Hg by done. apply Htr. by eexists.
  - intros i q Hq. destruct (decide (i = Z.to_nat f)) as [->|Hne].
    + rewrite list_lookup_insert_eq in Hq by done. by injection Hq as <-.
    + rewrite list_lookup_insert_ne in Hq by done. by apply (Hpin i).
  - intros i q Hq H0. right. destruct (decide (i = Z.to_nat f)) as [->|Hne].
    + rewrite list_lookup_insert_eq in Hq by done. injection Hq as <-.
      right. exists e'. rewrite Hent. replace (Z.of_nat (Z.to_nat f)) with f by lia.
      split; [apply lookup_insert_eq|by apply Hev'].
    + rewrite list_lookup_insert_ne in Hq by done.
      destruct (Hunp i q Hq H0) as [?|[Hin|Hev]]; [done|by left|right].
      apply (tracked_evictable_other (replacer_ b) r' f); [lia| |done].
      intros h Hh. rewrite Hent. by apply lookup_insert_ne.
  - intros pid g Hpt.
    destruct (Htab pid g Hpt) as (Hg & Hnf & [e He] & q & Hq & Hqid).
    split; [done|]. split; [done|]. split.
    + rewrite Hent. destruct (decide (f = g)) as [->|Hne].
      * rewrite lookup_insert_eq. by eexists.
      * rewrite lookup_insert_ne by done. by eexists.
    + destruct (decide (g = f)) as [->|Hne].
      * exists p'. split; [by apply list_lookup_insert_eq|]. congruence.
      * exists q. split; [|done]. rewrite list_lookup_insert_ne; [done|lia].
  - intros g Hg. discriminate.
Qed.

Lemma frame_Ok (b : BufferPoolManagerInstance) (f : Z) (p : Page) :
  frame b f = Ok p -> 0 <= f /\ pages_ b !! Z.to_nat f = Some p.
Proof.
  unfold frame. destruct (f <? 0) eqn:Hneg; [discriminate|].
  apply Z.ltb_ge in Hneg. split; [done|].
  by destruct (pages_ b !! Z.to_nat f); [injection H as ->|].
Qed.

Lemma FetchPgImp_consistent (b b' : BufferPoolManagerInstance) (page_id f : Z) :
  pool_consistent None b ->
  (forall f, page_table_ b !! page_id = Some f ->
     in_count_ (entry (entries_ (replacer_ b)) f) + 1 < 2 ^ 64) ->
  FetchPgImp b page_id = Ok (f, b') ->
  pool_consistent None b'.
Proof.
  intros Hc Hov. unfold FetchPgImp.
  destruct (page_table_ b !! page_id) as [f0|] eqn:Hpt.
  - destruct (frame b f0) as [p| | |] eqn:Hfr; simpl; try discriminate.
    destruct (RecordAccess (replacer_ b) f0) as [r1| | |] eqn:Hra; simpl; try discriminate.
    destruct (SetEvictable r1 f0 false) as [r2| | |] eqn:Hse; simpl; try discriminate.
    intros [= <- <-]. unfold set_replacer, set_frame. simpl.
    destruct (frame_Ok _ _ _ Hfr) as [Hf0 Hp].
    destruct (pc_table _ _ Hc page_id f0 Hpt) as (_ & _ & [e He] & _).
    destruct (RecordAccess_entries _ _ _ Hra) as [Hrs1 Hent1].
    destruct (SetEvictable_entries _ _ _ _ Hse) as [Hrs2 Hent2].
    rewrite Hent1, lookup_insert_eq, insert_insert_eq in Hent2. simpl in Hent2.
    pose proof (pc_pin _ _ Hc _ _ Hp) as Hpin.
    eapply (touch_consistent b f0 p); try done; simpl; try lia.
    apply (SetEvictable_invariant r1 r2 f0 false); [|done].
    apply (RecordAccess_invariant (replacer_ b) r1 f0); [apply (pc_replacer _ _ Hc)| |done].
    by apply Hov.
  - destruct (negb (is_page_available b)); [discriminate|].
    destruct (take_frame b) as [[f0 b2]| | |] eqn:Htake; simpl; try discriminate.
    destruct (install b2 page_id f0 true) as [b3| | |] eqn:Hinst; simpl; try discriminate.
    intros [= <- <-].
    apply (install_consistent b2 b3 page_id f0 true); [|done].
    by apply (take_frame_consistent b).
Qed.

Lemma UnpinPgImp_consistent (b b' : BufferPoolManagerInstance) (page_id : Z)
    (is_dirty res : bool) :
  pool_consistent None b ->
  UnpinPgImp b page_id is_dirty = Ok (res, b') ->
  pool_consistent None b'.
Proof.
  intros Hc. unfold UnpinPgImp.
  destruct (page_table_ b !! page_id) as [f0|] eqn:Hpt; [|by intros [= <- <-]].
  destruct (frame b f0) as [p| | |] eqn:Hfr; simpl; try discriminate.
  destruct (pin_count_ p =? 0) eqn:Hz; [by intros [= <- <-]|].
  apply Z.eqb_neq in Hz.
  destruct (frame_Ok _ _ _ Hfr) as [Hf0 Hp].
  destruct (pc_table _ _ Hc page_id f0 Hpt) as (_ & _ & [e He] & _).
  pose proof (pc_pin _ _ Hc _ _ Hp) as Hpin.
  destruct (pin_count_ p - 1 =? 0) eqn:Hlast.
  - unfold set_frame at 1. simpl.
    destruct (SetEvictable (replacer_ b) f0 true) as [r1| | |] eqn:Hse;
      simpl; try discriminate.
    intros [= <- <-]. unfold set_replacer, set_frame. simpl.
    destruct (SetEvictable_entries _ _ _ _ Hse) as [Hrs1 Hent1]. rewrite He in Hent1.
    eapply (touch_consistent b f0 p); try done; simpl; try lia.
    by apply (SetEvictable_invariant (replacer_ b) r1 f0 true); [apply (pc_replacer _ _ Hc)|].
  - intros [= <- <-]. unfold set_frame. apply Z.eqb_neq in Hlast.
    replace (replacer_ b) with
      (mkReplacer (replacer_size_ (replacer_ b)) (k_ (replacer_ b)) (curr_size_ (replacer_ b))
         (history_list_ (replacer_ b)) (cache_list_ (replacer_ b)) (entries_ (replacer_ b)))
      at 1 by (by destruct (replacer_ b)).
    eapply (touch_consistent b f0 p _ _ e); try done; simpl; try lia.
    + destruct (replacer_ b) eqn:Hr. simpl. rewrite <- Hr. apply (pc_replacer _ _ Hc).
    + by rewrite insert_id.
Qed.

Lemma FlushPgImp_consistent (b b' : BufferPoolManagerInstance) (page_id : Z) (res : bool) :
  pool_consistent None b ->
  FlushPgImp b page_id = Ok (res, b') ->
  pool_consistent None b'.
Proof.
  intros Hc. unfold FlushPgImp. case_decide; [by intros [= <- <-]|].
  destruct (page_table_ b !! page_id) as [f0|]; [|by intros [= <- <-]].
  destruct (frame b f0); simpl; try discriminate. intros [= <- <-].
  by apply (pool_consistent_same None b).
Qed.

Lemma DeletePgImp_consistent (b b' : BufferPoolManagerInstance) (page_id : Z) (res : bool) :
  pool_consistent None b ->
  DeletePgImp b page_id = Ok (res, b') ->
  pool_consistent None b'.
Proof.
  intros Hc. unfold DeletePgImp.
  destruct (page_table_ b !! page_id) as [f0|] eqn:Hpt; [|by intros [= <- <-]].
  destruct (frame b f0) as [p| | |] eqn:Hfr; simpl; try discriminate.
  destruct (pin_count_ p >? 0); [by intros [= <- <-]|].
  destruct (LRUK.Remove (replacer_ b) f0) as [r1| | |] eqn:Hrm; simpl; try discriminate.
  intros [= <- <-].
  destruct (frame_Ok _ _ _ Hfr) as [Hf0 Hp].
  destruct (Remove_entries _ _ _ Hrm) as [Hrs Hent].
  pose proof (Remove_invariant _ _ _ (pc_replacer _ _ Hc) Hrm) as Hrep1.
  destruct Hc as [Hsize Hmax Hfree Hnd Hrep Htr Hpin Hunp Htab Hhole].
  destruct (Htab page_id f0 Hpt) as (Hf & Hnf & Htrf & q & Hq & Hqid).
  assert (Hlt : (Z.to_nat f0 < length (pages_ b))%nat) by (by apply lookup_lt_Some in Hp).
  split; unfold pool_size_ in *; simpl; rewrite ?length_insert.
  - by rewrite Hrs.
  - done.
  - intros g Hg. rewrite Hent. apply elem_of_app in Hg as [Hg|Hg].
    + destruct (Hfree g Hg) as [Hgv Hgn]. split; [done|].
      destruct (decide (f0 = g)) as [->|Hne]; [apply lookup_delete_eq|].
      by rewrite lookup_delete_ne.
    + apply list_elem_of_singleton in Hg as ->. split; [done|apply lookup_delete_eq].
  - apply NoDup_app. split; [done|]. split; [|apply NoDup_singleton].
    intros g Hg Hg'. apply list_elem_of_singleton in Hg' as ->. done.
  - done.
  - intros g. rewrite Hent. intros [e Hg]. apply Htr.
    destruct (decide (f0 = g)) as [->|Hne]; [by rewrite lookup_delete_eq in Hg|].
    rewrite lookup_delete_ne in Hg by done. by eexists.
  - intros i q' Hq'. destruct (decide (i = Z.to_nat f0)) as [->|Hne].
    + rewrite list_lookup_insert_eq in Hq' by done. by injection Hq' as <-.
    + rewrite list_lookup_insert_ne in Hq' by done. by apply (Hpin i).
  - intros i q' Hq' H0. right. destruct (decide (i = Z.to_nat f0)) as [->|Hne].
    + left. apply elem_of_app. right. apply list_elem_of_singleton. lia.
    + rewrite list_lookup_insert_ne in Hq' by done.
      destruct (Hunp i q' Hq' H0) as [?|[Hin|Hev]]; [done|left; apply elem_of_app; by left|right].
      apply (tracked_evictable_other (replacer_ b) r1 f0); [lia| |done].
      intros h Hh. rewrite Hent. by apply lookup_delete_ne.
  - intros pid g Hpt'. destruct (decide (pid = page_id)) as [->|Hne].
    { by rewrite lookup_delete_eq in Hpt'. }
    rewrite lookup_delete_ne in Hpt' by done.
    destruct (Htab pid g Hpt') as (Hg & Hnfg & [e He] & q' & Hq' & Hqid').
    assert (Hgf : g <> f0).
    { intros ->. rewrite Hq in Hq'. injection Hq' as <-. congruence. }
    split; [done|]. split; [|split].
    + intros Hin. apply elem_of_app in Hin as [Hin|Hin]; [done|].
      by apply list_elem_of_singleton in Hin.
    + rewrite Hent, lookup_delete_ne by done. by eexists.
    + exists q'. split; [|done]. rewrite list_lookup_insert_ne; [done|lia].
  - intros g Hg. discriminate.
Qed.

Lemma write_consistent (b : BufferPoolManagerInstance) (f : Z) (p : Page)
    (data : list Byte.byte) :
  pool_consistent None b ->
  frame b f = Ok p ->
  pool_consistent None
    (set_frame b f (mkPage data (page_id_ p) (pin_count_ p) (is_dirty_ p))).
Proof.
  intros [Hsize Hmax Hfree Hnd Hrep Htr Hpin Hunp Htab Hhole] Hfr.
  destruct (frame_Ok _ _ _ Hfr) as [Hf0 Hp].
  assert (Hlt : (Z.to_nat f < length (pages_ b))%nat) by (by apply lookup_lt_Some in Hp).
  unfold set_frame.
  split; unfold pool_size_ in *; simpl; rewrite ?length_insert; try done.
  - intros i q Hq. destruct (decide (i = Z.to_nat f)) as [->|Hne].
    + rewrite list_lookup_insert_eq in Hq by done. injection Hq as <-.
      by apply (Hpin (Z.to_nat f) p).
    + rewrite list_lookup_insert_ne in Hq by done. by apply (Hpin i).
  - intros i q Hq H0. destruct (decide (i = Z.to_nat f)) as [->|Hne].
    + rewrite list_lookup_insert_eq in Hq by done. injection Hq as <-.
      by apply (Hunp (Z.to_nat f) p).
    + rewrite list_lookup_insert_ne in Hq by done. by apply (Hunp i q).
  - intros pid g Hpt. destruct (Htab pid g Hpt) as (Hg & Hnf & Htrg & q & Hq & Hqid).
    split; [done|]. split; [done|]. split; [done|].
    destruct (decide (g = f)) as [->|Hne].
    + eexists. split; [by apply list_lookup_insert_eq|]. simpl. congruence.
    + exists q. split; [|done]. rewrite list_lookup_insert_ne; [done|lia].
Qed.

(** Every state that the operations produce from a new pool is
    consistent, and so satisfies the frame invariant under which NewPgImp
    is specified. *)
Lemma pool_reachable_consistent (b : BufferPoolManagerInstance) :
  pool_reachable b -> pool_consistent None b.
Proof.
  induction 1.
  - by apply new_pool_consistent.
  - by eapply NewPgImp_consistent.
  - by eapply FetchPgImp_consistent.
  - by eapply UnpinPgImp_consistent.
  - by eapply FlushPgImp_consistent.
  - by eapply DeletePgImp_consistent.
  - by apply write_consistent.
Qed.

Lemma pool_reachable_invariant (b : BufferPoolManagerInstance) :
  pool_reachable b -> pool_invariant b.
Proof. intros Hb. by apply consistent_invariant, pool_reachable_consistent. Qed.

Lemma dirty_pool_reachable : pool_reachable dirty_pool.
Proof.
  assert (H0 : pool_reachable (new_pool 1 2 ∅))
    by (apply reachable_new_pool; vm_compute; discriminate).
  assert (H1 : pool_reachable one_page_pool).
  { apply (reachable_NewPgImp (new_pool 1 2 ∅) one_page_pool 0 0 H0).
    vm_compute. reflexivity. }
  assert (H2 : pool_reachable (set_frame one_page_pool 0 (mkPage [Byte.x2a] 0 1 false))).
  { apply (reachable_write one_page_pool 0 (mkPage zeroed 0 1 false) [Byte.x2a] H1).
    vm_compute. reflexivity. }
  apply (reachable_UnpinPgImp _ dirty_pool 0 true true H2).
  vm_compute. reflexivity.
Qed.

(** The statement on NewPgImp at a fresh pool of two frames (a frame comes
    from the free list), at [dirty_pool] (the only frame is evicted) and
    for a pool of two frames filled up. *)
Lemma NewPgImp_fails_iff_all_pinned_witness :
  pool_invariant (new_pool 2 2 ∅) /\
  pool_invariant dirty_pool /\
  (exists page_id frame_id b' p',
     NewPgImp (new_pool 2 2 ∅) = Ok (page_id, frame_id, b') /\
     frame b' frame_id = Ok p' /\
     page_id_ p' = page_id /\
     pin_count_ p' = 1 /\
     (exists e, entries_ (replacer_ b') !! frame_id = Some e /\ evictable_ e = false) /\
     page_table_ b' !! page_id = Some frame_id) /\
  (exists page_id frame_id b' p',
     NewPgImp dirty_pool = Ok (page_id, frame_id, b') /\
     frame b' frame_id = Ok p' /\
     page_id_ p' = page_id /\
     pin_count_ p' = 1 /\
     (exists e, entries_ (replacer_ b') !! frame_id = Some e /\ evictable_ e = false) /\
     page_table_ b' !! page_id = Some frame_id) /\
  Z.of_nat 2 <= INT_MAX /\
  (exists ids b',
     new_pages 2 (new_pool 2 2 ∅) = Ok (ids, b') /\
     length ids = 2%nat /\
     (forall i p, pages_ b' !! i = Some p -> pin_count_ p = 1) /\
     NewPgImp b' = Throw (logic_error "no available page!")).
Proof.
  assert (HP : Z.of_nat 2 <= INT_MAX) by (vm_compute; discriminate).
  assert (Hinv : pool_invariant (new_pool 2 2 ∅)) by (apply new_pool_invariant; exact HP).
  assert (Hinv' : pool_invariant dirty_pool)
    by (apply pool_reachable_invariant, dirty_pool_reachable).
  split; [exact Hinv|]. split; [exact Hinv'|].
  split.
  { apply (proj2 (proj1 NewPgImp_fails_iff_all_pinned _ Hinv)).
    exists 0%nat, (mkPage zeroed INVALID_PAGE_ID 0 false). split; reflexivity. }
  split.
  { apply (proj2 (proj1 NewPgImp_fails_iff_all_pinned _ Hinv')).
    exists 0%nat, (mkPage [Byte.x2a] 0 0 true). split; reflexivity. }
  split; [exact HP|].
  exact (proj2 NewPgImp_fails_iff_all_pinned 2%nat 2 ∅ HP).
Defined.

End BufferPoolInvariant.

(** ** Properties of the B+-tree *)

Module BPlusTreeFacts.
Import BPlusTreePages BPlusTree.

Lemma bind_Ok {A B : Type} (a : A) (f : A -> result B) : Ok a ≫= f = f a.
Proof. reflexivity. Qed.

(** *** The descent *)

Lemma GetLeafPage_from_mono (ms : bool -> Z -> Z) (n m : nat) (t : BPlusTree)
    (key : Z) (op : Operation) (first : bool) (p l : Z) :
  GetLeafPage_from ms n t key op first p = Ok l ->
  (n <= m)%nat ->
  GetLeafPage_from ms m t key op first p = Ok l.
Proof.
  revert m first p. induction n as [|n IH]; intros m first p; [discriminate|].
  intros Hn Hle. destruct m as [|m]; [lia|].
  simpl in *. destruct (FetchPage t p) as [node| | |]; simpl in *; try discriminate.
  destruct (negb first && bool_decide (op = SEARCH)); [discriminate|].
  destruct (IsLeafPage node).
  - destruct (first && negb (IsPageSafe ms node op)); [|done].
    apply IH; [done|lia].
  - destruct (child_for node key); simpl in *; try discriminate.
    apply IH; [done|lia].
Qed.

(** The pessimistic descent reaches the leaf that a search reaches. *)
Lemma search_path_pessimistic (ms : bool -> Z -> Z) (n : nat) (t : BPlusTree)
    (key : Z) (op : Operation) (p l : Z) :
  op <> SEARCH ->
  GetLeafPage_from ms n t key SEARCH true p = Ok l ->
  GetLeafPage_from ms n t key op false p = Ok l.
Proof.
  intros Hop. revert p. induction n as [|n IH]; intros p; [discriminate|].
  simpl. destruct (FetchPage t p) as [node| | |]; simpl; try discriminate.
  rewrite (bool_decide_eq_false_2 _ Hop). simpl.
  destruct (IsLeafPage node); [done|].
  destruct (child_for node key); simpl; try discriminate. apply IH.
Qed.

(** So does the optimistic descent, which restarts from the root when the
    leaf is not safe. *)
Lemma search_path_optimistic (ms : bool -> Z -> Z) (n m : nat) (t : BPlusTree)
    (key : Z) (op : Operation) (p l : Z) :
  GetLeafPage_from ms m t key op false (root_page_id_ t) = Ok l ->
  GetLeafPage_from ms n t key SEARCH true p = Ok l ->
  GetLeafPage_from ms (n + m) t key op true p = Ok l.
Proof.
  intros Hroot. revert p. induction n as [|n IH]; intros p; [discriminate|].
  simpl. destruct (FetchPage t p) as [node| | |]; simpl; try discriminate.
  destruct (IsLeafPage node).
  - intros [= ->]. destruct (negb (IsPageSafe ms node op)); [|done].
    apply (GetLeafPage_from_mono ms m); [done|lia].
  - destruct (child_for node key); simpl; try discriminate. apply IH.
Qed.

(** *** Search in a well-ordered tree *)

Lemma find_seqZ_first (P : Z -> bool) (a m : Z) (len : nat) :
  a <= m < a + Z.of_nat len ->
  (forall j, a <= j < m -> P j = false) ->
  P m = true ->
  find P (seqZ a (Z.of_nat len)) = Some m.
Proof.
  revert a. induction len as [|len IH]; intros a Hm Hbefore HP; [lia|].
  rewrite seqZ_cons by lia. simpl.
  destruct (decide (a = m)) as [->|Hne].
  - by rewrite HP.
  - rewrite (Hbefore a) by lia.
    replace (Z.pred (Z.of_nat (S len))) with (Z.of_nat len) by lia.
    apply IH; [lia| |done]. intros j Hj. apply Hbefore. lia.
Qed.

Lemma find_seqZ_none (P : Z -> bool) (a : Z) (len : nat) :
  (forall j, a <= j < a + Z.of_nat len -> P j = false) ->
  find P (seqZ a (Z.of_nat len)) = None.
Proof.
  revert a. induction len as [|len IH]; intros a Hall; [done|].
  rewrite seqZ_cons by lia. simpl. rewrite (Hall a) by lia.
  replace (Z.pred (Z.of_nat (S len))) with (Z.of_nat len) by lia.
  apply IH. intros j Hj. apply Hall. lia.
Qed.

Lemma find_seqZ_is_Some (P : Z -> bool) (a m : Z) (len : nat) :
  a <= m < a + Z.of_nat len -> P m = true ->
  is_Some (find P (seqZ a (Z.of_nat len))).
Proof.
  revert a. induction len as [|len IH]; intros a Hm HP; [lia|].
  rewrite seqZ_cons by lia. simpl.
  destruct (P a) eqn:Ha; [by eexists|].
  replace (Z.pred (Z.of_nat (S len))) with (Z.of_nat len) by lia.
  apply IH; [|done].
  destruct (decide (a = m)) as [->|]; [congruence|lia].
Qed.

Lemma leaf_lookup_stored (n : BPlusTreePage) (k i : Z) :
  0 <= i < GetSize n -> KeyAt n i = k -> is_Some (leaf_lookup n k).
Proof.
  intros Hi Hk. unfold leaf_lookup, find_key_from.
  rewrite Z.sub_0_r. rewrite <- (Z2Nat.id (GetSize n)) by lia.
  destruct (find_seqZ_is_Some (fun i => KeyAt n i =? k) 0 i (Z.to_nat (GetSize n)))
    as [j Hj]; [lia|by apply Z.eqb_eq|].
  rewrite Hj. by eexists.
Qed.

(** The keys stored below a page lie within the page's bounds. *)
Lemma stored_within_bounds (t : BPlusTree) (k page_id : Z) (lo hi : option Z) :
  subtree t page_id lo hi -> stored t k page_id -> above lo k /\ below hi k.
Proof.
  intros Hsub Hst. revert lo hi Hsub.
  induction Hst as [page_id n i Hn Hleaf Hi Hk|page_id n i Hn Hleaf Hi Hst IH];
    intros lo hi Hsub.
  - inversion Hsub as [? n' ? ? Hn' Hleaf' Hkeys|? n' ? ? Hn' Hleaf' _ _ _ _]; subst;
      rewrite Hn in Hn'; injection Hn' as <-; [|congruence].
    by apply Hkeys.
  - inversion Hsub as [? n' ? ? Hn' Hleaf' _|? n' ? ? Hn' Hleaf' Hsize Hsep Hsorted Hchildren];
      subst; rewrite Hn in Hn'; injection Hn' as <-; [congruence|].
    destruct (IH _ _ (Hchildren i Hi)) as [Hlo Hhi].
    split.
    + destruct (i =? 0) eqn:H0; [done|]. apply Z.eqb_neq in H0.
      destruct (Hsep i ltac:(lia)) as [Ha _].
      destruct lo as [l|]; simpl in *; [lia|done].
    + destruct (i =? GetSize n - 1) eqn:Hlast; [done|]. apply Z.eqb_neq in Hlast.
      destruct (Hsep (i + 1) ltac:(lia)) as [_ Hb].
      destruct hi as [h|]; simpl in *; [lia|done].
Qed.

(** In a search tree the descent picks the child that stores the key. *)
Lemma child_for_stored (t : BPlusTree) (n : BPlusTreePage) (k i : Z) (lo hi : option Z) :
  1 <= GetSize n ->
  (forall i j, 1 <= i -> i < j -> j < GetSize n -> KeyAt n i < KeyAt n j) ->
  0 <= i < GetSize n ->
  above (if i =? 0 then lo else Some (KeyAt n i)) k ->
  below (if i =? GetSize n - 1 then hi else Some (KeyAt n (i + 1))) k ->
  child_for n k = Ok (ValueAt n i).
Proof.
  intros Hsize Hsorted Hi Hlo Hhi. unfold child_for, in_array.
  replace (GetSize n - 1 <? 0) with false by (symmetry; apply Z.ltb_ge; lia).
  rewrite bind_Ok.
  assert (Hle : forall j, 1 <= j <= i -> (KeyAt n j >? k) = false).
  { intros j Hj. rewrite Z.gtb_ltb. apply Z.ltb_ge.
    destruct (i =? 0) eqn:H0; [apply Z.eqb_eq in H0; lia|]. simpl in Hlo.
    destruct (decide (j = i)) as [->|Hne]; [done|].
    assert (KeyAt n j < KeyAt n i) by (apply Hsorted; lia). lia. }
  rewrite <- (Z2Nat.id (GetSize n - 1)) by lia.
  destruct (i =? GetSize n - 1) eqn:Hlast.
  - apply Z.eqb_eq in Hlast.
    rewrite find_seqZ_none; [by rewrite Z2Nat.id, Hlast by lia|].
    intros j Hj. apply Hle. lia.
  - apply Z.eqb_neq in Hlast. simpl in Hhi.
    rewrite (find_seqZ_first _ 1 (i + 1)).
    + by replace (i + 1 - 1) with i by lia.
    + lia.
    + intros j Hj. apply Hle. lia.
    + rewrite Z.gtb_ltb. by apply Z.ltb_lt.
Qed.

(** Every key stored in a search tree is found by the descent of
    GetValue. *)
Lemma stored_key_is_found (ms : bool -> Z -> Z) (t : BPlusTree) (k page_id : Z)
    (lo hi : option Z) :
  subtree t page_id lo hi ->
  stored t k page_id ->
  exists fuel l leaf,
    GetLeafPage_from ms fuel t k SEARCH true page_id = Ok l /\
    FetchPage t l = Ok leaf /\
    is_Some (leaf_lookup leaf k).
Proof.
  intros Hsub Hst. revert lo hi Hsub.
  induction Hst as [page_id n i Hn Hleaf Hi Hk|page_id n i Hn Hleaf Hi Hst IH];
    intros lo hi Hsub.
  - exists 1%nat, page_id, n. cbn [GetLeafPage_from]. unfold FetchPage.
    rewrite Hn. simpl. rewrite Hleaf. simpl.
    split; [done|]. split; [done|]. by apply (leaf_lookup_stored n k i).
  - inversion Hsub as [? n' ? ? Hn' Hleaf' _|? n' ? ? Hn' Hleaf' Hsize Hsep Hsorted Hchildren];
      subst; rewrite Hn in Hn'; injection Hn' as <-; [congruence|].
    destruct (IH _ _ (Hchildren i Hi)) as (fuel & l & leaf & Hpath & Hfetch & Hfound).
    destruct (stored_within_bounds _ _ _ _ _ (Hchildren i Hi) Hst) as [Hlo Hhi].
    exists (S fuel), l, leaf. split; [|done].
    cbn [GetLeafPage_from]. unfold FetchPage at 1. rewrite Hn. simpl. rewrite Hleaf.
    by rewrite (child_for_stored t n k i lo hi Hsize Hsorted Hi Hlo Hhi), bind_Ok.
Qed.

(** Insert of a key that GetValue finds. *)
Lemma Insert_found_key (ms : bool -> Z -> Z) (fuel fuel' : nat)
    (t : BPlusTree) (k v : Z) (found : list Z) :
  IsEmpty t = false ->
  GetValue ms fuel t k = Ok (true, found) ->
  (fuel + fuel <= fuel')%nat ->
  Insert ms fuel' t k v true = Ok (false, t).
Proof.
  intros Hne Hget Hfuel. unfold GetValue, GetLeafPage in Hget. simpl in Hget.
  destruct (GetLeafPage_from ms fuel t k SEARCH true (root_page_id_ t))
    as [l| | |] eqn:Hpath; simpl in Hget; try discriminate.
  destruct (FetchPage t l) as [leaf| | |] eqn:Hleaf; simpl in Hget; try discriminate.
  destruct (leaf_lookup leaf k) as [v0|] eqn:Hlook; [|discriminate].
  unfold Insert. rewrite Hne. unfold GetLeafPage. simpl.
  assert (Hins : GetLeafPage_from ms fuel' t k INSERT true (root_page_id_ t) = Ok l).
  { apply (GetLeafPage_from_mono ms (fuel + fuel)); [|done].
    apply search_path_optimistic; [|done].
    by apply search_path_pessimistic. }
  by rewrite Hins, bind_Ok, Hleaf, bind_Ok, Hlook.
Qed.

(** A key stored in a leaf of a non-empty search tree is found by
    GetValue. *)
Lemma GetValue_stored_key (ms : bool -> Z -> Z) (t : BPlusTree) (k : Z) :
  subtree t (root_page_id_ t) None None ->
  stored t k (root_page_id_ t) ->
  exists fuel found, GetValue ms fuel t k = Ok (true, found).
Proof.
  intros Hsub Hst.
  destruct (stored_key_is_found ms t k _ _ _ Hsub Hst)
    as (fuel & l & leaf & Hpath & Hfetch & [v0 Hv0]).
  exists fuel, [v0]. unfold GetValue, GetLeafPage. simpl.
  by rewrite Hpath, bind_Ok, Hfetch, bind_Ok, Hv0.
Qed.

(** The tree that holds the keys -5 to -1 is a search tree, and it
    stores -3. *)
Lemma tree_minus_5_to_minus_1_subtree :
  subtree tree_minus_5_to_minus_1 (root_page_id_ tree_minus_5_to_minus_1) None None.
Proof.
  eapply (subtree_internal _ 3 (mkNode INTERNAL_PAGE 3 4 (-1) 3 0 [(0, 1); (-3, 4); (-1, 2)])).
  - vm_compute. reflexivity.
  - reflexivity.
  - vm_compute. discriminate.
  - intros i Hi. done.
  - intros i j Hi Hij Hj. change (j < 3) in Hj.
    assert (i = 1 /\ j = 2) as [-> ->] by lia. vm_compute. reflexivity.
  - intros i Hi. change (0 <= i < 3) in Hi.
    assert (i = 0 \/ i = 1 \/ i = 2) as [-> | [-> | ->]] by lia.
    + eapply (subtree_leaf _ 1 (mkNode LEAF_PAGE 2 3 3 1 4 [(-5, 95); (-4, 96); (-2, 98)])).
      * vm_compute. reflexivity.
      * reflexivity.
      * intros i Hi'. change (0 <= i < 2) in Hi'.
        assert (i = 0 \/ i = 1) as [-> | ->] by lia;
          (split; [done|vm_compute; reflexivity]).
    + eapply (subtree_leaf _ 4 (mkNode LEAF_PAGE 2 3 3 4 2 [(-3, 97); (-2, 98)])).
      * vm_compute. reflexivity.
      * reflexivity.
      * intros i Hi'. change (0 <= i < 2) in Hi'.
        assert (i = 0 \/ i = 1) as [-> | ->] by lia;
          (split; [vm_compute; discriminate|vm_compute; reflexivity]).
    + eapply (subtree_leaf _ 2 (mkNode LEAF_PAGE 2 3 3 2 (-1) [(-1, 99); (0, 0)])).
      * vm_compute. reflexivity.
      * reflexivity.
      * intros i Hi'. change (0 <= i < 2) in Hi'.
        assert (i = 0 \/ i = 1) as [-> | ->] by lia;
          (split; [vm_compute; discriminate|done]).
Qed.

Lemma tree_minus_5_to_minus_1_stores_minus_3 :
  stored tree_minus_5_to_minus_1 (-3) (root_page_id_ tree_minus_5_to_minus_1).
Proof.
  eapply (stored_internal _ _ 3
            (mkNode INTERNAL_PAGE 3 4 (-1) 3 0 [(0, 1); (-3, 4); (-1, 2)]) 1).
  - vm_compute. reflexivity.
  - reflexivity.
  - vm_compute. split; [discriminate|reflexivity].
  - eapply (stored_leaf _ _ 4 (mkNode LEAF_PAGE 2 3 3 4 2 [(-3, 97); (-2, 98)]) 0).
    + vm_compute. reflexivity.
    + reflexivity.
    + vm_compute. split; [discriminate|reflexivity].
    + reflexivity.
Qed.

(** *** The claims *)



(** C2.  In a tree that is not empty, Insert of a key that is already
    present, called with a transaction and with any value, returns false
    and leaves the whole tree as it was: root page id, every page with its
    keys, values, size and links, the page-id counter and the header
    record.  This holds when the key is present in the sense that GetValue
    finds it ([fuel] bounds the length of the search path; twice as much
    suffices for Insert, which may descend twice), and it holds when the
    tree is a search tree and the key is stored in one of its leaves. *)
Theorem Insert_duplicate_returns_false (ms : bool -> Z -> Z) (t : BPlusTree) (k v : Z) :
  IsEmpty t = false ->
  (forall fuel fuel' found,
     GetValue ms fuel t k = Ok (true, found) ->
     (fuel + fuel <= fuel')%nat ->
     Insert ms fuel' t k v true = Ok (false, t)) /\
  (subtree t (root_page_id_ t) None None ->
   stored t k (root_page_id_ t) ->
   exists fuel, forall fuel', (fuel <= fuel')%nat ->
     Insert ms fuel' t k v true = Ok (false, t)).
Proof.
  intros Hne. split.
  - intros fuel fuel' found. by apply Insert_found_key.
  - intros Hsub Hst.
    destruct (GetValue_stored_key ms t k Hsub Hst) as (fuel & found & Hget).
    exists (fuel + fuel)%nat. intros fuel' Hfuel.
    by apply (Insert_found_key ms fuel fuel' t k v found).
Qed.

(** The statement applies to the key -3 of the tree that holds the keys
    -5 to -1. *)
Lemma Insert_duplicate_returns_false_witness :
  IsEmpty tree_minus_5_to_minus_1 = false /\
  GetValue min_size_spec 2 tree_minus_5_to_minus_1 (-3) = Ok (true, [97]) /\
  Insert min_size_spec 4 tree_minus_5_to_minus_1 (-3) 999 true
    = Ok (false, tree_minus_5_to_minus_1) /\
  subtree tree_minus_5_to_minus_1 (root_page_id_ tree_minus_5_to_minus_1) None None /\
  stored tree_minus_5_to_minus_1 (-3) (root_page_id_ tree_minus_5_to_minus_1) /\
  exists fuel, forall fuel', (fuel <= fuel')%nat ->
    Insert min_size_spec fuel' tree_minus_5_to_minus_1 (-3) 999 true
      = Ok (false, tree_minus_5_to_minus_1).
Proof.
  assert (H1 : IsEmpty tree_minus_5_to_minus_1 = false) by reflexivity.
  assert (H2 : GetValue min_size_spec 2 tree_minus_5_to_minus_1 (-3) = Ok (true, [97]))
    by (vm_compute; reflexivity).
  assert (H3 : (2 + 2 <= 4)%nat) by lia.
  destruct (Insert_duplicate_returns_false min_size_spec tree_minus_5_to_minus_1 (-3) 999 H1)
    as [Hfound Hstored].
  split; [exact H1|]. split; [exact H2|].
  split; [exact (Hfound 2%nat 4%nat [97] H2 H3)|].
  split; [exact tree_minus_5_to_minus_1_subtree|].
  split; [exact tree_minus_5_to_minus_1_stores_minus_3|].
  exact (Hstored tree_minus_5_to_minus_1_subtree tree_minus_5_to_minus_1_stores_minus_3).
Defined.

End BPlusTreeFacts.

(** ** Removal with the latches: b_plus_tree.cpp, Remove and DeleteEntry *)

Module BPlusTreeLatchedFacts.
Import BPlusTreePages BPlusTree BPlusTreeLatched.
Import BPlusTreeFacts.

(** *** The operations depend on the minimum sizes pointwise *)

Lemma bind_ext {A B : Type} (r : result A) (f g : A -> result B) :
  (forall a, f a = g a) -> r ≫= f = r ≫= g.
Proof. intros Hfg. destruct r; simpl; [apply Hfg|done..]. Qed.

Section Ext.
Variables ms ms' : bool -> Z -> Z.
Hypothesis Hms : forall leaf max_size, ms leaf max_size = ms' leaf max_size.

Lemma GetMinSize_ext (n : BPlusTreePage) : GetMinSize ms n = GetMinSize ms' n.
Proof. unfold GetMinSize. apply Hms. Qed.

Lemma IsPageSafe_ext (n : BPlusTreePage) (op : Operation) :
  IsPageSafe ms n op = IsPageSafe ms' n op.
Proof. unfold IsPageSafe. by rewrite GetMinSize_ext. Qed.

Lemma select_rebalance_ext (page : BPlusTreePage) (l r : option BPlusTreePage) :
  select_rebalance ms page l r = select_rebalance ms' page l r.
Proof. unfold select_rebalance. by rewrite GetMinSize_ext. Qed.

Lemma GetLeafPage_from_ext (fuel : nat) (s : LatchedTree) (key : Z) (op : Operation)
    (first transaction : bool) (p : Z) (pre : option Z) :
  GetLeafPage_from ms fuel s key op first transaction p pre =
  GetLeafPage_from ms' fuel s key op first transaction p pre.
Proof.
  revert s first p pre. induction fuel as [|fuel IH]; intros s first p pre; [done|].
  cbn [GetLeafPage_from]. apply bind_ext; intros [n s1].
  rewrite IsPageSafe_ext. apply bind_ext; intros s2.
  destruct (IsLeafPage n).
  - destruct (first && negb (IsPageSafe ms' n op)); [|done].
    apply bind_ext; intros s3. apply bind_ext; intros s4.
    destruct (negb transaction && negb (bool_decide (op = SEARCH))); [done|apply IH].
  - apply bind_ext; intros child. apply IH.
Qed.

Lemma GetLeafPage_ext (fuel : nat) (s : LatchedTree) (key : Z) (op : Operation)
    (first transaction : bool) :
  GetLeafPage ms fuel s key op first transaction =
  GetLeafPage ms' fuel s key op first transaction.
Proof. unfold GetLeafPage. by rewrite GetLeafPage_from_ext. Qed.

Lemma MergePage_ext (rec rec' : LatchedTree -> Z -> Z -> result LatchedTree)
    (s : LatchedTree) (left_ptr right_ptr parent_ptr : Z) :
  (forall s p k, rec s p k = rec' s p k) ->
  MergePage rec s left_ptr right_ptr parent_ptr =
  MergePage rec' s left_ptr right_ptr parent_ptr.
Proof.
  intros Hrec. unfold MergePage.
  apply bind_ext; intros left. apply bind_ext; intros right.
  apply bind_ext; intros parent. apply bind_ext; intros _.
  destruct (if IsLeafPage left then _ else _) as [r l]. apply Hrec.
Qed.

Lemma rebalance_page_ext (rec rec' : LatchedTree -> Z -> Z -> result LatchedTree)
    (s : LatchedTree) (page_ptr : Z) (page : BPlusTreePage) (transaction : bool) :
  (forall s p k, rec s p k = rec' s p k) ->
  rebalance_page ms rec s page_ptr page transaction =
  rebalance_page ms' rec' s page_ptr page transaction.
Proof.
  intros Hrec. unfold rebalance_page.
  apply bind_ext; intros [[l r] s1].
  destruct (bool_decide (l = INVALID_PAGE_ID) && bool_decide (r = INVALID_PAGE_ID)); [done|].
  apply bind_ext; intros [lp s2]. apply bind_ext; intros [rp s3].
  apply bind_ext; intros [parent s4].
  rewrite select_rebalance_ext.
  destruct (select_rebalance ms' page lp rp); try reflexivity;
    (f_equal; apply bind_ext; intros s5; by rewrite (MergePage_ext rec rec')).
Qed.

Lemma DeleteEntry_ext (fuel : nat) (s : LatchedTree) (page_ptr key : Z) (transaction : bool) :
  DeleteEntry ms fuel s page_ptr key transaction =
  DeleteEntry ms' fuel s page_ptr key transaction.
Proof.
  revert s page_ptr key.
  induction fuel as [|fuel IH]; intros s page_ptr key; [done|].
  cbn [DeleteEntry]. apply bind_ext; intros n.
  destruct (if IsLeafPage n then Leaf_Remove n key else Internal_Remove n key)
    as [success page].
  destruct (negb success); [done|].
  destruct (IsRootPage page && IsLeafPage page && (GetSize page =? 0)); [done|].
  destruct (IsRootPage page && ((GetSize page >? 1) || IsLeafPage page)); [done|].
  destruct (IsRootPage page && (GetSize page =? 1)); [done|].
  rewrite GetMinSize_ext.
  destruct (GetSize page <? GetMinSize ms' page); [|done].
  apply rebalance_page_ext. intros s' p k. apply IH.
Qed.

Lemma Remove_ext (fuel : nat) (s : LatchedTree) (key : Z) (transaction : bool) :
  Remove ms fuel s key transaction = Remove ms' fuel s key transaction.
Proof.
  unfold Remove. apply bind_ext; intros s1.
  destruct (IsEmpty (tree s1)); [done|].
  rewrite GetLeafPage_ext. apply bind_ext; intros [page s2].
  by rewrite DeleteEntry_ext.
Qed.

End Ext.

Lemma leaf_min_3_same (ms : bool -> Z -> Z) (leaf : bool) (max_size : Z) :
  ms leaf max_size = leaf_min_3 (ms true 3) ms leaf max_size.
Proof.
  unfold leaf_min_3. destruct leaf; [|done]. simpl.
  destruct (Z.eqb_spec max_size 3) as [->|]; done.
Qed.

(** *** The scenario *)

(** The five insertions release every latch and pin they take. *)
Lemma insert_5_to_1_at_rest (ms : bool -> Z -> Z) :
  insert_keys ms 10 [5; 4; 3; 2; 1] (at_rest tree_3_4) =
    Ok ([true; true; true; true; true], at_rest tree_1_to_5).
Proof. vm_compute. reflexivity. Qed.

Lemma Remove_1_leaks (ms : bool -> Z -> Z) (fuel : nat) :
  ms true 3 <= 1 ->
  Remove ms (S (S fuel)) (at_rest tree_1_to_5) 1 true = Ok leaf_1_latched.
Proof.
  intros Hms. rewrite (Remove_ext ms _ (leaf_min_3_same ms)).
  destruct (ms true 3) as [|p|p];
    [|assert (p = 1%positive) as -> by lia|]; vm_compute; reflexivity.
Qed.

Lemma Remove_2_relatches (ms : bool -> Z -> Z) (fuel : nat) :
  Remove ms (S (S fuel)) leaf_1_latched 2 true = Undefined.
Proof. vm_compute. reflexivity. Qed.

Lemma Remove_1_throws (ms : bool -> Z -> Z) (fuel : nat) :
  2 <= ms true 3 ->
  Remove ms (S (S (S (S fuel)))) (at_rest tree_1_to_5) 1 true =
    Throw (logic_error "Tree structure is wrong!").
Proof.
  intros Hms. rewrite (Remove_ext ms _ (leaf_min_3_same ms)).
  destruct (ms true 3) as [|p|p]; try lia.
  destruct p as [[q|q|]|[q|q|]|]; try lia; vm_compute; reflexivity.
Qed.

Lemma Remove_1_small_fuel (ms : bool -> Z -> Z) (fuel : nat) :
  (fuel < 2)%nat \/ ((fuel < 4)%nat /\ 2 <= ms true 3) ->
  Remove ms fuel (at_rest tree_1_to_5) 1 true = OutOfFuel.
Proof.
  intros H.
  destruct fuel as [|[|fuel]]; [vm_compute; reflexivity..|].
  destruct H as [H|[Hfuel Hms]]; [lia|].
  rewrite (Remove_ext ms _ (leaf_min_3_same ms)).
  destruct (ms true 3) as [|p|p]; try lia.
  destruct fuel as [|[|fuel]]; [| |lia];
    destruct p as [[q|q|]|[q|q|]|]; try lia; vm_compute; reflexivity.
Qed.

(** *** The last key of a root leaf *)

Lemma FetchPage_Ok (s : LatchedTree) (p : Z) (n : BPlusTreePage) :
  BPlusTree.FetchPage (tree s) p = Ok n ->
  FetchPage s p = Ok (n, with_pins s p (pins s p + 1)).
Proof. unfold FetchPage. by intros ->. Qed.

(** The state after a step, with the latches and pins of the one page
    that the operation touches looked up. *)
Ltac latched_state :=
  unfold ReleaseWLatches, WLatch, WUnlatch, RLatch, RUnlatch, RLock, RUnlock, WLock, WUnlock,
         UnpinPage, DeletePage,
         AddIntoPageSet, AddIntoDeletedPageSet, write, page_at,
         with_tree, with_root_latch, with_latch, with_pins, with_page_set,
         with_deleted_page_set, latch_of, pins;
  cbn [tree root_page_id_latch_ latch_ pin_count_ page_set deleted_page_set app
       lock_shared unlock_shared lock unlock mbind result_bind bind negb andb orb
       fold_left];
  rewrite ?lookup_insert_eq, ?lookup_empty, ?delete_insert_eq, ?delete_empty;
  cbn [default from_option id];
  change (0 + 1) with 1; change (1 - 1) with 0;
  change (1 =? 0) with false; change (0 =? 0) with true;
  change (1 <=? 0) with false; change (0 <=? 0) with true; change (0 >? 0) with false;
  cbn iota.

Lemma root_leaf_last_key (ms : bool -> Z -> Z) (fuel : nat) (t : BPlusTree)
    (leaf : BPlusTreePage) :
  IsEmpty t = false ->
  BPlusTree.FetchPage t (root_page_id_ t) = Ok leaf ->
  IsLeafPage leaf = true ->
  IsRootPage leaf = true ->
  GetSize leaf = 1 ->
  exists page,
    Remove ms (S (S fuel)) (at_rest t) (KeyAt leaf 0) true =
      Ok (at_rest (BPlusTree.DeletePage
                     (set_root (put t (root_page_id_ t) page) INVALID_PAGE_ID)
                     (GetPageId leaf))) /\
    GetSize page = 0.
Proof.
  intros Hne Hroot Hleaf Hisroot Hsize.
  assert (Hunsafe : IsPageSafe ms leaf DELETE = false).
  { unfold IsPageSafe. rewrite Hisroot, Hleaf, Hsize. reflexivity. }
  unfold Remove, RLock, at_rest. latched_state. rewrite Hne.
  unfold GetLeafPage. latched_state.
  (* the optimistic descent finds the root leaf unsafe and releases it *)
  remember (S fuel) as fuel1 eqn:Hfuel1.
  cbn [GetLeafPage_from].
  rewrite (FetchPage_Ok _ _ leaf) by exact Hroot. latched_state.
  rewrite Hleaf, Hunsafe. latched_state.
  change (bool_decide (DELETE = SEARCH)) with false. repeat progress latched_state.
  (* the pessimistic descent holds the latch of the root page id and of
     the leaf *)
  subst fuel1. cbn [GetLeafPage_from].
  rewrite (FetchPage_Ok _ _ leaf) by exact Hroot. repeat progress latched_state.
  change (bool_decide (DELETE = SEARCH)) with false. rewrite Hunsafe, Hleaf.
  repeat progress latched_state.
  (* DeleteEntry empties the leaf and releases both *)
  remember (S fuel) as fuel1 eqn:Hfuel1. cbn [DeleteEntry]. clear Hfuel1.
  latched_state. rewrite Hroot. latched_state. rewrite Hleaf.
  unfold Leaf_Remove, find_key_from. rewrite Hsize.
  change (seqZ 0 (1 - 0)) with [0]. cbn [find].
  rewrite Z.eqb_refl. cbn beta iota.
  set (page := DecreaseSize _ 1).
  assert (H1 : IsRootPage page = true) by exact Hisroot.
  assert (H2 : IsLeafPage page = true) by exact Hleaf.
  assert (H3 : GetSize page = 0)
    by (unfold page, GetSize in *; simpl; lia).
  assert (H4 : GetPageId page = GetPageId leaf) by reflexivity.
  exists page. split; [|done].
  cbn [negb]. rewrite H1, H2, H3, H4. repeat progress latched_state.
  reflexivity.
Qed.

(** *** The scenario as a whole *)



End BPlusTreeLatchedFacts.
(** ** The extendible hash table as a finite map *)

Module ExtendibleHashMapFacts.
Import ExtendibleHash ExtendibleHashInvariant.

Lemma low_bits_mod (d x : Z) : 0 <= d -> low_bits d x = x mod 2 ^ d.
Proof.
  intros Hd. unfold low_bits.
  rewrite Z.shiftl_1_l, Z.sub_1_r, <- Z.ones_equiv. by apply Z.land_ones.
Qed.

Lemma low_bits_range (d x : Z) : 0 <= d -> 0 <= low_bits d x < 2 ^ d.
Proof.
  intros Hd. rewrite low_bits_mod by done. apply Z.mod_pos_bound. by apply Z.pow_pos_nonneg.
Qed.

Lemma low_bits_testbit (d x n : Z) :
  0 <= d -> 0 <= n -> Z.testbit (low_bits d x) n = (n <? d) && Z.testbit x n.
Proof.
  intros Hd Hn. unfold low_bits.
  rewrite Z.shiftl_1_l, Z.sub_1_r, <- Z.ones_equiv, Z.land_spec, Z.testbit_ones_nonneg by done.
  apply andb_comm.
Qed.

Lemma low_bits_low_bits (d g x : Z) :
  0 <= d <= g -> low_bits d (low_bits g x) = low_bits d x.
Proof.
  intros Hd. apply Z.bits_inj'. intros n Hn.
  rewrite !low_bits_testbit by lia.
  destruct (Z.ltb_spec n d) as [Hlt|Hge]; simpl; [|done].
  by rewrite (proj2 (Z.ltb_lt n g)) by lia.
Qed.

(** Adding a multiple of [2 ^ g] does not change the low [d <= g] bits. *)
Lemma low_bits_add_pow (d g x : Z) :
  0 <= d <= g -> low_bits d (x + 2 ^ g) = low_bits d x.
Proof.
  intros Hd. rewrite !low_bits_mod by lia.
  replace g with ((g - d) + d) by lia.
  rewrite Z.pow_add_r by lia.
  apply Z.mod_add. apply Z.pow_nonzero; lia.
Qed.

Lemma land_bit (d x : Z) :
  0 <= d -> Z.land x (Z.shiftl 1 d) = if Z.testbit x d then 2 ^ d else 0.
Proof.
  intros Hd. rewrite Z.shiftl_1_l.
  apply Z.bits_inj'. intros n Hn.
  rewrite Z.land_spec, Z.pow2_bits_eqb by done.
  destruct (Z.eqb_spec d n) as [->|Hne].
  - rewrite andb_true_r. destruct (Z.testbit x n) eqn:Hx.
    + by rewrite Z.pow2_bits_true.
    + by rewrite Z.bits_0.
  - rewrite andb_false_r. destruct (Z.testbit x d).
    + by rewrite Z.pow2_bits_false.
    + by rewrite Z.bits_0.
Qed.

Lemma bit_test (d x : Z) :
  0 <= d -> (Z.land x (Z.shiftl 1 d) =? 0) = negb (Z.testbit x d).
Proof.
  intros Hd. rewrite land_bit by done.
  destruct (Z.testbit x d); simpl; [|done].
  apply Z.eqb_neq. apply Z.pow_nonzero; lia.
Qed.

Lemma low_bits_bit (d g x : Z) :
  0 <= d < g -> Z.testbit (low_bits g x) d = Z.testbit x d.
Proof.
  intros Hd. rewrite low_bits_testbit by lia.
  by rewrite (proj2 (Z.ltb_lt d g)) by lia.
Qed.

Lemma low_bits_succ (d x y : Z) :
  0 <= d -> low_bits d x = low_bits d y -> Z.testbit x d = Z.testbit y d ->
  low_bits (d + 1) x = low_bits (d + 1) y.
Proof.
  intros Hd Heq Hbit. apply Z.bits_inj'. intros n Hn.
  rewrite !low_bits_testbit by lia.
  destruct (Z.ltb_spec n (d + 1)) as [Hlt|Hge]; simpl; [|done].
  destruct (decide (n = d)) as [->|Hne]; [done|].
  assert (Hn' : Z.testbit (low_bits d x) n = Z.testbit (low_bits d y) n) by by rewrite Heq.
  rewrite !low_bits_testbit in Hn' by lia.
  by rewrite (proj2 (Z.ltb_lt n d)) in Hn' by lia.
Qed.

Lemma low_bits_next (g x : Z) :
  0 <= g ->
  low_bits (g + 1) x = low_bits g x \/ low_bits (g + 1) x = low_bits g x + 2 ^ g.
Proof.
  intros Hg.
  pose proof (low_bits_range (g + 1) x ltac:(lia)) as Hr.
  pose proof (low_bits_low_bits g (g + 1) x ltac:(lia)) as Hl.
  rewrite Z.pow_add_r, Z.pow_1_r in Hr by lia.
  rewrite (low_bits_mod g (low_bits (g + 1) x)) in Hl by done.
  assert (0 < 2 ^ g) by (apply Z.pow_pos_nonneg; lia).
  destruct (Z.lt_ge_cases (low_bits (g + 1) x) (2 ^ g)) as [Hlt|Hge].
  - left. rewrite Z.mod_small in Hl by lia. done.
  - right.
    assert (Hm : low_bits (g + 1) x mod 2 ^ g = low_bits (g + 1) x - 2 ^ g).
    { replace (low_bits (g + 1) x) with ((low_bits (g + 1) x - 2 ^ g) + 1 * 2 ^ g) at 1 by lia.
      rewrite Z.mod_add by lia. apply Z.mod_small. lia. }
    lia.
Qed.

Section Buckets.
Context {K V : Type} `{EqDecision K}.
Implicit Types (l : list (K * V)) (k : K) (v : V).

Lemma Bucket_Find_None k l : Bucket_Find k l = None <-> k ∉ l.*1.
Proof.
  induction l as [|[k' v'] l IH]; simpl.
  - split; [intros _; apply not_elem_of_nil|done].
  - rewrite not_elem_of_cons. destruct (decide (k = k')) as [->|Hne].
    + split; [done|]. intros [Hk _]. done.
    + rewrite IH. tauto.
Qed.

Lemma Bucket_Find_Some_elem k v l : Bucket_Find k l = Some v -> k ∈ l.*1.
Proof.
  intros Hf. destruct (decide (k ∈ l.*1)) as [|Hn]; [done|].
  apply Bucket_Find_None in Hn. congruence.
Qed.

Lemma Bucket_assign_None k v l : k ∉ l.*1 -> Bucket_assign k v l = None.
Proof.
  induction l as [|[k' v'] l IH]; simpl; [done|].
  rewrite not_elem_of_cons. intros [Hne Hn].
  destruct (decide (k = k')); [done|]. by rewrite IH.
Qed.

Lemma Bucket_assign_Some k v l l' :
  Bucket_assign k v l = Some l' ->
  l'.*1 = l.*1 /\ Bucket_Find k l' = Some v /\
  forall k', k' <> k -> Bucket_Find k' l' = Bucket_Find k' l.
Proof.
  revert l'. induction l as [|[k0 v0] l IH]; simpl; [done|]. intros l'.
  destruct (decide (k = k0)) as [->|Hne].
  - intros [= <-]. simpl. split; [done|]. split.
    + by destruct (decide (k0 = k0)).
    + intros k' Hk'. by destruct (decide (k' = k0)).
  - destruct (Bucket_assign k v l) as [l''|] eqn:Ha; [|done].
    intros [= <-]. destruct (IH l'' eq_refl) as (Hkeys & Hfind & Hother).
    split; [by rewrite !fmap_cons, Hkeys|]. simpl. split.
    + by destruct (decide (k = k0)).
    + intros k' Hk'. destruct (decide (k' = k0)); [done|]. by apply Hother.
Qed.

Lemma Bucket_Find_snoc k v l :
  k ∉ l.*1 ->
  Bucket_Find k (l ++ [(k, v)]) = Some v /\
  forall k', k' <> k -> Bucket_Find k' (l ++ [(k, v)]) = Bucket_Find k' l.
Proof.
  induction l as [|[k0 v0] l IH]; simpl.
  - intros _. split.
    + by destruct (decide (k = k)).
    + intros k' Hk'. by destruct (decide (k' = k)).
  - rewrite not_elem_of_cons. intros [Hne Hn]. destruct (IH Hn) as [Hk Hother].
    split.
    + by destruct (decide (k = k0)).
    + intros k' Hk'. destruct (decide (k' = k0)); [done|]. by apply Hother.
Qed.

Lemma Bucket_Remove_None k l : Bucket_Remove k l = None <-> k ∉ l.*1.
Proof.
  induction l as [|[k' v'] l IH]; simpl.
  - split; [intros _; apply not_elem_of_nil|done].
  - rewrite not_elem_of_cons. destruct (decide (k = k')) as [->|Hne].
    + split; [done|]. intros [Hk _]. done.
    + destruct (Bucket_Remove k l) as [l''|].
      * split; [done|]. intros [_ Hn]. apply IH in Hn. done.
      * split; [|done]. intros _. split; [done|]. by apply IH.
Qed.

Lemma Bucket_Remove_Some k l l' :
  Bucket_Remove k l = Some l' -> NoDup l.*1 ->
  k ∈ l.*1 /\ (k ∉ l'.*1) /\ l'.*1 ⊆ l.*1 /\ NoDup l'.*1 /\
  S (length l') = length l /\
  forall k', k' <> k -> Bucket_Find k' l' = Bucket_Find k' l.
Proof.
  revert l'. induction l as [|[k0 v0] l IH]; simpl; [done|]. intros l'.
  rewrite NoDup_cons.
  destruct (decide (k = k0)) as [->|Hne].
  - intros [= <-] [Hnotin Hnd]. split; [by left|]. split; [done|].
    split; [intros x Hx; by right|]. split; [done|]. split; [done|].
    intros k' Hk'. by destruct (decide (k' = k0)).
  - destruct (Bucket_Remove k l) as [l''|] eqn:Hr; [|done].
    intros [= <-] [Hnotin Hnd].
    destruct (IH l'' eq_refl Hnd) as (Hin & Hout & Hsub & Hnd' & Hlen & Hother).
    simpl. split; [by right|]. split; [rewrite not_elem_of_cons; done|].
    split.
    { intros x. rewrite !elem_of_cons. intros [->|Hx]; [by left|right; by apply Hsub]. }
    split.
    + apply NoDup_cons. split; [|done]. intros Hx. by apply Hnotin, Hsub.
    + split; [by rewrite Hlen|].
      intros k' Hk'. destruct (decide (k' = k0)); [done|]. by apply Hother.
Qed.

Lemma Bucket_Find_filter (P : K -> Prop) `{!forall k, Decision (P k)} k l :
  P k -> Bucket_Find k (filter (fun kv => P kv.1) l) = Bucket_Find k l.
Proof.
  intros HP. induction l as [|[k0 v0] l IH]; [done|].
  rewrite filter_cons. simpl.
  destruct (decide (P k0)) as [HP0|HP0]; simpl.
  - destruct (decide (k = k0)); [done|]. done.
  - destruct (decide (k = k0)) as [->|]; [done|]. done.
Qed.

Lemma Bucket_Insert_fresh k v (b : Bucket (K := K) (V := V)) :
  k ∉ (list_ b).*1 -> Z.of_nat (length (list_ b)) < size_ b ->
  Bucket_Insert k v b = (true, mkBucket (size_ b) (depth_ b) (list_ b ++ [(k, v)])).
Proof.
  intros Hk Hlen. unfold Bucket_Insert, IsFull.
  rewrite Bucket_assign_None by done.
  by rewrite (proj2 (Z.eqb_neq _ _)) by lia.
Qed.

End Buckets.

Section Tables.
Context {K V : Type} `{EqDecision K}.
Variable hash : K -> Z.
Implicit Types (t : ExtendibleHashTable (K := K) (V := V)).
Implicit Types (b : Bucket (K := K) (V := V)) (l : list (K * V)) (k : K) (v : V).

Lemma redistribute_filter (d s s' : Z) (items l0 l1 : list (K * V)) :
  NoDup items.*1 ->
  (forall k, k ∈ items.*1 -> (k ∉ l0.*1) /\ (k ∉ l1.*1)) ->
  Z.of_nat (length l0 + length items) <= s ->
  Z.of_nat (length l1 + length items) <= s ->
  redistribute hash (Z.shiftl 1 d) items (mkBucket s s' l0) (mkBucket s s' l1) =
    (mkBucket s s' (l0 ++ filter (fun kv => bit_clear hash d kv.1) items),
     mkBucket s s' (l1 ++ filter (fun kv => ~ bit_clear hash d kv.1) items)).
Proof.
  unfold redistribute.
  revert l0 l1. induction items as [|[k v] items IH]; intros l0 l1 Hnd Hfresh Hlen0 Hlen1.
  - simpl. by rewrite !app_nil_r.
  - rewrite fmap_cons, NoDup_cons in Hnd. destruct Hnd as [Hk Hnd].
    destruct (Hfresh k ltac:(rewrite fmap_cons; by left)) as [Hk0 Hk1].
    simpl in Hlen0, Hlen1. simpl fold_left.
    rewrite !filter_cons. simpl.
    destruct (Z.eqb_spec (Z.land (hash k) (Z.shiftl 1 d)) 0) as [Hbit|Hbit].
    + rewrite Bucket_Insert_fresh by (simpl; done || lia). simpl.
      rewrite IH.
      * rewrite decide_True by done. rewrite decide_False by (intros Hn; by apply Hn).
        by rewrite <- app_assoc.
      * done.
      * intros k' Hk'. destruct (Hfresh k' ltac:(rewrite fmap_cons; by right)) as [H0 H1].
        split; [|done]. rewrite fmap_app, not_elem_of_app. split; [done|].
        simpl. rewrite list_elem_of_singleton. intros ->. done.
      * rewrite length_app. simpl. lia.
      * lia.
    + rewrite Bucket_Insert_fresh by (simpl; done || lia). simpl.
      rewrite IH.
      * rewrite decide_False by done. rewrite decide_True by done.
        by rewrite <- app_assoc.
      * done.
      * intros k' Hk'. destruct (Hfresh k' ltac:(rewrite fmap_cons; by right)) as [H0 H1].
        split; [done|]. rewrite fmap_app, not_elem_of_app. split; [done|].
        simpl. rewrite list_elem_of_singleton. intros ->. done.
      * lia.
      * rewrite length_app. simpl. lia.
Qed.

Lemma split_split_table t i r b :
  bucket_ok hash t i b -> split hash t r b = split_table hash t r b.
Proof.
  intros [Hd Hs Hl Hn Hb]. unfold split, split_table, GetGlobalDepth.
  rewrite redistribute_filter.
  - done.
  - done.
  - intros k _. simpl. split; apply not_elem_of_nil.
  - simpl. lia.
  - simpl. lia.
Qed.

Lemma filter_keys_NoDup (P : K * V -> Prop) `{!forall kv, Decision (P kv)} l :
  NoDup l.*1 -> NoDup (filter P l).*1.
Proof.
  intros Hnd. apply (sublist_NoDup _ _ Hnd).
  apply fmap_sublist, sublist_filter.
Qed.

Lemma filter_keys_elem (P : K -> Prop) `{!forall k, Decision (P k)} k l :
  k ∈ (filter (fun kv => P kv.1) l).*1 -> P k /\ k ∈ l.*1.
Proof.
  rewrite list_elem_of_fmap. intros ([k' v'] & -> & Hin).
  apply list_elem_of_filter in Hin as [HP Hin]. split; [done|].
  apply list_elem_of_fmap. by exists (k', v').
Qed.

Lemma bucket_at_Ok t (i : Z) r b :
  bucket_at t i = Ok (r, b) <->
  0 <= i /\ dir_ t !! Z.to_nat i = Some r /\ heap_ t !! r = Some b.
Proof.
  unfold bucket_at. split.
  - intros Hb. destruct (Z.ltb_spec i 0) as [Hlt|Hge]; [done|].
    destruct (dir_ t !! Z.to_nat i) as [r'|] eqn:Hr; simpl in Hb; [|done].
    destruct (heap_ t !! r') as [b'|] eqn:Hb'; simpl in Hb; [|done].
    injection Hb as -> ->. done.
  - intros (H0 & Hr & Hb). destruct (Z.ltb_spec i 0) as [Hlt|Hge]; [lia|].
    rewrite Hr. simpl. rewrite Hb. done.
Qed.

Lemma IndexOf_low_bits t k : IndexOf hash t k = low_bits (global_depth_ t) (hash k).
Proof. reflexivity. Qed.

Lemma IndexOf_slot t k :
  table_invariant hash t ->
  0 <= IndexOf hash t k /\ (Z.to_nat (IndexOf hash t k) < length (dir_ t))%nat.
Proof.
  intros Hinv. rewrite IndexOf_low_bits.
  pose proof (low_bits_range (global_depth_ t) (hash k) (ti_depth _ _ Hinv)).
  pose proof (ti_dir _ _ Hinv). lia.
Qed.

(** In a well-formed table every key has a bucket. *)
Lemma bucket_at_IndexOf t k :
  table_invariant hash t ->
  exists r b, bucket_at t (IndexOf hash t k) = Ok (r, b) /\
    bucket_ok hash t (Z.to_nat (IndexOf hash t k)) b.
Proof.
  intros Hinv. destruct (IndexOf_slot t k Hinv) as [H0 Hlt].
  destruct (lookup_lt_is_Some_2 _ _ Hlt) as [r Hr].
  destruct (ti_bucket _ _ Hinv _ _ Hr) as (b & Hb & Hok).
  exists r, b. split; [|done]. by apply bucket_at_Ok.
Qed.

Lemma doubled_lookup t (d : Z) (i : nat) (r : nat) :
  table_invariant hash t ->
  (if global_depth_ t =? d then dir_ t ++ dir_ t else dir_ t) !! i = Some r ->
  exists i_, dir_ t !! i_ = Some r /\
    forall d', 0 <= d' <= global_depth_ t ->
      low_bits d' (Z.of_nat i_) = low_bits d' (Z.of_nat i).
Proof.
  intros Hinv. destruct (global_depth_ t =? d); [|by eauto].
  intros Hl. destruct (decide (i < length (dir_ t))%nat) as [Hlt|Hge].
  - rewrite lookup_app_l in Hl by done. eauto.
  - rewrite lookup_app_r in Hl by lia.
    exists (i - length (dir_ t))%nat. split; [done|].
    intros d' Hd'. pose proof (ti_dir _ _ Hinv).
    replace (Z.of_nat i)
      with (Z.of_nat (i - length (dir_ t)) + 2 ^ global_depth_ t) by lia.
    by rewrite low_bits_add_pow.
Qed.

Lemma doubled_index t (d x : Z) :
  table_invariant hash t ->
  (if global_depth_ t =? d then dir_ t ++ dir_ t else dir_ t)
    !! Z.to_nat (low_bits (if global_depth_ t =? d then global_depth_ t + 1
                           else global_depth_ t) x)
  = dir_ t !! Z.to_nat (low_bits (global_depth_ t) x).
Proof.
  intros Hinv. destruct (global_depth_ t =? d); [|done].
  pose proof (ti_depth _ _ Hinv) as Hg. pose proof (ti_dir _ _ Hinv) as Hlen.
  pose proof (low_bits_range (global_depth_ t) x Hg) as Hr.
  destruct (low_bits_next (global_depth_ t) x Hg) as [-> | ->].
  - apply lookup_app_l. lia.
  - rewrite lookup_app_r by lia. f_equal. lia.
Qed.

Lemma split_table_depth t r b :
  global_depth_ t <= global_depth_ (split_table hash t r b) /\
  global_depth_ (split_table hash t r b) <= Z.max (global_depth_ t) (depth_ b + 1).
Proof.
  simpl. destruct (Z.eqb_spec (global_depth_ t) (depth_ b)); lia.
Qed.

Lemma bit_clear_testbit (d : Z) k :
  0 <= d -> bit_clear hash d k <-> Z.testbit (hash k) d = false.
Proof.
  intros Hd. unfold bit_clear. rewrite land_bit by done.
  destruct (Z.testbit (hash k) d); [|done].
  split; [|done]. intros H0. exfalso. revert H0. apply Z.pow_nonzero; lia.
Qed.

Lemma rewire_lookup (mask : Z) (target r0 r1 : nat) (dir : list nat) (i r' : nat) :
  rewire mask target r0 r1 dir !! i = Some r' <->
  exists r'', dir !! i = Some r'' /\
    r' = if decide (r'' = target)
         then if Z.land (Z.of_nat i) mask =? 0 then r0 else r1
         else r''.
Proof.
  unfold rewire. rewrite list_lookup_imap.
  destruct (dir !! i) as [r''|]; simpl.
  - split.
    + intros [= <-]. eauto.
    + intros (? & [= <-] & ->). done.
  - split; [done|]. intros (? & ? & _). done.
Qed.

(** Where a slot of the split table comes from: the slot [i_] of the old
    directory that it copies agrees with it on the low bits, and it
    points where [i_] pointed unless that was the bucket being split. *)
Lemma split_table_slot t (i0 : nat) r b (i r' : nat) :
  table_invariant hash t -> dir_ t !! i0 = Some r -> heap_ t !! r = Some b ->
  dir_ (split_table hash t r b) !! i = Some r' ->
  exists i_ r'' b'',
    dir_ t !! i_ = Some r'' /\ heap_ t !! r'' = Some b'' /\ bucket_ok hash t i_ b'' /\
    (forall d', 0 <= d' <= global_depth_ t ->
       low_bits d' (Z.of_nat i_) = low_bits d' (Z.of_nat i)) /\
    ((r'' <> r /\ r' = r'') \/
     (r'' = r /\ Z.testbit (Z.of_nat i) (depth_ b) = false /\ r' = length (heap_ t)) \/
     (r'' = r /\ Z.testbit (Z.of_nat i) (depth_ b) = true /\
      r' = S (length (heap_ t)))).
Proof.
  intros Hinv Hr Hb Hl. simpl in Hl.
  apply rewire_lookup in Hl as (r'' & Hl & ->).
  destruct (doubled_lookup t _ _ _ Hinv Hl) as (i_ & Hi_ & Hagree).
  destruct (ti_bucket _ _ Hinv _ _ Hi_) as (b'' & Hb'' & Hok).
  exists i_, r'', b''. split; [done|]. split; [done|]. split; [done|]. split; [done|].
  destruct (decide (r'' = r)) as [->|Hne]; [|by left].
  right. assert (b'' = b) as -> by congruence.
  rewrite bit_test by apply Hok.
  destruct (Z.testbit (Z.of_nat i) (depth_ b)); simpl; [right|left]; done.
Qed.

Lemma split_table_heap_old t r b r' b' :
  heap_ t !! r' = Some b' -> heap_ (split_table hash t r b) !! r' = Some b'.
Proof.
  intros Hb. simpl. rewrite lookup_app_l; [done|]. by eapply lookup_lt_Some.
Qed.

Lemma new_bucket_ok t r b (i_ i : nat) (P : K -> Prop) `{!forall k, Decision (P k)} :
  table_invariant hash t ->
  bucket_ok hash t i_ b ->
  (forall d', 0 <= d' <= global_depth_ t ->
     low_bits d' (Z.of_nat i_) = low_bits d' (Z.of_nat i)) ->
  (forall k, P k -> Z.testbit (hash k) (depth_ b) = Z.testbit (Z.of_nat i) (depth_ b)) ->
  bucket_ok hash (split_table hash t r b) i
    (mkBucket (bucket_size_ t) (depth_ b + 1) (filter (fun kv => P kv.1) (list_ b))).
Proof.
  intros Hinv [Hd Hs Hlen Hnd Hbits] Hagree HP. split; simpl.
  - destruct (Z.eqb_spec (global_depth_ t) (depth_ b)); lia.
  - done.
  - pose proof (length_filter (fun kv : K * V => P kv.1) (list_ b)). lia.
  - by apply filter_keys_NoDup.
  - intros k Hk. apply filter_keys_elem in Hk as [HPk Hk].
    apply low_bits_succ; [lia| |by apply HP].
    rewrite (Hbits k Hk). apply Hagree. lia.
Qed.

Lemma old_bucket_ok t r b (i_ i : nat) b'' :
  bucket_ok hash t i_ b'' ->
  (forall d', 0 <= d' <= global_depth_ t ->
     low_bits d' (Z.of_nat i_) = low_bits d' (Z.of_nat i)) ->
  bucket_ok hash (split_table hash t r b) i b''.
Proof.
  intros [Hd Hs Hlen Hnd Hbits] Hagree. split.
  - pose proof (split_table_depth t r b). lia.
  - done.
  - done.
  - done.
  - intros k Hk. rewrite (Hbits k Hk). by apply Hagree.
Qed.

Lemma split_table_invariant t (i0 : nat) r b :
  table_invariant hash t -> dir_ t !! i0 = Some r -> heap_ t !! r = Some b ->
  table_invariant hash (split_table hash t r b).
Proof.
  intros Hinv Hr Hb.
  destruct (ti_bucket _ _ Hinv _ _ Hr) as (b0 & Hb0 & Hok0).
  assert (b0 = b) as -> by congruence.
  pose proof (ti_depth _ _ Hinv) as Hg. pose proof (ti_dir _ _ Hinv) as Hlen.
  split.
  - simpl. destruct (global_depth_ t =? depth_ b); lia.
  - simpl. unfold rewire. rewrite length_imap.
    destruct (global_depth_ t =? depth_ b); [|done].
    rewrite length_app, Z.pow_add_r, Z.pow_1_r by lia. lia.
  - intros i r' Hl.
    destruct (split_table_slot t i0 r b i r' Hinv Hr Hb Hl)
      as (i_ & r'' & b'' & Hi_ & Hb'' & Hok & Hagree & Hcase).
    destruct Hcase as [[Hne ->] | [(-> & Hbit & ->) | (-> & Hbit & ->)]].
    + exists b''. split; [by apply split_table_heap_old|]. by eapply old_bucket_ok.
    + assert (b'' = b) as -> by congruence.
      eexists. split; [simpl; by apply list_lookup_middle|].
      apply (new_bucket_ok t r b i_ i (bit_clear hash (depth_ b))); [done..|].
      intros k Hk. apply bit_clear_testbit in Hk; [|apply Hok]. congruence.
    + assert (b'' = b) as -> by congruence.
      eexists. split.
      { simpl. rewrite lookup_app_r by lia.
        replace (S (length (heap_ t)) - length (heap_ t))%nat with 1%nat by lia.
        reflexivity. }
      apply (@new_bucket_ok t r b i_ i (fun k => ~ bit_clear hash (depth_ b) k)
               (fun k => not_dec (bit_clear_dec hash (depth_ b) k))); [done..|].
      intros k Hk. rewrite bit_clear_testbit in Hk by apply Hok.
      rewrite Hbit. by destruct (Z.testbit (hash k) (depth_ b)).
  - intros i j r' b' Hi Hj Hb'.
    destruct (split_table_slot t i0 r b i r' Hinv Hr Hb Hi)
      as (i_ & ri & bi & Hi_ & Hbi & Hoki & Hagreei & Hcasei).
    destruct (split_table_slot t i0 r b j r' Hinv Hr Hb Hj)
      as (j_ & rj & bj & Hj_ & Hbj & Hokj & Hagreej & Hcasej).
    pose proof (lookup_lt_Some _ _ _ Hbi) as Hlti.
    pose proof (lookup_lt_Some _ _ _ Hbj) as Hltj.
    assert (Hnew : forall bit,
      ri = r -> rj = r ->
      Z.testbit (Z.of_nat i) (depth_ b) = bit -> Z.testbit (Z.of_nat j) (depth_ b) = bit ->
      low_bits (depth_ b + 1) (Z.of_nat i) = low_bits (depth_ b + 1) (Z.of_nat j)).
    { intros bit -> -> Hbi' Hbj'.
      apply low_bits_succ; [apply Hok0| |congruence].
      rewrite <- (Hagreei (depth_ b)), <- (Hagreej (depth_ b)) by apply Hok0.
      by apply (ti_share _ _ Hinv i_ j_ r b). }
    destruct Hcasei as [[Hnei ->] | [(-> & Hbiti & ->) | (-> & Hbiti & ->)]];
      destruct Hcasej as [[Hnej Heq] | [(-> & Hbitj & Heq) | (-> & Hbitj & Heq)]];
      try lia.
    + subst rj.
      assert (Hb'old : heap_ t !! ri = Some b').
      { simpl in Hb'. rewrite lookup_app_l in Hb' by done. done. }
      assert (bi = b') as -> by congruence.
      rewrite <- (Hagreei (depth_ b')), <- (Hagreej (depth_ b')) by apply Hoki.
      by apply (ti_share _ _ Hinv i_ j_ ri b').
    + simpl in Hb'. rewrite list_lookup_middle in Hb' by done.
      injection Hb' as <-. simpl. by apply (Hnew false).
    + simpl in Hb'. rewrite lookup_app_r in Hb' by lia.
      replace (S (length (heap_ t)) - length (heap_ t))%nat with 1%nat in Hb' by lia.
      injection Hb' as <-. simpl. by apply (Hnew true).
Qed.

(** The bucket of a key after a split: the bucket it had before, unless
    that was the bucket being split; then it is the half that the key's
    bit selects. *)
Lemma split_table_bucket t (i0 : nat) r b k r'' b'' :
  table_invariant hash t -> dir_ t !! i0 = Some r -> heap_ t !! r = Some b ->
  bucket_at t (IndexOf hash t k) = Ok (r'', b'') ->
  exists r' b',
    bucket_at (split_table hash t r b) (IndexOf hash (split_table hash t r b) k)
      = Ok (r', b') /\
    ((r'' <> r /\ b' = b'') \/
     (r'' = r /\ Z.testbit (hash k) (depth_ b) = false /\
      b' = mkBucket (bucket_size_ t) (depth_ b + 1)
             (filter (fun kv => bit_clear hash (depth_ b) kv.1) (list_ b))) \/
     (r'' = r /\ Z.testbit (hash k) (depth_ b) = true /\
      b' = mkBucket (bucket_size_ t) (depth_ b + 1)
             (filter (fun kv => ~ bit_clear hash (depth_ b) kv.1) (list_ b)))).
Proof.
  intros Hinv Hr Hb Hat.
  apply bucket_at_Ok in Hat as (H0 & Hl & Hb'').
  destruct (ti_bucket _ _ Hinv _ _ Hr) as (b0 & Hb0 & Hok0).
  assert (b0 = b) as -> by congruence.
  pose proof (split_table_invariant t i0 r b Hinv Hr Hb) as Hinv'.
  destruct (IndexOf_slot _ k Hinv') as [H0' Hlt'].
  destruct (lookup_lt_is_Some_2 _ _ Hlt') as [r' Hr'].
  destruct (ti_bucket _ _ Hinv' _ _ Hr') as (b' & Hb' & _).
  exists r', b'. split; [by apply bucket_at_Ok|].
  pose proof Hr' as Hr2. simpl in Hr2. apply rewire_lookup in Hr2 as (ro & Hro & ->).
  rewrite IndexOf_low_bits in Hro. simpl in Hro.
  rewrite doubled_index in Hro by done.
  rewrite IndexOf_low_bits in Hl.
  assert (ro = r'') as -> by congruence.
  assert (Hbit : Z.testbit (Z.of_nat (Z.to_nat (IndexOf hash (split_table hash t r b) k)))
                   (depth_ b) = Z.testbit (hash k) (depth_ b)).
  { rewrite Z2Nat.id by done. rewrite IndexOf_low_bits. apply low_bits_bit.
    pose proof (bo_depth _ _ _ _ Hok0). simpl.
    destruct (Z.eqb_spec (global_depth_ t) (depth_ b)); lia. }
  rewrite bit_test, Hbit in Hb' by apply Hok0.
  destruct (decide (r'' = r)) as [->|Hne].
  - right. destruct (Z.testbit (hash k) (depth_ b)); simpl in Hb'.
    + right. split; [done|]. split; [done|].
      rewrite lookup_app_r in Hb' by lia.
      replace (S (length (heap_ t)) - length (heap_ t))%nat with 1%nat in Hb' by lia.
      by injection Hb' as <-.
    + left. split; [done|]. split; [done|].
      rewrite list_lookup_middle in Hb' by done. by injection Hb' as <-.
  - left. split; [done|].
    rewrite (split_table_heap_old t r b r'' b'' Hb'') in Hb'. congruence.
Qed.

Lemma Find_bucket t k r b :
  bucket_at t (IndexOf hash t k) = Ok (r, b) ->
  Find hash t k = Ok (Bucket_Find k (list_ b)).
Proof. unfold Find. by intros ->. Qed.

Lemma split_table_Find t (i0 : nat) r b k :
  table_invariant hash t -> dir_ t !! i0 = Some r -> heap_ t !! r = Some b ->
  Find hash (split_table hash t r b) k = Find hash t k.
Proof.
  intros Hinv Hr Hb.
  destruct (ti_bucket _ _ Hinv _ _ Hr) as (b0 & Hb0 & Hok0).
  assert (b0 = b) as -> by congruence.
  destruct (bucket_at_IndexOf t k Hinv) as (r'' & b'' & Hat & Hok).
  destruct (split_table_bucket t i0 r b k r'' b'' Hinv Hr Hb Hat)
    as (r' & b' & Hat' & Hcase).
  rewrite (Find_bucket _ _ _ _ Hat), (Find_bucket _ _ _ _ Hat').
  f_equal.
  destruct Hcase as [[Hne ->] | [(-> & Hbit & ->) | (-> & Hbit & ->)]]; [done| |].
  - apply bucket_at_Ok in Hat as (_ & _ & Hb2). assert (b'' = b) as -> by congruence.
    simpl.
    apply (@Bucket_Find_filter _ _ _ (bit_clear hash (depth_ b))
             (bit_clear_dec hash (depth_ b))).
    apply bit_clear_testbit; [apply Hok0|done].
  - apply bucket_at_Ok in Hat as (_ & _ & Hb2). assert (b'' = b) as -> by congruence.
    simpl.
    apply (@Bucket_Find_filter _ _ _ (fun k => ~ bit_clear hash (depth_ b) k)
             (fun k => not_dec (bit_clear_dec hash (depth_ b) k))).
    rewrite bit_clear_testbit by apply Hok0. by rewrite Hbit.
Qed.

(** The loop of Insert keeps the table well-formed and its contents; it
    ends on a table in which the key's bucket has room. *)
Lemma Insert_while_spec (fuel : nat) t k t' :
  table_invariant hash t -> Insert_while hash fuel t k = Ok t' ->
  table_invariant hash t' /\
  (forall k', Find hash t' k' = Find hash t k') /\
  bucket_size_ t' = bucket_size_ t /\
  global_depth_ t <= global_depth_ t' /\
  exists r b, bucket_at t' (IndexOf hash t' k) = Ok (r, b) /\ IsFull b = false.
Proof.
  revert t. induction fuel as [|fuel IH]; intros t Hinv; simpl; [done|].
  destruct (bucket_at t (IndexOf hash t k)) as [[r b]| | |] eqn:Hat; simpl; try done.
  pose proof Hat as Hat'. apply bucket_at_Ok in Hat' as (H0 & Hr & Hb).
  destruct (ti_bucket _ _ Hinv _ _ Hr) as (b0 & Hb0 & Hok0).
  assert (b0 = b) as -> by congruence.
  destruct (IsFull b) eqn:Hfull.
  - rewrite (split_split_table t _ r b Hok0).
    intros Hw. apply IH in Hw; [|by eapply split_table_invariant].
    destruct Hw as (Hinv' & Hfind & Hsize & Hdepth & Hroom).
    split; [done|]. split.
    { intros k'. rewrite Hfind. by eapply split_table_Find. }
    split; [done|]. split; [|done].
    pose proof (split_table_depth t r b). lia.
  - intros [= <-]. split; [done|]. split; [done|]. split; [done|]. split; [lia|].
    by exists r, b.
Qed.

Lemma set_bucket_invariant t (i0 : nat) r b b' :
  table_invariant hash t -> dir_ t !! i0 = Some r -> heap_ t !! r = Some b ->
  depth_ b' = depth_ b -> size_ b' = size_ b ->
  Z.of_nat (length (list_ b')) <= size_ b' ->
  NoDup (list_ b').*1 ->
  (forall k, k ∈ (list_ b').*1 ->
     k ∈ (list_ b).*1 \/
     low_bits (depth_ b) (hash k) = low_bits (depth_ b) (Z.of_nat i0)) ->
  table_invariant hash (set_bucket t r b').
Proof.
  intros Hinv Hr Hb Hd Hs Hlen Hnd Hkeys.
  pose proof (lookup_lt_Some _ _ _ Hb) as Hlt.
  split; simpl.
  - apply Hinv.
  - apply Hinv.
  - intros i r' Hi. destruct (ti_bucket _ _ Hinv _ _ Hi) as (b1 & Hb1 & Hok1).
    destruct (decide (r' = r)) as [->|Hne].
    + exists b'. split; [by apply list_lookup_insert_eq|].
      assert (b1 = b) as -> by congruence.
      destruct Hok1 as [Hd1 Hs1 Hl1 Hn1 Hbits1]. split; simpl.
      * by rewrite Hd.
      * by rewrite Hs.
      * done.
      * done.
      * intros k Hk. rewrite Hd. destruct (Hkeys k Hk) as [Hin|Heq].
        -- by apply Hbits1.
        -- rewrite Heq. by apply (ti_share _ _ Hinv i0 i r b).
    + exists b1. split; [by rewrite list_lookup_insert_ne|].
      destruct Hok1; split; done.
  - intros i j r' b1 Hi Hj Hb1. destruct (decide (r' = r)) as [->|Hne].
    + rewrite list_lookup_insert_eq in Hb1 by done. injection Hb1 as <-.
      rewrite Hd. by apply (ti_share _ _ Hinv i j r b).
    + rewrite list_lookup_insert_ne in Hb1 by done.
      by apply (ti_share _ _ Hinv i j r' b1).
Qed.

Lemma set_bucket_bucket_at t r b' (i : Z) r1 b1 :
  bucket_at t i = Ok (r1, b1) ->
  bucket_at (set_bucket t r b') i = Ok (r1, if decide (r1 = r) then b' else b1).
Proof.
  intros Hat. apply bucket_at_Ok in Hat as (H0 & Hr1 & Hb1).
  apply bucket_at_Ok. split; [done|]. split; [done|]. simpl.
  destruct (decide (r1 = r)) as [->|Hne].
  - apply list_lookup_insert_eq. by eapply lookup_lt_Some.
  - by rewrite list_lookup_insert_ne.
Qed.

(** Replacing the list of one bucket changes the lookups that go through
    that bucket only. *)
Lemma set_bucket_Find t r b l' k :
  table_invariant hash t -> heap_ t !! r = Some b ->
  Find hash (set_bucket t r (mkBucket (size_ b) (depth_ b) l')) k =
    match bucket_at t (IndexOf hash t k) with
    | Ok (r1, b1) => Ok (Bucket_Find k (if decide (r1 = r) then l' else list_ b1))
    | _ => Find hash t k
    end.
Proof.
  intros Hinv Hb.
  destruct (bucket_at_IndexOf t k Hinv) as (r1 & b1 & Hat & _). rewrite Hat.
  change (IndexOf hash t k)
    with (IndexOf hash (set_bucket t r (mkBucket (size_ b) (depth_ b) l')) k) in Hat.
  rewrite (Find_bucket _ _ _ _
             (set_bucket_bucket_at t r (mkBucket (size_ b) (depth_ b) l') _ r1 b1 Hat)).
  by destruct (decide (r1 = r)).
Qed.

Lemma Bucket_assign_is_Some k v l :
  k ∈ l.*1 -> exists l', Bucket_assign k v l = Some l'.
Proof.
  induction l as [|[k0 v0] l IH]; simpl.
  - intros Hk. by apply elem_of_nil in Hk.
  - intros Hk. destruct (decide (k = k0)); [by eauto|].
    apply elem_of_cons in Hk as [?|Hk]; [done|].
    destruct (IH Hk) as [l' ->]. eauto.
Qed.

(** Insert, whenever it returns. *)
Lemma Insert_spec (fuel : nat) t k v t' :
  table_invariant hash t -> Insert hash fuel t k v = Ok t' ->
  table_invariant hash t' /\
  Find hash t' k = Ok (Some v) /\
  (forall k', k' <> k -> Find hash t' k' = Find hash t k') /\
  bucket_size_ t' = bucket_size_ t /\
  global_depth_ t <= global_depth_ t'.
Proof.
  intros Hinv. unfold Insert.
  destruct (bucket_at_IndexOf t k Hinv) as (r & b & Hat & Hok). rewrite Hat. simpl.
  pose proof Hat as Hat'. apply bucket_at_Ok in Hat' as (H0 & Hr & Hb).
  destruct (Bucket_Find k (list_ b)) as [v0|] eqn:Hfind.
  - intros [= <-].
    destruct (Bucket_assign_is_Some k v (list_ b)) as [l' Ha];
      [by eapply Bucket_Find_Some_elem|].
    destruct (Bucket_assign_Some _ _ _ _ Ha) as (Hkeys & Hk & Hother).
    unfold Bucket_Insert. rewrite Ha. simpl.
    split.
    { eapply set_bucket_invariant; [done..| | | |]; simpl.
      - done.
      - assert (length l' = length (list_ b)) as ->; [|apply Hok].
        by rewrite <- (length_fmap fst l'), Hkeys, length_fmap.
      - rewrite Hkeys. apply Hok.
      - intros k'. rewrite Hkeys. by left. }
    split.
    { rewrite (set_bucket_Find t r b l' k Hinv Hb), Hat.
      rewrite decide_True by done. by rewrite Hk. }
    split; [|done].
    intros k' Hk'. rewrite (set_bucket_Find t r b l' k' Hinv Hb).
    destruct (bucket_at_IndexOf t k' Hinv) as (r1 & b1 & Hat1 & _).
    rewrite Hat1, (Find_bucket _ _ _ _ Hat1). f_equal.
    destruct (decide (r1 = r)) as [->|]; [|done].
    apply bucket_at_Ok in Hat1 as (_ & _ & Hb1).
    assert (b1 = b) as -> by congruence. by apply Hother.
  - destruct (Insert_while hash fuel t k) as [t1| | |] eqn:Hw; simpl; try done.
    destruct (Insert_while_spec fuel t k t1 Hinv Hw)
      as (Hinv1 & Hfind1 & Hsize1 & Hdepth1 & r1 & b1 & Hat1 & Hroom).
    rewrite Hat1. simpl. intros [= <-].
    pose proof Hat1 as Hat1'. apply bucket_at_Ok in Hat1' as (H01 & Hr1 & Hb1).
    destruct (ti_bucket _ _ Hinv1 _ _ Hr1) as (b2 & Hb2 & Hok1).
    assert (b2 = b1) as -> by congruence.
    assert (Hfresh : k ∉ (list_ b1).*1).
    { apply Bucket_Find_None.
      pose proof (Hfind1 k) as Hk.
      rewrite (Find_bucket _ _ _ _ Hat1), (Find_bucket _ _ _ _ Hat), Hfind in Hk.
      congruence. }
    assert (Hlen : Z.of_nat (length (list_ b1)) < size_ b1).
    { pose proof (bo_length _ _ _ _ Hok1). unfold IsFull in Hroom.
      apply Z.eqb_neq in Hroom. lia. }
    rewrite Bucket_Insert_fresh by done. simpl.
    destruct (Bucket_Find_snoc k v (list_ b1) Hfresh) as [Hk Hother].
    split.
    { eapply set_bucket_invariant; [done..| | | |]; simpl.
      - done.
      - rewrite length_app. simpl. lia.
      - rewrite fmap_app. apply NoDup_app. split; [apply Hok1|]. split.
        + intros x Hx. simpl. rewrite list_elem_of_singleton. intros ->. done.
        + simpl. apply NoDup_singleton.
      - intros k'. rewrite fmap_app, elem_of_app. simpl.
        rewrite list_elem_of_singleton. intros [Hin| ->]; [by left|right].
        rewrite Z2Nat.id by done. rewrite IndexOf_low_bits.
        symmetry. apply low_bits_low_bits. apply Hok1. }
    split.
    { rewrite (set_bucket_Find t1 r1 b1 _ k Hinv1 Hb1), Hat1.
      rewrite decide_True by done. by rewrite Hk. }
    split; [|lia].
    intros k' Hk'. rewrite (set_bucket_Find t1 r1 b1 _ k' Hinv1 Hb1), <- Hfind1.
    destruct (bucket_at_IndexOf t1 k' Hinv1) as (r2 & b2 & Hat2 & _).
    rewrite Hat2, (Find_bucket _ _ _ _ Hat2). f_equal.
    destruct (decide (r2 = r1)) as [->|]; [|done].
    apply bucket_at_Ok in Hat2 as (_ & _ & Hb2').
    assert (b2 = b1) as -> by congruence. by apply Hother.
Qed.

(** Remove always returns in a well-formed table. *)
Lemma Remove_spec t k :
  table_invariant hash t ->
  exists (found : bool) t',
    Remove hash t k = Ok (found, t') /\
    table_invariant hash t' /\
    (found = true <-> exists v, Find hash t k = Ok (Some v)) /\
    (found = false -> t' = t) /\
    Find hash t' k = Ok None /\
    (forall k', k' <> k -> Find hash t' k' = Find hash t k') /\
    global_depth_ t' = global_depth_ t /\ num_buckets_ t' = num_buckets_ t /\
    dir_ t' = dir_ t.
Proof.
  intros Hinv. unfold Remove.
  destruct (bucket_at_IndexOf t k Hinv) as (r & b & Hat & Hok). rewrite Hat. simpl.
  pose proof Hat as Hat'. apply bucket_at_Ok in Hat' as (H0 & Hr & Hb).
  rewrite (Find_bucket _ _ _ _ Hat).
  destruct (Bucket_Remove k (list_ b)) as [l'|] eqn:Hrem.
  - destruct (Bucket_Remove_Some _ _ _ Hrem (bo_nodup _ _ _ _ Hok))
      as (Hin & Hout & Hsub & Hnd & Hlen & Hother).
    eexists true, _. split; [reflexivity|].
    split.
    { eapply set_bucket_invariant; [done..| | | |]; simpl.
      - done.
      - pose proof (bo_length _ _ _ _ Hok). lia.
      - done.
      - intros k' Hk'. left. by apply Hsub. }
    split.
    { split; [|done]. intros _.
      destruct (Bucket_Find k (list_ b)) as [v|] eqn:Hf; [by eauto|].
      apply Bucket_Find_None in Hf. done. }
    split; [done|]. split.
    { rewrite (set_bucket_Find t r b l' k Hinv Hb), Hat.
      rewrite decide_True by done. f_equal. by apply Bucket_Find_None. }
    split; [|done].
    intros k' Hk'. rewrite (set_bucket_Find t r b l' k' Hinv Hb).
    destruct (bucket_at_IndexOf t k' Hinv) as (r1 & b1 & Hat1 & _).
    rewrite Hat1, (Find_bucket _ _ _ _ Hat1). f_equal.
    destruct (decide (r1 = r)) as [->|]; [|done].
    apply bucket_at_Ok in Hat1 as (_ & _ & Hb1).
    assert (b1 = b) as -> by congruence. by apply Hother.
  - apply Bucket_Remove_None in Hrem.
    exists false, t. rewrite !(Find_bucket _ _ _ _ Hat).
    split; [done|]. split; [done|]. split.
    { split; [done|]. intros [v Hv]. injection Hv as Hv.
      apply Bucket_Find_Some_elem in Hv. done. }
    split; [done|]. split.
    { f_equal. by apply Bucket_Find_None. }
    done.
Qed.

Lemma new_table_invariant (bucket_size : Z) :
  0 <= bucket_size -> table_invariant hash (new_table (V := V) bucket_size).
Proof.
  intros Hs. split; simpl.
  - done.
  - done.
  - intros [|i] r; simpl; [|done]. intros [= <-].
    eexists. split; [reflexivity|]. split; simpl; try done.
    + apply NoDup_nil_2.
    + intros k Hk. by apply elem_of_nil in Hk.
  - intros [|i] [|j] r b; simpl; try done.
Qed.

(** The half of a split bucket in which a key lands holds the entries
    whose hash has the key's bit at the old local depth. *)
Lemma split_table_bucket_same t r b k :
  table_invariant hash t ->
  bucket_at t (IndexOf hash t k) = Ok (r, b) ->
  exists r' b',
    bucket_at (split_table hash t r b) (IndexOf hash (split_table hash t r b) k)
      = Ok (r', b') /\
    size_ b' = bucket_size_ t /\ depth_ b' = depth_ b + 1 /\
    (forall k1, k1 ∈ (list_ b).*1 ->
       Z.testbit (hash k1) (depth_ b) = Z.testbit (hash k) (depth_ b) ->
       k1 ∈ (list_ b').*1) /\
    (forall k1, k1 ∈ (list_ b).*1 ->
       Z.testbit (hash k1) (depth_ b) <> Z.testbit (hash k) (depth_ b) ->
       (length (list_ b') < length (list_ b))%nat).
Proof.
  intros Hinv Hat.
  pose proof Hat as Hat'. apply bucket_at_Ok in Hat' as (H0 & Hr & Hb).
  destruct (ti_bucket _ _ Hinv _ _ Hr) as (b0 & Hb0 & Hok).
  assert (b0 = b) as -> by congruence.
  assert (Hd : 0 <= depth_ b) by apply Hok.
  destruct (split_table_bucket t _ r b k r b Hinv Hr Hb Hat) as (r' & b' & Hat1 & Hcase).
  exists r', b'. split; [done|].
  destruct Hcase as [[Hne _] | [(_ & Hbit & ->) | (_ & Hbit & ->)]]; [done| |]; simpl.
  - split; [done|]. split; [done|]. split.
    + intros k1 Hk1 Hsame. apply list_elem_of_fmap in Hk1 as ([k1' v1] & -> & Hin).
      apply list_elem_of_fmap. exists (k1', v1). split; [done|].
      apply list_elem_of_filter. split; [|done].
      simpl in *. apply bit_clear_testbit; [done|congruence].
    + intros k1 Hk1 Hdiff. apply list_elem_of_fmap in Hk1 as ([k1' v1] & -> & Hin).
      eapply length_filter_lt; [exact Hin|].
      simpl in *. rewrite bit_clear_testbit by done. congruence.
  - split; [done|]. split; [done|]. split.
    + intros k1 Hk1 Hsame. apply list_elem_of_fmap in Hk1 as ([k1' v1] & -> & Hin).
      apply list_elem_of_fmap. exists (k1', v1). split; [done|].
      apply list_elem_of_filter. split; [|done].
      simpl in *. rewrite bit_clear_testbit by done. congruence.
    + intros k1 Hk1 Hdiff. apply list_elem_of_fmap in Hk1 as ([k1' v1] & -> & Hin).
      eapply length_filter_lt; [exact Hin|].
      simpl in *. intros Hn. apply Hn. apply bit_clear_testbit; [done|].
      destruct (Z.testbit (hash k1') (depth_ b)); [congruence|done].
Qed.

(** The loop of Insert ends when some entry of the key's bucket has a
    hash that differs from the key's hash at a bit [p] not below the
    bucket's local depth: after at most [p - depth + 1] splits that entry
    is in another bucket. *)
Lemma Insert_while_terminates (n : nat) t k r b k0 (p : Z) :
  table_invariant hash t ->
  bucket_at t (IndexOf hash t k) = Ok (r, b) ->
  k0 ∈ (list_ b).*1 ->
  depth_ b <= p -> p - depth_ b <= Z.of_nat n ->
  Z.testbit (hash k0) p <> Z.testbit (hash k) p ->
  forall fuel, (n + 2 <= fuel)%nat ->
  exists t', Insert_while hash fuel t k = Ok t' /\
    global_depth_ t' <= Z.max (global_depth_ t) (p + 1).
Proof.
  revert t r b. induction n as [|n IH]; intros t r b Hinv Hat Hk0 Hp Hn Hdiff fuel Hfuel.
  all: destruct fuel as [|fuel]; [lia|]; simpl; rewrite Hat; simpl.
  all: pose proof Hat as Hat'; apply bucket_at_Ok in Hat' as (H0 & Hr & Hb).
  all: destruct (ti_bucket _ _ Hinv _ _ Hr) as (b0 & Hb0 & Hok).
  all: assert (b0 = b) as -> by congruence.
  all: destruct (IsFull b) eqn:Hfull; [|exists t; split; [done|lia]].
  all: rewrite (split_split_table t _ r b Hok).
  all: destruct (split_table_bucket_same t r b k Hinv Hat)
         as (r' & b' & Hat1 & Hsize & Hdepth & Hsame & Hless).
  all: pose proof (split_table_invariant t _ r b Hinv Hr Hb) as Hinv1.
  all: pose proof (split_table_depth t r b) as Hg.
  all: assert (Hstop : Z.testbit (hash k0) (depth_ b) <> Z.testbit (hash k) (depth_ b) ->
         exists t', Insert_while hash fuel (split_table hash t r b) k = Ok t' /\
           global_depth_ t' <= Z.max (global_depth_ t) (p + 1)).
  1,3: intros Hd; specialize (Hless k0 Hk0 Hd);
       destruct fuel as [|fuel]; [lia|]; simpl; rewrite Hat1; simpl;
       assert (IsFull b' = false) as ->;
       [unfold IsFull in *; apply Z.eqb_eq in Hfull; apply Z.eqb_neq;
        rewrite Hsize, <- (bo_size _ _ _ _ Hok); lia
       |eexists; split; [done|lia]].
  - apply Hstop. assert (depth_ b = p) as -> by lia. done.
  - destruct (decide (Z.testbit (hash k0) (depth_ b) = Z.testbit (hash k) (depth_ b)))
      as [Heq|Hne]; [|by apply Hstop].
    assert (depth_ b <> p) by (intros Hdp; rewrite Hdp in Heq; done).
    destruct (IH (split_table hash t r b) r' b' Hinv1 Hat1 (Hsame k0 Hk0 Heq)
                ltac:(lia) ltac:(lia) Hdiff fuel ltac:(lia)) as (t' & Hw & Hg').
    exists t'. split; [done|]. lia.
Qed.

(** Insert returns when its loop does. *)
Lemma Insert_returns (fuel : nat) t k v r b :
  table_invariant hash t ->
  bucket_at t (IndexOf hash t k) = Ok (r, b) ->
  k ∈ (list_ b).*1 \/
    (exists t1, Insert_while hash fuel t k = Ok t1 /\ global_depth_ t1 <= 30) ->
  global_depth_ t <= 30 ->
  exists t', Insert hash fuel t k v = Ok t' /\ global_depth_ t' <= 30.
Proof.
  intros Hinv Hat Hcase Hg. unfold Insert. rewrite Hat. simpl.
  destruct (Bucket_Find k (list_ b)) as [v0|] eqn:Hfind.
  - eexists. split; [done|]. done.
  - destruct Hcase as [Hin|(t1 & Hw & Hg1)].
    { apply Bucket_Find_None in Hfind. done. }
    rewrite Hw. simpl.
    destruct (Insert_while_spec fuel t k t1 Hinv Hw) as (_ & _ & _ & _ & r1 & b1 & Hat1 & _).
    rewrite Hat1. simpl. eexists. split; [done|]. done.
Qed.

Lemma table_reachable_invariant t : table_reachable hash t -> table_invariant hash t.
Proof.
  induction 1 as [bucket_size Hs|fuel t t' k v _ IH Hins|t t' k found _ IH Hrem].
  - by apply new_table_invariant.
  - by apply (Insert_spec fuel t k v t' IH Hins).
  - destruct (Remove_spec t k IH) as (found' & t'' & Hrem' & Hinv' & _).
    rewrite Hrem in Hrem'. by injection Hrem' as -> ->.
Qed.

End Tables.

Lemma insert_all_reachable {V : Type} (fuel : nat) (kvs : list (Z * V))
    (t t' : ExtendibleHashTable (K := Z) (V := V)) :
  table_reachable hash_int t -> insert_all fuel kvs t = Ok t' ->
  table_reachable hash_int t'.
Proof.
  unfold insert_all. revert t. induction kvs as [|[k v] kvs IH]; intros t Hreach; simpl.
  - by intros [= <-].
  - destruct (Insert hash_int fuel t k v) as [t1| | |] eqn:Hins.
    + apply IH. by eapply reachable_Insert.
    + intros Hf. exfalso. revert Hf. clear. induction kvs as [|[k' v'] kvs IH]; [done|exact IH].
    + intros Hf. exfalso. revert Hf. clear. induction kvs as [|[k' v'] kvs IH]; [done|exact IH].
    + intros Hf. exfalso. revert Hf. clear. induction kvs as [|[k' v'] kvs IH]; [done|exact IH].
Qed.

Lemma sample_final_reachable : table_reachable hash_int sample_final.
Proof.
  apply (insert_all_reachable 8
           [(1, "a"); (2, "b"); (3, "c"); (4, "d"); (5, "e");
            (6, "f"); (7, "g"); (8, "h"); (9, "i")]%string (new_table 2)).
  - by apply reachable_new_table.
  - vm_compute. reflexivity.
Qed.

(** X1.  Every table built from a new one by calls of Insert and Remove
    is well-formed: the directory has 2^global_depth slots; every slot
    points to a bucket whose local depth is between 0 and the global
    depth, which has the table's capacity, holds at most that many
    entries, with distinct keys, and only keys whose hash agrees with the
    slot number on the low local-depth bits; slots that share a bucket
    agree on those bits.  Hence Find returns for every key and
    GetLocalDepth for every slot, without an access out of range. *)
Theorem reachable_table_well_formed {K V : Type} `{EqDecision K} (hash : K -> Z)
    (t : ExtendibleHashTable (K := K) (V := V)) :
  table_reachable hash t ->
  table_invariant hash t /\
  (forall k, exists o, Find hash t k = Ok o) /\
  (forall i, 0 <= i < 2 ^ global_depth_ t ->
     exists d, GetLocalDepth t i = Ok d /\ 0 <= d <= global_depth_ t).
Proof.
  intros Hreach. pose proof (table_reachable_invariant hash t Hreach) as Hinv.
  split; [done|]. split.
  - intros k. destruct (bucket_at_IndexOf hash t k Hinv) as (r & b & Hat & _).
    rewrite (Find_bucket hash _ _ _ _ Hat). eauto.
  - intros i Hi. pose proof (ti_dir _ _ Hinv) as Hlen.
    destruct (lookup_lt_is_Some_2 (dir_ t) (Z.to_nat i) ltac:(lia)) as [r Hr].
    destruct (ti_bucket _ _ Hinv _ _ Hr) as (b & Hb & Hok).
    exists (depth_ b). split; [|apply Hok].
    unfold GetLocalDepth.
    assert (bucket_at t i = Ok (r, b)) as -> by (apply bucket_at_Ok; split; [lia|done]).
    done.
Qed.

(** The statement holds of the table of the sample test. *)
Lemma reachable_table_well_formed_witness :
  table_invariant hash_int sample_final /\
  (forall k, exists o, Find hash_int sample_final k = Ok o) /\
  (forall i, 0 <= i < 2 ^ global_depth_ sample_final ->
     exists d, GetLocalDepth sample_final i = Ok d /\ 0 <= d <= global_depth_ sample_final).
Proof.
  apply (reachable_table_well_formed hash_int sample_final).
  apply sample_final_reachable.
Defined.

(** X2.  Insert followed by Find.  In a well-formed table of global depth
    at most 30, let [b] be the bucket of key [k].  If [b] has room, or
    holds [k] already, or holds a key [k0] whose hash differs from the
    hash of [k] at a bit [p] with [depth_ b <= p <= 29], then Insert
    returns once its loop may run [p - depth_ b + 2] times; the table
    it returns is well-formed, Find of [k] gives the inserted value, Find
    of every other key gives what it gave before, and the global depth
    has not decreased and is still at most 30 (every shift the code
    computes stays within an int). *)
Theorem Insert_then_Find {K V : Type} `{EqDecision K} (hash : K -> Z)
    (t : ExtendibleHashTable (K := K) (V := V)) (k : K) (v : V)
    (r : nat) (b : Bucket) (k0 : K) (p : Z) :
  table_invariant hash t ->
  global_depth_ t <= 30 ->
  bucket_at t (IndexOf hash t k) = Ok (r, b) ->
  IsFull b = false \/ k ∈ (list_ b).*1 \/
    (k0 ∈ (list_ b).*1 /\ depth_ b <= p <= 29 /\
     Z.testbit (hash k0) p <> Z.testbit (hash k) p) ->
  forall fuel, (Z.to_nat (p - depth_ b) + 2 <= fuel)%nat ->
  exists t',
    Insert hash fuel t k v = Ok t' /\
    table_invariant hash t' /\
    Find hash t' k = Ok (Some v) /\
    (forall k', k' <> k -> Find hash t' k' = Find hash t k') /\
    global_depth_ t <= global_depth_ t' <= 30.
Proof.
  intros Hinv Hg Hat Hcase fuel Hfuel.
  assert (Hret : exists t', Insert hash fuel t k v = Ok t' /\ global_depth_ t' <= 30).
  { apply (Insert_returns hash fuel t k v r b Hinv Hat); [|done].
    destruct Hcase as [Hroom|[Hin|(Hk0 & Hp & Hdiff)]].
    - right. exists t. split; [|done].
      destruct fuel as [|fuel]; [lia|]. simpl. rewrite Hat. simpl. by rewrite Hroom.
    - by left.
    - right.
      destruct (Insert_while_terminates hash (Z.to_nat (p - depth_ b)) t k r b k0 p
                  Hinv Hat Hk0 ltac:(lia) ltac:(lia) Hdiff fuel Hfuel) as (t1 & Hw & Hg1).
      exists t1. split; [done|]. lia. }
  destruct Hret as (t' & Hins & Hg').
  destruct (Insert_spec hash fuel t k v t' Hinv Hins) as (Hinv' & Hk & Hother & _ & Hmono).
  exists t'. split; [done|]. split; [done|]. split; [done|]. split; [done|]. lia.
Qed.

(** Key 17 goes to the full bucket of keys 1 and 9 of the sample table;
    the hashes of 9 and 17 differ at bit 3, the bucket's local depth. *)
Lemma Insert_then_Find_witness :
  exists t',
    Insert hash_int 2 sample_final 17 "q"%string = Ok t' /\
    table_invariant hash_int t' /\
    Find hash_int t' 17 = Ok (Some "q"%string) /\
    (forall k', k' <> 17 -> Find hash_int t' k' = Find hash_int sample_final k') /\
    global_depth_ sample_final <= global_depth_ t' <= 30.
Proof.
  apply (Insert_then_Find hash_int sample_final 17 "q"%string 7%nat
           (mkBucket 2 3 [(1, "a"%string); (9, "i"%string)]) 9 3).
  - apply table_reachable_invariant, sample_final_reachable.
  - vm_compute. discriminate.
  - vm_compute. reflexivity.
  - right. right. split.
    + simpl. right. left.
    + split; [simpl; lia|]. vm_compute. discriminate.
  - simpl. lia.
Defined.

(** X3.  Remove in a well-formed table always returns; it returns true
    exactly when Find finds the key; afterwards Find of the key finds
    nothing and Find of every other key gives what it gave before; the
    table stays well-formed; the directory, the global depth and the
    bucket count are never changed (buckets are not merged), and a Remove
    that returns false leaves the table as it was. *)
Theorem Remove_then_Find {K V : Type} `{EqDecision K} (hash : K -> Z)
    (t : ExtendibleHashTable (K := K) (V := V)) (k : K) :
  table_invariant hash t ->
  exists (found : bool) t',
    Remove hash t k = Ok (found, t') /\
    table_invariant hash t' /\
    (found = true <-> exists v, Find hash t k = Ok (Some v)) /\
    (found = false -> t' = t) /\
    Find hash t' k = Ok None /\
    (forall k', k' <> k -> Find hash t' k' = Find hash t k') /\
    global_depth_ t' = global_depth_ t /\ num_buckets_ t' = num_buckets_ t /\
    dir_ t' = dir_ t.
Proof. apply Remove_spec. Qed.

(** Key 8 of the sample table. *)
Lemma Remove_then_Find_witness :
  exists (found : bool) t',
    Remove hash_int sample_final 8 = Ok (found, t') /\
    table_invariant hash_int t' /\
    (found = true <-> exists v, Find hash_int sample_final 8 = Ok (Some v)) /\
    (found = false -> t' = sample_final) /\
    Find hash_int t' 8 = Ok None /\
    (forall k', k' <> 8 -> Find hash_int t' k' = Find hash_int sample_final k') /\
    global_depth_ t' = global_depth_ sample_final /\
    num_buckets_ t' = num_buckets_ sample_final /\
    dir_ t' = dir_ sample_final.
Proof.
  apply (Remove_then_Find hash_int sample_final 8).
  apply table_reachable_invariant, sample_final_reachable.
Defined.

End ExtendibleHashMapFacts.

(** ** The LRU-K replacer: size, placement and the case k = 1 *)

Module LRUKInvariantFacts.
Import LRUK LRUKInvariant LRUKFacts.

Lemma size_filter_delete (m : gmap Z LRUKEntry) (f : Z) :
  Z.of_nat (size (filter (fun fe : Z * LRUKEntry => evictable_ fe.2 = true) (delete f m)))
  = Z.of_nat (size (filter (fun fe : Z * LRUKEntry => evictable_ fe.2 = true) m))
    - flag (m !! f).
Proof.
  rewrite map_filter_delete, map_size_delete.
  destruct (filter _ m !! f) as [e|] eqn:Hf.
  - apply map_lookup_filter_Some in Hf as [Hm He]. simpl in He.
    rewrite Hm. simpl. rewrite He.
    assert (size (filter (fun fe : Z * LRUKEntry => evictable_ fe.2 = true) m) <> 0%nat).
    { apply map_size_ne_0_lookup. exists f. rewrite map_lookup_filter. rewrite Hm. simpl.
      rewrite option_guard_True by done. by eexists. }
    lia.
  - apply map_lookup_filter_None in Hf as [Hm|Hn].
    + rewrite Hm. simpl. lia.
    + destruct (m !! f) as [e|] eqn:Hm; simpl; [|lia].
      specialize (Hn e eq_refl). simpl in Hn.
      destruct (evictable_ e); [done|lia].
Qed.

Lemma size_filter_insert (m : gmap Z LRUKEntry) (f : Z) (e : LRUKEntry) :
  Z.of_nat (size (filter (fun fe : Z * LRUKEntry => evictable_ fe.2 = true) (<[f := e]> m)))
  = Z.of_nat (size (filter (fun fe : Z * LRUKEntry => evictable_ fe.2 = true) m))
    - flag (m !! f) + flag (Some e).
Proof.
  rewrite map_filter_insert. simpl. case_decide as He.
  - rewrite He. rewrite <- (insert_delete_eq (filter _ m)).
    rewrite map_size_insert_None by apply lookup_delete_eq.
    rewrite <- map_filter_delete.
    pose proof (size_filter_delete m f). lia.
  - destruct (evictable_ e); [done|].
    pose proof (size_filter_delete m f). lia.
Qed.

Lemma flag_bounds (m : gmap Z LRUKEntry) (f : Z) :
  0 <= flag (m !! f) <=
    Z.of_nat (size (filter (fun fe : Z * LRUKEntry => evictable_ fe.2 = true) m)).
Proof.
  pose proof (size_filter_delete m f).
  split; [|lia]. unfold flag. destruct (m !! f) as [e|]; [|done]. by destruct (evictable_ e).
Qed.

Lemma size_t_wrap_id (x : Z) : 0 <= x < 2 ^ 64 -> size_t_wrap x = x.
Proof. intros Hx. unfold size_t_wrap. by apply Z.mod_small. Qed.

Lemma evictable_count_nonneg (r : LRUKReplacer) : 0 <= evictable_count r.
Proof. unfold evictable_count. lia. Qed.

Lemma disciplined_reachable (r : LRUKReplacer) : disciplined r -> reachable r.
Proof.
  induction 1 as [n k|r r' f _ IH Hov _ Hop|r r' f b _ IH _ Hop|r r' f _ IH _ Hop
                  |r r' v _ IH Hop].
  - apply reachable_new.
  - by apply (reachable_RecordAccess r r' f).
  - by apply (reachable_SetEvictable r r' f b).
  - by apply (reachable_Remove r r' f).
  - by apply (reachable_Evict r r' v).
Qed.

(** What Evict does when it finds a victim. *)
Lemma Evict_Some_inv (r r' : LRUKReplacer) (f : Z) :
  lists_track_entries r -> Evict r = (Some f, r') ->
  tracked_evictable r f /\
  entries_ r' = delete f (entries_ r) /\
  curr_size_ r' = size_t_wrap (curr_size_ r - 1) /\
  k_ r' = k_ r /\ replacer_size_ r' = replacer_size_ r /\
  (f ∈ history_list_ r \/
   (f ∈ cache_list_ r /\ forall g, g ∈ history_list_ r -> ~ tracked_evictable r g)) /\
  (forall g, g <> f ->
     (g ∈ history_list_ r' <-> g ∈ history_list_ r) /\
     (g ∈ cache_list_ r' <-> g ∈ cache_list_ r)).
Proof.
  intros Hl. unfold Evict.
  assert (Hh : forall g, g ∈ history_list_ r -> is_Some (entries_ r !! g))
    by (intros g Hg; apply Hl; by left).
  assert (Hc : forall g, g ∈ cache_list_ r -> is_Some (entries_ r !! g))
    by (intros g Hg; apply Hl; by right).
  destruct (rscan _ (history_list_ r)) as [[fh h']|] eqn:Hsh.
  - intros [= <- <-]. simpl.
    pose proof (rscan_backmost r _ _ _ Hh Hsh) as (l1 & l2 & Hl1 & -> & Hev & _).
    split; [done|]. split; [done|]. split; [done|]. split; [done|]. split; [done|].
    split.
    + left. rewrite Hl1. apply elem_of_app. right. by left.
    + intros g Hne. split; [|done]. rewrite Hl1, !elem_of_app, elem_of_cons.
      intuition congruence.
  - destruct (rscan _ (cache_list_ r)) as [[fc c']|] eqn:Hsc; [|discriminate].
    intros [= <- <-]. simpl.
    pose proof (rscan_backmost r _ _ _ Hc Hsc) as (l1 & l2 & Hl1 & -> & Hev & _).
    split; [done|]. split; [done|]. split; [done|]. split; [done|]. split; [done|].
    split.
    + right. split.
      * rewrite Hl1. apply elem_of_app. right. by left.
      * by apply (rscan_none_tracked r _ Hh).
    + intros g Hne. split; [done|]. rewrite Hl1, !elem_of_app, elem_of_cons.
      intuition congruence.
Qed.

Lemma Evict_None_inv (r r' : LRUKReplacer) : Evict r = (None, r') -> r' = r.
Proof.
  unfold Evict.
  destruct (rscan _ (history_list_ r)) as [[fh h']|]; [discriminate|].
  destruct (rscan _ (cache_list_ r)) as [[fc c']|]; [discriminate|].
  by intros [= <-].
Qed.

(** In the disciplined states the size counter is the number of
    evictable frames. *)
Lemma disciplined_size (r : LRUKReplacer) :
  disciplined r -> curr_size_ r = evictable_count r /\ curr_size_ r < 2 ^ 64.
Proof.
  induction 1 as [n k|r r' f Hd [IH IHlt] Hov Hsz Hop|r r' f b Hd [IH IHlt] Hsz Hop
                  |r r' f Hd [IH IHlt] Hev Hop|r r' v Hd [IH IHlt] Hop].
  - unfold evictable_count. simpl. rewrite map_filter_empty, map_size_empty. done.
  - pose proof (reachable_invariant r (disciplined_reachable r Hd)) as [Hl Hnd Hcnt].
    pose proof (evictable_count_nonneg r) as Hnn.
    revert Hop. unfold RecordAccess.
    destruct (f >? static_cast_int (replacer_size_ r)); [discriminate|].
    unfold entry in *. destruct (entries_ r !! f) as [e|] eqn:He; simpl in *.
    + specialize (Hcnt f e He).
      rewrite (size_t_wrap_id (in_count_ e + 1)) by lia.
      assert (Hcount : evictable_count
                (mkReplacer (replacer_size_ r) (k_ r) (curr_size_ r) (history_list_ r)
                   (cache_list_ r)
                   (<[f := mkEntry (in_count_ e + 1) (evictable_ e)]> (entries_ r)))
              = evictable_count r).
      { unfold evictable_count. simpl. rewrite size_filter_insert, He. simpl. lia. }
      unfold evictable_count in *. simpl in *.
      rewrite (proj2 (Z.eqb_neq _ _)) by lia.
      destruct (in_count_ e + 1 =? k_ r).
      { destruct (erase f (history_list_ r)); simpl; [|discriminate..].
        intros [= <-]. simpl. rewrite Hcount. done. }
      destruct (in_count_ e + 1 >? k_ r).
      { destruct (erase f (cache_list_ r)); simpl; [|discriminate..].
        intros [= <-]. simpl. rewrite Hcount. done. }
      intros [= <-]. simpl. rewrite Hcount. done.
    + change (size_t_wrap (0 + 1)) with 1. simpl. intros [= <-]. simpl.
      unfold evictable_count in *. simpl.
      rewrite size_filter_insert, He. simpl.
      rewrite size_t_wrap_id by lia. lia.
  - pose proof (evictable_count_nonneg r) as Hnn.
    revert Hop. unfold SetEvictable.
    destruct (f >? static_cast_int (replacer_size_ r)); [discriminate|].
    destruct (entries_ r !! f) as [e|] eqn:He; [|by intros [= <-]].
    intros [= <-]. simpl. unfold evictable_count in *. simpl.
    rewrite size_filter_insert, He. simpl.
    pose proof (flag_bounds (entries_ r) f) as Hfb. rewrite He in Hfb. simpl in Hfb.
    destruct (evictable_ e), b; simpl; rewrite ?size_t_wrap_id by lia; lia.
  - pose proof (evictable_count_nonneg r) as Hnn.
    revert Hop. unfold LRUK.Remove.
    destruct (f >? static_cast_int (replacer_size_ r)); [discriminate|].
    destruct (entries_ r !! f) as [e|] eqn:He; [|by intros [= <-]].
    specialize (Hev e eq_refl).
    pose proof (flag_bounds (entries_ r) f) as Hfb. rewrite He in Hfb. simpl in Hfb.
    rewrite Hev in Hfb.
    assert (Hcount : forall h c,
              evictable_count
                (mkReplacer (replacer_size_ r) (k_ r) (size_t_wrap (curr_size_ r - 1)) h c
                   (delete f (entries_ r)))
              = evictable_count r - 1).
    { intros h c. unfold evictable_count. simpl.
      rewrite size_filter_delete, He. simpl. by rewrite Hev. }
    unfold evictable_count in Hfb, IH.
    destruct (in_count_ e <? k_ r).
    + destruct (erase f (history_list_ r)); simpl; [|discriminate..].
      intros [= <-]. rewrite Hcount. simpl. unfold evictable_count.
      rewrite size_t_wrap_id by lia. lia.
    + destruct (erase f (cache_list_ r)); simpl; [|discriminate..].
      intros [= <-]. rewrite Hcount. simpl. unfold evictable_count.
      rewrite size_t_wrap_id by lia. lia.
  - pose proof (reachable_invariant r (disciplined_reachable r Hd)) as [Hl Hnd Hcnt].
    destruct v as [f|].
    + destruct (Evict_Some_inv r r' f Hl Hop) as ((e & He & Hev) & Hent & Hsize & _).
      pose proof (flag_bounds (entries_ r) f) as Hfb. rewrite He in Hfb. simpl in Hfb.
      rewrite Hev in Hfb.
      unfold evictable_count in *. rewrite Hent, Hsize.
      rewrite size_filter_delete, He. simpl. rewrite Hev.
      rewrite size_t_wrap_id by lia. lia.
    + apply Evict_None_inv in Hop as ->. done.
Qed.

Lemma RecordAccess_k (r r' : LRUKReplacer) (f : Z) :
  RecordAccess r f = Ok r' -> k_ r' = k_ r /\ replacer_size_ r' = replacer_size_ r.
Proof.
  unfold RecordAccess.
  destruct (f >? static_cast_int (replacer_size_ r)); [discriminate|].
  repeat case_match; simpl; try discriminate;
    try (destruct (erase _ _); simpl; [|discriminate..]); by intros [= <-].
Qed.

Lemma SetEvictable_k (r r' : LRUKReplacer) (f : Z) (b : bool) :
  SetEvictable r f b = Ok r' -> k_ r' = k_ r /\ replacer_size_ r' = replacer_size_ r.
Proof.
  unfold SetEvictable.
  destruct (f >? static_cast_int (replacer_size_ r)); [discriminate|].
  destruct (entries_ r !! f); by intros [= <-].
Qed.

Lemma Remove_k (r r' : LRUKReplacer) (f : Z) :
  LRUK.Remove r f = Ok r' -> k_ r' = k_ r /\ replacer_size_ r' = replacer_size_ r.
Proof.
  unfold LRUK.Remove.
  destruct (f >? static_cast_int (replacer_size_ r)); [discriminate|].
  destruct (entries_ r !! f) as [e|]; [|by intros [= <-]].
  destruct (in_count_ e <? k_ r);
    (destruct (erase _ _); simpl; [|discriminate..]); by intros [= <-].
Qed.

Lemma Evict_k (r r' : LRUKReplacer) (v : option Z) :
  Evict r = (v, r') -> k_ r' = k_ r /\ replacer_size_ r' = replacer_size_ r.
Proof.
  unfold Evict.
  destruct (rscan _ (history_list_ r)) as [[fh h']|]; [by intros [= <- <-]|].
  destruct (rscan _ (cache_list_ r)) as [[fc c']|]; by intros [= <- <-].
Qed.

Lemma erase_Ok (f : Z) (l l' : list Z) :
  erase f l = Ok l' -> f ∈ l /\ l' = erase_first f l.
Proof. unfold erase. case_decide; [|discriminate]. by intros [= <-]. Qed.

Lemma RecordAccess_placed (r r' : LRUKReplacer) (f : Z) :
  replacer_invariant r -> placed r -> 2 <= k_ r ->
  in_count_ (entry (entries_ r) f) + 1 < 2 ^ 64 ->
  RecordAccess r f = Ok r' -> placed r'.
Proof.
  intros [Hl Hnd Hcnt] Hpl Hk Hov. unfold RecordAccess.
  destruct (f >? static_cast_int (replacer_size_ r)); [discriminate|].
  set (c := in_count_ (entry (entries_ r) f)) in *.
  assert (Hc : 0 <= c /\ (c = 0 -> entries_ r !! f = None) /\
               (c <> 0 -> exists e, entries_ r !! f = Some e /\ in_count_ e = c)).
  { unfold c, entry. destruct (entries_ r !! f) as [e|] eqn:He; simpl.
    - specialize (Hcnt f e He). split; [lia|]. split; [lia|]. eauto.
    - split; [done|]. split; [done|]. done. }
  destruct Hc as (Hc0 & Hcnone & Hcsome).
  rewrite (size_t_wrap_id (c + 1)) by lia.
  assert (Hothers : forall (h cl : list Z) g e',
            g <> f ->
            (g ∈ history_list_ r -> g ∈ h) -> (g ∈ cache_list_ r -> g ∈ cl) ->
            entries_ r !! g = Some e' ->
            if in_count_ e' <? k_ r then g ∈ h else g ∈ cl).
  { intros h cl g e' Hne Hh Hcl Hg. specialize (Hpl g e' Hg).
    destruct (in_count_ e' <? k_ r); auto. }
  destruct (Z.eqb_spec (c + 1) 1) as [H1|H1].
  - intros [= <-]. intros g e'. simpl. destruct (decide (g = f)) as [->|Hne].
    + rewrite lookup_insert_eq. intros [= <-]. simpl.
      rewrite H1. rewrite (proj2 (Z.ltb_lt 1 (k_ r))) by lia. by left.
    + rewrite lookup_insert_ne by done. apply Hothers; [done| |done].
      intros Hg. by right.
  - destruct (Hcsome ltac:(lia)) as (e & He & Hec).
    pose proof (Hpl f e He) as Hf. rewrite Hec in Hf.
    destruct (Z.eqb_spec (c + 1) (k_ r)) as [H2|H2].
    + destruct (erase f (history_list_ r)) as [h| | |] eqn:Her; simpl; try discriminate.
      apply erase_Ok in Her as [Hin ->].
      intros [= <-]. intros g e'. simpl. destruct (decide (g = f)) as [->|Hne].
      * rewrite lookup_insert_eq. intros [= <-]. simpl.
        rewrite H2, Z.ltb_irrefl. by left.
      * rewrite lookup_insert_ne by done. apply Hothers; [done| |].
        -- intros Hg. by apply erase_first_elem_of.
        -- intros Hg. by right.
    + destruct (c + 1 >? k_ r) eqn:H3.
      * destruct (erase f (cache_list_ r)) as [cl| | |] eqn:Her; simpl; try discriminate.
        apply erase_Ok in Her as [Hin ->].
        intros [= <-]. intros g e'. simpl. destruct (decide (g = f)) as [->|Hne].
        -- rewrite lookup_insert_eq. intros [= <-]. simpl.
           apply Z.gtb_lt in H3. rewrite (proj2 (Z.ltb_ge _ _)) by lia. by left.
        -- rewrite lookup_insert_ne by done. apply Hothers; [done|done|].
           intros Hg. right. by apply erase_first_elem_of.
      * intros [= <-]. intros g e'. simpl. destruct (decide (g = f)) as [->|Hne].
        -- rewrite lookup_insert_eq. intros [= <-]. simpl.
           assert (c + 1 < k_ r).
           { destruct (Z.gtb_spec (c + 1) (k_ r)); [done|lia]. }
           rewrite (proj2 (Z.ltb_lt _ _)) by lia.
           rewrite (proj2 (Z.ltb_lt _ _)) in Hf by lia. done.
        -- rewrite lookup_insert_ne by done. by apply Hothers.
Qed.

Lemma SetEvictable_placed (r r' : LRUKReplacer) (f : Z) (b : bool) :
  placed r -> SetEvictable r f b = Ok r' -> placed r'.
Proof.
  intros Hpl. unfold SetEvictable.
  destruct (f >? static_cast_int (replacer_size_ r)); [discriminate|].
  destruct (entries_ r !! f) as [e|] eqn:He; intros [= <-]; [|done].
  intros g e'. simpl. destruct (decide (g = f)) as [->|Hne].
  - rewrite lookup_insert_eq. intros [= <-]. simpl. by apply (Hpl f e).
  - rewrite lookup_insert_ne by done. apply Hpl.
Qed.

(** Dropping a frame keeps the placement of the others. *)
Lemma drop_frame_placed (r : LRUKReplacer) (f : Z) (history cache : list Z) (c : Z) :
  placed r ->
  (forall g, g <> f -> (g ∈ history_list_ r -> g ∈ history) /\
                        (g ∈ cache_list_ r -> g ∈ cache)) ->
  placed (mkReplacer (replacer_size_ r) (k_ r) c history cache (delete f (entries_ r))).
Proof.
  intros Hpl Hother g e. simpl. destruct (decide (g = f)) as [->|Hne].
  - by rewrite lookup_delete_eq.
  - rewrite lookup_delete_ne by done. intros Hg. specialize (Hpl g e Hg).
    destruct (Hother g Hne) as [Hh Hc].
    destruct (in_count_ e <? k_ r); auto.
Qed.

Lemma Remove_placed (r r' : LRUKReplacer) (f : Z) :
  placed r -> LRUK.Remove r f = Ok r' -> placed r'.
Proof.
  intros Hpl. unfold LRUK.Remove.
  destruct (f >? static_cast_int (replacer_size_ r)); [discriminate|].
  destruct (entries_ r !! f) as [e|] eqn:He; [|by intros [= <-]].
  destruct (in_count_ e <? k_ r).
  - destruct (erase f (history_list_ r)) as [h| | |] eqn:Her; simpl; try discriminate.
    apply erase_Ok in Her as [Hin ->]. intros [= <-].
    apply drop_frame_placed; [done|]. intros g Hne. split; [|done].
    intros Hg. by apply erase_first_elem_of.
  - destruct (erase f (cache_list_ r)) as [h| | |] eqn:Her; simpl; try discriminate.
    apply erase_Ok in Her as [Hin ->]. intros [= <-].
    apply drop_frame_placed; [done|]. intros g Hne. split; [done|].
    intros Hg. by apply erase_first_elem_of.
Qed.

Lemma Evict_placed (r r' : LRUKReplacer) (v : option Z) :
  lists_track_entries r -> placed r -> Evict r = (v, r') -> placed r'.
Proof.
  intros Hl Hpl Hev. destruct v as [f|]; [|by apply Evict_None_inv in Hev as ->].
  destruct (Evict_Some_inv r r' f Hl Hev) as (_ & Hent & _ & Hk & _ & _ & Hlists).
  intros g e. rewrite Hent, Hk. destruct (decide (g = f)) as [->|Hne].
  - by rewrite lookup_delete_eq.
  - rewrite lookup_delete_ne by done. intros Hg. specialize (Hpl g e Hg).
    destruct (Hlists g Hne) as [Hh Hc].
    destruct (in_count_ e <? k_ r); [by apply Hh|by apply Hc].
Qed.

Lemma reachable_placed (r : LRUKReplacer) : reachable r -> 2 <= k_ r -> placed r.
Proof.
  induction 1 as [n k|r r' f Hr IH Hov Hop|r r' f b Hr IH Hop|r r' f Hr IH Hop
                  |r r' v Hr IH Hop]; intros Hk.
  - intros f e. simpl. by rewrite lookup_empty.
  - destruct (RecordAccess_k _ _ _ Hop) as [Hk' _]. rewrite Hk' in Hk.
    apply (RecordAccess_placed r r' f); auto using reachable_invariant.
  - destruct (SetEvictable_k _ _ _ _ Hop) as [Hk' _]. rewrite Hk' in Hk.
    apply (SetEvictable_placed r r' f b); auto.
  - destruct (Remove_k _ _ _ Hop) as [Hk' _]. rewrite Hk' in Hk.
    apply (Remove_placed r r' f); auto.
  - destruct (Evict_k _ _ _ Hop) as [Hk' _]. rewrite Hk' in Hk.
    apply (Evict_placed r r' v); auto using reachable_lists_track_entries.
Qed.

(** With [k_ <= 1] nothing ever reaches the cache list. *)
Lemma reachable_cache_empty (r : LRUKReplacer) :
  reachable r -> k_ r <= 1 -> cache_list_ r = [].
Proof.
  induction 1 as [n k|r r' f Hr IH Hov Hop|r r' f b Hr IH Hop|r r' f Hr IH Hop
                  |r r' v Hr IH Hop]; intros Hk.
  - done.
  - destruct (RecordAccess_k _ _ _ Hop) as [Hk' _]. rewrite Hk' in Hk.
    specialize (IH Hk). revert Hop. unfold RecordAccess.
    destruct (f >? static_cast_int (replacer_size_ r)); [discriminate|].
    destruct (Z.eqb_spec (size_t_wrap (in_count_ (entry (entries_ r) f) + 1)) 1) as [H1|H1].
    { by intros [= <-]. }
    destruct (Z.eqb_spec (size_t_wrap (in_count_ (entry (entries_ r) f) + 1)) (k_ r))
      as [H2|H2].
    { pose proof (reachable_invariant r Hr) as [_ _ Hcnt].
      exfalso. unfold entry in *.
      destruct (entries_ r !! f) as [e|] eqn:He; simpl in *.
      - specialize (Hcnt f e He).
        rewrite size_t_wrap_id in H1, H2 by lia. lia.
      - by change (size_t_wrap (0 + 1)) with 1 in H1. }
    destruct (_ >? k_ r).
    + rewrite IH. unfold erase. rewrite decide_False by apply not_elem_of_nil. discriminate.
    + by intros [= <-].
  - destruct (SetEvictable_k _ _ _ _ Hop) as [Hk' _]. rewrite Hk' in Hk.
    specialize (IH Hk). revert Hop. unfold SetEvictable.
    destruct (f >? static_cast_int (replacer_size_ r)); [discriminate|].
    destruct (entries_ r !! f); by intros [= <-].
  - destruct (Remove_k _ _ _ Hop) as [Hk' _]. rewrite Hk' in Hk.
    specialize (IH Hk). revert Hop. unfold LRUK.Remove.
    destruct (f >? static_cast_int (replacer_size_ r)); [discriminate|].
    destruct (entries_ r !! f) as [e|]; [|by intros [= <-]].
    destruct (in_count_ e <? k_ r).
    + destruct (erase f (history_list_ r)); simpl; [|discriminate..]. by intros [= <-].
    + rewrite IH. unfold erase. rewrite decide_False by apply not_elem_of_nil. discriminate.
  - destruct (Evict_k _ _ _ Hop) as [Hk' _]. rewrite Hk' in Hk.
    specialize (IH Hk). revert Hop. unfold Evict.
    destruct (rscan _ (history_list_ r)) as [[fh h']|]; [by intros [= <- <-]|].
    rewrite IH. simpl. by intros [= <- <-].
Qed.

Lemma lruk_example_disciplined : disciplined lruk_example.
Proof.
  pose (r1 := mkReplacer 7 2 1 [1] [] (<[1 := mkEntry 1 true]> ∅)).
  pose (r2 := mkReplacer 7 2 2 [2; 1] []
                (<[2 := mkEntry 1 true]> (<[1 := mkEntry 1 true]> ∅))).
  pose (r3 := mkReplacer 7 2 2 [2] [1]
                (<[2 := mkEntry 1 true]> (<[1 := mkEntry 2 true]> ∅))).
  pose (r4 := mkReplacer 7 2 2 [2] [1]
                (<[2 := mkEntry 1 true]> (<[1 := mkEntry 3 true]> ∅))).
  assert (H1 : disciplined r1).
  { apply (disciplined_RecordAccess (new_replacer 7 2) r1 1);
      [apply disciplined_new|vm_compute; reflexivity..]. }
  assert (H2 : disciplined r2).
  { apply (disciplined_RecordAccess r1 r2 2); [exact H1|vm_compute; reflexivity..]. }
  assert (H3 : disciplined r3).
  { apply (disciplined_RecordAccess r2 r3 1); [exact H2|vm_compute; reflexivity..]. }
  assert (H4 : disciplined r4).
  { apply (disciplined_RecordAccess r3 r4 1); [exact H3|vm_compute; reflexivity..]. }
  apply (disciplined_SetEvictable r4 lruk_example 1 false);
    [exact H4|vm_compute; reflexivity..].
Qed.

Lemma lru1_example_reachable : reachable lru1_example.
Proof.
  apply (reachable_RecordAccess (new_replacer 7 1) lru1_example 1);
    [apply reachable_new|vm_compute; reflexivity..].
Qed.

(** X4.  Size.  As long as Remove is called on evictable frames only (and
    the counters stay below 2^64), the value that Size returns is the
    number of tracked frames whose evictable flag is set. *)
Theorem Size_counts_evictable_frames (r : LRUKReplacer) :
  disciplined r -> Size r = evictable_count r.
Proof. intros Hd. apply (disciplined_size r Hd). Qed.

Lemma Size_counts_evictable_frames_witness :
  Size lruk_example = evictable_count lruk_example.
Proof.
  apply (Size_counts_evictable_frames lruk_example).
  apply lruk_example_disciplined.
Defined.

Lemma Remove_defined (r : LRUKReplacer) :
  reachable r -> 2 <= k_ r ->
  forall f, f <= static_cast_int (replacer_size_ r) ->
    exists r', LRUK.Remove r f = Ok r'.
Proof.
  intros Hr Hk f Hf. pose proof (reachable_placed r Hr Hk) as Hpl.
  assert (Hgt : (f >? static_cast_int (replacer_size_ r)) = false).
  { destruct (Z.gtb_spec f (static_cast_int (replacer_size_ r))); [lia|done]. }
  unfold LRUK.Remove. rewrite Hgt.
  destruct (entries_ r !! f) as [e|] eqn:He; [|by eauto].
  specialize (Hpl f e He).
  destruct (in_count_ e <? k_ r); unfold erase; rewrite decide_True by done;
    simpl; by eauto.
Qed.

Lemma RecordAccess_defined (r : LRUKReplacer) :
  reachable r -> 2 <= k_ r ->
  forall f, f <= static_cast_int (replacer_size_ r) ->
    exists r', RecordAccess r f = Ok r'.
Proof.
  intros Hr Hk f Hf. pose proof (reachable_placed r Hr Hk) as Hpl.
  pose proof (reachable_invariant r Hr) as [Hl Hnd Hcnt].
  assert (Hgt : (f >? static_cast_int (replacer_size_ r)) = false).
  { destruct (Z.gtb_spec f (static_cast_int (replacer_size_ r))); [lia|done]. }
  unfold RecordAccess. rewrite Hgt. unfold entry.
  destruct (entries_ r !! f) as [e|] eqn:He; simpl.
  - specialize (Hcnt f e He). specialize (Hpl f e He).
    destruct (Z.eqb_spec (size_t_wrap (in_count_ e + 1)) 1); [by eauto|].
    destruct (Z.eqb_spec (size_t_wrap (in_count_ e + 1)) (k_ r)) as [H2|H2].
    { assert (in_count_ e + 1 < 2 ^ 64).
      { destruct (decide (in_count_ e + 1 = 2 ^ 64)) as [Heq|]; [|lia].
        rewrite Heq in H2. unfold size_t_wrap in H2. rewrite Z.mod_same in H2 by lia. lia. }
      rewrite size_t_wrap_id in H2 by lia.
      rewrite (proj2 (Z.ltb_lt _ _)) in Hpl by lia.
      unfold erase. rewrite decide_True by done. simpl. by eauto. }
    destruct (size_t_wrap (in_count_ e + 1) >? k_ r) eqn:H3; [|by eauto].
    apply Z.gtb_lt in H3.
    assert (in_count_ e + 1 < 2 ^ 64).
    { destruct (decide (in_count_ e + 1 = 2 ^ 64)) as [Heq|]; [|lia].
      rewrite Heq in H3. unfold size_t_wrap in H3. rewrite Z.mod_same in H3 by lia. lia. }
    rewrite size_t_wrap_id in H3 by lia.
    rewrite (proj2 (Z.ltb_ge _ _)) in Hpl by lia.
    unfold erase. rewrite decide_True by done. simpl. by eauto.
  - change (size_t_wrap (0 + 1)) with 1. simpl. by eauto.
Qed.

(** X5.  Placement.  In every state reached from a new replacer with
    k at least 2, a tracked frame with fewer than k recorded accesses is
    on the history list and one with k or more is on the cache list.
    Therefore RecordAccess, Remove and SetEvictable return normally for
    every frame id that passes the bound check: no erase is applied to a
    list that does not hold the frame. *)
Theorem accesses_defined_when_k_at_least_2 (r : LRUKReplacer) :
  reachable r -> 2 <= k_ r ->
  placed r /\
  forall f, f <= static_cast_int (replacer_size_ r) ->
    (exists r', RecordAccess r f = Ok r') /\
    (exists r', LRUK.Remove r f = Ok r') /\
    (forall b, exists r', SetEvictable r f b = Ok r').
Proof.
  intros Hr Hk. pose proof (reachable_placed r Hr Hk) as Hpl.
  pose proof (reachable_invariant r Hr) as [Hl Hnd Hcnt].
  split; [done|]. intros f Hf.
  assert (Hgt : (f >? static_cast_int (replacer_size_ r)) = false).
  { destruct (Z.gtb_spec f (static_cast_int (replacer_size_ r))); [lia|done]. }
  split; [|split].
  - by apply RecordAccess_defined.
  - by apply Remove_defined.
  - intros b. unfold SetEvictable. rewrite Hgt.
    destruct (entries_ r !! f); by eauto.
Qed.

Lemma accesses_defined_when_k_at_least_2_witness :
  placed lruk_example /\
  forall f, f <= static_cast_int (replacer_size_ lruk_example) ->
    (exists r', RecordAccess lruk_example f = Ok r') /\
    (exists r', LRUK.Remove lruk_example f = Ok r') /\
    (forall b, exists r', SetEvictable lruk_example f b = Ok r').
Proof.
  apply (accesses_defined_when_k_at_least_2 lruk_example).
  - apply disciplined_reachable, lruk_example_disciplined.
  - vm_compute. discriminate.
Defined.

(** X6.  The case k = 1 (and k = 0).  The first access to a frame puts it
    on the history list, whatever k is; with k at most 1 no frame ever
    reaches the cache list.  A further RecordAccess to a tracked frame, and
    Remove of a tracked frame, then erase from the cache list through the
    position the frame has in the history list: both are undefined. *)
Theorem second_access_undefined_when_k_is_1 (r : LRUKReplacer) (f : Z) (e : LRUKEntry) :
  reachable r -> k_ r <= 1 ->
  entries_ r !! f = Some e ->
  f <= static_cast_int (replacer_size_ r) ->
  cache_list_ r = [] /\
  (in_count_ e + 1 < 2 ^ 64 -> RecordAccess r f = Undefined) /\
  LRUK.Remove r f = Undefined.
Proof.
  intros Hr Hk He Hf.
  pose proof (reachable_cache_empty r Hr Hk) as Hc.
  pose proof (reachable_invariant r Hr) as [Hl Hnd Hcnt]. specialize (Hcnt f e He).
  assert (Hgt : (f >? static_cast_int (replacer_size_ r)) = false).
  { destruct (Z.gtb_spec f (static_cast_int (replacer_size_ r))); [lia|done]. }
  split; [done|]. split.
  - intros Hov. unfold RecordAccess. rewrite Hgt. unfold entry. rewrite He. simpl.
    rewrite size_t_wrap_id by lia.
    rewrite (proj2 (Z.eqb_neq _ _)) by lia.
    rewrite (proj2 (Z.eqb_neq _ _)) by lia.
    assert ((in_count_ e + 1 >? k_ r) = true) as -> by (apply Z.gtb_lt; lia).
    rewrite Hc. unfold erase. by rewrite decide_False by apply not_elem_of_nil.
  - unfold LRUK.Remove. rewrite Hgt, He.
    rewrite (proj2 (Z.ltb_ge _ _)) by lia.
    rewrite Hc. unfold erase. by rewrite decide_False by apply not_elem_of_nil.
Qed.

Lemma second_access_undefined_when_k_is_1_witness :
  cache_list_ lru1_example = [] /\
  (1 + 1 < 2 ^ 64 -> RecordAccess lru1_example 1 = Undefined) /\
  LRUK.Remove lru1_example 1 = Undefined.
Proof.
  apply (second_access_undefined_when_k_is_1 lru1_example 1 (mkEntry 1 true)).
  - apply lru1_example_reachable.
  - vm_compute. discriminate.
  - vm_compute. reflexivity.
  - vm_compute. discriminate.
Defined.

(** X7.  Evict prefers frames accessed fewer than k times.  In a state
    reached from a new replacer with k at least 2, the frame that Evict
    returns is tracked and evictable, and when some evictable frame has
    fewer than k recorded accesses the frame returned has fewer than k
    recorded accesses too. *)
Theorem Evict_prefers_fewer_than_k_accesses (r r' : LRUKReplacer) (f : Z) :
  reachable r -> 2 <= k_ r ->
  Evict r = (Some f, r') ->
  exists ef,
    entries_ r !! f = Some ef /\ evictable_ ef = true /\
    forall g eg, entries_ r !! g = Some eg -> evictable_ eg = true ->
      in_count_ eg < k_ r -> in_count_ ef < k_ r.
Proof.
  intros Hr Hk Hev.
  pose proof (reachable_placed r Hr Hk) as Hpl.
  pose proof (reachable_invariant r Hr) as [Hl Hnd Hcnt].
  destruct (Evict_Some_inv r r' f Hl Hev) as ((ef & Hef & Hevf) & _ & _ & _ & _ & Hwhere & _).
  exists ef. split; [done|]. split; [done|].
  intros g eg Hg Hevg Hlt.
  destruct Hwhere as [Hin|[Hin Hnone]].
  - pose proof (Hpl f ef Hef) as Hf.
    destruct (Z.ltb_spec (in_count_ ef) (k_ r)) as [|Hge]; [done|].
    exfalso. apply NoDup_app in Hnd as (_ & Hdisj & _). by apply (Hdisj f).
  - exfalso. apply (Hnone g).
    + pose proof (Hpl g eg Hg) as Hgp.
      by rewrite (proj2 (Z.ltb_lt _ _)) in Hgp by lia.
    + by exists eg.
Qed.

Lemma Evict_prefers_fewer_than_k_accesses_witness :
  exists r' ef,
    Evict lruk_example = (Some 2, r') /\
    entries_ lruk_example !! 2 = Some ef /\ evictable_ ef = true /\
    forall g eg, entries_ lruk_example !! g = Some eg -> evictable_ eg = true ->
      in_count_ eg < k_ lruk_example -> in_count_ ef < k_ lruk_example.
Proof.
  eexists. 
  assert (Hev : Evict lruk_example = (Some 2, snd (Evict lruk_example)))
    by (vm_compute; reflexivity).
  destruct (Evict_prefers_fewer_than_k_accesses lruk_example _ 2
              (disciplined_reachable _ lruk_example_disciplined)
              ltac:(vm_compute; discriminate) Hev) as (ef & H1 & H2 & H3).
  exists ef. split; [exact Hev|]. split; [exact H1|]. split; [exact H2|exact H3].
Defined.

(** X8.  Remove does not look at the evictable flag.  In a state reached
    from a new replacer with k at least 2, Remove of a tracked frame that
    passes the bound check drops the frame from the entries and from its
    list and decrements the size counter (modulo 2^64), also when the
    frame is not evictable; in that case the number of evictable frames
    stays as it was, so the counter no longer matches it. *)
Theorem Remove_ignores_evictable_flag (r : LRUKReplacer) (f : Z) (e : LRUKEntry) :
  reachable r -> 2 <= k_ r ->
  entries_ r !! f = Some e ->
  f <= static_cast_int (replacer_size_ r) ->
  exists r',
    LRUK.Remove r f = Ok r' /\
    entries_ r' = delete f (entries_ r) /\
    (f ∉ history_list_ r') /\ (f ∉ cache_list_ r') /\
    curr_size_ r' = size_t_wrap (curr_size_ r - 1) /\
    evictable_count r' = evictable_count r - (if evictable_ e then 1 else 0).
Proof.
  intros Hr Hk He Hf.
  destruct (Remove_defined r Hr Hk f Hf) as [r' Hrem].
  exists r'. split; [done|].
  pose proof (reachable_invariant r' (reachable_Remove r r' f Hr Hrem)) as [Hl' _ _].
  assert (Hfields : entries_ r' = delete f (entries_ r) /\
                    curr_size_ r' = size_t_wrap (curr_size_ r - 1)).
  { revert Hrem. unfold LRUK.Remove.
    destruct (f >? static_cast_int (replacer_size_ r)); [discriminate|]. rewrite He.
    destruct (in_count_ e <? k_ r);
      (destruct (erase _ _); simpl; [|discriminate..]); by intros [= <-]. }
  destruct Hfields as [Hent Hsize].
  assert (Hnone : entries_ r' !! f = None) by (rewrite Hent; apply lookup_delete_eq).
  pose proof (untracked_not_listed r' f Hl' Hnone) as Hnot.
  rewrite not_elem_of_app in Hnot. destruct Hnot as [Hh Hc].
  split; [done|]. split; [done|]. split; [done|]. split; [done|].
  unfold evictable_count. rewrite Hent, size_filter_delete, He. done.
Qed.

Lemma Remove_ignores_evictable_flag_witness :
  exists r',
    LRUK.Remove lruk_example 1 = Ok r' /\
    entries_ r' = delete 1 (entries_ lruk_example) /\
    (1 ∉ history_list_ r') /\ (1 ∉ cache_list_ r') /\
    curr_size_ r' = size_t_wrap (curr_size_ lruk_example - 1) /\
    evictable_count r' = evictable_count lruk_example - 0.
Proof.
  apply (Remove_ignores_evictable_flag lruk_example 1 (mkEntry 3 false)).
  - apply disciplined_reachable, lruk_example_disciplined.
  - vm_compute. discriminate.
  - vm_compute. reflexivity.
  - vm_compute. discriminate.
Defined.

End LRUKInvariantFacts.

(** ** The buffer pool: pinned frames, FetchPgImp, UnpinPgImp, DeletePgImp *)

Module BufferPoolPinsFacts.
Import LRUK BufferPool LRUKFacts BufferPoolFacts BufferPoolInvariant BufferPoolPins.

Lemma new_pool_reusable (P : nat) (k : Z) (disk : gmap Z (list Byte.byte)) :
  reusable_unpinned (new_pool P k disk).
Proof.
  split; simpl.
  - intros f e. by rewrite lookup_empty.
  - intros f Hf. apply list_elem_of_fmap in Hf as (i & -> & Hi).
    apply elem_of_seq in Hi. rewrite Nat2Z.id.
    destruct (lookup_lt_is_Some_2 (repeat (mkPage zeroed INVALID_PAGE_ID 0 false) P) i)
      as [p Hp]; [rewrite repeat_length; lia|].
    exists p. split; [done|].
    apply list_elem_of_lookup_2, list_elem_of_In, repeat_spec in Hp. by subst p.
Qed.

(** The frame that [take_frame] hands out was not pinned, and no other
    frame is touched. *)
Lemma take_frame_reusable (b b2 : BufferPoolManagerInstance) (f : Z) :
  pool_consistent None b -> reusable_unpinned b ->
  take_frame b = Ok (f, b2) ->
  reusable_unpinned b2 /\
  (exists p, pages_ b !! Z.to_nat f = Some p /\ pin_count_ p = 0) /\
  (forall g, g <> Z.to_nat f -> pages_ b2 !! g = pages_ b !! g).
Proof.
  intros Hc [Hev Hfree]. unfold take_frame.
  destruct (free_list_ b) as [|f0 rest] eqn:Hfl.
  - destruct (Evict (replacer_ b)) as [[v|] r'] eqn:He; simpl; [|discriminate].
    destruct (frame b v) as [p| | |] eqn:Hfr; simpl; try discriminate.
    intros [= <- <-]. destruct (frame_Ok _ _ _ Hfr) as [Hv0 Hp].
    pose proof (ri_lists _ (pc_replacer _ _ Hc)) as Hl.
    destruct (LRUKInvariantFacts.Evict_Some_inv _ _ _ Hl He)
      as ((e & Hve & Hvev) & Hent & _).
    destruct (Hev v e Hve Hvev) as (p' & Hp' & Hpin).
    assert (p' = p) as -> by congruence.
    split; [|split; [by eauto|]].
    + split; simpl.
      * intros g eg. rewrite Hent. destruct (decide (g = v)) as [->|Hne].
        { by rewrite lookup_delete_eq. }
        rewrite lookup_delete_ne by done. intros Hg Hgev.
        destruct (Hev g eg Hg Hgev) as (q & Hq & Hq0).
        exists q. split; [|done]. rewrite list_lookup_insert_ne; [done|].
        pose proof (pc_tracked _ _ Hc g ltac:(by eexists)). lia.
      * intros g Hg. by apply elem_of_nil in Hg.
    + intros g Hg. simpl. by rewrite list_lookup_insert_ne.
  - intros [= <- <-].
    split; [|split; [apply Hfree; by left|done]].
    split; simpl; [done|].
    intros g Hg. apply Hfree. by right.
Qed.

Lemma install_reusable (b2 b3 : BufferPoolManagerInstance) (page_id f : Z) (read : bool) :
  pool_consistent (Some f) b2 -> reusable_unpinned b2 ->
  install b2 page_id f read = Ok b3 ->
  reusable_unpinned b3 /\
  (forall g, g <> Z.to_nat f -> pages_ b3 !! g = pages_ b2 !! g).
Proof.
  intros Hc [Hev Hfree] Hinst.
  destruct (pc_hole _ _ Hc f eq_refl) as (Hf & Hnone & Hnotfree).
  destruct (frame_lookup b2 f Hf) as [p Hp].
  assert (Hsz : 0 <= replacer_size_ (replacer_ b2) <= INT_MAX).
  { rewrite (pc_size _ _ Hc). split; [unfold pool_size_; lia|apply (pc_max _ _ Hc)]. }
  destruct (install_untracked b2 page_id f read p Hsz) as [c Hi];
    [rewrite (pc_size _ _ Hc); lia|done|done|].
  rewrite Hi in Hinst. injection Hinst as <-.
  split.
  - split; simpl.
    + intros g eg. destruct (decide (g = f)) as [->|Hne].
      { rewrite lookup_insert_eq. by intros [= <-]. }
      rewrite lookup_insert_ne by done. intros Hg Hgev.
      destruct (Hev g eg Hg Hgev) as (q & Hq & Hq0).
      exists q. split; [|done]. rewrite list_lookup_insert_ne; [done|].
      pose proof (pc_tracked _ _ Hc g ltac:(by eexists)). lia.
    + intros g Hg. destruct (Hfree g Hg) as (q & Hq & Hq0).
      exists q. split; [|done]. rewrite list_lookup_insert_ne; [done|].
      pose proof (pc_free _ _ Hc g Hg). intros Heq.
      assert (g = f) as -> by lia. done.
  - intros g Hg. simpl. by rewrite list_lookup_insert_ne.
Qed.

Lemma reusable_same (b b' : BufferPoolManagerInstance) :
  pages_ b' = pages_ b -> replacer_ b' = replacer_ b -> free_list_ b' = free_list_ b ->
  reusable_unpinned b -> reusable_unpinned b'.
Proof.
  intros Hp Hr Hf [Hev Hfree]. split.
  - rewrite Hp, Hr. done.
  - rewrite Hp, Hf. done.
Qed.

Lemma NewPgImp_reusable (b b' : BufferPoolManagerInstance) (page_id f : Z) :
  pool_consistent None b -> reusable_unpinned b ->
  NewPgImp b = Ok (page_id, f, b') ->
  reusable_unpinned b' /\
  (exists p, pages_ b !! Z.to_nat f = Some p /\ pin_count_ p = 0) /\
  (forall g, g <> Z.to_nat f -> pages_ b' !! g = pages_ b !! g).
Proof.
  intros Hc Hru. unfold NewPgImp.
  destruct (negb (is_page_available b)); [discriminate|].
  set (b1 := mkBPM _ _ _ _ _ _).
  assert (Hc1 : pool_consistent None b1) by (by apply (pool_consistent_same None b)).
  assert (Hru1 : reusable_unpinned b1) by (by apply (reusable_same b)).
  destruct (take_frame b1) as [[f0 b2]| | |] eqn:Htake; simpl; try discriminate.
  destruct (install b2 (next_page_id_ b) f0 false) as [b3| | |] eqn:Hinst;
    simpl; try discriminate.
  intros [= <- <- <-].
  destruct (take_frame_reusable b1 b2 f0 Hc1 Hru1 Htake) as (Hru2 & Hpin & Hsame2).
  pose proof (take_frame_consistent b1 b2 f0 Hc1 Htake) as Hc2.
  destruct (install_reusable b2 b3 _ f0 false Hc2 Hru2 Hinst) as (Hru3 & Hsame3).
  split; [done|]. split; [done|].
  intros g Hg. rewrite Hsame3, Hsame2 by done. done.
Qed.

Lemma FetchPgImp_reusable (b b' : BufferPoolManagerInstance) (page_id f : Z) :
  pool_consistent None b -> reusable_unpinned b ->
  FetchPgImp b page_id = Ok (f, b') ->
  reusable_unpinned b' /\
  (page_table_ b !! page_id = None ->
     (exists p, pages_ b !! Z.to_nat f = Some p /\ pin_count_ p = 0) /\
     (forall g, g <> Z.to_nat f -> pages_ b' !! g = pages_ b !! g)).
Proof.
  intros Hc Hru. unfold FetchPgImp.
  destruct (page_table_ b !! page_id) as [f0|] eqn:Hpt.
  - destruct (frame b f0) as [p| | |] eqn:Hfr; simpl; try discriminate.
    destruct (RecordAccess (replacer_ b) f0) as [r1| | |] eqn:Hra; simpl; try discriminate.
    destruct (SetEvictable r1 f0 false) as [r2| | |] eqn:Hse; simpl; try discriminate.
    intros [= <- <-]. split; [|done].
    destruct (frame_Ok _ _ _ Hfr) as [Hf0 Hp].
    destruct (pc_table _ _ Hc page_id f0 Hpt) as (_ & Hnotfree & [e He] & _).
    destruct (RecordAccess_entries _ _ _ Hra) as [Hrs1 Hent1].
    destruct (SetEvictable_entries _ _ _ _ Hse) as [Hrs2 Hent2].
    rewrite Hent1, lookup_insert_eq, insert_insert_eq in Hent2. simpl in Hent2.
    destruct Hru as [Hev Hfree]. split; simpl.
    + intros g eg. rewrite Hent2. destruct (decide (g = f0)) as [->|Hne].
      { rewrite lookup_insert_eq. by intros [= <-]. }
      rewrite lookup_insert_ne by done. intros Hg Hgev.
      destruct (Hev g eg Hg Hgev) as (q & Hq & Hq0).
      exists q. split; [|done]. rewrite list_lookup_insert_ne; [done|].
      pose proof (pc_tracked _ _ Hc g ltac:(by eexists)). lia.
    + intros g Hg. destruct (Hfree g Hg) as (q & Hq & Hq0).
      exists q. split; [|done]. rewrite list_lookup_insert_ne; [done|].
      pose proof (pc_free _ _ Hc g Hg). intros Heq.
      assert (g = f0) as -> by lia. done.
  - destruct (negb (is_page_available b)); [discriminate|].
    destruct (take_frame b) as [[f0 b2]| | |] eqn:Htake; simpl; try discriminate.
    destruct (install b2 page_id f0 true) as [b3| | |] eqn:Hinst; simpl; try discriminate.
    intros [= <- <-].
    destruct (take_frame_reusable b b2 f0 Hc Hru Htake) as (Hru2 & Hpin & Hsame2).
    pose proof (take_frame_consistent b b2 f0 Hc Htake) as Hc2.
    destruct (install_reusable b2 b3 _ f0 true Hc2 Hru2 Hinst) as (Hru3 & Hsame3).
    split; [done|]. intros _. split; [done|].
    intros g Hg. rewrite Hsame3, Hsame2 by done. done.
Qed.

Lemma UnpinPgImp_reusable (b b' : BufferPoolManagerInstance) (page_id : Z)
    (is_dirty res : bool) :
  pool_consistent None b -> reusable_unpinned b ->
  UnpinPgImp b page_id is_dirty = Ok (res, b') ->
  reusable_unpinned b'.
Proof.
  intros Hc Hru. unfold UnpinPgImp.
  destruct (page_table_ b !! page_id) as [f0|] eqn:Hpt; [|by intros [= <- <-]].
  destruct (frame b f0) as [p| | |] eqn:Hfr; simpl; try discriminate.
  destruct (pin_count_ p =? 0) eqn:Hz; [by intros [= <- <-]|].
  apply Z.eqb_neq in Hz.
  destruct (frame_Ok _ _ _ Hfr) as [Hf0 Hp].
  destruct (pc_table _ _ Hc page_id f0 Hpt) as (_ & Hnotfree & [e He] & _).
  destruct Hru as [Hev Hfree].
  assert (Hfree' : forall (pages : list Page) q,
            pages = <[Z.to_nat f0 := q]> (pages_ b) ->
            forall g, g ∈ free_list_ b ->
            exists p0, pages !! Z.to_nat g = Some p0 /\ pin_count_ p0 = 0).
  { intros pages q -> g Hg. destruct (Hfree g Hg) as (q0 & Hq & Hq0).
    exists q0. split; [|done]. rewrite list_lookup_insert_ne; [done|].
    pose proof (pc_free _ _ Hc g Hg). intros Heq.
    assert (g = f0) as -> by lia. done. }
  assert (Hlt : (Z.to_nat f0 < length (pages_ b))%nat) by (by eapply lookup_lt_Some).
  destruct (pin_count_ p - 1 =? 0) eqn:Hlast.
  - unfold set_frame at 1. simpl.
    destruct (SetEvictable (replacer_ b) f0 true) as [r1| | |] eqn:Hse;
      simpl; try discriminate.
    intros [= <- <-]. unfold set_replacer, set_frame. simpl.
    destruct (SetEvictable_entries _ _ _ _ Hse) as [Hrs1 Hent1]. rewrite He in Hent1.
    apply Z.eqb_eq in Hlast.
    split; simpl.
    + intros g eg. rewrite Hent1. destruct (decide (g = f0)) as [->|Hne].
      * intros _ _. eexists. split; [by apply list_lookup_insert_eq|done].
      * rewrite lookup_insert_ne by done. intros Hg Hgev.
        destruct (Hev g eg Hg Hgev) as (q & Hq & Hq0).
        exists q. split; [|done]. rewrite list_lookup_insert_ne; [done|].
        pose proof (pc_tracked _ _ Hc g ltac:(by eexists)). lia.
    + by eapply Hfree'.
  - intros [= <- <-]. unfold set_frame. split; simpl.
    + intros g eg Hg Hgev. destruct (Hev g eg Hg Hgev) as (q & Hq & Hq0).
      destruct (decide (g = f0)) as [->|Hne]; [congruence|].
      exists q. split; [|done]. rewrite list_lookup_insert_ne; [done|].
      pose proof (pc_tracked _ _ Hc g ltac:(by eexists)). lia.
    + by eapply Hfree'.
Qed.

Lemma FlushPgImp_reusable (b b' : BufferPoolManagerInstance) (page_id : Z) (res : bool) :
  reusable_unpinned b -> FlushPgImp b page_id = Ok (res, b') -> reusable_unpinned b'.
Proof.
  intros Hru. unfold FlushPgImp.
  destruct (decide (page_id = INVALID_PAGE_ID)); [by intros [= <- <-]|].
  destruct (page_table_ b !! page_id) as [f0|]; [|by intros [= <- <-]].
  destruct (frame b f0) as [p| | |]; simpl; try discriminate.
  intros [= <- <-]. by apply (reusable_same b).
Qed.

Lemma DeletePgImp_reusable (b b' : BufferPoolManagerInstance) (page_id : Z) (res : bool) :
  pool_consistent None b -> reusable_unpinned b ->
  DeletePgImp b page_id = Ok (res, b') -> reusable_unpinned b'.
Proof.
  intros Hc [Hev Hfree]. unfold DeletePgImp.
  destruct (page_table_ b !! page_id) as [f0|] eqn:Hpt; [|by intros [= <- <-]].
  destruct (frame b f0) as [p| | |] eqn:Hfr; simpl; try discriminate.
  destruct (pin_count_ p >? 0); [by intros [= <- <-]|].
  destruct (LRUK.Remove (replacer_ b) f0) as [r1| | |] eqn:Hrem; simpl; try discriminate.
  intros [= <- <-].
  destruct (frame_Ok _ _ _ Hfr) as [Hf0 Hp].
  destruct (Remove_entries _ _ _ Hrem) as [_ Hent].
  assert (Hlt : (Z.to_nat f0 < length (pages_ b))%nat) by (by eapply lookup_lt_Some).
  split; simpl.
  - intros g eg. rewrite Hent. destruct (decide (g = f0)) as [->|Hne].
    { by rewrite lookup_delete_eq. }
    rewrite lookup_delete_ne by done. intros Hg Hgev.
    destruct (Hev g eg Hg Hgev) as (q & Hq & Hq0).
    exists q. split; [|done]. rewrite list_lookup_insert_ne; [done|].
    pose proof (pc_tracked _ _ Hc g ltac:(by eexists)). lia.
  - intros g Hg. apply elem_of_app in Hg as [Hg|Hg].
    + destruct (decide (g = f0)) as [->|Hne].
      * eexists. split; [by apply list_lookup_insert_eq|done].
      * destruct (Hfree g Hg) as (q & Hq & Hq0).
        exists q. split; [|done]. rewrite list_lookup_insert_ne; [done|].
        pose proof (pc_free _ _ Hc g Hg). lia.
    + apply list_elem_of_singleton in Hg as ->.
      eexists. split; [by apply list_lookup_insert_eq|done].
Qed.

Lemma write_reusable (b : BufferPoolManagerInstance) (f : Z) (p : Page)
    (data : list Byte.byte) :
  reusable_unpinned b -> frame b f = Ok p ->
  reusable_unpinned (set_frame b f (mkPage data (page_id_ p) (pin_count_ p) (is_dirty_ p))).
Proof.
  intros [Hev Hfree] Hfr. destruct (frame_Ok _ _ _ Hfr) as [Hf0 Hp].
  assert (Hlt : (Z.to_nat f < length (pages_ b))%nat) by (by eapply lookup_lt_Some).
  assert (Hany : forall g q, pages_ b !! g = Some q -> pin_count_ q = 0 ->
            exists q', <[Z.to_nat f := mkPage data (page_id_ p) (pin_count_ p) (is_dirty_ p)]>
                         (pages_ b) !! g = Some q' /\ pin_count_ q' = 0).
  { intros g q Hq Hq0. destruct (decide (g = Z.to_nat f)) as [->|Hne].
    - eexists. split; [by apply list_lookup_insert_eq|]. simpl. congruence.
    - exists q. by rewrite list_lookup_insert_ne. }
  split; simpl.
  - intros g eg Hg Hgev. destruct (Hev g eg Hg Hgev) as (q & Hq & Hq0). by eapply Hany.
  - intros g Hg. destruct (Hfree g Hg) as (q & Hq & Hq0). by eapply Hany.
Qed.

Lemma pool_reachable_reusable (b : BufferPoolManagerInstance) :
  pool_reachable b -> reusable_unpinned b.
Proof.
  induction 1 as [P k disk HP|b b' pid f Hr IH Hop|b b' pid f Hr IH Hov Hop
                  |b b' pid d res Hr IH Hop|b b' pid res Hr IH Hop
                  |b b' pid res Hr IH Hop|b f p data Hr IH Hfr].
  - apply new_pool_reusable.
  - by apply (NewPgImp_reusable b b' pid f (pool_reachable_consistent b Hr) IH).
  - by apply (FetchPgImp_reusable b b' pid f (pool_reachable_consistent b Hr) IH).
  - by apply (UnpinPgImp_reusable b b' pid d res (pool_reachable_consistent b Hr) IH).
  - by apply (FlushPgImp_reusable b b' pid res IH).
  - by apply (DeletePgImp_reusable b b' pid res (pool_reachable_consistent b Hr) IH).
  - by apply write_reusable.
Qed.

(** The replacer of a reachable pool is in a reachable state. *)
Lemma install_replacer (b2 b3 : BufferPoolManagerInstance) (page_id f : Z) (read : bool) :
  entries_ (replacer_ b2) !! f = None ->
  reachable (replacer_ b2) ->
  install b2 page_id f read = Ok b3 ->
  reachable (replacer_ b3).
Proof.
  intros Hnone Hr. unfold install.
  destruct (frame b2 f) as [p| | |]; simpl; try discriminate.
  destruct (RecordAccess (replacer_ b2) f) as [r1| | |] eqn:Hra; simpl; try discriminate.
  destruct (SetEvictable r1 f false) as [r2| | |] eqn:Hse; simpl; try discriminate.
  intros [= <-]. simpl.
  apply (reachable_SetEvictable r1 r2 f false); [|done].
  apply (reachable_RecordAccess (replacer_ b2) r1 f); [done| |done].
  unfold entry. rewrite Hnone. simpl. lia.
Qed.

Lemma take_frame_replacer (b b2 : BufferPoolManagerInstance) (f : Z) :
  reachable (replacer_ b) -> take_frame b = Ok (f, b2) -> reachable (replacer_ b2).
Proof.
  intros Hr. unfold take_frame.
  destruct (free_list_ b) as [|f0 rest]; [|by intros [= <- <-]].
  destruct (Evict (replacer_ b)) as [[v|] r'] eqn:He; simpl; [|discriminate].
  destruct (frame b v) as [p| | |]; simpl; try discriminate.
  intros [= <- <-]. simpl. by apply (reachable_Evict (replacer_ b) r' (Some v)).
Qed.

Lemma pool_replacer_reachable (b : BufferPoolManagerInstance) :
  pool_reachable b -> reachable (replacer_ b).
Proof.
  induction 1 as [P k disk HP|b b' pid f Hr IH Hop|b b' pid f Hr IH Hov Hop
                  |b b' pid d res Hr IH Hop|b b' pid res Hr IH Hop
                  |b b' pid res Hr IH Hop|b f p data Hr IH Hfr].
  - apply reachable_new.
  - pose proof (pool_reachable_consistent b Hr) as Hc.
    revert Hop. unfold NewPgImp.
    destruct (negb (is_page_available b)); [discriminate|].
    set (b1 := mkBPM _ _ _ _ _ _).
    assert (Hc1 : pool_consistent None b1) by (by apply (pool_consistent_same None b)).
    destruct (take_frame b1) as [[f0 b2]| | |] eqn:Htake; simpl; try discriminate.
    destruct (install b2 (next_page_id_ b) f0 false) as [b3| | |] eqn:Hinst;
      simpl; try discriminate.
    intros [= <- <- <-].
    pose proof (take_frame_consistent b1 b2 f0 Hc1 Htake) as Hc2.
    destruct (pc_hole _ _ Hc2 f0 eq_refl) as (_ & Hnone & _).
    apply (install_replacer b2 b3 (next_page_id_ b) f0 false Hnone); [|done].
    by apply (take_frame_replacer b1 b2 f0).
  - pose proof (pool_reachable_consistent b Hr) as Hc.
    revert Hop. unfold FetchPgImp.
    destruct (page_table_ b !! pid) as [f0|] eqn:Hpt.
    + destruct (frame b f0) as [p| | |]; simpl; try discriminate.
      destruct (RecordAccess (replacer_ b) f0) as [r1| | |] eqn:Hra; simpl; try discriminate.
      destruct (SetEvictable r1 f0 false) as [r2| | |] eqn:Hse; simpl; try discriminate.
      intros [= <- <-]. simpl.
      apply (reachable_SetEvictable r1 r2 f0 false); [|done].
      apply (reachable_RecordAccess (replacer_ b) r1 f0); [done|by apply Hov|done].
    + destruct (negb (is_page_available b)); [discriminate|].
      destruct (take_frame b) as [[f0 b2]| | |] eqn:Htake; simpl; try discriminate.
      destruct (install b2 pid f0 true) as [b3| | |] eqn:Hinst; simpl; try discriminate.
      intros [= <- <-].
      pose proof (take_frame_consistent b b2 f0 Hc Htake) as Hc2.
      destruct (pc_hole _ _ Hc2 f0 eq_refl) as (_ & Hnone & _).
      apply (install_replacer b2 b3 pid f0 true Hnone); [|done].
      by apply (take_frame_replacer b b2 f0).
  - revert Hop. unfold UnpinPgImp.
    destruct (page_table_ b !! pid) as [f0|]; [|by intros [= <- <-]].
    destruct (frame b f0) as [p| | |]; simpl; try discriminate.
    destruct (pin_count_ p =? 0); [by intros [= <- <-]|].
    destruct (pin_count_ p - 1 =? 0).
    + unfold set_frame at 1. simpl.
      destruct (SetEvictable (replacer_ b) f0 true) as [r1| | |] eqn:Hse;
        simpl; try discriminate.
      intros [= <- <-]. simpl. by apply (reachable_SetEvictable (replacer_ b) r1 f0 true).
    + by intros [= <- <-].
  - revert Hop. unfold FlushPgImp.
    destruct (decide (pid = INVALID_PAGE_ID)); [by intros [= <- <-]|].
    destruct (page_table_ b !! pid) as [f0|]; [|by intros [= <- <-]].
    destruct (frame b f0) as [p| | |]; simpl; try discriminate.
    by intros [= <- <-].
  - revert Hop. unfold DeletePgImp.
    destruct (page_table_ b !! pid) as [f0|]; [|by intros [= <- <-]].
    destruct (frame b f0) as [p| | |]; simpl; try discriminate.
    destruct (pin_count_ p >? 0); [by intros [= <- <-]|].
    destruct (LRUK.Remove (replacer_ b) f0) as [r1| | |] eqn:Hrem; simpl; try discriminate.
    intros [= <- <-]. simpl. by apply (reachable_Remove (replacer_ b) r1 f0).
  - done.
Qed.

Lemma frame_of_lookup (b : BufferPoolManagerInstance) (f : Z) (p : Page) :
  0 <= f -> pages_ b !! Z.to_nat f = Some p -> frame b f = Ok p.
Proof.
  intros Hf Hp. unfold frame.
  destruct (Z.ltb_spec f 0); [lia|]. by rewrite Hp.
Qed.

(** Taking a frame succeeds whenever some frame is not pinned. *)
Lemma take_frame_succeeds (b : BufferPoolManagerInstance) :
  pool_invariant b ->
  (exists i p, pages_ b !! i = Some p /\ pin_count_ p = 0) ->
  exists f b2 pf,
    take_frame b = Ok (f, b2) /\
    0 <= f < pool_size_ b /\
    entries_ (replacer_ b2) !! f = None /\
    replacer_size_ (replacer_ b2) = replacer_size_ (replacer_ b) /\
    pages_ b2 !! Z.to_nat f = Some pf /\
    length (pages_ b2) = length (pages_ b).
Proof.
  intros Hinv Hunp. unfold take_frame.
  destruct (free_list_ b) as [|f rest] eqn:Hfree.
  - destruct Hunp as (i & p & Hi & Hp).
    destruct (inv_unpinned b Hinv i p Hi Hp) as [Hin|Hev].
    { rewrite Hfree in Hin. inversion Hin. }
    destruct (Evict_finds _ _ (inv_lists b Hinv) Hev) as (f & r' & He & Htr & Hent & Hrs).
    rewrite He. simpl.
    pose proof (inv_tracked b Hinv f Htr) as Hf.
    destruct (frame_lookup b f Hf) as [pf Hpf].
    rewrite (frame_of_lookup b f pf) by (lia || done). simpl.
    assert (Hlt : (Z.to_nat f < length (pages_ b))%nat)
      by (unfold pool_size_ in Hf; lia).
    do 3 eexists. split; [reflexivity|]. simpl.
    split; [done|]. split; [rewrite Hent; apply lookup_delete_eq|].
    split; [done|]. split; [by apply list_lookup_insert_eq|].
    by rewrite length_insert.
  - assert (Hfin : f ∈ free_list_ b) by (rewrite Hfree; by left).
    destruct (inv_free_list b Hinv f Hfin) as [Hf Hnone].
    destruct (frame_lookup b f Hf) as [pf Hpf].
    exists f, (mkBPM (pages_ b) (page_table_ b) (replacer_ b) rest
                 (next_page_id_ b) (disk_ b)), pf.
    done.
Qed.

Lemma FetchPgImp_loads (b : BufferPoolManagerInstance) (page_id : Z) :
  pool_invariant b ->
  page_table_ b !! page_id = None ->
  (exists i p, pages_ b !! i = Some p /\ pin_count_ p = 0) ->
  exists f b' p',
    FetchPgImp b page_id = Ok (f, b') /\
    frame b' f = Ok p' /\
    page_id_ p' = page_id /\
    pin_count_ p' = 1 /\
    data_ p' = ReadPage (disk_ b') page_id /\
    (exists e, entries_ (replacer_ b') !! f = Some e /\ evictable_ e = false) /\
    page_table_ b' !! page_id = Some f.
Proof.
  intros Hinv Hnone Hunp. unfold FetchPgImp. rewrite Hnone.
  rewrite (proj2 (is_page_available_true b) Hunp). simpl.
  destruct (take_frame_succeeds b Hinv Hunp)
    as (f & b2 & pf & Htake & Hf & Hnone2 & Hrs & Hpf & Hlen).
  rewrite Htake. simpl.
  assert (Hsz : 0 <= replacer_size_ (replacer_ b) <= INT_MAX).
  { rewrite (inv_replacer_size b Hinv). split; [unfold pool_size_; lia|].
    apply (inv_pool_size b Hinv). }
  destruct (install_untracked b2 page_id f true pf) as [c Hc].
  - by rewrite Hrs.
  - rewrite Hrs, (inv_replacer_size b Hinv). lia.
  - done.
  - done.
  - rewrite Hc. simpl. do 3 eexists. split; [reflexivity|].
    split.
    { apply frame_of_lookup; [lia|]. simpl.
      apply list_lookup_insert_eq. by eapply lookup_lt_Some. }
    simpl. split; [done|]. split; [done|]. split; [done|].
    split; [|apply lookup_insert_eq].
    eexists. split; [apply lookup_insert_eq|done].
Qed.

Lemma install_table (b2 b3 : BufferPoolManagerInstance) (page_id f : Z) (read : bool) :
  install b2 page_id f read = Ok b3 -> page_table_ b3 !! page_id = Some f.
Proof.
  unfold install.
  destruct (frame b2 f) as [p| | |]; simpl; try discriminate.
  destruct (RecordAccess (replacer_ b2) f) as [r1| | |]; simpl; try discriminate.
  destruct (SetEvictable r1 f false) as [r2| | |]; simpl; try discriminate.
  intros [= <-]. simpl. apply lookup_insert_eq.
Qed.

Lemma NewPgImp_table (b b' : BufferPoolManagerInstance) (page_id f : Z) :
  NewPgImp b = Ok (page_id, f, b') -> page_table_ b' !! page_id = Some f.
Proof.
  unfold NewPgImp.
  destruct (negb (is_page_available b)); [discriminate|].
  destruct (take_frame _) as [[f0 b2]| | |]; simpl; try discriminate.
  destruct (install b2 (next_page_id_ b) f0 false) as [b3| | |] eqn:Hinst;
    simpl; try discriminate.
  intros [= <- <- <-]. by apply (install_table b2 b3 _ f0 false).
Qed.

Lemma FetchPgImp_table (b b' : BufferPoolManagerInstance) (page_id f : Z) :
  page_table_ b !! page_id = None ->
  FetchPgImp b page_id = Ok (f, b') -> page_table_ b' !! page_id = Some f.
Proof.
  intros Hnone. unfold FetchPgImp. rewrite Hnone.
  destruct (negb (is_page_available b)); [discriminate|].
  destruct (take_frame b) as [[f0 b2]| | |]; simpl; try discriminate.
  destruct (install b2 page_id f0 true) as [b3| | |] eqn:Hinst; simpl; try discriminate.
  intros [= <- <-]. by apply (install_table b2 b3 _ f0 true).
Qed.

Lemma pool_frame_bound (b : BufferPoolManagerInstance) (f : Z) :
  pool_consistent None b -> 0 <= f < pool_size_ b ->
  f <= static_cast_int (replacer_size_ (replacer_ b)).
Proof.
  intros Hc Hf. rewrite (pc_size _ _ Hc).
  rewrite static_cast_int_id; [lia|].
  split; [unfold pool_size_; lia|apply (pc_max _ _ Hc)].
Qed.

Lemma SetEvictable_defined (r : LRUKReplacer) (f : Z) (flag : bool) :
  f <= static_cast_int (replacer_size_ r) -> exists r', SetEvictable r f flag = Ok r'.
Proof.
  intros Hf. unfold SetEvictable.
  assert ((f >? static_cast_int (replacer_size_ r)) = false) as ->.
  { destruct (Z.gtb_spec f (static_cast_int (replacer_size_ r))); [lia|done]. }
  destruct (entries_ r !! f); by eauto.
Qed.

(** X9.  The page table of a reachable pool.  Every entry of the page
    table points to a frame of the pool that holds the page it is filed
    under, is not on the free list and is tracked by the replacer; two
    page ids are never mapped to the same frame.  The free list has no
    duplicates and its frames are not tracked by the replacer. *)
Theorem page_table_is_sound (b : BufferPoolManagerInstance) :
  pool_reachable b ->
  (forall page_id f, page_table_ b !! page_id = Some f ->
     exists p, frame b f = Ok p /\ page_id_ p = page_id /\
       (f ∉ free_list_ b) /\ is_Some (entries_ (replacer_ b) !! f)) /\
  (forall page_id1 page_id2 f,
     page_table_ b !! page_id1 = Some f -> page_table_ b !! page_id2 = Some f ->
     page_id1 = page_id2) /\
  NoDup (free_list_ b) /\
  (forall f, f ∈ free_list_ b ->
     0 <= f < pool_size_ b /\ entries_ (replacer_ b) !! f = None).
Proof.
  intros Hr. pose proof (pool_reachable_consistent b Hr) as Hc.
  split; [|split; [|split]].
  - intros pid f Hpt. destruct (pc_table _ _ Hc pid f Hpt) as (Hf & Hnf & Htr & p & Hp & Hid).
    exists p. split; [apply frame_of_lookup; [lia|done]|done].
  - intros pid1 pid2 f H1 H2.
    destruct (pc_table _ _ Hc pid1 f H1) as (_ & _ & _ & p1 & Hp1 & Hid1).
    destruct (pc_table _ _ Hc pid2 f H2) as (_ & _ & _ & p2 & Hp2 & Hid2).
    congruence.
  - apply (pc_free_nodup _ _ Hc).
  - apply (pc_free _ _ Hc).
Qed.

Lemma page_table_is_sound_witness :
  (forall page_id f, page_table_ dirty_pool !! page_id = Some f ->
     exists p, frame dirty_pool f = Ok p /\ page_id_ p = page_id /\
       (f ∉ free_list_ dirty_pool) /\ is_Some (entries_ (replacer_ dirty_pool) !! f)) /\
  (forall page_id1 page_id2 f,
     page_table_ dirty_pool !! page_id1 = Some f ->
     page_table_ dirty_pool !! page_id2 = Some f ->
     page_id1 = page_id2) /\
  NoDup (free_list_ dirty_pool) /\
  (forall f, f ∈ free_list_ dirty_pool ->
     0 <= f < pool_size_ dirty_pool /\ entries_ (replacer_ dirty_pool) !! f = None).
Proof.
  apply (page_table_is_sound dirty_pool). apply dirty_pool_reachable.
Defined.

(** X10.  A pinned frame is never taken.  In a reachable pool every frame
    that the replacer may evict has pin count 0, and so has every frame of
    the free list.  The frame that NewPgImp, or FetchPgImp of a page that is
    not resident, hands out had pin count 0 before the call, and the call
    leaves every other frame (bytes, page id, pin count and dirty flag) as
    it was. *)
Theorem pinned_frames_are_never_taken (b : BufferPoolManagerInstance) :
  pool_reachable b ->
  (forall f e, entries_ (replacer_ b) !! f = Some e -> evictable_ e = true ->
     exists p, frame b f = Ok p /\ pin_count_ p = 0) /\
  (forall f, f ∈ free_list_ b -> exists p, frame b f = Ok p /\ pin_count_ p = 0) /\
  (forall page_id f b', NewPgImp b = Ok (page_id, f, b') ->
     (exists p, frame b f = Ok p /\ pin_count_ p = 0) /\
     (forall g, g <> Z.to_nat f -> pages_ b' !! g = pages_ b !! g)) /\
  (forall page_id f b',
     page_table_ b !! page_id = None -> FetchPgImp b page_id = Ok (f, b') ->
     (exists p, frame b f = Ok p /\ pin_count_ p = 0) /\
     (forall g, g <> Z.to_nat f -> pages_ b' !! g = pages_ b !! g)).
Proof.
  intros Hr. pose proof (pool_reachable_consistent b Hr) as Hc.
  pose proof (pool_reachable_reusable b Hr) as Hru.
  split; [|split; [|split]].
  - intros f e He Hev. destruct (ru_evictable _ Hru f e He Hev) as (p & Hp & H0).
    exists p. split; [|done]. apply frame_of_lookup; [|done].
    apply (pc_tracked _ _ Hc f). by eexists.
  - intros f Hf. destruct (ru_free _ Hru f Hf) as (p & Hp & H0).
    exists p. split; [|done]. apply frame_of_lookup; [|done].
    apply (pc_free _ _ Hc f Hf).
  - intros pid f b' Hop.
    destruct (NewPgImp_reusable b b' pid f Hc Hru Hop) as (_ & (p & Hp & H0) & Hsame).
    split; [|done]. exists p. split; [|done]. apply frame_of_lookup; [|done].
    pose proof (NewPgImp_consistent b b' pid f Hc Hop) as Hc'.
    pose proof (NewPgImp_table b b' pid f Hop) as Hpt.
    apply (pc_table _ _ Hc' pid f Hpt).
  - intros pid f b' Hnone Hop.
    destruct (FetchPgImp_reusable b b' pid f Hc Hru Hop) as (_ & Hrest).
    destruct (Hrest Hnone) as ((p & Hp & H0) & Hsame).
    split; [|done]. exists p. split; [|done]. apply frame_of_lookup; [|done].
    pose proof (FetchPgImp_consistent b b' pid f Hc
                  ltac:(intros f0 Hf0; congruence) Hop) as Hc'.
    pose proof (FetchPgImp_table b b' pid f Hnone Hop) as Hpt.
    apply (pc_table _ _ Hc' pid f Hpt).
Qed.

Lemma pinned_frames_are_never_taken_witness :
  (forall f e, entries_ (replacer_ dirty_pool) !! f = Some e -> evictable_ e = true ->
     exists p, frame dirty_pool f = Ok p /\ pin_count_ p = 0) /\
  (forall f, f ∈ free_list_ dirty_pool ->
     exists p, frame dirty_pool f = Ok p /\ pin_count_ p = 0) /\
  (forall page_id f b', NewPgImp dirty_pool = Ok (page_id, f, b') ->
     (exists p, frame dirty_pool f = Ok p /\ pin_count_ p = 0) /\
     (forall g, g <> Z.to_nat f -> pages_ b' !! g = pages_ dirty_pool !! g)) /\
  (forall page_id f b',
     page_table_ dirty_pool !! page_id = None ->
     FetchPgImp dirty_pool page_id = Ok (f, b') ->
     (exists p, frame dirty_pool f = Ok p /\ pin_count_ p = 0) /\
     (forall g, g <> Z.to_nat f -> pages_ b' !! g = pages_ dirty_pool !! g)).
Proof.
  apply (pinned_frames_are_never_taken dirty_pool). apply dirty_pool_reachable.
Defined.

Lemma one_page_pool_reachable : pool_reachable one_page_pool.
Proof.
  apply (reachable_NewPgImp (new_pool 1 2 ∅) one_page_pool 0 0).
  - apply reachable_new_pool. vm_compute. discriminate.
  - vm_compute. reflexivity.
Qed.

(** X11.  FetchPgImp in a reachable pool.  For a resident page it returns
    the page's frame with the pin count incremented and the frame marked
    non-evictable, and changes neither the bytes, the page table, the free
    list nor the disk; with k at least 2 it always returns.  For a page
    that is not resident it raises the logic error exactly when every
    frame is pinned; otherwise it returns a frame that holds the page with
    pin count 1, filled with the bytes the disk has for the page, marked
    non-evictable and entered in the page table. *)
Theorem FetchPgImp_pins_or_loads (b : BufferPoolManagerInstance) (page_id : Z) :
  pool_reachable b ->
  (forall f, page_table_ b !! page_id = Some f ->
     (2 <= k_ (replacer_ b) -> exists b', FetchPgImp b page_id = Ok (f, b')) /\
     (forall f' b', FetchPgImp b page_id = Ok (f', b') ->
        f' = f /\
        exists p, frame b f = Ok p /\
          pages_ b' = <[Z.to_nat f := mkPage (data_ p) (page_id_ p) (pin_count_ p + 1)
                                        (is_dirty_ p)]> (pages_ b) /\
          page_table_ b' = page_table_ b /\ free_list_ b' = free_list_ b /\
          disk_ b' = disk_ b /\
          exists e, entries_ (replacer_ b') !! f = Some e /\ evictable_ e = false)) /\
  (page_table_ b !! page_id = None ->
     (FetchPgImp b page_id = Throw (logic_error "Fetch no avlivable page!!") <->
      forall i p, pages_ b !! i = Some p -> 0 < pin_count_ p) /\
     ((exists i p, pages_ b !! i = Some p /\ pin_count_ p = 0) ->
      exists f b' p',
        FetchPgImp b page_id = Ok (f, b') /\
        frame b' f = Ok p' /\
        page_id_ p' = page_id /\
        pin_count_ p' = 1 /\
        data_ p' = ReadPage (disk_ b') page_id /\
        (exists e, entries_ (replacer_ b') !! f = Some e /\ evictable_ e = false) /\
        page_table_ b' !! page_id = Some f)).
Proof.
  intros Hr. pose proof (pool_reachable_consistent b Hr) as Hc.
  pose proof (consistent_invariant b Hc) as Hinv.
  split.
  - intros f Hpt.
    destruct (pc_table _ _ Hc page_id f Hpt) as (Hf & _ & [e He] & p & Hp & Hid).
    pose proof (frame_of_lookup b f p ltac:(lia) Hp) as Hfr.
    pose proof (pool_frame_bound b f Hc Hf) as Hbound.
    split.
    + intros Hk. unfold FetchPgImp. rewrite Hpt, Hfr. simpl.
      destruct (LRUKInvariantFacts.RecordAccess_defined _ (pool_replacer_reachable b Hr) Hk
                  f Hbound) as [r1 Hra].
      rewrite Hra. simpl.
      destruct (SetEvictable_defined r1 f false) as [r2 Hse].
      { by rewrite (proj2 (LRUKInvariantFacts.RecordAccess_k _ _ _ Hra)). }
      rewrite Hse. simpl. by eauto.
    + intros f' b'. unfold FetchPgImp. rewrite Hpt, Hfr. simpl.
      destruct (RecordAccess (replacer_ b) f) as [r1| | |] eqn:Hra; simpl; try discriminate.
      destruct (SetEvictable r1 f false) as [r2| | |] eqn:Hse; simpl; try discriminate.
      intros [= <- <-]. split; [done|]. exists p. split; [done|].
      destruct (RecordAccess_entries _ _ _ Hra) as [_ Hent1].
      destruct (SetEvictable_entries _ _ _ _ Hse) as [_ Hent2].
      rewrite Hent1, lookup_insert_eq in Hent2.
      simpl. split; [done|]. split; [done|]. split; [done|]. split; [done|].
      eexists. rewrite Hent2. split; [apply lookup_insert_eq|done].
  - intros Hnone. split.
    + split.
      * intros Hthrow i p Hp.
        destruct (decide (pin_count_ p = 0)) as [H0|Hne].
        -- destruct (FetchPgImp_loads b page_id Hinv Hnone ltac:(by eauto))
             as (f & b' & p' & Hok & _).
           congruence.
        -- pose proof (pc_pin _ _ Hc i p Hp). lia.
      * intros Hall. unfold FetchPgImp. rewrite Hnone.
        assert (is_page_available b = false) as ->; [|done].
        apply is_page_available_false. intros i p Hp. specialize (Hall i p Hp). lia.
    + by apply FetchPgImp_loads.
Qed.

Lemma FetchPgImp_pins_or_loads_witness :
  (exists b', FetchPgImp dirty_pool 0 = Ok (0, b')) /\
  (exists f b' p',
     FetchPgImp dirty_pool 5 = Ok (f, b') /\
     frame b' f = Ok p' /\
     page_id_ p' = 5 /\
     pin_count_ p' = 1 /\
     data_ p' = ReadPage (disk_ b') 5 /\
     (exists e, entries_ (replacer_ b') !! f = Some e /\ evictable_ e = false) /\
     page_table_ b' !! 5 = Some f).
Proof.
  split.
  - apply (proj1 (FetchPgImp_pins_or_loads dirty_pool 0 dirty_pool_reachable) 0).
    + vm_compute. reflexivity.
    + vm_compute. discriminate.
  - apply (proj2 (FetchPgImp_pins_or_loads dirty_pool 5 dirty_pool_reachable)).
    + vm_compute. reflexivity.
    + exists 0%nat, (mkPage [Byte.x2a] 0 0 true). split; reflexivity.
Defined.

(** X12.  UnpinPgImp in a reachable pool.  It returns false and changes
    nothing when the page is not resident or its pin count is already 0.
    Otherwise it returns true and decrements the pin count; the dirty flag
    is set when the caller passes true and is never cleared; the bytes,
    the page table, the free list and the disk stay as they were; the
    frame becomes evictable when the pin count reaches 0, and otherwise
    the replacer is not touched. *)
Theorem UnpinPgImp_releases_pin (b : BufferPoolManagerInstance) (page_id : Z)
    (is_dirty : bool) :
  pool_reachable b ->
  (page_table_ b !! page_id = None -> UnpinPgImp b page_id is_dirty = Ok (false, b)) /\
  (forall f, page_table_ b !! page_id = Some f ->
     exists p, frame b f = Ok p /\
       (pin_count_ p = 0 -> UnpinPgImp b page_id is_dirty = Ok (false, b)) /\
       (pin_count_ p <> 0 ->
        exists b',
          UnpinPgImp b page_id is_dirty = Ok (true, b') /\
          pages_ b' = <[Z.to_nat f := mkPage (data_ p) (page_id_ p) (pin_count_ p - 1)
                                        (is_dirty || is_dirty_ p)]> (pages_ b) /\
          page_table_ b' = page_table_ b /\ free_list_ b' = free_list_ b /\
          disk_ b' = disk_ b /\
          (pin_count_ p = 1 -> tracked_evictable (replacer_ b') f) /\
          (pin_count_ p <> 1 -> replacer_ b' = replacer_ b))).
Proof.
  intros Hr. pose proof (pool_reachable_consistent b Hr) as Hc.
  split.
  - intros Hnone. unfold UnpinPgImp. by rewrite Hnone.
  - intros f Hpt.
    destruct (pc_table _ _ Hc page_id f Hpt) as (Hf & _ & [e He] & p & Hp & Hid).
    pose proof (frame_of_lookup b f p ltac:(lia) Hp) as Hfr.
    exists p. split; [done|]. unfold UnpinPgImp. rewrite Hpt, Hfr. simpl. split.
    + intros ->. done.
    + intros Hne. rewrite (proj2 (Z.eqb_neq _ _) Hne).
      assert (Hd : (if is_dirty then is_dirty else is_dirty_ p) = is_dirty || is_dirty_ p)
        by (by destruct is_dirty).
      rewrite Hd.
      destruct (Z.eqb_spec (pin_count_ p - 1) 0) as [H1|H1].
      * destruct (SetEvictable_defined (replacer_ b) f true (pool_frame_bound b f Hc Hf))
          as [r1 Hse].
        unfold set_frame at 1. simpl. rewrite Hse. simpl.
        eexists. split; [reflexivity|]. simpl.
        split; [done|]. split; [done|]. split; [done|]. split; [done|].
        split; [|intros; lia].
        intros _. destruct (SetEvictable_entries _ _ _ _ Hse) as [_ Hent].
        rewrite He in Hent. eexists. rewrite Hent.
        split; [apply lookup_insert_eq|done].
      * eexists. split; [reflexivity|]. simpl.
        split; [done|]. split; [done|]. split; [done|]. split; [done|].
        split; [intros; lia|done].
Qed.

(** The only page of [one_page_pool], unpinned as dirty. *)
Lemma UnpinPgImp_releases_pin_witness :
  exists b',
    UnpinPgImp one_page_pool 0 true = Ok (true, b') /\
    pages_ b' = [mkPage zeroed 0 0 true] /\
    page_table_ b' = page_table_ one_page_pool /\
    free_list_ b' = free_list_ one_page_pool /\
    disk_ b' = disk_ one_page_pool /\
    tracked_evictable (replacer_ b') 0.
Proof.
  destruct (proj2 (UnpinPgImp_releases_pin one_page_pool 0 true one_page_pool_reachable)
              0 ltac:(vm_compute; reflexivity)) as (p & Hp & _ & Hunpin).
  assert (p = mkPage zeroed 0 1 false) as ->.
  { assert (Hfr : frame one_page_pool 0 = Ok (mkPage zeroed 0 1 false))
      by (vm_compute; reflexivity).
    congruence. }
  destruct (Hunpin ltac:(simpl; lia)) as (b' & H1 & H2 & H3 & H4 & H5 & H6 & _).
  exists b'. split; [exact H1|]. split; [exact H2|]. split; [exact H3|].
  split; [exact H4|]. split; [exact H5|]. apply H6. reflexivity.
Defined.

(** X13.  DeletePgImp in a reachable pool (k at least 2).  It returns true
    and changes nothing when the page is not resident, and false without
    a change when the page is pinned.  Otherwise it returns true: the
    page leaves the page table, its frame leaves the replacer, is zeroed,
    marked clean and without a page, and is appended to the free list.
    The disk is not written, also when the page was dirty, and the page id
    counter is not changed. *)
Theorem DeletePgImp_frees_without_write_back (b : BufferPoolManagerInstance)
    (page_id : Z) :
  pool_reachable b -> 2 <= k_ (replacer_ b) ->
  (page_table_ b !! page_id = None -> DeletePgImp b page_id = Ok (true, b)) /\
  (forall f, page_table_ b !! page_id = Some f ->
     exists p, frame b f = Ok p /\
       (0 < pin_count_ p -> DeletePgImp b page_id = Ok (false, b)) /\
       (pin_count_ p = 0 ->
        exists b',
          DeletePgImp b page_id = Ok (true, b') /\
          page_table_ b' = delete page_id (page_table_ b) /\
          free_list_ b' = free_list_ b ++ [f] /\
          frame b' f = Ok (mkPage zeroed INVALID_PAGE_ID 0 false) /\
          entries_ (replacer_ b') !! f = None /\
          disk_ b' = disk_ b /\
          next_page_id_ b' = next_page_id_ b)).
Proof.
  intros Hr Hk. pose proof (pool_reachable_consistent b Hr) as Hc.
  split.
  - intros Hnone. unfold DeletePgImp. by rewrite Hnone.
  - intros f Hpt.
    destruct (pc_table _ _ Hc page_id f Hpt) as (Hf & _ & [e He] & p & Hp & Hid).
    pose proof (frame_of_lookup b f p ltac:(lia) Hp) as Hfr.
    exists p. split; [done|]. unfold DeletePgImp. rewrite Hpt, Hfr. simpl. split.
    + intros Hpin. by rewrite (proj2 (Z.gtb_lt _ _) Hpin).
    + intros H0. rewrite H0. simpl.
      destruct (LRUKInvariantFacts.Remove_defined _ (pool_replacer_reachable b Hr) Hk
                  f (pool_frame_bound b f Hc Hf)) as [r1 Hrem].
      rewrite Hrem. simpl. eexists. split; [reflexivity|]. simpl.
      split; [done|]. split; [done|]. split.
      { apply frame_of_lookup; [lia|]. simpl.
        apply list_lookup_insert_eq. by eapply lookup_lt_Some. }
      split; [|done].
      destruct (Remove_entries _ _ _ Hrem) as [_ ->]. apply lookup_delete_eq.
Qed.

Lemma DeletePgImp_frees_without_write_back_witness :
  exists b',
    DeletePgImp dirty_pool 0 = Ok (true, b') /\
    page_table_ b' = delete 0 (page_table_ dirty_pool) /\
    free_list_ b' = free_list_ dirty_pool ++ [0] /\
    frame b' 0 = Ok (mkPage zeroed INVALID_PAGE_ID 0 false) /\
    entries_ (replacer_ b') !! 0 = None /\
    disk_ b' = disk_ dirty_pool /\
    next_page_id_ b' = next_page_id_ dirty_pool.
Proof.
  destruct (proj2 (DeletePgImp_frees_without_write_back dirty_pool 0 dirty_pool_reachable
                     ltac:(vm_compute; discriminate))
              0 ltac:(vm_compute; reflexivity)) as (p & Hp & _ & Hdel).
  apply Hdel.
  assert (Hfr : frame dirty_pool 0 = Ok (mkPage [Byte.x2a] 0 0 true))
    by (vm_compute; reflexivity).
  rewrite Hfr in Hp. by injection Hp as <-.
Defined.

End BufferPoolPinsFacts.

(** ** Index pages as lists of pairs *)

Module BPlusTreePageFacts.
Import BPlusTreePages BPlusTreeItems.

Lemma slot_store_eq (a : list (Z * Z)) (i : Z) (x : Z * Z) :
  0 <= i -> slot (store a i x) i = x.
Proof.
  intros Hi. unfold slot, store. case_decide as Hlt.
  - by rewrite list_lookup_insert_eq.
  - rewrite lookup_app_r by lia. rewrite lookup_app_r by (rewrite repeat_length; lia).
    rewrite repeat_length.
    replace (Z.to_nat i - length a - (Z.to_nat i - length a))%nat with 0%nat by lia.
    done.
Qed.

Lemma slot_store_ne (a : list (Z * Z)) (i j : Z) (x : Z * Z) :
  0 <= i -> 0 <= j -> i <> j -> slot (store a i x) j = slot a j.
Proof.
  intros Hi Hj Hne. unfold slot, store. case_decide as Hlt.
  - rewrite list_lookup_insert_ne by lia. done.
  - destruct (decide (Z.to_nat j < length a)%nat) as [Hja|Hja].
    + by rewrite lookup_app_l.
    + rewrite lookup_app_r by lia.
      rewrite (lookup_ge_None_2 a) by lia. simpl.
      destruct (decide (Z.to_nat j - length a < Z.to_nat i - length a)%nat) as [Hjr|Hjr].
      * rewrite lookup_app_l by (by rewrite repeat_length).
        destruct (repeat (0, 0) (Z.to_nat i - length a) !! (Z.to_nat j - length a)%nat)
          as [y|] eqn:Hy; [|done].
        apply list_elem_of_lookup_2, list_elem_of_In, repeat_spec in Hy. by subst y.
      * rewrite lookup_app_r by (rewrite repeat_length; lia).
        rewrite repeat_length.
        rewrite lookup_ge_None_2; [done|]. simpl. lia.
Qed.

(** [shift_right]: the slots from [idx + 1] to [size] receive what their
    left neighbour held. *)
Lemma shift_right_slot (a : list (Z * Z)) (idx : Z) (n : nat) (j : Z) :
  0 <= idx -> 0 <= j ->
  slot (shift_right a idx (idx + Z.of_nat n)) j =
    if (idx <? j) && (j <=? idx + Z.of_nat n) then slot a (j - 1) else slot a j.
Proof.
  intros Hidx Hj. unfold shift_right.
  replace (idx + Z.of_nat n - idx) with (Z.of_nat n) by lia.
  revert a. induction n as [|n IH]; intros a.
  - simpl. change (Z.of_nat 0) with 0.
    destruct (Z.ltb_spec idx j), (Z.leb_spec j (idx + 0)); simpl; try done; lia.
  - rewrite seqZ_S, reverse_app. simpl.
    rewrite IH. unfold copy_slot. rewrite Nat2Z.inj_succ.
    replace (idx + 1 + Z.of_nat n) with (idx + Z.succ (Z.of_nat n)) by lia.
    replace (idx + 1 + Z.of_nat n - 1) with (idx + Z.of_nat n) by lia.
    destruct (Z.ltb_spec idx j) as [Hlt|Hge]; simpl.
    + destruct (Z.leb_spec j (idx + Z.of_nat n)) as [Hle|Hgt].
      * rewrite (proj2 (Z.leb_le _ _)) by lia.
        rewrite slot_store_ne by lia. done.
      * destruct (Z.leb_spec j (idx + Z.succ (Z.of_nat n))) as [Hle'|Hgt'].
        -- assert (j = idx + Z.succ (Z.of_nat n)) as -> by lia.
           rewrite slot_store_eq by lia. done.
        -- rewrite slot_store_ne by lia. done.
    + rewrite slot_store_ne by lia. done.
Qed.

(** [shift_left]: the slots from [idx] to [size - 2] receive what their
    right neighbour held. *)
Lemma shift_left_slot (a : list (Z * Z)) (idx : Z) (n : nat) (j : Z) :
  0 <= idx -> 0 <= j ->
  slot (shift_left a idx (idx + 1 + Z.of_nat n)) j =
    if (idx <=? j) && (j <? idx + Z.of_nat n) then slot a (j + 1) else slot a j.
Proof.
  intros Hidx Hj. unfold shift_left.
  replace (idx + 1 + Z.of_nat n - 1 - idx) with (Z.of_nat n) by lia.
  revert a idx Hidx. induction n as [|n IH]; intros a idx Hidx.
  - simpl. change (Z.of_nat 0) with 0.
    destruct (Z.leb_spec idx j), (Z.ltb_spec j (idx + 0)); simpl; try done; lia.
  - rewrite Nat2Z.inj_succ, seqZ_cons by lia. simpl.
    replace (Z.pred (Z.succ (Z.of_nat n))) with (Z.of_nat n) by lia.
    replace (Z.succ idx) with (idx + 1) by lia.
    rewrite IH by lia. unfold copy_slot.
    destruct (Z.leb_spec (idx + 1) j) as [Hle|Hgt]; simpl.
    + rewrite (proj2 (Z.leb_le idx j)) by lia. simpl.
      replace (idx + 1 + Z.of_nat n) with (idx + Z.succ (Z.of_nat n)) by lia.
      destruct (Z.ltb_spec j (idx + Z.succ (Z.of_nat n))); simpl.
      * rewrite slot_store_ne by lia. done.
      * rewrite slot_store_ne by lia. done.
    + destruct (Z.leb_spec idx j) as [Hle'|Hgt']; simpl.
      * assert (j = idx) as -> by lia.
        rewrite (proj2 (Z.ltb_lt _ _)) by lia.
        rewrite slot_store_eq by lia. done.
      * rewrite slot_store_ne by lia. done.
Qed.

(** *** The pairs of a page *)

Lemma items_length (n : BPlusTreePage) : length (items n) = Z.to_nat (GetSize n).
Proof. unfold items. by rewrite length_fmap, length_seqZ. Qed.

Lemma items_split (a : list (Z * Z)) (size idx : Z) :
  0 <= idx <= size ->
  slot a <$> seqZ 0 size = (slot a <$> seqZ 0 idx) ++ (slot a <$> seqZ idx (size - idx)).
Proof.
  intros Hidx. replace size with (idx + (size - idx)) at 1 by lia.
  rewrite seqZ_app by lia. by rewrite fmap_app.
Qed.

Lemma fmap_seqZ_ext {A : Type} (f g : Z -> A) (m len : Z) :
  (forall j, m <= j < m + len -> f j = g j) ->
  f <$> seqZ m len = g <$> seqZ m len.
Proof.
  intros Hfg. apply list_fmap_ext. intros i j Hj.
  apply lookup_seqZ in Hj. apply Hfg. lia.
Qed.

Lemma fmap_seqZ_shift {A : Type} (f : Z -> A) (d m len : Z) :
  f <$> seqZ (d + m) len = (fun j => f (d + j)) <$> seqZ m len.
Proof. rewrite <- fmap_add_seqZ, <- list_fmap_compose. done. Qed.

Lemma fmap_seqZ_reindex {A : Type} (f g : Z -> A) (m m' len : Z) :
  (forall j, 0 <= j < len -> f (m + j) = g (m' + j)) ->
  f <$> seqZ m len = g <$> seqZ m' len.
Proof.
  intros Hfg.
  rewrite <- (Z.add_0_r m), <- (Z.add_0_r m'), !fmap_seqZ_shift.
  apply fmap_seqZ_ext. intros j Hj. apply Hfg. lia.
Qed.

Lemma items_take (n : BPlusTreePage) (idx : Z) :
  0 <= idx <= GetSize n ->
  take (Z.to_nat idx) (items n) = slot (array_ n) <$> seqZ 0 idx.
Proof.
  intros Hidx. unfold items. rewrite (items_split _ _ idx) by done.
  rewrite take_app_length'; [done|]. by rewrite length_fmap, length_seqZ.
Qed.

Lemma items_drop (n : BPlusTreePage) (idx : Z) :
  0 <= idx <= GetSize n ->
  drop (Z.to_nat idx) (items n) = slot (array_ n) <$> seqZ idx (GetSize n - idx).
Proof.
  intros Hidx. unfold items. rewrite (items_split _ _ idx) by done.
  rewrite drop_app_length'; [done|]. by rewrite length_fmap, length_seqZ.
Qed.

Lemma items_lookup (n : BPlusTreePage) (i : Z) :
  0 <= i < GetSize n -> items n !! Z.to_nat i = Some (slot (array_ n) i).
Proof.
  intros Hi. unfold items. rewrite list_lookup_fmap, lookup_seqZ_lt by lia.
  simpl. do 2 f_equal. lia.
Qed.

Lemma slot_eta (n : BPlusTreePage) (i : Z) : (KeyAt n i, ValueAt n i) = slot (array_ n) i.
Proof. unfold KeyAt, ValueAt. by destruct (slot (array_ n) i). Qed.

(** *** The loops that look for a position *)

Lemma first_not_less_spec (a : list (Z * Z)) (key idx : Z) (steps : nat) :
  idx <= first_not_less a key idx steps <= idx + Z.of_nat steps /\
  (forall j, idx <= j < first_not_less a key idx steps -> fst (slot a j) < key) /\
  (first_not_less a key idx steps < idx + Z.of_nat steps ->
   key <= fst (slot a (first_not_less a key idx steps))).
Proof.
  revert idx. induction steps as [|steps IH]; intros idx.
  - simpl. split; [lia|]. split; intros; lia.
  - simpl. destruct (Z.ltb_spec (fst (slot a idx)) key) as [Hlt|Hge].
    + destruct (IH (idx + 1)) as (Hr & Hbelow & Hat).
      split; [lia|]. split.
      * intros j Hj. destruct (decide (j = idx)) as [->|Hne]; [done|]. apply Hbelow. lia.
      * intros Hlt'. apply Hat. lia.
    + split; [lia|]. split; [intros; lia|]. done.
Qed.

Lemma first_equal_spec (a : list (Z * Z)) (key idx : Z) (steps : nat) :
  idx <= first_equal a key idx steps <= idx + Z.of_nat steps /\
  (forall j, idx <= j < first_equal a key idx steps -> fst (slot a j) <> key) /\
  (first_equal a key idx steps < idx + Z.of_nat steps ->
   fst (slot a (first_equal a key idx steps)) = key).
Proof.
  revert idx. induction steps as [|steps IH]; intros idx.
  - simpl. split; [lia|]. split; intros; lia.
  - simpl. destruct (Z.eqb_spec (fst (slot a idx)) key) as [Heq|Hne].
    + split; [lia|]. split; [intros; lia|]. done.
    + destruct (IH (idx + 1)) as (Hr & Hbelow & Hat).
      split; [lia|]. split.
      * intros j Hj. destruct (decide (j = idx)) as [->|Hne']; [done|]. apply Hbelow. lia.
      * intros Hlt'. apply Hat. lia.
Qed.

(** *** Opening and closing a slot *)

(** Storing [x] at [idx] after the pairs from [idx] on have moved one slot
    up. *)
Lemma insert_at_items (a a' : list (Z * Z)) (idx size : Z) (x : Z * Z) :
  0 <= idx <= size ->
  (forall j, 0 <= j -> j <> idx -> slot a' j = slot (shift_right a idx size) j) ->
  slot a' idx = x ->
  slot a' <$> seqZ 0 (size + 1) =
    (slot a <$> seqZ 0 idx) ++ x :: (slot a <$> seqZ idx (size - idx)).
Proof.
  intros Hidx Hother Hat.
  assert (forall j, 0 <= j ->
            slot (shift_right a idx size) j =
            if (idx <? j) && (j <=? size) then slot a (j - 1) else slot a j) as Hshift.
  { intros j Hj. replace size with (idx + Z.of_nat (Z.to_nat (size - idx))) by lia.
    by apply shift_right_slot; [lia|]. }
  rewrite (items_split a' (size + 1) idx) by lia.
  f_equal.
  - apply fmap_seqZ_ext. intros j Hj. rewrite Hother, Hshift by lia.
    by rewrite (proj2 (Z.ltb_ge idx j)) by lia.
  - replace (size + 1 - idx) with (Z.succ (size - idx)) by lia.
    rewrite seqZ_cons by lia. rewrite fmap_cons, Hat. f_equal.
    replace (Z.pred (Z.succ (size - idx))) with (size - idx) by lia.
    replace (Z.succ idx) with (1 + idx) by lia.
    rewrite fmap_seqZ_shift. apply fmap_seqZ_ext. intros j Hj.
    rewrite Hother, Hshift by lia.
    rewrite (proj2 (Z.ltb_lt idx (1 + j))), (proj2 (Z.leb_le (1 + j) size)) by lia.
    simpl. f_equal. lia.
Qed.

(** The pairs after [idx] moved one slot down. *)
Lemma delete_at_items (a : list (Z * Z)) (idx size : Z) :
  0 <= idx < size ->
  slot (shift_left a idx size) <$> seqZ 0 (size - 1) =
    (slot a <$> seqZ 0 idx) ++ (slot a <$> seqZ (idx + 1) (size - 1 - idx)).
Proof.
  intros Hidx.
  assert (forall j, 0 <= j ->
            slot (shift_left a idx size) j =
            if (idx <=? j) && (j <? size - 1) then slot a (j + 1) else slot a j) as Hshift.
  { intros j Hj.
    replace size with (idx + 1 + Z.of_nat (Z.to_nat (size - 1 - idx))) at 1 by lia.
    rewrite shift_left_slot by lia.
    by replace (idx + Z.of_nat (Z.to_nat (size - 1 - idx))) with (size - 1) by lia. }
  rewrite (items_split _ (size - 1) idx) by lia.
  f_equal.
  - apply fmap_seqZ_ext. intros j Hj. rewrite Hshift by lia.
    by rewrite (proj2 (Z.leb_gt idx j)) by lia.
  - replace (idx + 1) with (1 + idx) by lia.
    rewrite fmap_seqZ_shift. apply fmap_seqZ_ext. intros j Hj.
    rewrite Hshift by lia.
    rewrite (proj2 (Z.leb_le idx j)), (proj2 (Z.ltb_lt j (size - 1))) by lia.
    simpl. f_equal. lia.
Qed.

Lemma take_drop_seqZ (a : list (Z * Z)) (size idx : Z) :
  0 <= idx < size ->
  take (Z.to_nat idx) (slot a <$> seqZ 0 size) ++ drop (S (Z.to_nat idx)) (slot a <$> seqZ 0 size)
  = (slot a <$> seqZ 0 idx) ++ (slot a <$> seqZ (idx + 1) (size - 1 - idx)).
Proof.
  intros Hidx. f_equal.
  - rewrite (items_split a size idx) by lia.
    rewrite take_app_length'; [done|]. by rewrite length_fmap, length_seqZ.
  - rewrite (items_split a size (idx + 1)) by lia.
    rewrite drop_app_length'; [|rewrite length_fmap, length_seqZ; lia].
    f_equal. f_equal. lia.
Qed.

(** What a scan of the slots from [m] on returns. *)
Lemma find_seqZ_spec (P : Z -> bool) (m len : Z) :
  match find P (seqZ m len) with
  | Some r => m <= r < m + len /\ P r = true /\ (forall j, m <= j < r -> P j = false)
  | None => forall j, m <= j < m + len -> P j = false
  end.
Proof.
  destruct (decide (len <= 0)) as [Hneg|Hpos].
  { rewrite seqZ_nil by done. simpl. intros; lia. }
  replace len with (Z.of_nat (Z.to_nat len)) by lia.
  generalize (Z.to_nat len) as k. clear. intros k. revert m.
  induction k as [|k IH]; intros m.
  - simpl. intros; lia.
  - rewrite seqZ_cons by lia. simpl.
    replace (Z.pred (Z.of_nat (S k))) with (Z.of_nat k) by lia.
    destruct (P m) eqn:HPm.
    + split; [lia|]. split; [done|]. intros; lia.
    + specialize (IH (Z.succ m)).
      destruct (find P (seqZ (Z.succ m) (Z.of_nat k))) as [r|].
      * destruct IH as (Hr & HPr & Hbefore). split; [lia|]. split; [done|].
        intros j Hj. destruct (decide (j = m)) as [->|Hne]; [done|]. apply Hbefore. lia.
      * intros j Hj. destruct (decide (j = m)) as [->|Hne]; [done|]. apply IH. lia.
Qed.

(** The loop of [MoveHalf]. *)
Lemma move_pairs_spec (n : BPlusTreePage) (m : nat) (j0 i0 : Z) (np : BPlusTreePage) :
  0 <= j0 ->
  let np' := fold_left (fun np '(j, i) => SetKeyValue np j (KeyAt n i) (ValueAt n i))
               (zip (seqZ j0 (Z.of_nat m)) (seqZ i0 (Z.of_nat m))) np in
  GetSize np' = GetSize np + Z.of_nat m /\
  (page_type_ np', max_size_ np', parent_page_id_ np', page_id_ np', next_page_id_ np') =
    (page_type_ np, max_size_ np, parent_page_id_ np, page_id_ np, next_page_id_ np) /\
  forall j, 0 <= j ->
    slot (array_ np') j =
      if (j0 <=? j) && (j <? j0 + Z.of_nat m) then slot (array_ n) (i0 + (j - j0))
      else slot (array_ np) j.
Proof.
  revert j0 i0 np. induction m as [|m IH]; intros j0 i0 np Hj0.
  - simpl. change (Z.of_nat 0) with 0. split; [lia|]. split; [done|]. intros j Hj.
    destruct (Z.leb_spec j0 j), (Z.ltb_spec j (j0 + 0)); simpl; try done; lia.
  - rewrite !(seqZ_cons _ (Z.of_nat (S m))) by lia.
    replace (Z.pred (Z.of_nat (S m))) with (Z.of_nat m) by lia.
    simpl zip. simpl fold_left.
    specialize (IH (Z.succ j0) (Z.succ i0)
                  (SetKeyValue np j0 (KeyAt n i0) (ValueAt n i0))).
    destruct IH as (Hsize & Hhead & Hslots); [lia|].
    split; [rewrite Hsize; simpl; unfold GetSize; simpl; lia|].
    split; [rewrite Hhead; done|].
    intros j Hj. rewrite Hslots by done. simpl.
    destruct (Z.leb_spec (Z.succ j0) j) as [Hle|Hgt]; simpl.
    + rewrite (proj2 (Z.leb_le j0 j)) by lia. simpl.
      destruct (Z.ltb_spec j (Z.succ j0 + Z.of_nat m)) as [Hlt|Hge].
      * rewrite (proj2 (Z.ltb_lt j (j0 + Z.of_nat (S m)))) by lia. f_equal. lia.
      * rewrite (proj2 (Z.ltb_ge j (j0 + Z.of_nat (S m)))) by lia.
        by rewrite slot_store_ne by lia.
    + destruct (Z.leb_spec j0 j) as [Hle'|Hgt']; simpl.
      * assert (j = j0) as -> by lia.
        rewrite (proj2 (Z.ltb_lt j0 (j0 + Z.of_nat (S m)))) by lia.
        rewrite slot_store_eq by lia. rewrite slot_eta. f_equal. lia.
      * by rewrite slot_store_ne by lia.
Qed.

(** The loop of the internal page's [MoveAll]. *)
Lemma move_all_spec (n : BPlusTreePage) (idx : Z) (m : nat) (i0 : Z) (np : BPlusTreePage)
    (f : BPlusTreePage -> Z -> BPlusTreePage) :
  f = (fun np i =>
         let j := idx + (i - 1) in
         IncreaseSize (SetValueAt (SetKeyAt np j (KeyAt n i)) j (ValueAt n i)) 1) ->
  0 <= idx + (i0 - 1) ->
  let np' := fold_left f (seqZ i0 (Z.of_nat m)) np in
  GetSize np' = GetSize np + Z.of_nat m /\
  (page_type_ np', max_size_ np', parent_page_id_ np', page_id_ np', next_page_id_ np') =
    (page_type_ np, max_size_ np, parent_page_id_ np, page_id_ np, next_page_id_ np) /\
  forall j, 0 <= j ->
    slot (array_ np') j =
      if (idx + (i0 - 1) <=? j) && (j <? idx + (i0 - 1) + Z.of_nat m)
      then slot (array_ n) (j - idx + 1)
      else slot (array_ np) j.
Proof.
  intros Hf. revert i0 np. induction m as [|m IH]; intros i0 np Hj0.
  - simpl. change (Z.of_nat 0) with 0. split; [lia|]. split; [done|]. intros j Hj.
    destruct (Z.leb_spec (idx + (i0 - 1)) j), (Z.ltb_spec j (idx + (i0 - 1) + 0));
      simpl; try done; lia.
  - rewrite (seqZ_cons _ (Z.of_nat (S m))) by lia.
    replace (Z.pred (Z.of_nat (S m))) with (Z.of_nat m) by lia.
    simpl fold_left.
    set (j0 := idx + (i0 - 1)) in *.
    assert (f np i0 =
            IncreaseSize (SetValueAt (SetKeyAt np j0 (KeyAt n i0)) j0 (ValueAt n i0)) 1)
      as Hnp1 by (by rewrite Hf).
    set (np1 := f np i0) in *.
    specialize (IH (Z.succ i0) np1).
    destruct IH as (Hsize & Hhead & Hslots); [lia|].
    split; [rewrite Hsize, Hnp1; simpl; unfold GetSize; simpl; lia|].
    split; [rewrite Hhead, Hnp1; done|].
    intros j Hj. rewrite Hslots by done.
    replace (idx + (Z.succ i0 - 1)) with (j0 + 1) by lia.
    assert (slot (array_ np1) j0 = slot (array_ n) i0) as Hat.
    { rewrite Hnp1. simpl. rewrite slot_store_eq by lia. unfold KeyAt at 1. simpl.
      rewrite slot_store_eq by lia. simpl. apply slot_eta. }
    assert (forall j', 0 <= j' -> j' <> j0 -> slot (array_ np1) j' = slot (array_ np) j')
      as Hother.
    { intros j' Hj' Hne. rewrite Hnp1. simpl. by rewrite !slot_store_ne by lia. }
    destruct (Z.leb_spec (j0 + 1) j) as [Hle|Hgt]; simpl.
    + rewrite (proj2 (Z.leb_le j0 j)) by lia. simpl.
      destruct (Z.ltb_spec j (j0 + 1 + Z.of_nat m)) as [Hlt|Hge].
      * by rewrite (proj2 (Z.ltb_lt j (j0 + Z.of_nat (S m)))) by lia.
      * rewrite (proj2 (Z.ltb_ge j (j0 + Z.of_nat (S m)))) by lia.
        by apply Hother; lia.
    + destruct (Z.leb_spec j0 j) as [Hle'|Hgt']; simpl.
      * assert (j = j0) as -> by lia.
        rewrite (proj2 (Z.ltb_lt j0 (j0 + Z.of_nat (S m)))) by lia.
        rewrite Hat. f_equal. unfold j0. lia.
      * by apply Hother; lia.
Qed.

Lemma sorted_insert_middle (l1 l2 : list (Z * Z)) (key value : Z) :
  Forall (fun kv => fst kv < key) l1 ->
  (forall kv, head l2 = Some kv -> key <= fst kv) ->
  key ∉ (l1 ++ l2).*1 ->
  StronglySorted Z.lt (l1 ++ l2).*1 ->
  StronglySorted Z.lt (l1 ++ (key, value) :: l2).*1.
Proof.
  intros Hl1 Hhead Hnotin Hsorted.
  rewrite fmap_app in Hsorted, Hnotin. rewrite fmap_app, fmap_cons. simpl.
  apply StronglySorted_app in Hsorted as (Hcross & Hs1 & Hs2).
  assert (Forall (Z.lt key) l2.*1) as Hl2.
  { destruct l2 as [|[k0 v0] l2]; [constructor|].
    rewrite fmap_cons in Hs2, Hnotin |- *. simpl in *.
    apply StronglySorted_cons in Hs2 as [Hall _].
    assert (key <= k0) as Hle by (by apply (Hhead (k0, v0))).
    assert (key <> k0) as Hne.
    { intros <-. apply Hnotin. apply elem_of_app. right. by left. }
    constructor; [lia|].
    eapply Forall_impl; [exact Hall|]. simpl. intros; lia. }
  apply StronglySorted_app. split; [|split; [done|]].
  - intros x1 x2 Hx1 Hx2.
    apply list_elem_of_fmap in Hx1 as (kv & -> & Hkv).
    rewrite Forall_forall in Hl1. specialize (Hl1 _ Hkv).
    apply elem_of_cons in Hx2 as [->|Hx2]; [done|].
    rewrite Forall_forall in Hl2. specialize (Hl2 _ Hx2). lia.
  - apply StronglySorted_cons. split; [done|done].
Qed.

Lemma Leaf_Insert_spec (n : BPlusTreePage) (key value : Z) :
  0 <= GetSize n ->
  (GetMaxSize n <= GetSize n ->
   Leaf_Insert n key value =
     Throw (logic_error "Leaf node has already reached maxsize, which should be less than Maxsize.")) /\
  (GetSize n < GetMaxSize n ->
   exists n' l1 l2,
     Leaf_Insert n key value = Ok n' /\
     items n = l1 ++ l2 /\
     items n' = l1 ++ (key, value) :: l2 /\
     Forall (fun kv => fst kv < key) l1 /\
     (forall kv, head l2 = Some kv -> key <= fst kv) /\
     GetSize n' = GetSize n + 1 /\
     (page_type_ n', max_size_ n', parent_page_id_ n', page_id_ n', next_page_id_ n') =
       (page_type_ n, max_size_ n, parent_page_id_ n, page_id_ n, next_page_id_ n)).
Proof.
  intros Hsize. unfold Leaf_Insert. split.
  - intros Hfull. by rewrite (proj2 (Z.geb_le _ _)) by lia.
  - intros Hroom.
    destruct (Z.geb_spec (GetSize n) (GetMaxSize n)) as [|_]; [lia|].
    set (idx := first_not_less (array_ n) key 0 (Z.to_nat (GetSize n))).
    destruct (first_not_less_spec (array_ n) key 0 (Z.to_nat (GetSize n)))
      as (Hr & Hbelow & Hat).
    fold idx in Hr, Hbelow, Hat.
    assert (0 <= idx <= GetSize n) as Hidx by lia.
    set (l1 := slot (array_ n) <$> seqZ 0 idx).
    set (l2 := slot (array_ n) <$> seqZ idx (GetSize n - idx)).
    assert (items n = l1 ++ l2) as Hitems by (by apply items_split).
    assert (Forall (fun kv => fst kv < key) l1) as Hl1.
    { apply Forall_forall. intros kv Hkv.
      apply list_elem_of_fmap in Hkv as (j & -> & Hj).
      apply elem_of_seqZ in Hj. apply Hbelow. lia. }
    assert (forall kv, head l2 = Some kv -> key <= fst kv) as Hl2.
    { intros kv. unfold l2.
      destruct (decide (idx = GetSize n)) as [Heq|Hne].
      - rewrite seqZ_nil by lia. done.
      - rewrite seqZ_cons by lia. simpl. intros [= <-]. apply Hat. lia. }
    eexists _, l1, l2. split; [reflexivity|]. split; [done|].
    assert (items (SetKeyValue
                     (set_array n (shift_right (array_ n) idx (GetSize n))) idx key value)
            = l1 ++ (key, value) :: l2) as Hnew.
    { unfold items. simpl.
      apply insert_at_items; [done| |by apply slot_store_eq; lia].
      intros j Hj Hne. by apply slot_store_ne; [lia|lia|]. }
    split; [done|]. split; [done|]. split; [done|].
    split; [done|]. done.
Qed.

(** X14.  LeafPage::Insert on a page of size at least 0: at or above the
    maximum size it throws the logic_error and stores nothing; below it,
    the pair goes between the pairs with a smaller key and the first pair
    whose key is not smaller, the other pairs keep their order, the size
    grows by one and the header is otherwise unchanged.  Keys that
    increased strictly, the new key not among them, still do. *)
Theorem Leaf_Insert_places_pair (n : BPlusTreePage) (key value : Z) :
  0 <= GetSize n ->
  (GetMaxSize n <= GetSize n ->
   Leaf_Insert n key value =
     Throw (logic_error "Leaf node has already reached maxsize, which should be less than Maxsize.")) /\
  (GetSize n < GetMaxSize n ->
   exists n' l1 l2,
     Leaf_Insert n key value = Ok n' /\
     items n = l1 ++ l2 /\
     items n' = l1 ++ (key, value) :: l2 /\
     Forall (fun kv => fst kv < key) l1 /\
     (forall kv, head l2 = Some kv -> key <= fst kv) /\
     GetSize n' = GetSize n + 1 /\
     (page_type_ n', max_size_ n', parent_page_id_ n', page_id_ n', next_page_id_ n') =
       (page_type_ n, max_size_ n, parent_page_id_ n, page_id_ n, next_page_id_ n) /\
     (key ∉ (items n).*1 -> StronglySorted Z.lt (items n).*1 ->
      StronglySorted Z.lt (items n').*1)).
Proof.
  intros Hsize. destruct (Leaf_Insert_spec n key value Hsize) as [Hfull Hroom].
  split; [done|]. intros Hlt.
  destruct (Hroom Hlt) as (n' & l1 & l2 & Hins & Hitems & Hitems' & Hl1 & Hl2 & Hrest).
  exists n', l1, l2.
  split; [done|]. split; [done|]. split; [done|]. split; [done|]. split; [done|].
  destruct Hrest as [Hsize' Hhead]. split; [done|]. split; [done|].
  intros Hnotin Hsorted. rewrite Hitems'. rewrite Hitems in Hnotin, Hsorted.
  by apply sorted_insert_middle.
Qed.

(** The statement applies to a leaf with the keys 1 and 3 and room for
    four pairs; the key 2 goes between them. *)
Lemma Leaf_Insert_places_pair_witness :
  exists n',
    Leaf_Insert (mkNode LEAF_PAGE 2 4 0 1 INVALID_PAGE_ID [(1, 101); (3, 103)]) 2 102 = Ok n' /\
    items n' = [(1, 101); (2, 102); (3, 103)].
Proof.
  destruct (Leaf_Insert_places_pair
              (mkNode LEAF_PAGE 2 4 0 1 INVALID_PAGE_ID [(1, 101); (3, 103)]) 2 102)
    as [_ Hroom]; [simpl; lia|].
  destruct Hroom as (n' & l1 & l2 & Hins & _); [simpl; lia|].
  exists n'. split; [exact Hins|].
  vm_compute in Hins. injection Hins as <-. vm_compute. reflexivity.
Defined.

(** X15.  LeafPage::MoveHalf into a page of size 0: the pairs before
    [idx] stay, in order, the pairs from [idx] on become the pairs of the
    new page, in order; no pair is lost or duplicated, and the headers of
    both pages keep everything but the size. *)
Theorem MoveHalf_splits_items (n new_page : BPlusTreePage) (idx : Z) :
  0 <= idx <= GetSize n ->
  GetSize new_page = 0 ->
  exists n' new_page',
    MoveHalf n new_page idx = (n', new_page') /\
    items n' = take (Z.to_nat idx) (items n) /\
    items new_page' = drop (Z.to_nat idx) (items n) /\
    items n' ++ items new_page' = items n /\
    GetSize n' = idx /\
    GetSize new_page' = GetSize n - idx /\
    (page_type_ n', max_size_ n', parent_page_id_ n', page_id_ n', next_page_id_ n') =
      (page_type_ n, max_size_ n, parent_page_id_ n, page_id_ n, next_page_id_ n) /\
    (page_type_ new_page', max_size_ new_page', parent_page_id_ new_page',
     page_id_ new_page', next_page_id_ new_page') =
      (page_type_ new_page, max_size_ new_page, parent_page_id_ new_page,
       page_id_ new_page, next_page_id_ new_page).
Proof.
  intros Hidx Hempty. unfold MoveHalf. rewrite length_seqZ.
  set (m := Z.to_nat (GetSize n - idx)).
  assert (GetSize n - idx = Z.of_nat m) as Hm by lia.
  rewrite Hm.
  destruct (move_pairs_spec n m 0 idx new_page) as (Hsize & Hhead & Hslots); [lia|].
  eexists _, _. split; [reflexivity|].
  assert (items (SetSize n (GetSize n - Z.of_nat m)) = take (Z.to_nat idx) (items n)) as Hleft.
  { rewrite items_take by done. unfold items. simpl. f_equal. f_equal. lia. }
  match goal with |- context [items ?x = drop _ _] => set (np' := x) in * end.
  assert (items np' = drop (Z.to_nat idx) (items n)) as Hright.
  { rewrite items_drop by done. unfold items at 1. rewrite Hsize, Hempty, Hm.
    trans ((fun j => slot (array_ n) (idx + j)) <$> seqZ 0 (Z.of_nat m)).
    - apply fmap_seqZ_ext. intros j Hj. rewrite Hslots by lia.
      rewrite (proj2 (Z.leb_le 0 j)), (proj2 (Z.ltb_lt j (0 + Z.of_nat m))) by lia.
      simpl. f_equal. lia.
    - rewrite <- (fmap_seqZ_shift (slot (array_ n)) idx 0). by rewrite Z.add_0_r. }
  split; [done|]. split; [done|].
  split; [by rewrite Hleft, Hright, take_drop|].
  split; [unfold GetSize in *; simpl; lia|].
  split; [rewrite Hsize, Hempty; lia|].
  split; [done|]. done.
Qed.

(** The statement applies to a leaf of four pairs split at index 2. *)
Lemma MoveHalf_splits_items_witness :
  exists n' new_page',
    MoveHalf (mkNode LEAF_PAGE 4 4 0 1 INVALID_PAGE_ID [(1, 101); (2, 102); (3, 103); (4, 104)])
             (Leaf_Init zero_page 2 0 4) 2 = (n', new_page') /\
    items n' = [(1, 101); (2, 102)] /\
    items new_page' = [(3, 103); (4, 104)].
Proof.
  destruct (MoveHalf_splits_items
              (mkNode LEAF_PAGE 4 4 0 1 INVALID_PAGE_ID [(1, 101); (2, 102); (3, 103); (4, 104)])
              (Leaf_Init zero_page 2 0 4) 2)
    as (n' & new_page' & Hmove & Hl & Hr & _); [simpl; lia|reflexivity|].
  exists n', new_page'. split; [exact Hmove|].
  rewrite Hl, Hr. split; vm_compute; reflexivity.
Defined.

(** X16.  InternalPage::Insert on a page with at least one pair: above
    the maximum size it throws the logic_error; otherwise (also at the
    maximum size) the pair goes behind the first pair and the pairs after
    it with a smaller key, in front of the first later pair whose key is
    not smaller; the first pair, whose key is unused, is never compared or
    moved, the size grows by one and the header is otherwise unchanged. *)
Theorem Internal_Insert_places_pair (n : BPlusTreePage) (key value : Z) :
  1 <= GetSize n ->
  (GetMaxSize n < GetSize n ->
   Internal_Insert n key value =
     Throw (logic_error "Internal node has already reached over maxsize, which should be less than or equal to Maxsize.")) /\
  (GetSize n <= GetMaxSize n ->
   exists n' l1 l2,
     Internal_Insert n key value = Ok n' /\
     items n = slot (array_ n) 0 :: l1 ++ l2 /\
     items n' = slot (array_ n) 0 :: l1 ++ (key, value) :: l2 /\
     Forall (fun kv => fst kv < key) l1 /\
     (forall kv, head l2 = Some kv -> key <= fst kv) /\
     GetSize n' = GetSize n + 1 /\
     (page_type_ n', max_size_ n', parent_page_id_ n', page_id_ n', next_page_id_ n') =
       (page_type_ n, max_size_ n, parent_page_id_ n, page_id_ n, next_page_id_ n)).
Proof.
  intros Hsize. unfold Internal_Insert. split.
  - intros Hfull. by rewrite (proj2 (Z.gtb_lt _ _)) by lia.
  - intros Hroom.
    destruct (Z.gtb_spec (GetSize n) (GetMaxSize n)) as [|_]; [lia|].
    set (idx := first_not_less (array_ n) key 1 (Z.to_nat (GetSize n - 1))).
    destruct (first_not_less_spec (array_ n) key 1 (Z.to_nat (GetSize n - 1)))
      as (Hr & Hbelow & Hat).
    fold idx in Hr, Hbelow, Hat.
    assert (1 <= idx <= GetSize n) as Hidx by lia.
    set (l1 := slot (array_ n) <$> seqZ 1 (idx - 1)).
    set (l2 := slot (array_ n) <$> seqZ idx (GetSize n - idx)).
    assert (slot (array_ n) <$> seqZ 0 idx = slot (array_ n) 0 :: l1) as Hfirst.
    { rewrite seqZ_cons by lia. rewrite fmap_cons. by f_equal. }
    assert (items n = slot (array_ n) 0 :: l1 ++ l2) as Hitems.
    { unfold items. rewrite (items_split _ _ idx) by lia. by rewrite Hfirst. }
    assert (Forall (fun kv => fst kv < key) l1) as Hl1.
    { apply Forall_forall. intros kv Hkv.
      apply list_elem_of_fmap in Hkv as (j & -> & Hj).
      apply elem_of_seqZ in Hj. apply Hbelow. lia. }
    assert (forall kv, head l2 = Some kv -> key <= fst kv) as Hl2.
    { intros kv. unfold l2.
      destruct (decide (idx = GetSize n)) as [Heq|Hne].
      - rewrite seqZ_nil by lia. done.
      - rewrite seqZ_cons by lia. simpl. intros [= <-]. apply Hat. lia. }
    eexists _, l1, l2. split; [reflexivity|]. split; [done|].
    split; [|done].
    unfold items. simpl.
    change (slot (array_ n) 0 :: l1 ++ (key, value) :: l2)
      with ((slot (array_ n) 0 :: l1) ++ (key, value) :: l2).
    rewrite <- Hfirst.
    apply insert_at_items; [unfold GetSize in *; lia| |].
    + intros j Hj Hne. by rewrite !slot_store_ne by lia.
    + rewrite slot_store_eq by lia. unfold KeyAt. simpl.
      by rewrite slot_store_eq by lia.
Qed.

(** The statement applies to an internal page with the separators 10 and
    30; the separator 20 goes between them. *)
Lemma Internal_Insert_places_pair_witness :
  exists n',
    Internal_Insert (mkNode INTERNAL_PAGE 3 4 0 1 0 [(0, 5); (10, 6); (30, 7)]) 20 8 = Ok n' /\
    items n' = [(0, 5); (10, 6); (20, 8); (30, 7)].
Proof.
  destruct (Internal_Insert_places_pair
              (mkNode INTERNAL_PAGE 3 4 0 1 0 [(0, 5); (10, 6); (30, 7)]) 20 8)
    as [_ Hroom]; [simpl; lia|].
  destruct Hroom as (n' & l1 & l2 & Hins & _); [simpl; lia|].
  exists n'. split; [exact Hins|].
  vm_compute in Hins. injection Hins as <-. vm_compute. reflexivity.
Defined.

(** X17.  InternalPage::Remove on a page with at least one pair.  When
    some pair after the first has the key, the first such pair is taken
    out, the others keep their order and the result is true.  When no
    pair after the first has the key, the test after the loop reads the
    slot behind the last pair: when the key left there differs the page is
    unchanged and the result is false, and when it is equal the result is
    true and the page loses its last pair. *)
Theorem Internal_Remove_first_match (n : BPlusTreePage) (key : Z) :
  1 <= GetSize n ->
  (forall i, 1 <= i < GetSize n -> KeyAt n i = key ->
     (forall j, 1 <= j < i -> KeyAt n j <> key) ->
     exists n',
       Internal_Remove n key = (true, n') /\
       items n' = take (Z.to_nat i) (items n) ++ drop (S (Z.to_nat i)) (items n) /\
       GetSize n' = GetSize n - 1) /\
  ((forall j, 1 <= j < GetSize n -> KeyAt n j <> key) ->
   (KeyAt n (GetSize n) <> key -> Internal_Remove n key = (false, n)) /\
   (KeyAt n (GetSize n) = key ->
    exists n',
      Internal_Remove n key = (true, n') /\
      items n' = take (Z.to_nat (GetSize n - 1)) (items n) /\
      GetSize n' = GetSize n - 1)).
Proof.
  intros Hsize. unfold Internal_Remove.
  set (idx := first_equal (array_ n) key 1 (Z.to_nat (GetSize n - 1))).
  destruct (first_equal_spec (array_ n) key 1 (Z.to_nat (GetSize n - 1)))
    as (Hr & Hbefore & Hat).
  fold idx in Hr, Hbefore, Hat. split.
  - intros i Hi Hkey Hfirst.
    assert (idx = i) as Hidx.
    { destruct (Z.lt_trichotomy idx i) as [Hlt|[Heq|Hgt]]; [|done|].
      - exfalso. apply (Hfirst idx); [lia|]. apply Hat. lia.
      - exfalso. by apply (Hbefore i); [lia|]. }
    rewrite Hidx. unfold KeyAt in Hkey |- *. rewrite Hkey, Z.eqb_refl. simpl.
    eexists. split; [reflexivity|]. split; [|done].
    unfold items. simpl. unfold GetSize. simpl.
    rewrite delete_at_items by (unfold GetSize in *; lia).
    symmetry. apply take_drop_seqZ. unfold GetSize in *; lia.
  - intros Habsent.
    assert (idx = GetSize n) as Hidx.
    { destruct (decide (idx = GetSize n)) as [|Hne]; [done|].
      exfalso. apply (Habsent idx); [lia|]. apply Hat. lia. }
    rewrite Hidx. split.
    + intros Hne. by rewrite (proj2 (Z.eqb_neq _ _) Hne).
    + intros Heq. rewrite Heq, Z.eqb_refl. simpl.
      eexists. split; [reflexivity|]. split; [|done].
      rewrite items_take by lia. unfold items. simpl. unfold GetSize. simpl.
      unfold shift_left. rewrite seqZ_nil by lia. done.
Qed.

(** The statement applies to a page with the separators 10 and 20: the
    pair with key 10 is taken out; and to the same page when a pair with
    key 30 was removed before, whose slot still holds the key. *)
Lemma Internal_Remove_first_match_witness :
  (exists n',
     Internal_Remove (mkNode INTERNAL_PAGE 3 4 0 1 0 [(0, 5); (10, 6); (20, 7)]) 10 = (true, n') /\
     items n' = [(0, 5); (20, 7)]) /\
  (exists n',
     Internal_Remove (mkNode INTERNAL_PAGE 3 4 0 1 0 [(0, 5); (10, 6); (20, 7); (30, 8)]) 30
       = (true, n') /\
     items n' = [(0, 5); (10, 6)]).
Proof.
  split.
  - destruct (Internal_Remove_first_match
                (mkNode INTERNAL_PAGE 3 4 0 1 0 [(0, 5); (10, 6); (20, 7)]) 10)
      as [Hfound _]; [simpl; lia|].
    destruct (Hfound 1) as (n' & Hrem & Hitems & _);
      [simpl; lia|reflexivity|intros j Hj; lia|].
    exists n'. split; [exact Hrem|]. rewrite Hitems. vm_compute. reflexivity.
  - destruct (Internal_Remove_first_match
                (mkNode INTERNAL_PAGE 3 4 0 1 0 [(0, 5); (10, 6); (20, 7); (30, 8)]) 30)
      as [_ Habsent]; [simpl; lia|].
    destruct Habsent as [_ Hstale].
    { intros j Hj. simpl in Hj.
      assert (j = 1 \/ j = 2) as [-> | ->] by lia; vm_compute; discriminate. }
    destruct Hstale as (n' & Hrem & Hitems & _); [reflexivity|].
    exists n'. split; [exact Hrem|]. rewrite Hitems. vm_compute. reflexivity.
Defined.

(** X18.  InternalPage::TotalToRight on a page of size at least 0 moves
    every pair one slot up, leaving the first slot as it was, and
    TotalToLeft drops the first pair and moves the others one slot down:
    TotalToLeft after TotalToRight gives back the pairs and the size. *)
Theorem TotalToRight_then_TotalToLeft (n : BPlusTreePage) :
  0 <= GetSize n ->
  items (Internal_TotalToRight n) = slot (array_ n) 0 :: items n /\
  items (Internal_TotalToLeft n) = drop 1 (items n) /\
  items (Internal_TotalToLeft (Internal_TotalToRight n)) = items n /\
  GetSize (Internal_TotalToLeft (Internal_TotalToRight n)) = GetSize n.
Proof.
  intros Hsize.
  assert (forall n0, items (Internal_TotalToLeft n0) = drop 1 (items n0)) as Hleft.
  { intros n0. unfold items. simpl. unfold GetSize. simpl.
    destruct (decide (size_ n0 <= 0)) as [Hle|Hpos].
    - rewrite !seqZ_nil by lia. done.
    - rewrite delete_at_items by lia.
      rewrite (seqZ_cons 0 (size_ n0)) by lia. rewrite fmap_cons.
      change (drop 1 (?x :: ?l)) with l. simpl.
      do 2 f_equal. lia. }
  assert (items (Internal_TotalToRight n) = slot (array_ n) 0 :: items n) as Hright.
  { unfold items. simpl. unfold GetSize in *. simpl.
    change (slot (array_ n) 0 :: (slot (array_ n) <$> seqZ 0 (size_ n)))
      with ((slot (array_ n) <$> seqZ 0 0) ++
            slot (array_ n) 0 :: (slot (array_ n) <$> seqZ 0 (size_ n))).
    replace (size_ n) with (size_ n - 0) at 3 by lia.
    apply insert_at_items; [lia|done|].
    replace (size_ n) with (0 + Z.of_nat (Z.to_nat (size_ n))) by lia.
    by rewrite shift_right_slot by lia. }
  split; [done|]. split; [done|].
  split; [by rewrite Hleft, Hright|].
  unfold GetSize. simpl. lia.
Qed.

(** The statement applies to a page of three pairs. *)
Lemma TotalToRight_then_TotalToLeft_witness :
  items (Internal_TotalToRight (mkNode INTERNAL_PAGE 3 4 0 1 0 [(0, 5); (10, 6); (20, 7)]))
    = [(0, 5); (0, 5); (10, 6); (20, 7)] /\
  items (Internal_TotalToLeft (mkNode INTERNAL_PAGE 3 4 0 1 0 [(0, 5); (10, 6); (20, 7)]))
    = [(10, 6); (20, 7)].
Proof.
  destruct (TotalToRight_then_TotalToLeft
              (mkNode INTERNAL_PAGE 3 4 0 1 0 [(0, 5); (10, 6); (20, 7)]))
    as (Hright & Hleft & _); [simpl; lia|].
  rewrite Hright, Hleft. split; vm_compute; reflexivity.
Defined.

(** X19.  InternalPage::MoveAll with the target's size as start index:
    the pairs after the first are appended, in order, to the pairs of the
    target page; the first pair is not moved; the page itself ends with
    size 0 and the target's header keeps everything but the size. *)
Theorem Internal_MoveAll_appends (n new_page : BPlusTreePage) :
  1 <= GetSize n ->
  0 <= GetSize new_page ->
  exists n' new_page',
    Internal_MoveAll n new_page (GetSize new_page) = (n', new_page') /\
    items new_page' = items new_page ++ drop 1 (items n) /\
    GetSize new_page' = GetSize new_page + GetSize n - 1 /\
    GetSize n' = 0 /\
    items n' = [] /\
    (page_type_ new_page', max_size_ new_page', parent_page_id_ new_page',
     page_id_ new_page', next_page_id_ new_page') =
      (page_type_ new_page, max_size_ new_page, parent_page_id_ new_page,
       page_id_ new_page, next_page_id_ new_page).
Proof.
  intros Hsize Hnp. unfold Internal_MoveAll.
  set (m := Z.to_nat (GetSize n - 1)).
  assert (GetSize n - 1 = Z.of_nat m) as Hm by lia.
  rewrite Hm.
  edestruct (move_all_spec n (GetSize new_page) m 1 new_page) as (Hs & Hhead & Hslots);
    [reflexivity|lia|].
  eexists _, _. split; [reflexivity|].
  split; [|split; [lia|split; [done|split; [done|done]]]].
  unfold items at 1. rewrite Hs.
  rewrite (items_split _ _ (GetSize new_page)) by lia. f_equal.
  - apply fmap_seqZ_ext. intros j Hj. rewrite Hslots by lia.
    by rewrite (proj2 (Z.leb_gt _ _)) by lia.
  - replace 1%nat with (Z.to_nat 1) by done. rewrite items_drop by lia.
    replace (GetSize new_page + Z.of_nat m - GetSize new_page) with (GetSize n - 1) by lia.
    apply fmap_seqZ_reindex. intros j Hj. rewrite Hslots by lia.
    rewrite (proj2 (Z.leb_le _ _)), (proj2 (Z.ltb_lt _ _)) by lia.
    simpl. f_equal. lia.
Qed.

(** The statement applies to a merge of two internal pages. *)
Lemma Internal_MoveAll_appends_witness :
  exists n' new_page',
    Internal_MoveAll (mkNode INTERNAL_PAGE 2 4 0 2 0 [(0, 7); (40, 8)])
                     (mkNode INTERNAL_PAGE 3 4 0 1 0 [(0, 5); (10, 6); (30, 7)]) 3
      = (n', new_page') /\
    items new_page' = [(0, 5); (10, 6); (30, 7); (40, 8)].
Proof.
  destruct (Internal_MoveAll_appends
              (mkNode INTERNAL_PAGE 2 4 0 2 0 [(0, 7); (40, 8)])
              (mkNode INTERNAL_PAGE 3 4 0 1 0 [(0, 5); (10, 6); (30, 7)]))
    as (n' & new_page' & Hmove & Hitems & _); [simpl; lia|simpl; lia|].
  exists n', new_page'. split; [exact Hmove|]. rewrite Hitems. vm_compute. reflexivity.
Defined.

(** X20.  InternalPage::FindValueIndex returns -1 exactly when no pair
    of the page has the value, and otherwise the index of the first pair
    that has it. *)
Theorem FindValueIndex_first_match (n : BPlusTreePage) (value : Z) :
  (FindValueIndex n value = -1 /\
   forall i, 0 <= i < GetSize n -> ValueAt n i <> value) \/
  (0 <= FindValueIndex n value < GetSize n /\
   ValueAt n (FindValueIndex n value) = value /\
   forall i, 0 <= i < FindValueIndex n value -> ValueAt n i <> value).
Proof.
  unfold FindValueIndex.
  pose proof (find_seqZ_spec (fun i => ValueAt n i =? value) 0 (GetSize n)) as Hfind.
  destruct (find (fun i => ValueAt n i =? value) (seqZ 0 (GetSize n))) as [r|]; simpl.
  - right. destruct Hfind as (Hr & Hat & Hbefore).
    split; [lia|]. split; [lia|].
    intros i Hi. specialize (Hbefore i Hi). lia.
  - left. split; [done|]. intros i Hi. specialize (Hfind i). lia.
Qed.

End BPlusTreePageFacts.

(** ** More of the B+-tree: insertion, removal and iteration *)

Module BPlusTreeMoreFacts.
Import BPlusTreePages BPlusTree BPlusTreeItems BPlusTreeContents.
Import BPlusTreeFacts BPlusTreePageFacts.

Lemma GetLeafPage_from_leaf (ms : bool -> Z -> Z) (n : nat) (t : BPlusTree)
    (key : Z) (op : Operation) (first : bool) (p l : Z) :
  GetLeafPage_from ms n t key op first p = Ok l ->
  exists leaf, pages t !! l = Some leaf /\ IsLeafPage leaf = true.
Proof.
  revert first p. induction n as [|n IH]; intros first p; [discriminate|].
  simpl. unfold FetchPage. destruct (pages t !! p) as [node|] eqn:Hp; simpl; [|discriminate].
  destruct (negb first && bool_decide (op = SEARCH)); [discriminate|].
  destruct (IsLeafPage node) eqn:Hleaf.
  - destruct (first && negb (IsPageSafe ms node op)).
    + apply IH.
    + intros [= <-]. eauto.
  - destruct (child_for node key); simpl; try discriminate. apply IH.
Qed.

(** A search does not depend on what the leaves hold. *)
Lemma GetLeafPage_from_put_leaf (ms : bool -> Z -> Z) (n : nat) (t : BPlusTree)
    (key p q : Z) (leaf leaf' : BPlusTreePage) :
  pages t !! q = Some leaf -> IsLeafPage leaf = true -> IsLeafPage leaf' = true ->
  GetLeafPage_from ms n (put t q leaf') key SEARCH true p =
  GetLeafPage_from ms n t key SEARCH true p.
Proof.
  intros Hq Hleaf Hleaf'. revert p. induction n as [|n IH]; intros p; [done|].
  simpl. unfold FetchPage. simpl.
  destruct (decide (p = q)) as [->|Hne].
  - rewrite lookup_insert_eq, Hq. simpl. by rewrite Hleaf, Hleaf'.
  - rewrite lookup_insert_ne by done.
    destruct (pages t !! p) as [node|]; simpl; [|done].
    destruct (IsLeafPage node); [done|].
    destruct (child_for node key); simpl; done.
Qed.

Lemma find_fmap {A B : Type} (P : B -> bool) (f : A -> B) (l : list A) :
  find P (f <$> l) = f <$> find (fun x => P (f x)) l.
Proof.
  induction l as [|x l IH]; [done|]. rewrite fmap_cons. simpl.
  destruct (P (f x)); [done|]. apply IH.
Qed.

Lemma leaf_lookup_items (n : BPlusTreePage) (k : Z) :
  leaf_lookup n k = snd <$> lookup_pair k (items n).
Proof.
  unfold leaf_lookup, find_key_from, lookup_pair, items.
  rewrite Z.sub_0_r, find_fmap. unfold KeyAt, ValueAt.
  by destruct (find _ _).
Qed.

Lemma lookup_pair_app (k : Z) (l1 l2 : list (Z * Z)) :
  lookup_pair k (l1 ++ l2) =
    match lookup_pair k l1 with Some x => Some x | None => lookup_pair k l2 end.
Proof.
  unfold lookup_pair. induction l1 as [|x l1 IH]; [done|]. simpl.
  destruct (fst x =? k); [done|]. apply IH.
Qed.

Lemma lookup_pair_smaller (k : Z) (l : list (Z * Z)) :
  Forall (fun kv => fst kv < k) l -> lookup_pair k l = None.
Proof.
  unfold lookup_pair. induction 1 as [|x l Hx _ IH]; [done|]. simpl.
  by rewrite (proj2 (Z.eqb_neq _ _)) by lia.
Qed.

Lemma to_INSERT_path (ms : bool -> Z -> Z) (n fuel : nat) (t : BPlusTree)
    (key : Z) (op : Operation) (l : Z) :
  op <> SEARCH ->
  GetLeafPage ms n t key SEARCH true false = Ok l ->
  (n + n <= fuel)%nat ->
  GetLeafPage ms fuel t key op true true = Ok l.
Proof.
  unfold GetLeafPage. simpl. intros Hop Hpath Hfuel.
  apply (GetLeafPage_from_mono ms (n + n)); [|done].
  apply search_path_optimistic; [|done].
  by apply search_path_pessimistic.
Qed.

Lemma GetValue_absent (ms : bool -> Z -> Z) (n : nat) (t : BPlusTree) (key : Z) :
  GetValue ms n t key = Ok (false, []) ->
  exists l leaf,
    GetLeafPage ms n t key SEARCH true false = Ok l /\
    FetchPage t l = Ok leaf /\
    IsLeafPage leaf = true /\
    leaf_lookup leaf key = None.
Proof.
  unfold GetValue. intros Hget.
  destruct (GetLeafPage ms n t key SEARCH true false) as [l| | |] eqn:Hpath;
    simpl in Hget; try discriminate.
  destruct (FetchPage t l) as [leaf| | |] eqn:Hleaf; simpl in Hget; try discriminate.
  destruct (leaf_lookup leaf key) as [v0|] eqn:Hlook; [discriminate|].
  exists l, leaf. split; [done|]. split; [done|]. split; [|done].
  unfold GetLeafPage in Hpath. simpl in Hpath.
  destruct (GetLeafPage_from_leaf _ _ _ _ _ _ _ _ Hpath) as (leaf0 & Hl0 & Hleaf0).
  unfold FetchPage in Hleaf. rewrite Hl0 in Hleaf. simpl in Hleaf. by injection Hleaf as <-.
Qed.

(** *** The iterator along the leaves *)

Lemma collect_mono (n m : nat) (t : BPlusTree) (it end_ : IndexIterator) (r : list (Z * Z)) :
  collect n t it end_ = Ok r -> (n <= m)%nat -> collect m t it end_ = Ok r.
Proof.
  revert m it r. induction n as [|n IH]; intros m it r; [discriminate|].
  intros Hn Hle. destruct m as [|m]; [lia|].
  simpl in *. destruct (differs it end_) as [[|]| | |]; simpl in *; try discriminate; [|done].
  destruct (current t it) as [item| | |]; simpl in *; try discriminate.
  destruct (next t it) as [it'| | |]; simpl in *; try discriminate.
  destruct (collect n t it' end_) as [rest| | |] eqn:Hrest; simpl in *; try discriminate.
  rewrite (IH m it' rest Hrest) by lia. done.
Qed.

Lemma collect_S (fuel : nat) (t : BPlusTree) (it end_ : IndexIterator) :
  collect (S fuel) t it end_ =
    (more ← differs it end_;
     if (more : bool) then
       item ← current t it;
       it' ← next t it;
       rest ← collect fuel t it' end_;
       Ok (item :: rest)
     else Ok []).
Proof. reflexivity. Qed.

Lemma items_drop_cons (n : BPlusTreePage) (i : Z) :
  0 <= i < GetSize n ->
  drop (Z.to_nat i) (items n) = slot (array_ n) i :: drop (Z.to_nat (i + 1)) (items n).
Proof.
  intros Hi. replace (Z.to_nat (i + 1)) with (S (Z.to_nat i)) by lia.
  apply drop_S. by apply items_lookup.
Qed.

Lemma current_Some (t : BPlusTree) (p : Z) (n : BPlusTreePage) (i : Z) :
  pages t !! p = Some n -> 0 <= i ->
  current t (mkIterator (Some p) i) = Ok (slot (array_ n) i).
Proof.
  intros Hp Hi. unfold current, FetchPage, in_array. simpl. rewrite Hp. simpl.
  by rewrite (proj2 (Z.ltb_ge i 0)) by lia.
Qed.

Lemma next_stay (t : BPlusTree) (p : Z) (n : BPlusTreePage) (i : Z) :
  pages t !! p = Some n ->
  i < GetSize n - 1 \/ GetNextPageId n = INVALID_PAGE_ID ->
  next t (mkIterator (Some p) i) = Ok (mkIterator (Some p) (i + 1)).
Proof.
  intros Hp Hcase. unfold next, FetchPage. simpl. rewrite Hp. simpl.
  destruct Hcase as [Hlt|Hlast].
  - destruct (Z.geb_spec i (GetSize n - 1)); [lia|done].
  - rewrite (bool_decide_eq_true_2 _ Hlast). by rewrite andb_false_r.
Qed.

Lemma next_jump (t : BPlusTree) (p : Z) (n : BPlusTreePage) (i : Z) :
  pages t !! p = Some n ->
  GetSize n - 1 <= i ->
  GetNextPageId n <> INVALID_PAGE_ID ->
  is_Some (pages t !! GetNextPageId n) ->
  next t (mkIterator (Some p) i) = Ok (mkIterator (Some (GetNextPageId n)) 0).
Proof.
  intros Hp Hi Hnext [n' Hn']. unfold next, FetchPage. simpl. rewrite Hp. simpl.
  destruct (Z.geb_spec i (GetSize n - 1)); [|lia].
  rewrite (bool_decide_eq_false_2 _ Hnext). simpl. by rewrite Hn'.
Qed.

Lemma collect_leaf_last (t : BPlusTree) (p : Z) (n : BPlusTreePage) (k : nat) :
  forall i fuel,
    pages t !! p = Some n ->
    GetNextPageId n = INVALID_PAGE_ID ->
    0 <= i -> GetSize n = i + Z.of_nat k ->
    collect (S k + fuel) t (mkIterator (Some p) i) (mkIterator (Some p) (GetSize n))
      = Ok (drop (Z.to_nat i) (items n)).
Proof.
  induction k as [|k IH]; intros i fuel Hp Hlast Hi Hsize.
  - change (1 + fuel)%nat with (S fuel). rewrite collect_S. unfold differs. simpl.
    rewrite bool_decide_eq_true_2 by done.
    rewrite (proj2 (Z.eqb_eq i (GetSize n))) by lia. simpl.
    rewrite drop_ge; [done|]. rewrite items_length. lia.
  - change (S (S k) + fuel)%nat with (S (S k + fuel)). rewrite collect_S.
    set (rec := collect (S k + fuel)). unfold differs. simpl.
    rewrite bool_decide_eq_true_2 by done.
    rewrite (proj2 (Z.eqb_neq i (GetSize n))) by lia. simpl.
    rewrite (current_Some t p n i Hp Hi). simpl.
    rewrite (next_stay t p n i Hp) by (by right). simpl. unfold rec.
    rewrite (IH (i + 1) fuel Hp Hlast) by lia. simpl.
    by rewrite <- items_drop_cons by lia.
Qed.

Lemma collect_leaf_next (t : BPlusTree) (p q sz : Z) (n : BPlusTreePage)
    (rest : list (Z * Z)) (fuel k : nat) :
  forall i,
    pages t !! p = Some n ->
    GetNextPageId n <> INVALID_PAGE_ID ->
    is_Some (pages t !! GetNextPageId n) ->
    p <> q ->
    0 <= i -> GetSize n = i + 1 + Z.of_nat k ->
    collect fuel t (mkIterator (Some (GetNextPageId n)) 0) (mkIterator (Some q) sz) = Ok rest ->
    collect (S k + fuel) t (mkIterator (Some p) i) (mkIterator (Some q) sz)
      = Ok (drop (Z.to_nat i) (items n) ++ rest).
Proof.
  induction k as [|k IH]; intros i Hp Hnext Hsucc Hpq Hi Hsize Hrest.
  - change (1 + fuel)%nat with (S fuel). rewrite collect_S. unfold differs. simpl.
    rewrite bool_decide_eq_false_2 by done. simpl.
    rewrite (current_Some t p n i Hp Hi). simpl.
    rewrite (next_jump t p n i Hp) by (done || lia). simpl.
    rewrite Hrest. simpl.
    rewrite items_drop_cons by lia.
    rewrite (drop_ge (items n)) by (rewrite items_length; lia). done.
  - change (S (S k) + fuel)%nat with (S (S k + fuel)). rewrite collect_S.
    set (rec := collect (S k + fuel)). unfold differs. simpl.
    rewrite bool_decide_eq_false_2 by done. simpl.
    rewrite (current_Some t p n i Hp Hi). simpl.
    rewrite (next_stay t p n i Hp) by (left; lia). simpl. unfold rec.
    rewrite (IH (i + 1) Hp Hnext Hsucc Hpq) by (done || lia). simpl.
    by rewrite (items_drop_cons n i) by lia.
Qed.

Lemma leaves_from_last (k : nat) (t : BPlusTree) :
  forall p chain q nq,
    leaves_from k t p = Some chain ->
    last chain = Some (q, nq) ->
    pages t !! q = Some nq /\ GetNextPageId nq = INVALID_PAGE_ID.
Proof.
  induction k as [|k IH]; intros p chain q nq; [discriminate|].
  simpl. destruct (pages t !! p) as [n|] eqn:Hp; simpl; [|discriminate].
  case_bool_decide as Hnext.
  - intros [= <-]. simpl. by intros [= <- <-].
  - destruct (leaves_from k t (GetNextPageId n)) as [rest|] eqn:Hrest; simpl; [|discriminate].
    intros [= <-] Hlast.
    destruct rest as [|x rest].
    { destruct k; simpl in Hrest; [discriminate|].
      destruct (pages t !! GetNextPageId n); simpl in Hrest; [|discriminate].
      case_bool_decide; [discriminate|].
      destruct (leaves_from k t _); simpl in Hrest; discriminate. }
    apply (IH _ _ _ _ Hrest). by rewrite last_cons_cons in Hlast.
Qed.

Lemma collect_chain (t : BPlusTree) (k : nat) :
  forall p chain q nq fuel,
    leaves_from k t p = Some chain ->
    last chain = Some (q, nq) ->
    Forall (fun pn => 1 <= GetSize (snd pn)) chain ->
    (length (concat (items <$> chain.*2)) < fuel)%nat ->
    collect fuel t (mkIterator (Some p) 0) (mkIterator (Some q) (GetSize nq))
      = Ok (concat (items <$> chain.*2)).
Proof.
  induction k as [|k IH]; intros p chain q nq fuel; [discriminate|].
  simpl. destruct (pages t !! p) as [n|] eqn:Hp; simpl; [|discriminate].
  case_bool_decide as Hnext.
  - intros [= <-]. simpl. intros [= <- <-] Hsizes Hfuel.
    rewrite app_nil_r in Hfuel |- *. rewrite items_length in Hfuel.
    apply Forall_cons in Hsizes as [Hsize _]. simpl in Hsize.
    apply (collect_mono (S (Z.to_nat (GetSize n)) + 0)); [|lia].
    by rewrite (collect_leaf_last t p n (Z.to_nat (GetSize n)) 0 0 Hp Hnext) by lia.
  - destruct (leaves_from k t (GetNextPageId n)) as [rest|] eqn:Hrest; simpl; [|discriminate].
    intros [= <-] Hlast Hsizes Hfuel.
    destruct rest as [|x rest].
    { destruct k; simpl in Hrest; [discriminate|].
      destruct (pages t !! GetNextPageId n); simpl in Hrest; [|discriminate].
      case_bool_decide; [discriminate|].
      destruct (leaves_from k t _); simpl in Hrest; discriminate. }
    rewrite last_cons_cons in Hlast.
    apply Forall_cons in Hsizes as [Hsize Hsizes]. simpl in Hsize.
    rewrite !fmap_cons in Hfuel |- *. simpl in Hfuel |- *.
    rewrite length_app, items_length in Hfuel.
    destruct (leaves_from_last _ _ _ _ _ _ Hrest Hlast) as [Hq Hqlast].
    assert (p <> q) as Hpq by (intros ->; rewrite Hp in Hq; congruence).
    assert (is_Some (pages t !! GetNextPageId n)) as Hsucc.
    { destruct k; simpl in Hrest; [discriminate|].
      destruct (pages t !! GetNextPageId n); [eauto|discriminate]. }
    set (total := length (items x.2 ++ concat (items <$> rest.*2))) in *.
    apply (collect_mono (S (Z.to_nat (GetSize n - 1)) + S total)); [|lia].
    rewrite (collect_leaf_next t p q (GetSize nq) n
               (concat (items <$> (x :: rest).*2)) (S total) (Z.to_nat (GetSize n - 1)) 0
               Hp Hnext Hsucc Hpq); [done|lia|lia|].
    apply (IH _ _ _ _ _ Hrest Hlast Hsizes).
    rewrite !fmap_cons. simpl. unfold total. lia.
Qed.

Lemma descend_edge_fetch (fuel : nat) (t : BPlusTree) (rightmost : bool) (p q : Z)
    (n : BPlusTreePage) :
  descend_edge fuel t rightmost p = Ok (q, n) ->
  pages t !! q = Some n /\ IsLeafPage n = true.
Proof.
  revert p. induction fuel as [|fuel IH]; intros p; [discriminate|].
  simpl. unfold FetchPage. destruct (pages t !! p) as [node|] eqn:Hp; simpl; [|discriminate].
  destruct (IsLeafPage node) eqn:Hleaf.
  - by intros [= <- <-].
  - destruct rightmost.
    + destruct (in_array (GetSize node - 1)); simpl; try discriminate. apply IH.
    + apply IH.
Qed.

(** A tree whose root is a leaf without successor. *)
Lemma root_leaf_tree (ms : bool -> Z -> Z) (t : BPlusTree) (leaf : BPlusTreePage) :
  root_page_id_ t <> INVALID_PAGE_ID ->
  FetchPage t (root_page_id_ t) = Ok leaf ->
  IsLeafPage leaf = true ->
  GetNextPageId leaf = INVALID_PAGE_ID ->
  0 <= GetSize leaf ->
  (forall n k,
     GetValue ms (S n) t k =
       match lookup_pair k (items leaf) with
       | Some kv => Ok (true, [snd kv])
       | None => Ok (false, [])
       end) /\
  (forall n, (Z.to_nat (GetSize leaf) < S n)%nat -> iterate (S n) t = Ok (items leaf)).
Proof.
  intros Hroot Hfetch Hleaf Hlast Hsize. split.
  - intros n k. unfold GetValue, GetLeafPage.
    rewrite (bool_decide_eq_true_2 (SEARCH = SEARCH)) by done.
    cbn [negb andb GetLeafPage_from].
    rewrite Hfetch, !bind_Ok, Hleaf. cbn [negb andb IsPageSafe].
    rewrite bind_Ok, Hfetch, bind_Ok, leaf_lookup_items.
    by destruct (lookup_pair k (items leaf)).
  - intros n Hn. unfold iterate, Begin, End, IsEmpty.
    rewrite !bool_decide_eq_false_2 by done.
    cbn [descend_edge]. rewrite Hfetch, !bind_Ok, Hleaf. rewrite !bind_Ok.
    assert (pages t !! root_page_id_ t = Some leaf) as Hp.
    { unfold FetchPage in Hfetch. by destruct (pages t !! root_page_id_ t); [injection Hfetch as ->|]. }
    apply (collect_mono (S (Z.to_nat (GetSize leaf)) + 0)); [|lia].
    by rewrite (collect_leaf_last t _ leaf (Z.to_nat (GetSize leaf)) 0 0 Hp Hlast) by lia.
Qed.



(** X22.  Insert of a key that a search does not find, into a leaf with
    room for two more pairs, given fuel for two descents: it returns true
    and changes only that leaf, no page is allocated and the root stays.
    Afterwards GetValue finds the new value under the key, and returns for
    every other key what it returned before. *)
Theorem Insert_without_split_then_GetValue (ms : bool -> Z -> Z) (n fuel : nat)
    (t : BPlusTree) (key value l : Z) (leaf : BPlusTreePage) :
  IsEmpty t = false ->
  GetLeafPage ms n t key SEARCH true false = Ok l ->
  FetchPage t l = Ok leaf ->
  leaf_lookup leaf key = None ->
  0 <= GetSize leaf ->
  GetSize leaf + 1 < GetMaxSize leaf ->
  (n + n <= fuel)%nat ->
  exists t',
    Insert ms fuel t key value true = Ok (true, t') /\
    GetValue ms n t' key = Ok (true, [value]) /\
    (forall m k, k <> key -> GetValue ms m t' k = GetValue ms m t k) /\
    (forall p, p <> l -> pages t' !! p = pages t !! p) /\
    root_page_id_ t' = root_page_id_ t /\
    next_page_id t' = next_page_id t.
Proof.
  intros Hne Hpath Hfetch Habsent Hsize Hroom Hfuel.
  assert (pages t !! l = Some leaf /\ IsLeafPage leaf = true) as [Hl Hleaf].
  { unfold GetLeafPage in Hpath. simpl in Hpath.
    destruct (GetLeafPage_from_leaf _ _ _ _ _ _ _ _ Hpath) as (leaf0 & Hl0 & Hleaf0).
    unfold FetchPage in Hfetch. rewrite Hl0 in Hfetch. simpl in Hfetch.
    by injection Hfetch as <-. }
  destruct (Leaf_Insert_spec leaf key value Hsize) as [_ Hins].
  destruct Hins as (leaf' & l1 & l2 & Hins & Hitems & Hitems' & Hl1 & _ & Hsize' & Hhead);
    [lia|].
  assert (IsLeafPage leaf' = true) as Hleaf'.
  { unfold IsLeafPage in *. by injection Hhead as -> _ _ _ _. }
  assert (forall m k,
            GetLeafPage ms m (put t l leaf') k SEARCH true false =
            GetLeafPage ms m t k SEARCH true false) as Hsame.
  { intros m k. unfold GetLeafPage. simpl.
    by apply (GetLeafPage_from_put_leaf ms m t k _ l leaf leaf'). }
  exists (put t l leaf'). split.
  - unfold Insert. rewrite Hne.
    rewrite (to_INSERT_path ms n fuel t key INSERT l) by done.
    rewrite bind_Ok, Hfetch, bind_Ok, Habsent, Hins, bind_Ok.
    assert (max_size_ leaf' = max_size_ leaf) as Hmax by (by injection Hhead as _ -> _ _ _).
    unfold GetMaxSize in *. rewrite Hmax.
    by rewrite (proj2 (Z.ltb_lt _ _)) by lia.
  - split; [|split; [|split; [|split; reflexivity]]].
    + unfold GetValue. rewrite Hsame, Hpath, bind_Ok.
      unfold FetchPage. simpl. rewrite lookup_insert_eq. simpl.
      rewrite leaf_lookup_items, Hitems', lookup_pair_app.
      rewrite (lookup_pair_smaller _ _ Hl1). unfold lookup_pair. simpl.
      by rewrite Z.eqb_refl.
    + intros m k Hk. unfold GetValue. rewrite Hsame.
      destruct (GetLeafPage ms m t k SEARCH true false) as [l0| | |]; simpl; try done.
      unfold FetchPage. simpl.
      destruct (decide (l0 = l)) as [->|Hl0].
      * rewrite lookup_insert_eq, Hl. simpl.
        rewrite !leaf_lookup_items, Hitems, Hitems', !lookup_pair_app.
        destruct (lookup_pair k l1); [done|].
        unfold lookup_pair at 1. simpl.
        by rewrite (proj2 (Z.eqb_neq key k)) by done.
      * by rewrite lookup_insert_ne by done.
    + intros p Hp. simpl. by rewrite lookup_insert_ne by done.
Qed.

(** The statement applies to the root leaf of maximum size 5 that the
    insertion of 7 has left with size 2, and the key 5. *)
Lemma Insert_without_split_then_GetValue_witness :
  exists t',
    Insert min_size_spec 2 single_key_tree 5 105 true = Ok (true, t') /\
    GetValue min_size_spec 1 t' 5 = Ok (true, [105]) /\
    GetValue min_size_spec 1 t' 7 = GetValue min_size_spec 1 single_key_tree 7.
Proof.
  destruct (Insert_without_split_then_GetValue min_size_spec 1 2 single_key_tree 5 105 1
              (mkNode LEAF_PAGE 2 5 INVALID_PAGE_ID 1 INVALID_PAGE_ID [(7, 107)]))
    as (t' & Hins & Hget & Hother & _);
    [reflexivity|reflexivity|reflexivity|reflexivity|simpl; lia|simpl; lia|lia|].
  exists t'. split; [exact Hins|]. split; [exact Hget|]. by apply Hother.
Defined.

(** X23.  Remove of a key that GetValue does not find, given fuel for two
    descents, returns with the tree unchanged: no page is written and none
    is deleted. *)
Theorem Remove_absent_key (ms : bool -> Z -> Z) (n fuel : nat) (t : BPlusTree) (key : Z) :
  GetValue ms n t key = Ok (false, []) ->
  (n + n <= fuel)%nat ->
  Remove ms fuel t key true = Ok t.
Proof.
  intros Hget Hfuel. unfold Remove.
  destruct (IsEmpty t); [done|].
  destruct (GetValue_absent ms n t key Hget) as (l & leaf & Hpath & Hfetch & Hleaf & Habsent).
  rewrite (to_INSERT_path ms n fuel t key DELETE l) by done.
  rewrite bind_Ok.
  destruct fuel as [|fuel].
  { destruct n; [discriminate|lia]. }
  cbn [DeleteEntry]. rewrite Hfetch, bind_Ok, Hleaf.
  unfold Leaf_Remove. unfold leaf_lookup in Habsent.
  destruct (find_key_from leaf key 0); [discriminate|]. done.
Qed.

(** The statement applies to the key 6 and the tree that holds the keys 1
    to 5. *)
Lemma Remove_absent_key_witness :
  GetValue min_size_spec 2 tree_1_to_5 6 = Ok (false, []) /\
  Remove min_size_spec 4 tree_1_to_5 6 true = Ok tree_1_to_5.
Proof.
  split; [reflexivity|].
  apply (Remove_absent_key min_size_spec 2 4 tree_1_to_5 6); [reflexivity|lia].
Defined.

(** X24.  On an empty tree Begin and End both return the iterator with
    the null page; operator== on them is true, while operator!=, IsEnd,
    operator* and operator++ dereference the null page, so that the loop
    [for (it = Begin(); it != End(); ++it)] is undefined. *)
Theorem empty_tree_iterators (fuel : nat) (t : BPlusTree) :
  IsEmpty t = true ->
  Begin fuel t = Ok (mkIterator None 0) /\
  End fuel t = Ok (mkIterator None 0) /\
  equals (mkIterator None 0) (mkIterator None 0) = Ok true /\
  differs (mkIterator None 0) (mkIterator None 0) = Undefined /\
  IsEnd t (mkIterator None 0) = Undefined /\
  current t (mkIterator None 0) = Undefined /\
  next t (mkIterator None 0) = Undefined /\
  iterate (S fuel) t = Undefined.
Proof.
  intros Hempty.
  assert (forall f, End f t = Ok (mkIterator None 0)) as Hend.
  { intros f. unfold End. unfold IsEmpty in Hempty. by rewrite Hempty. }
  assert (forall f, Begin f t = Ok (mkIterator None 0)) as Hbegin.
  { intros f. unfold Begin. by rewrite Hempty. }
  split; [done|]. split; [done|]. split; [done|]. split; [done|].
  split; [done|]. split; [done|]. split; [done|].
  unfold iterate. by rewrite Hbegin, Hend.
Qed.

(** The statement applies to the tree before the first insertion. *)
Lemma empty_tree_iterators_witness :
  Begin 1 tree_3_4 = End 1 tree_3_4 /\ iterate 1 tree_3_4 = Undefined.
Proof.
  destruct (empty_tree_iterators 0 tree_3_4) as (_ & _ & _ & _ & _ & _ & _ & Hit);
    [reflexivity|].
  split; [reflexivity|exact Hit].
Defined.

(** X25.  The iteration from Begin to End follows the next-page links:
    when Begin returns the first slot of leaf [p], the leaves linked from
    [p] end in the leaf that End returns and none of them is empty, the
    loop yields the pairs of these leaves, leaf after leaf and in slot
    order, given more fuel than there are pairs; IsEnd is true of the
    iterator that End returns. *)
Theorem iterate_follows_leaf_chain (fuel k : nat) (t : BPlusTree) (p q sz : Z)
    (chain : list (Z * BPlusTreePage)) :
  Begin fuel t = Ok (mkIterator (Some p) 0) ->
  End fuel t = Ok (mkIterator (Some q) sz) ->
  leaves_from k t p = Some chain ->
  last chain.*1 = Some q ->
  Forall (fun pn => 1 <= GetSize (snd pn)) chain ->
  (length (concat (items <$> chain.*2)) < fuel)%nat ->
  iterate fuel t = Ok (concat (items <$> chain.*2)) /\
  IsEnd t (mkIterator (Some q) sz) = Ok true.
Proof.
  intros Hbegin Hend Hchain Hlast Hsizes Hfuel.
  rewrite fmap_last in Hlast.
  destruct (last chain) as [[q' nq]|] eqn:Hlast'; [|discriminate].
  simpl in Hlast. injection Hlast as ->.
  destruct (leaves_from_last _ _ _ _ _ _ Hchain Hlast') as [Hq Hqlast].
  assert (sz = GetSize nq) as ->.
  { unfold End in Hend. case_bool_decide; [discriminate|].
    destruct (descend_edge fuel t true (root_page_id_ t)) as [[q0 n0]| | |] eqn:Hdesc;
      simpl in Hend; try discriminate.
    injection Hend as -> <-.
    apply descend_edge_fetch in Hdesc as [Hq0 _]. rewrite Hq in Hq0. by injection Hq0 as ->. }
  split.
  - unfold iterate. rewrite Hbegin, Hend, !bind_Ok.
    by apply (collect_chain t k).
  - unfold IsEnd, FetchPage. simpl. rewrite Hq. simpl.
    by rewrite bool_decide_eq_true_2, Z.eqb_refl by done.
Qed.

(** The statement applies to the three leaves of the tree that the
    insertion of 5, 4, 3, 2, 1 has built. *)
Lemma iterate_follows_leaf_chain_witness :
  iterate 10 tree_1_to_5 =
    Ok [(1, 101); (2, 102); (3, 103); (4, 104); (5, 105); (0, 0)].
Proof.
  destruct (iterate_follows_leaf_chain 10 5 tree_1_to_5 1
              (default 0 (last tree_1_to_5_leaves.*1))
              (default 0 (GetSize <$> last tree_1_to_5_leaves.*2))
              tree_1_to_5_leaves) as [Hit _];
    [reflexivity|reflexivity|reflexivity|reflexivity| |vm_compute; lia|exact Hit].
  repeat constructor; vm_compute; discriminate.
Defined.

(** X26.  Begin(key) agrees with GetValue: when GetValue finds a value
    under the key, Begin(key) returns an iterator whose pair is the key
    with that value; when GetValue finds nothing, Begin(key) throws the
    logic_error. *)
Theorem Begin_key_agrees_with_GetValue (ms : bool -> Z -> Z) (fuel : nat) (t : BPlusTree)
    (key : Z) (transaction : bool) :
  (forall v, GetValue ms fuel t key = Ok (true, [v]) ->
     exists it,
       Begin_key ms fuel t key transaction = Ok it /\
       current t it = Ok (key, v)) /\
  (GetValue ms fuel t key = Ok (false, []) ->
   Begin_key ms fuel t key transaction =
     Throw (logic_error "can not find such Key in leaf page.")).
Proof.
  assert (GetLeafPage ms fuel t key SEARCH true transaction =
          GetLeafPage ms fuel t key SEARCH true false) as Htr.
  { unfold GetLeafPage. by destruct transaction. }
  unfold Begin_key, GetValue. rewrite Htr.
  destruct (GetLeafPage ms fuel t key SEARCH true false) as [l| | |]; simpl;
    try (split; [intros v|]; discriminate).
  destruct (FetchPage t l) as [leaf| | |] eqn:Hfetch; simpl;
    try (split; [intros v|]; discriminate).
  unfold leaf_lookup.
  pose proof (find_seqZ_spec (fun i => KeyAt leaf i =? key) 0 (GetSize leaf - 0)) as Hfind.
  unfold find_key_from.
  destruct (find (fun i => KeyAt leaf i =? key) (seqZ 0 (GetSize leaf - 0))) as [idx|]; simpl.
  - split; [|discriminate]. intros v [= <-].
    destruct Hfind as (Hidx & Hkey & _).
    eexists. split; [reflexivity|].
    unfold current, in_array. simpl. rewrite Hfetch. simpl.
    rewrite (proj2 (Z.ltb_ge idx 0)) by lia. simpl.
    unfold GetItem. rewrite <- slot_eta. do 2 f_equal. lia.
  - split; [intros v; discriminate|done].
Qed.

(** The statement applies to the keys 3 and 6 and the tree that holds the
    keys 1 to 5. *)
Lemma Begin_key_agrees_with_GetValue_witness :
  (exists it,
     Begin_key min_size_spec 2 tree_1_to_5 3 false = Ok it /\
     current tree_1_to_5 it = Ok (3, 103)) /\
  Begin_key min_size_spec 2 tree_1_to_5 6 false =
    Throw (logic_error "can not find such Key in leaf page.").
Proof.
  split.
  - destruct (Begin_key_agrees_with_GetValue min_size_spec 2 tree_1_to_5 3 false) as [Hfound _].
    apply Hfound. reflexivity.
  - destruct (Begin_key_agrees_with_GetValue min_size_spec 2 tree_1_to_5 6 false) as [_ Habsent].
    apply Habsent. reflexivity.
Defined.

(** X27.  On a tree that is not empty, Insert and Remove without a
    transaction throw the logic_error of GetLeafPage before any page is
    read, whatever the key. *)
Theorem updates_need_a_transaction (ms : bool -> Z -> Z) (fuel : nat) (t : BPlusTree)
    (key value : Z) :
  IsEmpty t = false ->
  Insert ms fuel t key value false =
    Throw (logic_error "Only make transaction is Null when operation is Search!") /\
  Remove ms fuel t key false =
    Throw (logic_error "Only make transaction is Null when operation is Search!").
Proof.
  intros Hne. unfold Insert, Remove. rewrite Hne. done.
Qed.

(** The statement applies to the tree that holds the keys 1 to 5. *)
Lemma updates_need_a_transaction_witness :
  Insert min_size_spec 10 tree_1_to_5 6 106 false =
    Throw (logic_error "Only make transaction is Null when operation is Search!") /\
  Remove min_size_spec 10 tree_1_to_5 6 false =
    Throw (logic_error "Only make transaction is Null when operation is Search!").
Proof.
  apply (updates_need_a_transaction min_size_spec 10 tree_1_to_5 6 106). reflexivity.
Defined.

End BPlusTreeMoreFacts.
